(** * A shallow embedding of the sax-es6 streaming XML parser

    The development follows [SAXParser.ts] and the small helper modules next
    to it ([utils/String], [data/Constants], [models/State], [models/IBuffer]).

    Modelling conventions.
    - A JavaScript string is a list of UTF-16 code units ([jsstr]); a
      one-character string such as the loop variable [c] is a [jschar].
    - JavaScript numbers that count characters are integers ([Z]); they agree
      with the doubles of the source below 2^53.  The number of a character
      reference is a double: an integer rounded to 53 significant bits, or
      an infinity ([JsNumber]).
    - A JavaScript object used as a dictionary is the list of its own
      properties in the order of [Object.keys]: array indices first, in
      ascending order, then the other names as they were added.  Writing
      the name [__proto__] adds no property, and a name that the object does
      not have is read from [Object.prototype] ([objectPrototypeKeys]).
    - An emitted event is appended to the [events] log of the parser, with a
      snapshot of its payload at emission time.
    - What the source imports from files that are not part of the sources
      ([data/Regex], [data/Entities]) and the locale-free case conversions of
      the host are collected in the record [Host]. *)

From Stdlib Require Import String Ascii NArith ZArith List Bool Lia Zpow_facts.
Import ListNotations.
Local Open Scope Z_scope.

(** ** Strings of code units *)

Definition jschar := N.
Definition jsstr := list jschar.

Definition ch (a : ascii) : jschar := N_of_ascii a.
Definition u (s : string) : jsstr := map N_of_ascii (list_ascii_of_string s).

Definition eqc (c : jschar) (a : ascii) : bool := N.eqb c (ch a).

Fixpoint eqs (a b : jsstr) : bool :=
  match a, b with
  | [], [] => true
  | x :: a', y :: b' => N.eqb x y && eqs a' b'
  | _, _ => false
  end.

(** [c === 'x'] when the left side is a string that may be empty. *)
Definition is1 (c : jsstr) (a : ascii) : bool := eqs c [ch a].

Definition QUOT : jschar := 34%N.
Definition NL : jschar := 10%N.

(** ** utils/String *)

Definition isWhitespace (c : jschar) : bool :=
  eqc c " " || N.eqb c 10 || N.eqb c 13 || N.eqb c 9.

Definition isQuote (c : jschar) : bool :=
  N.eqb c QUOT || eqc c "'".

Definition isAttribEnd (c : jschar) : bool :=
  eqc c ">" || isWhitespace c.

(** [name.split(':')], as the list of the pieces between colons. *)
Fixpoint split_colon (s : jsstr) : list jsstr :=
  match s with
  | [] => [[]]
  | c :: s' =>
      if eqc c ":" then [] :: split_colon s'
      else match split_colon s' with
           | [] => [[c]]
           | w :: ws => (c :: w) :: ws
           end
  end.

Definition indexOf_colon (s : jsstr) : bool := existsb (fun c => eqc c ":") s.

Record QName := { prefix : jsstr; local : jsstr }.

(** Both branches of [qualName] have at least two elements, so
    [qualName[0]] and [qualName[1]] are defined. *)
Definition qname (name : jsstr) (attribute : bool) : QName :=
  let qualName := if indexOf_colon name then split_colon name else [[]; name] in
  let prefix0 := nth 0 qualName [] in
  let local0 := nth 1 qualName [] in
  if attribute && eqs name (u "xmlns")
  then {| prefix := u "xmlns"; local := [] |}
  else {| prefix := prefix0; local := local0 |}.

(** ** data/Constants *)

Definition CDATA : jsstr := u "[CDATA[".
Definition DOCTYPE : jsstr := u "DOCTYPE".
Definition XML_NAMESPACE : jsstr := u "http://www.w3.org/XML/1998/namespace".
Definition XMLNS_NAMESPACE : jsstr := u "http://www.w3.org/2000/xmlns/".
Definition MAX_BUFFER_LENGTH : Z := 64 * 1024.

(** ** Objects used as dictionaries *)

(** The names that every object inherits from [Object.prototype]. *)
Definition objectPrototypeKeys : list jsstr :=
  [ u "constructor"; u "__defineGetter__"; u "__defineSetter__";
    u "hasOwnProperty"; u "__lookupGetter__"; u "__lookupSetter__";
    u "isPrototypeOf"; u "propertyIsEnumerable"; u "toString"; u "valueOf";
    u "__proto__"; u "toLocaleString" ].

Definition inherited (k : jsstr) : bool := existsb (eqs k) objectPrototypeKeys.

Definition isDigit (c : jschar) : bool := ((48 <=? c) && (c <=? 57))%N.

Fixpoint decimalValue (acc : N) (s : jsstr) : option N :=
  match s with
  | [] => Some acc
  | c :: s' => if isDigit c then decimalValue (acc * 10 + (c - 48))%N s' else None
  end.

(** An array index: the canonical decimal string of an integer from 0 to
    2^32 - 2.  [Object.keys] lists such names first, in ascending order. *)
Definition arrayIndex (k : jsstr) : option N :=
  match k with
  | [] => None
  | c :: rest =>
      if eqc c "0" then match rest with [] => Some 0%N | _ :: _ => None end
      else match decimalValue 0 k with
           | Some n => if (n <=? 4294967294)%N then Some n else None
           | None => None
           end
  end.

Section Dict.
Context {V : Type}.

(** The own property [k] of [d]. *)
Fixpoint lookup (k : jsstr) (d : list (jsstr * V)) : option V :=
  match d with
  | [] => None
  | (k', v) :: d' => if eqs k' k then Some v else lookup k d'
  end.

(** [Object.prototype.hasOwnProperty], applied to [d]. *)
Definition ownKey (k : jsstr) (d : list (jsstr * V)) : bool :=
  match lookup k d with Some _ => true | None => false end.

(** [d.hasOwnProperty(k)]: the method is looked up on [d] itself, so an own
    property of the name [hasOwnProperty] is called in its place; it is
    never a function, and the call throws a [TypeError] ([None]). *)
Definition hasOwnProperty (k : jsstr) (d : list (jsstr * V)) : option bool :=
  if ownKey (u "hasOwnProperty") d then None else Some (ownKey k d).

(** A new value for a name that [d] has: the name keeps its place. *)
Fixpoint replaceValue (k : jsstr) (v : V) (d : list (jsstr * V)) : list (jsstr * V) :=
  match d with
  | [] => []
  | (k', v') :: d' =>
      if eqs k' k then (k', v) :: d' else (k', v') :: replaceValue k v d'
  end.

(** A new array index [n] goes before the first name that is a larger
    index or no index. *)
Fixpoint insertIndex (n : N) (k : jsstr) (v : V) (d : list (jsstr * V))
  : list (jsstr * V) :=
  match d with
  | [] => [(k, v)]
  | (k', v') :: d' =>
      match arrayIndex k' with
      | Some m => if (m <? n)%N then (k', v') :: insertIndex n k v d'
                  else (k, v) :: d
      | None => (k, v) :: d
      end
  end.

(** [d[k] = v].  The name [__proto__] is the accessor of
    [Object.prototype]: the assignment sets the prototype when [v] is an
    object and does nothing when it is a string, and adds no property in
    either case. *)
Definition assign (k : jsstr) (v : V) (d : list (jsstr * V)) : list (jsstr * V) :=
  if eqs k (u "__proto__") then d
  else if ownKey k d then replaceValue k v d
  else match arrayIndex k with
       | Some n => insertIndex n k v d
       | None => d ++ [(k, v)]
       end.
End Dict.

(** A value read from an object: a string, or what the object inherits
    from [Object.prototype] under the name (a function; for [__proto__] the
    prototype of the object). *)
Inductive JsVal : Type :=
| VStr (s : jsstr)
| VInherited (name : jsstr).

(** ** Namespace objects

    A namespace map is an object with a prototype chain ([Object.create]) and
    an identity ([===]).  The identity is a number given at allocation. *)

Inductive NsObj : Type :=
| NsLiteral (id : nat) (own : list (jsstr * jsstr))
| NsCreate (id : nat) (own : list (jsstr * jsstr)) (proto : NsObj).

Definition ns_id (o : NsObj) : nat :=
  match o with NsLiteral i _ | NsCreate i _ _ => i end.
Definition ns_own (o : NsObj) : list (jsstr * jsstr) :=
  match o with NsLiteral _ d | NsCreate _ d _ => d end.

Definition rootNS : NsObj :=
  NsLiteral 0 [(u "xml", XML_NAMESPACE); (u "xmlns", XMLNS_NAMESPACE)].

(** The literal [{}] of [_getParentNamespace]; it is only produced when the
    [xmlns] option is off, where no caller stores or compares it. *)
Definition emptyObject : NsObj := NsLiteral 1 [].

Definition first_ns_id : nat := 2.

(** The binding of [k] in [o] or in the nearest object of its prototype
    chain that has one. *)
Fixpoint ns_get (o : NsObj) (k : jsstr) : option jsstr :=
  match o with
  | NsLiteral _ own => lookup k own
  | NsCreate _ own proto =>
      match lookup k own with
      | Some v => Some v
      | None => ns_get proto k
      end
  end.

(** [o[k] || '']: past the namespace objects the chain ends in
    [Object.prototype]. *)
Definition ns_get_or_empty (o : NsObj) (k : jsstr) : JsVal :=
  match ns_get o k with
  | Some v => VStr v
  | None => if inherited k then VInherited k else VStr []
  end.

(** [o[k]] for a key that is known to be there. *)
Definition ns_get_or_undefined (o : NsObj) (k : jsstr) : jsstr :=
  match ns_get o k with Some v => v | None => [] end.

(** [Object.create(o)] with the next free identity [i]. *)
Definition ns_create (i : nat) (o : NsObj) : NsObj := NsCreate i [] o.

(** [o[k] = v] sets an own property, except for the name [__proto__]. *)
Definition ns_set (k v : jsstr) (o : NsObj) : NsObj :=
  match o with
  | NsLiteral i d => NsLiteral i (assign k v d)
  | NsCreate i d q => NsCreate i (assign k v d) q
  end.

Definition ns_same (a b : NsObj) : bool := Nat.eqb (ns_id a) (ns_id b).

(** ** models: options, states, buffers, tags, events *)

Record IOptions := {
  trim : bool;
  normalize : bool;
  lowercase : bool;
  xmlns : bool;
  trackPosition : bool;
  strictEntities : bool;
  noscript : bool
}.

Definition defaultOptions : IOptions :=
  {| trim := false; normalize := false; lowercase := false; xmlns := false;
     trackPosition := false; strictEntities := false; noscript := false |}.

Inductive State : Type :=
| Begin | BeginWhitespace | Text | TextEntity | OpenWaka
| SgmlDecl | SgmlDeclQuoted | DocType | DocTypeQuoted | DocTypeDTD
| DocTypeDTDQuoted | CommentStarting | Comment | CommentEnding | CommentEnded
| CData | CDataEnding | CDataEnding2 | ProcInst | ProcInstBody | ProcInstEnding
| OpenTag | OpenTagSlash | Attrib | AttribName | AttribNameSawWhite
| AttribValue | AttribValueQuoted | AttribValueClosed | AttribValueUnquoted
| AttribValueEntityQ | AttribValueEntityU | CloseTag | CloseTagSawWhite
| Script | ScriptEnding.

(** [doctype: string|boolean]: the buffer becomes [true] once emitted. *)
Inductive DoctypeBuf : Type :=
| DocString (s : jsstr)
| DocTrue.

Definition doctype_truthy (d : DoctypeBuf) : bool :=
  match d with DocString [] => false | _ => true end.

(** [doctype.toString()] *)
Definition doctype_toString (d : DoctypeBuf) : jsstr :=
  match d with DocString s => s | DocTrue => u "true" end.

(** [doctype += c] *)
Definition doctype_append (d : DoctypeBuf) (c : jschar) : DoctypeBuf :=
  DocString (doctype_toString d ++ [c]).

Record IBuffer := {
  comment : jsstr;
  sgmlDecl : jsstr;
  textNode : jsstr;
  tagName : jsstr;
  doctype : DoctypeBuf;
  procInstName : jsstr;
  procInstBody : jsstr;
  entity : jsstr;
  attribName : jsstr;
  attribValue : jsstr;
  cdata : jsstr;
  script : jsstr
}.

Definition emptyBuffers : IBuffer :=
  {| comment := []; sgmlDecl := []; textNode := []; tagName := [];
     doctype := DocString []; procInstName := []; procInstBody := [];
     entity := []; attribName := []; attribValue := []; cdata := [];
     script := [] |}.

Record QAttr := {
  qa_name : jsstr;
  qa_value : jsstr;
  qa_prefix : jsstr;
  qa_local : jsstr;
  qa_uri : JsVal
}.

(** A value of [tag.attributes]: a string (ITag) or a qualified attribute
    (IQualifiedTag). *)
Inductive AttrVal : Type :=
| APlain (v : jsstr)
| AQual (a : QAttr).

Record Tag := {
  tg_name : jsstr;
  tg_attributes : list (jsstr * AttrVal);
  tg_isSelfClosing : bool;
  tg_ns : option NsObj;
  tg_prefix : option jsstr;
  tg_local : option jsstr;
  tg_uri : option JsVal
}.

Definition tag_with_attributes (a : list (jsstr * AttrVal)) (t : Tag) : Tag :=
  {| tg_name := tg_name t; tg_attributes := a;
     tg_isSelfClosing := tg_isSelfClosing t; tg_ns := tg_ns t;
     tg_prefix := tg_prefix t; tg_local := tg_local t; tg_uri := tg_uri t |}.

Definition tag_with_ns (n : option NsObj) (t : Tag) : Tag :=
  {| tg_name := tg_name t; tg_attributes := tg_attributes t;
     tg_isSelfClosing := tg_isSelfClosing t; tg_ns := n;
     tg_prefix := tg_prefix t; tg_local := tg_local t; tg_uri := tg_uri t |}.

Definition tag_with_selfClosing (b : bool) (t : Tag) : Tag :=
  {| tg_name := tg_name t; tg_attributes := tg_attributes t;
     tg_isSelfClosing := b; tg_ns := tg_ns t;
     tg_prefix := tg_prefix t; tg_local := tg_local t; tg_uri := tg_uri t |}.

Definition tag_with_qname (p l : option jsstr) (uri : option JsVal) (t : Tag) : Tag :=
  {| tg_name := tg_name t; tg_attributes := tg_attributes t;
     tg_isSelfClosing := tg_isSelfClosing t; tg_ns := tg_ns t;
     tg_prefix := p; tg_local := l; tg_uri := uri |}.

(** [tag.ns] of a tag built under the [xmlns] option. *)
Definition the_ns (t : Tag) : NsObj :=
  match tg_ns t with Some n => n | None => emptyObject end.

(** The events of [ISAXParserEvents]. *)
Inductive Event : Type :=
| EvError (message : jsstr)
| EvText (s : jsstr)
| EvDoctype (s : jsstr)
| EvProcessingInstruction (name body : jsstr)
| EvOpenTag (t : Tag)
| EvCloseTag (name : jsstr)
| EvAttribute (name : jsstr) (a : AttrVal)
| EvComment (s : jsstr)
| EvOpenCData
| EvCData (s : jsstr)
| EvCloseCData
| EvOpenNamespace (prefix uri : jsstr)
| EvCloseNamespace (prefix uri : jsstr)
| EvEnd
| EvReady
| EvScript (s : jsstr)
| EvSgmlDeclaration (s : jsstr)
| EvOpenTagStart (t : Tag).

(** ** Built-in functions of the host language *)

(** The code units matched by [\s] and removed by [String.prototype.trim]. *)
Definition isJsSpace (c : jschar) : bool :=
  ((9 <=? c) && (c <=? 13) || N.eqb c 32 || N.eqb c 160 || N.eqb c 5760
   || (8192 <=? c) && (c <=? 8202) || N.eqb c 8232 || N.eqb c 8233
   || N.eqb c 8239 || N.eqb c 8287 || N.eqb c 12288 || N.eqb c 65279)%N.

Fixpoint dropSpaces (s : jsstr) : jsstr :=
  match s with
  | c :: s' => if isJsSpace c then dropSpaces s' else s
  | [] => []
  end.

(** [text.trim()] *)
Definition js_trim (s : jsstr) : jsstr :=
  rev (dropSpaces (rev (dropSpaces s))).

(** [text.replace(/\s+/g, ' ')]; [inRun] tells that the previous code unit
    was whitespace, already replaced. *)
Fixpoint collapse (inRun : bool) (s : jsstr) : jsstr :=
  match s with
  | [] => []
  | c :: s' =>
      if isJsSpace c
      then (if inRun then collapse true s' else ch " " :: collapse true s')
      else c :: collapse false s'
  end.

Definition js_normalize (s : jsstr) : jsstr := collapse false s.

Definition digitChar (d : N) : jschar :=
  (if d <? 10 then 48 + d else 87 + d)%N.

(** The digits of a positive number, most significant first. *)
Fixpoint digitsOf (fuel : nat) (radix n : N) (acc : jsstr) : jsstr :=
  match fuel with
  | O => acc
  | S fuel' =>
      if N.eqb n 0 then acc
      else digitsOf fuel' radix (n / radix)%N (digitChar (n mod radix)%N :: acc)
  end.

(** The digits of an integer, with its sign: [num.toString(radix)] for an
    integer below 2^53. *)
Definition toStringRadix (radix : N) (num : Z) : jsstr :=
  match num with
  | Z0 => u "0"
  | Zpos p => digitsOf (S (N.size_nat (Npos p))) radix (Npos p) []
  | Zneg p => ch "-" :: digitsOf (S (N.size_nat (Npos p))) radix (Npos p) []
  end.

Definition digitValue (radix : N) (c : jschar) : option N :=
  let v := (if (48 <=? c) && (c <=? 57) then Some (c - 48)
            else if (97 <=? c) && (c <=? 122) then Some (c - 87)
            else if (65 <=? c) && (c <=? 90) then Some (c - 55)
            else None)%N in
  match v with
  | Some d => if (d <? radix)%N then Some d else None
  | None => None
  end.

(** The longest prefix of digits, folded into its value; [None] when there
    is no digit at all. *)
Fixpoint parseDigits (radix : N) (acc : option N) (s : jsstr) : option N :=
  match s with
  | [] => acc
  | c :: s' =>
      match digitValue radix c with
      | Some d =>
          parseDigits radix
            (Some (match acc with Some a => a * radix + d | None => d end)%N) s'
      | None => acc
      end
  end.

Definition strip0x (radix : N) (s : jsstr) : jsstr :=
  match s with
  | c1 :: c2 :: s' =>
      if N.eqb radix 16 && eqc c1 "0" && (eqc c2 "x" || eqc c2 "X") then s' else s
  | _ => s
  end.

(** *** Numbers

    The numbers of the parser are integers or infinite.  An integer of more
    than 53 significant bits is rounded to the nearest double, a tie to the
    even one; past the largest double it is an infinity. *)
Inductive JsNumber : Type :=
| Finite (z : Z)
| Infinite (negative : bool).

(** The double nearest to a natural number; [None] past the largest. *)
Definition roundToDouble (n : N) : option N :=
  let bits := N.size n in
  if (bits <=? 53)%N then Some n
  else
    let sh := (bits - 53)%N in
    let q := N.shiftr n sh in
    let r := (n - N.shiftl q sh)%N in
    let half := N.shiftl 1 (sh - 1) in
    let q' := if (r <? half)%N then q
              else if (half <? r)%N then (q + 1)%N
              else if N.even q then q else (q + 1)%N in
    let m := N.shiftl q' sh in
    if (1024 <? N.size m)%N then None else Some m.

Definition numberOf (z : Z) : JsNumber :=
  match z with
  | Z0 => Finite 0
  | Zpos p =>
      match roundToDouble (Npos p) with
      | Some m => Finite (Z.of_N m)
      | None => Infinite false
      end
  | Zneg p =>
      match roundToDouble (Npos p) with
      | Some m => Finite (- Z.of_N m)
      | None => Infinite true
      end
  end.

(** [parseInt(s, radix)] for radix 10 and 16; [None] is [NaN].  The digits
    are read as an exact integer, which is then rounded. *)
Definition parseInt (s : jsstr) (radix : N) : option JsNumber :=
  let s := dropSpaces s in
  let '(neg, s) :=
    match s with
    | c :: s' => if eqc c "-" then (true, s')
                 else if eqc c "+" then (false, s') else (false, s)
    | [] => (false, s)
    end in
  match parseDigits radix None (strip0x radix s) with
  | Some n => Some (numberOf (if neg then - Z.of_N n else Z.of_N n))
  | None => None
  end.

(** Whether [s * 10^e] is a number that rounds to the double [x]. *)
Definition roundsTo (x s e : N) : bool :=
  match roundToDouble (s * 10 ^ e) with
  | Some m => N.eqb m x
  | None => false
  end.

(** The number [s] of [k] digits for which [s * 10^(n-k)] rounds to [x],
    the nearest to [x] when there are two. *)
Definition decimalCandidate (x k n : N) : option N :=
  let e := (n - k)%N in
  let lo := (x / 10 ^ e)%N in
  let hi := (lo + 1)%N in
  let fits s := ((10 ^ (k - 1) <=? s) && (s <? 10 ^ k) && roundsTo x s e)%N in
  match fits lo, fits hi with
  | true, true =>
      let dlo := (x - lo * 10 ^ e)%N in
      let dhi := (hi * 10 ^ e - x)%N in
      if (dlo <? dhi)%N then Some lo
      else if (dhi <? dlo)%N then Some hi
      else if N.even lo then Some lo else Some hi
  | true, false => Some lo
  | false, true => Some hi
  | false, false => None
  end.

(** The shortest digits of a double: the least [k] from 1 to 17 with a
    candidate, for a number of [n] or [n + 1] digits. *)
Fixpoint shortestDigits (fuel : nat) (x k n : N) : option (N * N) :=
  match fuel with
  | O => None
  | S fuel' =>
      match decimalCandidate x k n with
      | Some s => Some (s, n)
      | None =>
          match decimalCandidate x k (n + 1) with
          | Some s => Some (s, (n + 1)%N)
          | None => shortestDigits fuel' x (k + 1)%N n
          end
      end
  end.

(** [num.toString(10)] for a positive integer double. *)
Definition decimalString (x : N) : jsstr :=
  let exact := toStringRadix 10 (Z.of_N x) in
  if (N.size x <=? 53)%N then exact
  else
    match shortestDigits 17 x 1 (N.of_nat (length exact)) with
    | None => exact
    | Some (s, n) =>
        let digits := toStringRadix 10 (Z.of_N s) in
        if (n <=? 21)%N
        then digits ++ repeat (ch "0") (N.to_nat n - length digits)
        else
          let exponent := u "e+" ++ toStringRadix 10 (Z.of_N n - 1) in
          match digits with
          | [d] => d :: exponent
          | d :: rest => d :: ch "." :: rest ++ exponent
          | [] => exact
          end
    end.

(** [String.fromCodePoint(num)]; [None] is the [RangeError] thrown for a
    number that is not a code point. *)
Definition fromCodePoint (num : JsNumber) : option jsstr :=
  match num with
  | Infinite _ => None
  | Finite num =>
      if (num <? 0) || (1114111 <? num) then None
      else if num <? 65536 then Some [Z.to_N num]
      else let v := Z.to_N (num - 65536) in
           Some [(55296 + v / 1024)%N; (56320 + v mod 1024)%N]
  end.

(** [entity.replace(/^0+/, '')] *)
Fixpoint stripLeadingZeros (s : jsstr) : jsstr :=
  match s with
  | c :: s' => if eqc c "0" then stripLeadingZeros s' else s
  | [] => []
  end.

(** Template interpolation of a number. *)
Definition numberToString (n : Z) : jsstr := toStringRadix 10 n.

Definition hex4 (c : N) : jsstr :=
  [digitChar (c / 4096 mod 16); digitChar (c / 256 mod 16);
   digitChar (c / 16 mod 16); digitChar (c mod 16)]%N.

Definition jsonEscape (c : jschar) : jsstr :=
  if N.eqb c QUOT then [ch "\"; QUOT]
  else if eqc c "\" then [ch "\"; ch "\"]
  else if N.eqb c 8 then u "\b"
  else if N.eqb c 9 then u "\t"
  else if N.eqb c 10 then u "\n"
  else if N.eqb c 12 then u "\f"
  else if N.eqb c 13 then u "\r"
  else if (c <? 32)%N then u "\u" ++ hex4 c
  else [c].

Definition highSurrogate (c : jschar) : bool := ((55296 <=? c) && (c <=? 56319))%N.
Definition lowSurrogate (c : jschar) : bool := ((56320 <=? c) && (c <=? 57343))%N.

(** The characters of [JSON.stringify(s)] between the quotes: a surrogate
    that is not part of a pair is written as an escape. *)
Fixpoint jsonEscapeAll (s : jsstr) : jsstr :=
  match s with
  | [] => []
  | c :: s' =>
      if highSurrogate c then
        match s' with
        | d :: s'' =>
            if lowSurrogate d then c :: d :: jsonEscapeAll s''
            else u "\u" ++ hex4 c ++ jsonEscapeAll s'
        | [] => u "\u" ++ hex4 c
        end
      else if lowSurrogate c then u "\u" ++ hex4 c ++ jsonEscapeAll s'
      else jsonEscape c ++ jsonEscapeAll s'
  end.

(** [JSON.stringify(s)] of a string. *)
Definition JSON_stringify (s : jsstr) : jsstr :=
  QUOT :: jsonEscapeAll s ++ [QUOT].

(** ** What the parser takes from outside

    [data/Regex] and [data/Entities] are imported by the parser but are not
    among the sources; the case conversions are those of the host, and so
    is [inheritedText]: the string that an object gives, when it is
    appended to a string, for a name of [objectPrototypeKeys] that it
    inherits (the source text of a native function; for [__proto__] the
    string of its prototype).  [hexOfLarge] is [num.toString(16)] for an
    integer of more than 53 bits: ECMAScript leaves the digits of a number
    in a radix other than 10 to the implementation. *)
Record Host := {
  nameStart : jschar -> bool;
  nameBody : jschar -> bool;
  entityStart : jschar -> bool;
  entityBody : jschar -> bool;
  Entities : list (jsstr * jsstr);
  XmlEntities : list (jsstr * jsstr);
  toLowerCase : jsstr -> jsstr;
  toUpperCase : jsstr -> jsstr;
  inheritedText : jsstr -> jsstr;
  hexOfLarge : N -> jsstr
}.

(** ** The parser instance

    The private fields of [SAXParser], the log of emitted events and the
    allocation counter of namespace objects. *)
Record Parser := {
  line : Z;
  column : Z;
  position : Z;
  startTagPosition : Z;
  closed : bool;
  strict : bool;
  options : IOptions;
  tag : option Tag;
  error : option jsstr;
  state : State;
  entities : list (jsstr * jsstr);
  attribList : list (jsstr * jsstr);
  tags : list Tag;
  currentChar : jsstr;
  previousChar : jsstr;
  closedRoot : bool;
  sawRoot : bool;
  bufferCheckPosition : Z;
  buffer : IBuffer;
  events : list Event;
  nextNsId : nat
}.

(** Field updates: [set_f v p] is [p] after [this._f = v]. *)
Definition set_line (v : Z) (p : Parser) : Parser :=
  {| line := v; column := column p; position := position p; startTagPosition
  := startTagPosition p; closed := closed p; strict := strict p; options :=
  options p; tag := tag p; error := error p; state := state p; entities :=
  entities p; attribList := attribList p; tags := tags p; currentChar :=
  currentChar p; previousChar := previousChar p; closedRoot := closedRoot p;
  sawRoot := sawRoot p; bufferCheckPosition := bufferCheckPosition p; buffer
  := buffer p; events := events p; nextNsId := nextNsId p |}.
Definition set_column (v : Z) (p : Parser) : Parser :=
  {| line := line p; column := v; position := position p; startTagPosition :=
  startTagPosition p; closed := closed p; strict := strict p; options :=
  options p; tag := tag p; error := error p; state := state p; entities :=
  entities p; attribList := attribList p; tags := tags p; currentChar :=
  currentChar p; previousChar := previousChar p; closedRoot := closedRoot p;
  sawRoot := sawRoot p; bufferCheckPosition := bufferCheckPosition p; buffer
  := buffer p; events := events p; nextNsId := nextNsId p |}.
Definition set_position (v : Z) (p : Parser) : Parser :=
  {| line := line p; column := column p; position := v; startTagPosition :=
  startTagPosition p; closed := closed p; strict := strict p; options :=
  options p; tag := tag p; error := error p; state := state p; entities :=
  entities p; attribList := attribList p; tags := tags p; currentChar :=
  currentChar p; previousChar := previousChar p; closedRoot := closedRoot p;
  sawRoot := sawRoot p; bufferCheckPosition := bufferCheckPosition p; buffer
  := buffer p; events := events p; nextNsId := nextNsId p |}.
Definition set_startTagPosition (v : Z) (p : Parser) : Parser :=
  {| line := line p; column := column p; position := position p;
  startTagPosition := v; closed := closed p; strict := strict p; options :=
  options p; tag := tag p; error := error p; state := state p; entities :=
  entities p; attribList := attribList p; tags := tags p; currentChar :=
  currentChar p; previousChar := previousChar p; closedRoot := closedRoot p;
  sawRoot := sawRoot p; bufferCheckPosition := bufferCheckPosition p; buffer
  := buffer p; events := events p; nextNsId := nextNsId p |}.
Definition set_closed (v : bool) (p : Parser) : Parser :=
  {| line := line p; column := column p; position := position p;
  startTagPosition := startTagPosition p; closed := v; strict := strict p;
  options := options p; tag := tag p; error := error p; state := state p;
  entities := entities p; attribList := attribList p; tags := tags p;
  currentChar := currentChar p; previousChar := previousChar p; closedRoot :=
  closedRoot p; sawRoot := sawRoot p; bufferCheckPosition :=
  bufferCheckPosition p; buffer := buffer p; events := events p; nextNsId :=
  nextNsId p |}.
Definition set_tag (v : option Tag) (p : Parser) : Parser :=
  {| line := line p; column := column p; position := position p;
  startTagPosition := startTagPosition p; closed := closed p; strict := strict
  p; options := options p; tag := v; error := error p; state := state p;
  entities := entities p; attribList := attribList p; tags := tags p;
  currentChar := currentChar p; previousChar := previousChar p; closedRoot :=
  closedRoot p; sawRoot := sawRoot p; bufferCheckPosition :=
  bufferCheckPosition p; buffer := buffer p; events := events p; nextNsId :=
  nextNsId p |}.
Definition set_error (v : option jsstr) (p : Parser) : Parser :=
  {| line := line p; column := column p; position := position p;
  startTagPosition := startTagPosition p; closed := closed p; strict := strict
  p; options := options p; tag := tag p; error := v; state := state p;
  entities := entities p; attribList := attribList p; tags := tags p;
  currentChar := currentChar p; previousChar := previousChar p; closedRoot :=
  closedRoot p; sawRoot := sawRoot p; bufferCheckPosition :=
  bufferCheckPosition p; buffer := buffer p; events := events p; nextNsId :=
  nextNsId p |}.
Definition set_state (v : State) (p : Parser) : Parser :=
  {| line := line p; column := column p; position := position p;
  startTagPosition := startTagPosition p; closed := closed p; strict := strict
  p; options := options p; tag := tag p; error := error p; state := v;
  entities := entities p; attribList := attribList p; tags := tags p;
  currentChar := currentChar p; previousChar := previousChar p; closedRoot :=
  closedRoot p; sawRoot := sawRoot p; bufferCheckPosition :=
  bufferCheckPosition p; buffer := buffer p; events := events p; nextNsId :=
  nextNsId p |}.
Definition set_entities (v : list (jsstr * jsstr)) (p : Parser) : Parser :=
  {| line := line p; column := column p; position := position p;
  startTagPosition := startTagPosition p; closed := closed p; strict := strict
  p; options := options p; tag := tag p; error := error p; state := state p;
  entities := v; attribList := attribList p; tags := tags p; currentChar :=
  currentChar p; previousChar := previousChar p; closedRoot := closedRoot p;
  sawRoot := sawRoot p; bufferCheckPosition := bufferCheckPosition p; buffer
  := buffer p; events := events p; nextNsId := nextNsId p |}.
Definition set_attribList (v : list (jsstr * jsstr)) (p : Parser) : Parser :=
  {| line := line p; column := column p; position := position p;
  startTagPosition := startTagPosition p; closed := closed p; strict := strict
  p; options := options p; tag := tag p; error := error p; state := state p;
  entities := entities p; attribList := v; tags := tags p; currentChar :=
  currentChar p; previousChar := previousChar p; closedRoot := closedRoot p;
  sawRoot := sawRoot p; bufferCheckPosition := bufferCheckPosition p; buffer
  := buffer p; events := events p; nextNsId := nextNsId p |}.
Definition set_tags (v : list Tag) (p : Parser) : Parser :=
  {| line := line p; column := column p; position := position p;
  startTagPosition := startTagPosition p; closed := closed p; strict := strict
  p; options := options p; tag := tag p; error := error p; state := state p;
  entities := entities p; attribList := attribList p; tags := v; currentChar
  := currentChar p; previousChar := previousChar p; closedRoot := closedRoot
  p; sawRoot := sawRoot p; bufferCheckPosition := bufferCheckPosition p;
  buffer := buffer p; events := events p; nextNsId := nextNsId p |}.
Definition set_currentChar (v : jsstr) (p : Parser) : Parser :=
  {| line := line p; column := column p; position := position p;
  startTagPosition := startTagPosition p; closed := closed p; strict := strict
  p; options := options p; tag := tag p; error := error p; state := state p;
  entities := entities p; attribList := attribList p; tags := tags p;
  currentChar := v; previousChar := previousChar p; closedRoot := closedRoot
  p; sawRoot := sawRoot p; bufferCheckPosition := bufferCheckPosition p;
  buffer := buffer p; events := events p; nextNsId := nextNsId p |}.
Definition set_previousChar (v : jsstr) (p : Parser) : Parser :=
  {| line := line p; column := column p; position := position p;
  startTagPosition := startTagPosition p; closed := closed p; strict := strict
  p; options := options p; tag := tag p; error := error p; state := state p;
  entities := entities p; attribList := attribList p; tags := tags p;
  currentChar := currentChar p; previousChar := v; closedRoot := closedRoot p;
  sawRoot := sawRoot p; bufferCheckPosition := bufferCheckPosition p; buffer
  := buffer p; events := events p; nextNsId := nextNsId p |}.
Definition set_closedRoot (v : bool) (p : Parser) : Parser :=
  {| line := line p; column := column p; position := position p;
  startTagPosition := startTagPosition p; closed := closed p; strict := strict
  p; options := options p; tag := tag p; error := error p; state := state p;
  entities := entities p; attribList := attribList p; tags := tags p;
  currentChar := currentChar p; previousChar := previousChar p; closedRoot :=
  v; sawRoot := sawRoot p; bufferCheckPosition := bufferCheckPosition p;
  buffer := buffer p; events := events p; nextNsId := nextNsId p |}.
Definition set_sawRoot (v : bool) (p : Parser) : Parser :=
  {| line := line p; column := column p; position := position p;
  startTagPosition := startTagPosition p; closed := closed p; strict := strict
  p; options := options p; tag := tag p; error := error p; state := state p;
  entities := entities p; attribList := attribList p; tags := tags p;
  currentChar := currentChar p; previousChar := previousChar p; closedRoot :=
  closedRoot p; sawRoot := v; bufferCheckPosition := bufferCheckPosition p;
  buffer := buffer p; events := events p; nextNsId := nextNsId p |}.
Definition set_bufferCheckPosition (v : Z) (p : Parser) : Parser :=
  {| line := line p; column := column p; position := position p;
  startTagPosition := startTagPosition p; closed := closed p; strict := strict
  p; options := options p; tag := tag p; error := error p; state := state p;
  entities := entities p; attribList := attribList p; tags := tags p;
  currentChar := currentChar p; previousChar := previousChar p; closedRoot :=
  closedRoot p; sawRoot := sawRoot p; bufferCheckPosition := v; buffer :=
  buffer p; events := events p; nextNsId := nextNsId p |}.
Definition set_buffer (v : IBuffer) (p : Parser) : Parser :=
  {| line := line p; column := column p; position := position p;
  startTagPosition := startTagPosition p; closed := closed p; strict := strict
  p; options := options p; tag := tag p; error := error p; state := state p;
  entities := entities p; attribList := attribList p; tags := tags p;
  currentChar := currentChar p; previousChar := previousChar p; closedRoot :=
  closedRoot p; sawRoot := sawRoot p; bufferCheckPosition :=
  bufferCheckPosition p; buffer := v; events := events p; nextNsId := nextNsId
  p |}.
Definition set_events (v : list Event) (p : Parser) : Parser :=
  {| line := line p; column := column p; position := position p;
  startTagPosition := startTagPosition p; closed := closed p; strict := strict
  p; options := options p; tag := tag p; error := error p; state := state p;
  entities := entities p; attribList := attribList p; tags := tags p;
  currentChar := currentChar p; previousChar := previousChar p; closedRoot :=
  closedRoot p; sawRoot := sawRoot p; bufferCheckPosition :=
  bufferCheckPosition p; buffer := buffer p; events := v; nextNsId := nextNsId
  p |}.
Definition set_nextNsId (v : nat) (p : Parser) : Parser :=
  {| line := line p; column := column p; position := position p;
  startTagPosition := startTagPosition p; closed := closed p; strict := strict
  p; options := options p; tag := tag p; error := error p; state := state p;
  entities := entities p; attribList := attribList p; tags := tags p;
  currentChar := currentChar p; previousChar := previousChar p; closedRoot :=
  closedRoot p; sawRoot := sawRoot p; bufferCheckPosition :=
  bufferCheckPosition p; buffer := buffer p; events := events p; nextNsId := v
  |}.

(** Buffer updates: [setb_f v p] is [p] after [this._buffer.f = v]. *)
Definition setb_comment (v : jsstr) (p : Parser) : Parser :=
  set_buffer {| comment := v; sgmlDecl := sgmlDecl (buffer p); textNode :=
  textNode (buffer p); tagName := tagName (buffer p); doctype := doctype
  (buffer p); procInstName := procInstName (buffer p); procInstBody :=
  procInstBody (buffer p); entity := entity (buffer p); attribName :=
  attribName (buffer p); attribValue := attribValue (buffer p); cdata := cdata
  (buffer p); script := script (buffer p) |} p.
Definition setb_sgmlDecl (v : jsstr) (p : Parser) : Parser :=
  set_buffer {| comment := comment (buffer p); sgmlDecl := v; textNode :=
  textNode (buffer p); tagName := tagName (buffer p); doctype := doctype
  (buffer p); procInstName := procInstName (buffer p); procInstBody :=
  procInstBody (buffer p); entity := entity (buffer p); attribName :=
  attribName (buffer p); attribValue := attribValue (buffer p); cdata := cdata
  (buffer p); script := script (buffer p) |} p.
Definition setb_textNode (v : jsstr) (p : Parser) : Parser :=
  set_buffer {| comment := comment (buffer p); sgmlDecl := sgmlDecl (buffer
  p); textNode := v; tagName := tagName (buffer p); doctype := doctype (buffer
  p); procInstName := procInstName (buffer p); procInstBody := procInstBody
  (buffer p); entity := entity (buffer p); attribName := attribName (buffer
  p); attribValue := attribValue (buffer p); cdata := cdata (buffer p); script
  := script (buffer p) |} p.
Definition setb_tagName (v : jsstr) (p : Parser) : Parser :=
  set_buffer {| comment := comment (buffer p); sgmlDecl := sgmlDecl (buffer
  p); textNode := textNode (buffer p); tagName := v; doctype := doctype
  (buffer p); procInstName := procInstName (buffer p); procInstBody :=
  procInstBody (buffer p); entity := entity (buffer p); attribName :=
  attribName (buffer p); attribValue := attribValue (buffer p); cdata := cdata
  (buffer p); script := script (buffer p) |} p.
Definition setb_doctype (v : DoctypeBuf) (p : Parser) : Parser :=
  set_buffer {| comment := comment (buffer p); sgmlDecl := sgmlDecl (buffer
  p); textNode := textNode (buffer p); tagName := tagName (buffer p); doctype
  := v; procInstName := procInstName (buffer p); procInstBody := procInstBody
  (buffer p); entity := entity (buffer p); attribName := attribName (buffer
  p); attribValue := attribValue (buffer p); cdata := cdata (buffer p); script
  := script (buffer p) |} p.
Definition setb_procInstName (v : jsstr) (p : Parser) : Parser :=
  set_buffer {| comment := comment (buffer p); sgmlDecl := sgmlDecl (buffer
  p); textNode := textNode (buffer p); tagName := tagName (buffer p); doctype
  := doctype (buffer p); procInstName := v; procInstBody := procInstBody
  (buffer p); entity := entity (buffer p); attribName := attribName (buffer
  p); attribValue := attribValue (buffer p); cdata := cdata (buffer p); script
  := script (buffer p) |} p.
Definition setb_procInstBody (v : jsstr) (p : Parser) : Parser :=
  set_buffer {| comment := comment (buffer p); sgmlDecl := sgmlDecl (buffer
  p); textNode := textNode (buffer p); tagName := tagName (buffer p); doctype
  := doctype (buffer p); procInstName := procInstName (buffer p); procInstBody
  := v; entity := entity (buffer p); attribName := attribName (buffer p);
  attribValue := attribValue (buffer p); cdata := cdata (buffer p); script :=
  script (buffer p) |} p.
Definition setb_entity (v : jsstr) (p : Parser) : Parser :=
  set_buffer {| comment := comment (buffer p); sgmlDecl := sgmlDecl (buffer
  p); textNode := textNode (buffer p); tagName := tagName (buffer p); doctype
  := doctype (buffer p); procInstName := procInstName (buffer p); procInstBody
  := procInstBody (buffer p); entity := v; attribName := attribName (buffer
  p); attribValue := attribValue (buffer p); cdata := cdata (buffer p); script
  := script (buffer p) |} p.
Definition setb_attribName (v : jsstr) (p : Parser) : Parser :=
  set_buffer {| comment := comment (buffer p); sgmlDecl := sgmlDecl (buffer
  p); textNode := textNode (buffer p); tagName := tagName (buffer p); doctype
  := doctype (buffer p); procInstName := procInstName (buffer p); procInstBody
  := procInstBody (buffer p); entity := entity (buffer p); attribName := v;
  attribValue := attribValue (buffer p); cdata := cdata (buffer p); script :=
  script (buffer p) |} p.
Definition setb_attribValue (v : jsstr) (p : Parser) : Parser :=
  set_buffer {| comment := comment (buffer p); sgmlDecl := sgmlDecl (buffer
  p); textNode := textNode (buffer p); tagName := tagName (buffer p); doctype
  := doctype (buffer p); procInstName := procInstName (buffer p); procInstBody
  := procInstBody (buffer p); entity := entity (buffer p); attribName :=
  attribName (buffer p); attribValue := v; cdata := cdata (buffer p); script
  := script (buffer p) |} p.
Definition setb_cdata (v : jsstr) (p : Parser) : Parser :=
  set_buffer {| comment := comment (buffer p); sgmlDecl := sgmlDecl (buffer
  p); textNode := textNode (buffer p); tagName := tagName (buffer p); doctype
  := doctype (buffer p); procInstName := procInstName (buffer p); procInstBody
  := procInstBody (buffer p); entity := entity (buffer p); attribName :=
  attribName (buffer p); attribValue := attribValue (buffer p); cdata := v;
  script := script (buffer p) |} p.
Definition setb_script (v : jsstr) (p : Parser) : Parser :=
  set_buffer {| comment := comment (buffer p); sgmlDecl := sgmlDecl (buffer
  p); textNode := textNode (buffer p); tagName := tagName (buffer p); doctype
  := doctype (buffer p); procInstName := procInstName (buffer p); procInstBody
  := procInstBody (buffer p); entity := entity (buffer p); attribName :=
  attribName (buffer p); attribValue := attribValue (buffer p); cdata := cdata
  (buffer p); script := v |} p.

(** What a method call leaves behind: the parser after a normal return, or
    the exception thrown and the parser as it was at the [throw]. *)
Inductive Exn : Type :=
| ExnError (message : jsstr)
| ExnRangeError
| ExnTypeError.

Inductive Outcome : Type :=
| Ok (p : Parser)
| Throw (e : Exn) (p : Parser).

Definition parserOf (o : Outcome) : Parser :=
  match o with Ok p | Throw _ p => p end.

(** The statements after a call that may throw. *)
Definition andThen (o : Outcome) (rest : Parser -> Outcome) : Outcome :=
  match o with Ok p => rest p | Throw e p => Throw e p end.

(** [s.charAt(i)]: the empty string out of range. *)
Definition charAt (i : nat) (s : jsstr) : jsstr :=
  match nth_error s i with Some c => [c] | None => [] end.

(** A string used as a condition. *)
Definition nonEmpty (s : jsstr) : bool :=
  match s with [] => false | _ => true end.

(** A value used as a condition. *)
Definition truthy (v : JsVal) : bool :=
  match v with VStr s => nonEmpty s | VInherited _ => true end.

(** The names of the buffers, for [_checkSingleBuffer]. *)
Inductive BufferKey : Type :=
| Kcomment | KsgmlDecl | KtextNode | KtagName | Kdoctype | KprocInstName
| KprocInstBody | Kentity | KattribName | KattribValue | Kcdata | Kscript.

(** [array[array.length - 1]] *)
Definition lastTag (l : list Tag) : option Tag :=
  match rev l with t :: _ => Some t | [] => None end.

(** ** SAXParser *)

Section SAXParser.

Variable H : Host.

(** [new SAXParser(strict, options)] *)
Definition newParser (strict0 : bool) (opts : IOptions) : Parser :=
  {| line := 0; column := 0; position := 0; startTagPosition := 0;
     closed := false; strict := strict0; options := opts; tag := None;
     error := None; state := Begin;
     entities := if strictEntities opts then XmlEntities H else Entities H;
     attribList := []; tags := []; currentChar := []; previousChar := [];
     closedRoot := false; sawRoot := false;
     bufferCheckPosition := MAX_BUFFER_LENGTH; buffer := emptyBuffers;
     events := []; nextNsId := first_ns_id |}.

Definition emit (e : Event) (p : Parser) : Parser :=
  set_events (events p ++ [e]) p.

Definition caseFold (s : jsstr) (p : Parser) : jsstr :=
  if lowercase (options p) then toLowerCase H s else toUpperCase H s.

Definition updatePosition (currentChar0 : jschar) (p : Parser) : Parser :=
  if trackPosition (options p) then
    let p := set_position (position p + 1) p in
    if N.eqb currentChar0 NL
    then set_column 0 (set_line (line p + 1) p)
    else set_column (column p + 1) p
  else p.

Definition clearBuffers (p : Parser) : Parser := set_buffer emptyBuffers p.

Definition textopts (text : jsstr) (p : Parser) : jsstr :=
  let text := if trim (options p) then js_trim text else text in
  if normalize (options p) then js_normalize text else text.

Definition closeText (p : Parser) : Parser :=
  let p := setb_textNode (textopts (textNode (buffer p)) p) p in
  let p := if nonEmpty (textNode (buffer p))
           then emit (EvText (textNode (buffer p))) p else p in
  setb_textNode [] p.

(** [if (this._buffer.textNode) this._closeText();] *)
Definition flushText (p : Parser) : Parser :=
  if nonEmpty (textNode (buffer p)) then closeText p else p.

Definition emitError (message : jsstr) (p : Parser) : Parser :=
  let p := closeText p in
  let message :=
    if trackPosition (options p)
    then message ++ [NL] ++ u "Line: " ++ numberToString (line p)
                 ++ [NL] ++ u "Column: " ++ numberToString (column p)
                 ++ [NL] ++ u "Char: " ++ currentChar p
    else message in
  emit (EvError message) (set_error (Some message) p).

Definition strictFail (message : jsstr) (p : Parser) : Parser :=
  if strict p then emitError message p else p.

Definition beginWhiteSpace (c : jschar) (p : Parser) : Parser :=
  if eqc c "<" then
    set_startTagPosition (position p) (set_state OpenWaka p)
  else if negb (isWhitespace c) then
    let p := strictFail (u "Non-whitespace before first tag.") p in
    set_state Text (setb_textNode [c] p)
  else p.

Definition isNamespacesSupported (p : Parser) : bool := xmlns (options p).

Definition getParentNamespace (p : Parser) : NsObj :=
  match lastTag (tags p) with
  | Some parent =>
      if isNamespacesSupported p then the_ns parent else emptyObject
  | None => rootNS
  end.

Definition newTag (p : Parser) : Parser :=
  let p := if negb (strict p)
           then setb_tagName (caseFold (tagName (buffer p)) p) p else p in
  let parentNamespace := getParentNamespace p in
  let tag0 :=
    {| tg_name := tagName (buffer p); tg_attributes := [];
       tg_isSelfClosing := false;
       tg_ns := if isNamespacesSupported p then Some parentNamespace else None;
       tg_prefix := None; tg_local := None; tg_uri := None |} in
  let p := set_tag (Some tag0) p in
  let p := set_attribList [] p in
  let p := flushText p in
  emit (EvOpenTagStart tag0) p.

(** [this._entities[name]] as a condition and as a value: a missing name
    and an empty expansion are both falsy.  [this._entities] is
    [Object.create] of the table, so a name that the table does not have is
    read from [Object.prototype]; what is found there is truthy and is
    appended to the buffer as a string. *)
Definition entityLookup (name : jsstr) (p : Parser) : option jsstr :=
  match lookup name (entities p) with
  | Some v => if nonEmpty v then Some v else None
  | None => if inherited name then Some (inheritedText H name) else None
  end.

(** [num.toString(radix)] for radix 10 and 16. *)
Definition numberToStringRadix (radix : N) (num : JsNumber) : jsstr :=
  match num with
  | Infinite false => u "Infinity"
  | Infinite true => u "-Infinity"
  | Finite z =>
      let sign := match z with Zneg _ => u "-" | _ => [] end in
      let x := Z.abs_N z in
      if N.eqb x 0 then u "0"
      else if N.eqb radix 10 then sign ++ decimalString x
      else if (N.size x <=? 53)%N then toStringRadix radix z
      else sign ++ hexOfLarge H x
  end.

(** [_parseEntity]; [None] stands for the [RangeError] of
    [String.fromCodePoint]. *)
Definition parseEntity (p : Parser) : option jsstr * Parser :=
  let entity0 := entity (buffer p) in
  let entityLC := toLowerCase H entity0 in
  match entityLookup entity0 p with
  | Some v => (Some v, p)
  | None =>
  match entityLookup entityLC p with
  | Some v => (Some v, p)
  | None =>
      let entity1 := entityLC in
      let '(entity2, num, radix) :=
        if is1 (charAt 0 entity1) "#" then
          if is1 (charAt 1 entity1) "x"
          then (skipn 2 entity1, parseInt (skipn 2 entity1) 16, 16%N)
          else (skipn 1 entity1, parseInt (skipn 1 entity1) 10, 10%N)
        else (entity1, None, 10%N) in
      let numStr := option_map (numberToStringRadix radix) num in
      let entity3 := stripLeadingZeros entity2 in
      match num, numStr with
      | Some n, Some s =>
          if negb (eqs (toLowerCase H s) entity3) then
            (Some (u "&" ++ entity (buffer p) ++ u ";"),
             strictFail (u "Invalid character entity") p)
          else (fromCodePoint n, p)
      | _, _ =>
          (Some (u "&" ++ entity (buffer p) ++ u ";"),
           strictFail (u "Invalid character entity") p)
      end
  end
  end.

Definition containsAttrb (name : jsstr) (p : Parser) : bool :=
  existsb (fun attr => eqs (fst attr) name) (attribList p).

Definition clearAttribBuffers (p : Parser) : Parser :=
  setb_attribName [] (setb_attribValue [] p).

(** [_attrib]; the call of [hasOwnProperty] on the attributes of the tag
    may throw a [TypeError]. *)
Definition attrib (p : Parser) : Outcome :=
  let p := if negb (strict p)
           then setb_attribName (caseFold (attribName (buffer p)) p) p
           else p in
  match tag p with
  | None => Ok (emitError (u "Tag is undefined") p)
  | Some t =>
      let name := attribName (buffer p) in
      let value := attribValue (buffer p) in
      match (if containsAttrb name p then Some true
             else hasOwnProperty name (tg_attributes t)) with
      | None => Throw ExnTypeError p
      | Some true => Ok (clearAttribBuffers p)
      | Some false =>
        let p :=
          if xmlns (options p) then
            let qn := qname name true in
            let p :=
              if eqs (prefix qn) (u "xmlns") then
                if eqs (local qn) (u "xml") && negb (eqs value XML_NAMESPACE)
                then strictFail (u "xml: prefix must be bound to "
                                   ++ XML_NAMESPACE ++ [NL]
                                   ++ u "Actual: " ++ value) p
                else if eqs (local qn) (u "xmlns")
                        && negb (eqs value XMLNS_NAMESPACE)
                then strictFail (u "xmlns: prefix must be bound to "
                                   ++ XMLNS_NAMESPACE ++ [NL]
                                   ++ u "Actual: " ++ value) p
                else
                  let parentNamespace := getParentNamespace p in
                  let '(ns, p) :=
                    if ns_same (the_ns t) parentNamespace
                    then (ns_create (nextNsId p) parentNamespace,
                          set_nextNsId (S (nextNsId p)) p)
                    else (the_ns t, p) in
                  set_tag (Some (tag_with_ns (Some (ns_set (local qn) value ns)) t)) p
              else p in
            set_attribList (attribList p ++ [(name, value)]) p
          else
            let p := set_tag (Some (tag_with_attributes
                                      (assign name (APlain value) (tg_attributes t)) t)) p in
            let p := flushText p in
            emit (EvAttribute name (APlain value)) p in
        Ok (clearAttribBuffers p)
      end
  end.

(** The [forEach] over [Object.keys(tag.ns)] of [_openTag]. *)
Fixpoint emitOpenNamespaces (ns : NsObj) (keys : list jsstr) (p : Parser) : Parser :=
  match keys with
  | [] => p
  | k :: keys' =>
      let p := flushText p in
      let p := emit (EvOpenNamespace k (ns_get_or_undefined ns k)) p in
      emitOpenNamespaces ns keys' p
  end.

(** The [for] loop of [_openTag] over the staged attributes; the tag being
    built is threaded along with the parser. *)
Fixpoint emitStagedAttributes (l : list (jsstr * jsstr)) (t : Tag) (p : Parser)
  : Tag * Parser :=
  match l with
  | [] => (t, p)
  | (name, value) :: l' =>
      let qualName := qname name true in
      let prefix0 := prefix qualName in
      let local0 := local qualName in
      let uri := if eqs prefix0 [] then VStr []
                 else ns_get_or_empty (the_ns t) prefix0 in
      let '(uri, p) :=
        if nonEmpty prefix0 && negb (eqs prefix0 (u "xmlns")) && negb (truthy uri)
        then (VStr prefix0,
              strictFail (u "Unbound namespace prefix: " ++ JSON_stringify prefix0) p)
        else (uri, p) in
      let a := {| qa_name := name; qa_value := value; qa_prefix := prefix0;
                  qa_local := local0; qa_uri := uri |} in
      let t := tag_with_attributes (assign name (AQual a) (tg_attributes t)) t in
      let p := flushText p in
      let p := emit (EvAttribute name (AQual a)) p in
      emitStagedAttributes l' t p
  end.

Definition openTag (selfClosing : bool) (p : Parser) : Parser :=
  match tag p with
  | None => emitError (u "Tag is undefined") p
  | Some t =>
      let '(t, p) :=
        if xmlns (options p) && isNamespacesSupported p then
          let qn := qname (tagName (buffer p)) false in
          let uri := ns_get_or_empty (the_ns t) (prefix qn) in
          let '(uri, p) :=
            if nonEmpty (prefix qn) && negb (truthy uri)
            then (VStr (prefix qn),
                  strictFail (u "Unbound namespace prefix: "
                                ++ JSON_stringify (tagName (buffer p))) p)
            else (uri, p) in
          let t := tag_with_qname (Some (prefix qn)) (Some (local qn)) (Some uri) t in
          let parentNamespace := getParentNamespace p in
          let p :=
            match tg_ns t with
            | Some ns =>
                if negb (ns_same parentNamespace ns)
                then emitOpenNamespaces ns (map fst (ns_own ns)) p
                else p
            | None => p
            end in
          let '(t, p) := emitStagedAttributes (attribList p) t p in
          (t, set_attribList [] p)
        else (t, p) in
      let t := tag_with_selfClosing selfClosing t in
      let p := set_tag (Some t) p in
      let p := set_sawRoot true p in
      let p := set_tags (tags p ++ [t]) p in
      let p := flushText p in
      let p := emit (EvOpenTag t) p in
      let p :=
        if negb selfClosing then
          let p :=
            if negb (strict p || noscript (options p))
               && eqs (toLowerCase H (tagName (buffer p))) (u "script")
            then set_state Script p
            else set_state Text p in
          setb_tagName [] (set_tag None p)
        else p in
      set_attribList [] (clearAttribBuffers p)
  end.

(** The first loop of [_closeTag]: [while (t--)], walking down from index
    [t - 1]; the result is the index where the loop stopped, [None] for
    [-1]. *)
Fixpoint findOpenTag (t : nat) (closeTo : jsstr) (p : Parser) : option nat * Parser :=
  match t with
  | O => (None, p)
  | S t' =>
      match nth_error (tags p) t' with
      | Some close =>
          if negb (eqs (tg_name close) closeTo)
          then findOpenTag t' closeTo (strictFail (u "Unexpected close tag") p)
          else (Some t', p)
      | None => (None, p)
      end
  end.

(** The [forEach] over [Object.keys(tag.ns)] of [_closeTag]. *)
Fixpoint emitCloseNamespaces (ns : NsObj) (keys : list jsstr) (p : Parser) : Parser :=
  match keys with
  | [] => p
  | k :: keys' =>
      let p := flushText p in
      let p := emit (EvCloseNamespace k (ns_get_or_undefined ns k)) p in
      emitCloseNamespaces ns keys' p
  end.

(** One turn of the second loop of [_closeTag]. *)
Definition popTag (p : Parser) : Parser :=
  match lastTag (tags p) with
  | None => p
  | Some t =>
      let p := set_tags (removelast (tags p)) p in
      let p := set_tag (Some t) p in
      let p := setb_tagName (tg_name t) p in
      let p := flushText p in
      let p := emit (EvCloseTag (tagName (buffer p))) p in
      let parentNamespace := getParentNamespace p in
      if xmlns (options p) && isNamespacesSupported p
         && negb (ns_same (the_ns t) parentNamespace)
      then emitCloseNamespaces (the_ns t) (map fst (ns_own (the_ns t))) p
      else p
  end.

(** [while (s-- > t)] runs [length - t] times. *)
Fixpoint popTags (n : nat) (p : Parser) : Parser :=
  match n with
  | O => p
  | S n' => popTags n' (popTag p)
  end.

Definition closeTag (p : Parser) : Parser :=
  if negb (nonEmpty (tagName (buffer p))) then
    let p := strictFail (u "Weird empty close tag.") p in
    let p := setb_textNode (textNode (buffer p) ++ u "</>") p in
    set_state Text p
  else if nonEmpty (script (buffer p))
          && negb (eqs (tagName (buffer p)) (u "script")) then
    let p := setb_script (script (buffer p) ++ u "</" ++ tagName (buffer p) ++ u ">") p in
    let p := setb_tagName [] p in
    set_state Script p
  else
    let p :=
      if nonEmpty (script (buffer p)) then
        let p := flushText p in
        let p := emit (EvScript (script (buffer p))) p in
        setb_script [] p
      else p in
    let t := length (tags p) in
    let tagName0 := tagName (buffer p) in
    let tagName0 := if negb (strict p) then caseFold tagName0 p else tagName0 in
    let closeTo := tagName0 in
    match findOpenTag t closeTo p with
    | (None, p) =>
        let p := strictFail (u "Unmatched closing tag: " ++ tagName (buffer p)) p in
        let p := setb_textNode (textNode (buffer p) ++ u "</"
                                  ++ tagName (buffer p) ++ u ">") p in
        set_state Text p
    | (Some t, p) =>
        let p := setb_tagName tagName0 p in
        let p := popTags (length (tags p) - t) p in
        let p := if Nat.eqb t 0 then set_closedRoot true p else p in
        let p := setb_tagName [] (setb_attribValue [] (setb_attribName [] p)) in
        let p := set_attribList [] p in
        set_state Text p
    end.

Definition checkSingleBuffer (type : BufferKey) (buffer0 : jsstr) (maxAllowed : Z)
           (p : Parser) : Z * Parser :=
  let len := Z.of_nat (length buffer0) in
  let p :=
    if len >? maxAllowed then
      match type with
      | KtextNode => closeText p
      | Kcdata =>
          let p := flushText p in
          let p := emit (EvCData (cdata (buffer p))) p in
          setb_cdata [] p
      | Kscript =>
          let p := flushText p in
          let p := emit (EvScript (script (buffer p))) p in
          setb_script [] p
      | _ => emitError (u "Max buffer length exceeded: " ++ buffer0) p
      end
    else p in
  (len, p).

(** One line [maxActual = Math.max(maxActual, this._checkSingleBuffer(...))];
    the buffer is read when the call is made. *)
Definition checkNext (type : BufferKey) (read : IBuffer -> jsstr) (maxAllowed : Z)
           (st : Z * Parser) : Z * Parser :=
  let '(maxActual, p) := st in
  let '(len, p) := checkSingleBuffer type (read (buffer p)) maxAllowed p in
  (Z.max maxActual len, p).

Definition checkBufferLength (p : Parser) : Parser :=
  let maxAllowed := Z.max MAX_BUFFER_LENGTH 10 in
  let st := (0, p) in
  let st := checkNext Kcomment comment maxAllowed st in
  let st := checkNext KsgmlDecl sgmlDecl maxAllowed st in
  let st := checkNext KtextNode textNode maxAllowed st in
  let st := checkNext KtagName tagName maxAllowed st in
  let st :=
    match doctype (buffer (snd st)) with
    | DocString d => checkNext Kdoctype (fun _ => d) maxAllowed st
    | DocTrue => st
    end in
  let st := checkNext KprocInstName procInstName maxAllowed st in
  let st := checkNext KprocInstBody procInstBody maxAllowed st in
  let st := checkNext Kentity entity maxAllowed st in
  let st := checkNext KattribName attribName maxAllowed st in
  let st := checkNext KattribValue attribValue maxAllowed st in
  let st := checkNext Kcdata cdata maxAllowed st in
  let st := checkNext Kscript script maxAllowed st in
  let '(maxActual, p) := st in
  let m := MAX_BUFFER_LENGTH - maxActual in
  set_bufferCheckPosition (m + position p) p.

(** [end()] *)
Definition end_ (p : Parser) : Parser :=
  let p := if sawRoot p && negb (closedRoot p)
           then strictFail (u "Unclosed root tag") p else p in
  let p := match state p with
           | Begin | BeginWhitespace | Text => p
           | _ => emitError (u "Unexpected end") p
           end in
  let p := closeText p in
  let p := set_currentChar [] p in
  let p := set_closed true p in
  let p := emit EvEnd p in
  let p := clearBuffers p in
  let p := set_currentChar [] p in
  let p := set_previousChar [] p in
  let p := set_bufferCheckPosition MAX_BUFFER_LENGTH p in
  let p := set_closedRoot false p in
  let p := set_sawRoot false p in
  let p := set_error None p in
  let p := set_state Begin p in
  let p := set_attribList [] p in
  let p := set_tags [] p in
  let p := set_line 0 p in
  let p := set_column 0 p in
  let p := set_position 0 p in
  let p := set_startTagPosition 0 p in
  let p := set_closed false p in
  let p := set_tag None p in
  set_entities (if strictEntities (options p) then XmlEntities H else Entities H) p.

(** ** The cases of the [switch] in [write] *)

(** [case State.Text] after the scan, with the value [c] that the scan
    left in the loop variable: a character, or [''] at the end of the
    chunk. *)
Definition textAfterScan (c : jsstr) (p : Parser) : Parser :=
  if is1 c "<" && negb (sawRoot p && closedRoot p && negb (strict p)) then
    let p := set_state OpenWaka p in
    set_startTagPosition (position p) p
  else
    let p := if negb (existsb isWhitespace c) && (negb (sawRoot p) || closedRoot p)
             then strictFail (u "Text data outside of root node.") p else p in
    if is1 c "&" then set_state TextEntity p
    else setb_textNode (textNode (buffer p) ++ c) p.

(** [case State.Text] for a chunk that ends with the character [c]: the
    scan reads [c] and then the end of the chunk. *)
Definition textLastChar (c : jschar) (p : Parser) : Parser :=
  if sawRoot p && negb (closedRoot p) then
    if negb (eqc c "<") && negb (eqc c "&")
    then textAfterScan [] (setb_textNode (textNode (buffer p) ++ [c]) p)
    else textAfterScan [c] (setb_textNode (textNode (buffer p) ++ []) p)
  else textAfterScan [c] p.

(** [TextEntity], [AttribValueEntityQ] and [AttribValueEntityU]: the
    buffer named by [buffer] is [textNode] when [toText], else
    [attribValue]. *)
Definition target (toText : bool) (p : Parser) : jsstr :=
  if toText then textNode (buffer p) else attribValue (buffer p).

Definition set_target (toText : bool) (v : jsstr) (p : Parser) : Parser :=
  if toText then setb_textNode v p else setb_attribValue v p.

Definition entityCase (returnState : State) (toText : bool) (c : jschar)
           (p : Parser) : Outcome :=
  if eqc c ";" then
    let old := target toText p in
    match parseEntity p with
    | (Some v, p) =>
        let p := set_target toText (old ++ v) p in
        let p := setb_entity [] p in
        Ok (set_state returnState p)
    | (None, p) => Throw ExnRangeError p
    end
  else if (if nonEmpty (entity (buffer p)) then entityBody H else entityStart H) c then
    Ok (setb_entity (entity (buffer p) ++ [c]) p)
  else
    let p := strictFail (u "Invalid character in entity name") p in
    let p := set_target toText (target toText p ++ u "&" ++ entity (buffer p) ++ [c]) p in
    let p := setb_entity [] p in
    Ok (set_state returnState p).

(** The body of one [case] for the character [c]; [State.Text] is given
    for a character that ends the chunk ([textLastChar]), the scan over a
    longer chunk is in [writeLoop]. *)
Definition dispatch (c : jschar) (p : Parser) : Outcome :=
  let b := buffer p in
  match state p with
  | Begin =>
      let p := set_state BeginWhitespace p in
      if N.eqb c 65279 then Ok p else Ok (beginWhiteSpace c p)
  | BeginWhitespace => Ok (beginWhiteSpace c p)
  | Text => Ok (textLastChar c p)
  | Script =>
      if eqc c "<" then Ok (set_state ScriptEnding p)
      else Ok (setb_script (script b ++ [c]) p)
  | ScriptEnding =>
      if eqc c "/" then Ok (set_state CloseTag p)
      else Ok (set_state Script (setb_script (script b ++ u "<" ++ [c]) p))
  | OpenWaka =>
      if eqc c "!" then Ok (setb_sgmlDecl [] (set_state SgmlDecl p))
      else if isWhitespace c then Ok p
      else if nameStart H c then Ok (setb_tagName [c] (set_state OpenTag p))
      else if eqc c "/" then Ok (setb_tagName [] (set_state CloseTag p))
      else if eqc c "?" then
        Ok (setb_procInstName [] (setb_procInstBody [] (set_state ProcInst p)))
      else
        let p := strictFail (u "Unencoded <") p in
        let c' :=
          if startTagPosition p + 1 <? position p then
            let pad := position p - startTagPosition p in
            repeat (ch " ") (Z.to_nat (pad - 1)) ++ [c]
          else [c] in
        let p := setb_textNode (textNode (buffer p) ++ u "<" ++ c') p in
        Ok (set_state Text p)
  | SgmlDecl =>
      if eqs (toUpperCase H (sgmlDecl b ++ [c])) CDATA then
        let p := flushText p in
        let p := emit EvOpenCData p in
        Ok (setb_cdata [] (setb_sgmlDecl [] (set_state CData p)))
      else if eqs (sgmlDecl b ++ [c]) (u "--") then
        Ok (setb_sgmlDecl [] (setb_comment [] (set_state Comment p)))
      else if eqs (toUpperCase H (sgmlDecl b ++ [c])) DOCTYPE then
        let p := set_state DocType p in
        let p := if doctype_truthy (doctype b) || sawRoot p
                 then strictFail (u "Inappropriately located doctype declaration") p
                 else p in
        Ok (setb_sgmlDecl [] (setb_doctype (DocString []) p))
      else if eqc c ">" then
        let p := flushText p in
        let p := emit (EvSgmlDeclaration (sgmlDecl (buffer p))) p in
        Ok (set_state Text (setb_sgmlDecl [] p))
      else if isQuote c then
        Ok (setb_sgmlDecl (sgmlDecl b ++ [c]) (set_state SgmlDeclQuoted p))
      else Ok (setb_sgmlDecl (sgmlDecl b ++ [c]) p)
  | SgmlDeclQuoted =>
      let p := if eqs [c] (previousChar p)
               then set_previousChar [] (set_state SgmlDecl p) else p in
      Ok (setb_sgmlDecl (sgmlDecl (buffer p) ++ [c]) p)
  | DocType =>
      if eqc c ">" then
        let p := set_state Text p in
        let p := flushText p in
        let p := emit (EvDoctype (doctype_toString (doctype (buffer p)))) p in
        Ok (setb_doctype DocTrue p)
      else
        let p := setb_doctype (doctype_append (doctype b) c) p in
        if eqc c "[" then Ok (set_state DocTypeDTD p)
        else if isQuote c then Ok (set_previousChar [c] (set_state DocTypeQuoted p))
        else Ok p
  | DocTypeQuoted =>
      let p := setb_doctype (doctype_append (doctype b) c) p in
      if eqs [c] (previousChar p)
      then Ok (set_state DocType (set_previousChar [] p)) else Ok p
  | DocTypeDTD =>
      let p := setb_doctype (doctype_append (doctype b) c) p in
      if eqc c "]" then Ok (set_state DocType p)
      else if isQuote c then Ok (set_previousChar [c] (set_state DocTypeDTDQuoted p))
      else Ok p
  | DocTypeDTDQuoted =>
      let p := setb_doctype (doctype_append (doctype b) c) p in
      if eqs [c] (previousChar p)
      then Ok (set_previousChar [] (set_state DocTypeDTD p)) else Ok p
  | Comment =>
      if eqc c "-" then Ok (set_state CommentEnding p)
      else Ok (setb_comment (comment b ++ [c]) p)
  | CommentEnding =>
      if eqc c "-" then
        let p := set_state CommentEnded p in
        let p := setb_comment (textopts (comment (buffer p)) p) p in
        let p := if nonEmpty (comment (buffer p))
                 then emit (EvComment (comment (buffer p))) (flushText p)
                 else p in
        Ok (setb_comment [] p)
      else Ok (set_state Comment (setb_comment (comment b ++ u "-" ++ [c]) p))
  | CommentEnded =>
      if negb (eqc c ">") then
        let p := strictFail (u "Malformed comment") p in
        let p := setb_comment (comment (buffer p) ++ u "--" ++ [c]) p in
        Ok (set_state Comment p)
      else Ok (set_state Text p)
  | CData =>
      if eqc c "]" then Ok (set_state CDataEnding p)
      else Ok (setb_cdata (cdata b ++ [c]) p)
  | CDataEnding =>
      if eqc c "]" then Ok (set_state CDataEnding2 p)
      else Ok (set_state CData (setb_cdata (cdata b ++ u "]" ++ [c]) p))
  | CDataEnding2 =>
      if eqc c ">" then
        let p := if nonEmpty (cdata (buffer p))
                 then emit (EvCData (cdata (buffer p))) (flushText p)
                 else p in
        let p := flushText p in
        let p := emit EvCloseCData p in
        Ok (set_state Text (setb_cdata [] p))
      else if eqc c "]" then Ok (setb_cdata (cdata b ++ u "]") p)
      else Ok (set_state CData (setb_cdata (cdata b ++ u "]]" ++ [c]) p))
  | ProcInst =>
      if eqc c "?" then Ok (set_state ProcInstEnding p)
      else if isWhitespace c then Ok (set_state ProcInstBody p)
      else Ok (setb_procInstName (procInstName b ++ [c]) p)
  | ProcInstBody =>
      if negb (nonEmpty (procInstBody b)) && isWhitespace c then Ok p
      else if eqc c "?" then Ok (set_state ProcInstEnding p)
      else Ok (setb_procInstBody (procInstBody b ++ [c]) p)
  | ProcInstEnding =>
      if eqc c ">" then
        let p := flushText p in
        let p := emit (EvProcessingInstruction (procInstName (buffer p))
                                               (procInstBody (buffer p))) p in
        Ok (set_state Text (setb_procInstName [] (setb_procInstBody [] p)))
      else
        Ok (set_state ProcInstBody (setb_procInstBody (procInstBody b ++ u "?" ++ [c]) p))
  | OpenTag =>
      if nameBody H c then Ok (setb_tagName (tagName b ++ [c]) p)
      else
        let p := newTag p in
        if eqc c ">" then Ok (openTag false p)
        else if eqc c "/" then Ok (set_state OpenTagSlash p)
        else
          let p := if negb (isWhitespace c)
                   then strictFail (u "Invalid character in tag name") p else p in
          Ok (set_state Attrib p)
  | OpenTagSlash =>
      if eqc c ">" then Ok (closeTag (openTag true p))
      else
        let p := strictFail (u "Forward-slash in opening tag not followed by >") p in
        Ok (set_state Attrib p)
  | Attrib =>
      if isWhitespace c then Ok p
      else if eqc c ">" then Ok (openTag false p)
      else if eqc c "/" then Ok (set_state OpenTagSlash p)
      else if nameStart H c then
        Ok (set_state AttribName (setb_attribValue [] (setb_attribName [c] p)))
      else Ok (strictFail (u "Invalid attribute name") p)
  | AttribName =>
      if eqc c "=" then Ok (set_state AttribValue p)
      else if eqc c ">" then
        let p := strictFail (u "Attribute without value") p in
        let p := setb_attribValue (attribName (buffer p)) p in
        andThen (attrib p) (fun p => Ok (openTag false p))
      else if isWhitespace c then Ok (set_state AttribNameSawWhite p)
      else if nameBody H c then Ok (setb_attribName (attribName b ++ [c]) p)
      else Ok (strictFail (u "Invalid attribute name") p)
  | AttribNameSawWhite =>
      if eqc c "=" then Ok (set_state AttribValue p)
      else if isWhitespace c then Ok p
      else
        let p := strictFail (u "Attribute without value") p in
        match tag p with
        | None => Throw (ExnError (u "Unexpected error where tag is undefined")) p
        | Some t =>
            let p := set_tag (Some (tag_with_attributes
                       (assign (attribName (buffer p)) (APlain []) (tg_attributes t)) t)) p in
            let p := setb_attribValue [] p in
            let p := flushText p in
            let p := emit (EvAttribute (attribName (buffer p)) (APlain [])) p in
            let p := setb_attribName [] p in
            if eqc c ">" then Ok (openTag false p)
            else if nameStart H c then
              Ok (set_state AttribName (setb_attribName [c] p))
            else
              let p := strictFail (u "Invalid attribute name") p in
              Ok (set_state Attrib p)
        end
  | AttribValue =>
      if isWhitespace c then Ok p
      else if isQuote c then
        Ok (set_state AttribValueQuoted (set_previousChar [c] p))
      else
        let p := strictFail (u "Unquoted attribute value") p in
        Ok (setb_attribValue [c] (set_state AttribValueUnquoted p))
  | AttribValueQuoted =>
      if negb (eqs [c] (previousChar p)) then
        if eqc c "&" then Ok (set_state AttribValueEntityQ p)
        else Ok (setb_attribValue (attribValue b ++ [c]) p)
      else
        andThen (attrib p)
          (fun p => Ok (set_state AttribValueClosed (set_previousChar [] p)))
  | AttribValueClosed =>
      if isWhitespace c then Ok (set_state Attrib p)
      else if eqc c ">" then Ok (openTag false p)
      else if eqc c "/" then Ok (set_state OpenTagSlash p)
      else if nameStart H c then
        let p := strictFail (u "No whitespace between attributes") p in
        Ok (set_state AttribName (setb_attribValue [] (setb_attribName [c] p)))
      else Ok (strictFail (u "Invalid attribute name") p)
  | AttribValueUnquoted =>
      if negb (isAttribEnd c) then
        if eqc c "&" then Ok (set_state AttribValueEntityU p)
        else Ok (setb_attribValue (attribValue b ++ [c]) p)
      else
        andThen (attrib p)
          (fun p => if eqc c ">" then Ok (openTag false p)
                    else Ok (set_state Attrib p))
  | CloseTag =>
      if negb (nonEmpty (tagName b)) then
        if isWhitespace c then Ok p
        else if negb (nameStart H c) then
          if nonEmpty (script b) then
            Ok (set_state Script (setb_script (script b ++ u "</" ++ [c]) p))
          else Ok (strictFail (u "Invalid tagname in closing tag.") p)
        else Ok (setb_tagName [c] p)
      else if eqc c ">" then Ok (closeTag p)
      else if nameBody H c then Ok (setb_tagName (tagName b ++ [c]) p)
      else if nonEmpty (script b) then
        let p := setb_script (script b ++ u "</" ++ tagName b) p in
        Ok (set_state Script (setb_tagName [] p))
      else
        let p := if negb (isWhitespace c)
                 then strictFail (u "Invalid tagname in closing tag") p else p in
        Ok (set_state CloseTagSawWhite p)
  | CloseTagSawWhite =>
      if isWhitespace c then Ok p
      else if eqc c ">" then Ok (closeTag p)
      else Ok (strictFail (u "Invalid characters in closing tag") p)
  | TextEntity => entityCase Text true c p
  | AttribValueEntityQ => entityCase AttribValueQuoted false c p
  | AttribValueEntityU => entityCase AttribValueUnquoted false c p
  | CommentStarting => Throw (ExnError (u "Unknown state: 11")) p
  end.

(** ** [write] *)

Section TextScan.

(** The rest of the outer [while (true)] loop, entered again by
    [continue]. *)
Variable continue : Parser -> jsstr -> Outcome.

(** The inner [while (c && c !== '<' && c !== '&')] of [case State.Text].
    [start] is the chunk from [startIndex] on, [n] the number of
    characters scanned so far, [c] the loop variable and [rest] the chunk
    from index [i] on; [chunk.substring(startIndex, i - 1)] is taken
    when the loop stops. *)
Fixpoint textScan (start : jsstr) (n : nat) (c : jschar) (rest : jsstr)
         (p : Parser) {struct rest} : Outcome :=
  if negb (eqc c "<") && negb (eqc c "&") then
    match rest with
    | [] =>
        let p := setb_textNode (textNode (buffer p) ++ firstn (S n) start) p in
        continue (textAfterScan [] p) rest
    | c' :: rest' => textScan start (S n) c' rest' (updatePosition c' p)
    end
  else
    let p := setb_textNode (textNode (buffer p) ++ firstn n start) p in
    continue (textAfterScan [c] p) rest.

End TextScan.

(** The loop of [write] over the characters of the chunk. *)
Fixpoint writeLoop (p : Parser) (chunk : jsstr) {struct chunk} : Outcome :=
  match chunk with
  | [] => Ok (set_currentChar [] p)
  | c :: rest =>
      let p := set_currentChar [c] p in
      let p := updatePosition c p in
      match state p with
      | Text =>
          if sawRoot p && negb (closedRoot p)
          then textScan writeLoop chunk 0 c rest p
          else writeLoop (textAfterScan [c] p) rest
      | _ =>
          match dispatch c p with
          | Ok p => writeLoop p rest
          | Throw e p => Throw e p
          end
      end
  end.

(** [write(chunk)]; [None] is [undefined]. *)
Definition write (chunk : option jsstr) (p : Parser) : Outcome :=
  match error p with
  | Some e => Throw (ExnError e) p
  | None =>
      let p := if closed p
               then emitError (u "Cannot write after close. Assign an onready handler.") p
               else p in
      match chunk with
      | None => Ok (end_ p)
      | Some chunk =>
          match writeLoop p chunk with
          | Ok p =>
              Ok (if position p >=? bufferCheckPosition p
                  then checkBufferLength p else p)
          | Throw e p => Throw e p
          end
      end
  end.

Definition resume (p : Parser) : Parser := set_error None p.

Definition close (p : Parser) : Outcome := write None p.

Definition flush (p : Parser) : Parser :=
  let p := closeText p in
  let p := if nonEmpty (cdata (buffer p)) then
             let p := flushText p in
             let p := emit (EvCData (cdata (buffer p))) p in
             setb_cdata [] p
           else p in
  if nonEmpty (script (buffer p)) then
    let p := flushText p in
    let p := emit (EvScript (script (buffer p))) p in
    setb_script [] p
  else p.

End SAXParser.

(** ** A host for running the parser

    Modelled from the spec: the predicates of [data/Regex] and the tables of
    [data/Entities], which the parser imports and which are not among the
    sources.  The spec describes the predicates by the XML 1.0 Name
    production (and numeric references begin with a number sign) and names
    the five predefined entities; the larger table is cut down to them.  The
    case conversions act on the letters A to Z, as the host does on strings
    of such characters. *)

Definition inRange (lo hi c : N) : bool := ((lo <=? c) && (c <=? hi))%N.

Definition xmlNameStart (c : jschar) : bool :=
  eqc c ":" || eqc c "_" || inRange 65 90 c || inRange 97 122 c
  || inRange 192 214 c || inRange 216 246 c || inRange 248 767 c
  || inRange 880 893 c || inRange 895 8191 c || inRange 8204 8205 c
  || inRange 8304 8591 c || inRange 11264 12271 c || inRange 12289 55295 c
  || inRange 63744 64975 c || inRange 65008 65533 c.

Definition xmlNameBody (c : jschar) : bool :=
  xmlNameStart c || eqc c "-" || eqc c "." || inRange 48 57 c
  || N.eqb c 183 || inRange 768 879 c || inRange 8255 8256 c.

Definition predefinedEntities : list (jsstr * jsstr) :=
  [(u "amp", u "&"); (u "gt", u ">"); (u "lt", u "<");
   (u "quot", [QUOT]); (u "apos", u "'")].

Definition asciiLower (c : jschar) : jschar :=
  if inRange 65 90 c then (c + 32)%N else c.
Definition asciiUpper (c : jschar) : jschar :=
  if inRange 97 122 c then (c - 32)%N else c.

(** The strings of Node.js for the properties of [Object.prototype]. *)
Definition nodeInheritedText (k : jsstr) : jsstr :=
  if eqs k (u "__proto__") then u "[object Object]"
  else u "function "
         ++ (if eqs k (u "constructor") then u "Object" else k)
         ++ u "() { [native code] }".

(** The digits of the integer: one of the results that ECMAScript allows
    for [num.toString(16)] past 2^53. *)
Definition exactHex (x : N) : jsstr := toStringRadix 16 (Z.of_N x).

Definition specHost : Host :=
  {| nameStart := xmlNameStart;
     nameBody := xmlNameBody;
     entityStart := fun c => eqc c "#" || xmlNameStart c;
     entityBody := fun c => eqc c "#" || xmlNameBody c;
     Entities := predefinedEntities;
     XmlEntities := predefinedEntities;
     toLowerCase := map asciiLower;
     toUpperCase := map asciiUpper;
     inheritedText := nodeInheritedText;
     hexOfLarge := exactHex |}.

(** A whole document given in chunks, then [end()].  A [write] that throws
    leaves the parser as it is at the [throw]; the caller goes on with the
    next chunk. *)
Fixpoint writeAll (H : Host) (chunks : list jsstr) (p : Parser) : Parser :=
  match chunks with
  | [] => p
  | chunk :: chunks' => writeAll H chunks' (parserOf (write H (Some chunk) p))
  end.

Definition parseChunks (H : Host) (strict0 : bool) (opts : IOptions)
           (chunks : list jsstr) : list Event :=
  events (end_ H (writeAll H chunks (newParser H strict0 opts))).

Definition parse (H : Host) (strict0 : bool) (opts : IOptions) (input : jsstr)
  : list Event :=
  parseChunks H strict0 opts [input].

(** ** Definitions used by the statements *)

(** The parser seen without its output: what [_closeText], [_emitError] and
    [_strictFail] leave alone. *)
Definition onlyOutput (p q : Parser) : Prop :=
  q = set_events (events q)
        (set_error (error q) (setb_textNode (textNode (buffer q)) p)).

(** The fields that no character of a chunk changes, and those that only
    [_updatePosition] changes. *)
Definition staticPart (p : Parser) :=
  (closed p, strict p, options p, entities p, bufferCheckPosition p).

Definition fixedPart (p : Parser) :=
  (staticPart p, line p, column p, position p).

(** The loop of [write] taken one character at a time: every character is
    given to the [case] of the current state as if the chunk ended with it. *)
Fixpoint stepChars (H : Host) (p : Parser) (chunk : jsstr) : Outcome :=
  match chunk with
  | [] => Ok (set_currentChar [] p)
  | c :: rest =>
      match dispatch H c (updatePosition c (set_currentChar [c] p)) with
      | Ok q => stepChars H q rest
      | Throw e q => Throw e q
      end
  end.

(** In the Text state inside the root element, where [write] scans ahead. *)
Definition inText (p : Parser) : Prop :=
  state p = Text /\ sawRoot p = true /\ closedRoot p = false.

(** A write that starts with no error latched on an open parser, returns,
    does not reach the offset of the next buffer check and leaves no error
    latched. *)
Definition quietWrite (H : Host) (chunk : jsstr) (p : Parser) : option Parser :=
  match error p with
  | Some _ => None
  | None =>
      if closed p then None
      else match writeLoop H p chunk with
           | Ok q =>
               if position q >=? bufferCheckPosition q then None
               else match error q with None => Some q | Some _ => None end
           | Throw _ _ => None
           end
  end.

Fixpoint quietWrites (H : Host) (chunks : list jsstr) (p : Parser) : option Parser :=
  match chunks with
  | [] => Some p
  | chunk :: chunks' =>
      match quietWrite H chunk p with
      | Some q => quietWrites H chunks' q
      | None => None
      end
  end.

(** The text event that [_closeText] emits, if any. *)
Definition textEvent (p : Parser) : list Event :=
  let t := textopts (textNode (buffer p)) p in
  if nonEmpty t then [EvText t] else [].

(** The message of an error event: the position is appended when it is
    tracked. *)
Definition errorMessage (message : jsstr) (p : Parser) : jsstr :=
  if trackPosition (options p)
  then message ++ [NL] ++ u "Line: " ++ numberToString (line p)
               ++ [NL] ++ u "Column: " ++ numberToString (column p)
               ++ [NL] ++ u "Char: " ++ currentChar p
  else message.

(** The attribute name as [_attrib] uses it: folded to one case unless the
    parser is strict. *)
Definition normalisedAttribName (H : Host) (p : Parser) : jsstr :=
  if strict p then attribName (buffer p)
  else caseFold H (attribName (buffer p)) p.

(** The test of [_attrib] for an attribute that is already on the current
    tag [t]: the staging list is looked at first, and [hasOwnProperty] is
    only called for a name that is not there; [None] when the call throws. *)
Definition duplicateAttrib (H : Host) (p : Parser) (t : Tag) : option bool :=
  if containsAttrb (normalisedAttribName H p) p then Some true
  else hasOwnProperty (normalisedAttribName H p) (tg_attributes t).

(** [<a foo="1" foo="2"/>] *)
Definition duplicateAttribInput : jsstr :=
  u "<a foo=" ++ [QUOT] ++ u "1" ++ [QUOT] ++ u " foo=" ++ [QUOT] ++ u "2"
    ++ [QUOT] ++ u "/>".

(** [<a hasOwnProperty="1" hasOwnProperty="2"/>] *)
Definition shadowedInput : jsstr :=
  u "<a hasOwnProperty=" ++ [QUOT] ++ u "1" ++ [QUOT] ++ u " hasOwnProperty="
    ++ [QUOT] ++ u "2" ++ [QUOT] ++ u "/>".

(** A namespace declaration that may not be made: [xml] or [xmlns] bound to
    another URI than its own. *)
Definition reservedBinding (local0 value : jsstr) : bool :=
  (eqs local0 (u "xml") && negb (eqs value XML_NAMESPACE))
  || (eqs local0 (u "xmlns") && negb (eqs value XMLNS_NAMESPACE)).

(** The parser after the direct store of [case State.AttribNameSawWhite]:
    the name with the value [''] written into the attributes of the tag
    [t], the text flushed and the attribute event emitted. *)
Definition storedWithoutValue (t : Tag) (p : Parser) : Parser :=
  let p := strictFail (u "Attribute without value") p in
  let p := set_tag (Some (tag_with_attributes
             (assign (attribName (buffer p)) (APlain []) (tg_attributes t)) t)) p in
  let p := setb_attribValue [] p in
  let p := flushText p in
  let p := emit (EvAttribute (attribName (buffer p)) (APlain [])) p in
  setb_attribName [] p.

(** [<a foo="1" foo ], with namespaces on: the name comes a second time and
    is followed by white space. *)
Definition sawWhiteInput : jsstr :=
  u "<a foo=" ++ [QUOT] ++ u "1" ++ [QUOT] ++ u " foo ".

(** [<a __proto__ b>] *)
Definition protoAttribInput : jsstr := u "<a __proto__ b>".

Definition xmlnsOptions : IOptions :=
  {| trim := false; normalize := false; lowercase := false; xmlns := true;
     trackPosition := false; strictEntities := false; noscript := false |}.

(** [<root xmlns:p="urn:x"] without the closing quote of the value. *)
Definition bindingInput : jsstr :=
  u "<root xmlns:p=" ++ [QUOT] ++ u "urn:x".

(** [<a xmlns:__proto__="u"] with the closing quote of the value. *)
Definition protoBindingInput : jsstr :=
  u "<a xmlns:__proto__=" ++ [QUOT] ++ u "u" ++ [QUOT].

(** The UTF-16 code units of a code point. *)
Definition codeUnits (n : Z) : jsstr :=
  if n <? 65536 then [Z.to_N n]
  else [Z.to_N (55296 + (n - 65536) / 1024); Z.to_N (56320 + (n - 65536) mod 1024)].

Definition entityInput : jsstr := u "<a>&amp;&#65;&#x42;</a>".

(** A reference to the number after the last code point. *)
Definition rangeErrorInput : jsstr := u "<a>&#x110000;</a>".

(** A reference to a name that every object inherits. *)
Definition inheritedEntityInput : jsstr := u "<a>&constructor;</a>".

(** The name that [_closeTag] looks for on the stack. *)
Definition closeTarget (H : Host) (p : Parser) : jsstr :=
  if strict p then tagName (buffer p) else caseFold H (tagName (buffer p)) p.

(** Script text is being buffered and the closing tag is not that of a
    script: the test of [_closeTag] is on the name as it was read. *)
Definition inScriptText (p : Parser) : bool :=
  nonEmpty (script (buffer p)) && negb (eqs (tagName (buffer p)) (u "script")).

(** The parser after [_closeTag] has emitted the script, if there is one. *)
Definition scriptEmitted (p : Parser) : Parser :=
  if nonEmpty (script (buffer p)) then
    let p := flushText p in
    let p := emit (EvScript (script (buffer p))) p in
    setb_script [] p
  else p.

(** The part of a parser that the walk of [_closeTag] reads. *)
Definition walkInput (p : Parser) :=
  (tags p, tagName (buffer p), strict p, options p, closedRoot p).

(** A tag with a name and nothing else. *)
Definition mkTag (name : jsstr) : Tag :=
  {| tg_name := name; tg_attributes := []; tg_isSelfClosing := false;
     tg_ns := None; tg_prefix := None; tg_local := None; tg_uri := None |}.

Definition otherName (name : jsstr) (t : Tag) : bool := negb (eqs (tg_name t) name).

(** The map of the parent of a tag that lies on the stack [below]. *)
Definition parentNamespaceOf (withNs : bool) (below : list Tag) : NsObj :=
  match lastTag below with
  | Some parent => if withNs then the_ns parent else emptyObject
  | None => rootNS
  end.

(** The events of one pop: the close of the tag and, with namespaces on and
    a map of its own, the close of each of its own bindings. *)
Definition closeEvents (withNs : bool) (parent : NsObj) (t : Tag) : list Event :=
  EvCloseTag (tg_name t)
  :: (if withNs && negb (ns_same (the_ns t) parent)
      then map (fun k => EvCloseNamespace k (ns_get_or_undefined (the_ns t) k))
               (map fst (ns_own (the_ns t)))
      else []).

(** The events of popping the tags [popped], given from the top of the
    stack down, off the stack [below ++ rev popped]. *)
Fixpoint popEvents (withNs : bool) (below : list Tag) (popped : list Tag) : list Event :=
  match popped with
  | [] => []
  | t :: rest =>
      closeEvents withNs (parentNamespaceOf withNs (below ++ rev rest)) t
      ++ popEvents withNs below rest
  end.

(** The limit that [_checkBufferLength] compares with. *)
Definition maxAllowedLength : Z := Z.max MAX_BUFFER_LENGTH 10.

(** The doctype buffer as a string; the check skips it when it is [true]. *)
Definition doctypeString (b : IBuffer) : jsstr :=
  match doctype b with DocString d => d | DocTrue => [] end.

(** The buffers in the order in which [_checkBufferLength] visits them. *)
Definition bufferChecks : list (BufferKey * (IBuffer -> jsstr)) :=
  [ (Kcomment, comment); (KsgmlDecl, sgmlDecl); (KtextNode, textNode);
    (KtagName, tagName); (Kdoctype, doctypeString);
    (KprocInstName, procInstName); (KprocInstBody, procInstBody);
    (Kentity, entity); (KattribName, attribName); (KattribValue, attribValue);
    (Kcdata, cdata); (Kscript, script) ].

Definition runChecks (steps : list (BufferKey * (IBuffer -> jsstr)))
           (st : Z * Parser) : Z * Parser :=
  fold_left (fun st kr => checkNext (fst kr) (snd kr) maxAllowedLength st) steps st.

(** The parser seen without its output and without the two other buffers
    that the check may flush. *)
Definition checkFrame (p q : Parser) : Prop :=
  q = set_events (events q)
        (set_error (error q)
           (setb_textNode (textNode (buffer q))
              (setb_cdata (cdata (buffer q))
                 (setb_script (script (buffer q)) p)))).

(** The text of [p] has been emitted and the buffer is empty in [r]. *)
Definition flushedText (p r : Parser) : Prop :=
  textNode (buffer r) = [] /\ incl (textEvent p) (events r).

(** What the check owes for the buffer [k], found with the content [b] in
    the parser [p], in the parser [r] after the check. *)
Definition triggered (k : BufferKey) (b : jsstr) (p r : Parser) : Prop :=
  match k with
  | KtextNode => flushedText p r
  | Kcdata => cdata (buffer r) = [] /\ In (EvCData b) (events r)
  | Kscript => script (buffer r) = [] /\ In (EvScript b) (events r)
  | _ => error r <> None
         /\ In (EvError (errorMessage (u "Max buffer length exceeded: " ++ b) p)) (events r)
  end.

Definition tooLong (b : jsstr) : Prop := Z.of_nat (length b) > maxAllowedLength.

(** A reader reads the buffer of its key. *)
Definition readerOf (k : BufferKey) (read : IBuffer -> jsstr) : Prop :=
  match k with
  | KtextNode => read = textNode
  | Kcdata => read = cdata
  | Kscript => read = script
  | _ => forall p q, checkFrame p q -> read (buffer q) = read (buffer p)
  end.

Definition keysOf (steps : list (BufferKey * (IBuffer -> jsstr))) : list BufferKey :=
  map fst steps.

(** What a run of checks keeps. *)
Definition checked (keys : list BufferKey) (p r : Parser) : Prop :=
  checkFrame p r
  /\ (exists evs, events r = events p ++ evs)
  /\ (error p <> None -> error r <> None)
  /\ (textNode (buffer r) = textNode (buffer p) \/ flushedText p r)
  /\ (cdata (buffer r) = cdata (buffer p) \/ In Kcdata keys)
  /\ (script (buffer r) = script (buffer p) \/ In Kscript keys).

(** A character that the scan of the Text state takes as text. *)
Definition ordinary (c : jschar) : bool := negb (eqc c "<") && negb (eqc c "&").

Definition trackingOptions : IOptions :=
  {| trim := false; normalize := false; lowercase := false; xmlns := false;
     trackPosition := true; strictEntities := false; noscript := false |}.

(** A parser at offset 70000 inside a CDATA section of 65537 characters. *)
Definition longCData : Parser :=
  set_position 70000
    (setb_cdata (repeat (ch "x") (N.to_nat 65537))
       (parserOf (write specHost (Some (u "<a><![CDATA["))
                    (newParser specHost false trackingOptions)))).

(** The parser after [<a>], in non-strict mode with the default options. *)
Definition afterOpenTag : Parser :=
  Eval vm_compute in
    parserOf (stepChars specHost (newParser specHost false defaultOptions) (u "<a>")).

(** ** Definitions used by the further properties *)

(** A name piece: a string without a colon. *)
Definition noColon (s : jsstr) : bool := negb (indexOf_colon s).

(** The line feeds of a chunk, and the column after it. *)
Fixpoint countNL (s : jsstr) : Z :=
  match s with
  | [] => 0
  | c :: s' => (if N.eqb c NL then 1 else 0) + countNL s'
  end.

Fixpoint columnAfter (col : Z) (s : jsstr) : Z :=
  match s with
  | [] => col
  | c :: s' => columnAfter (if N.eqb c NL then 0 else col + 1) s'
  end.

(** The public methods, and a sequence of calls on one parser; a call that
    throws leaves the parser as it is at the [throw]. *)
Inductive Call : Type :=
| CallWrite (chunk : option jsstr)
| CallEnd
| CallResume
| CallClose
| CallFlush.

Definition call (H : Host) (c : Call) (p : Parser) : Parser :=
  match c with
  | CallWrite chunk => parserOf (write H chunk p)
  | CallEnd => end_ H p
  | CallResume => resume p
  | CallClose => parserOf (close H p)
  | CallFlush => flush p
  end.

Definition calls (H : Host) (cs : list Call) (p : Parser) : Parser :=
  fold_left (fun p c => call H c p) cs p.

(** The event of a buffer that [flush] emits when it is not empty. *)
Definition bufferEvent (mk : jsstr -> Event) (b : jsstr) : list Event :=
  if nonEmpty b then [mk b] else [].

(** The errors of [end()]. *)
Definition endErrors (p : Parser) : list Event :=
  (if sawRoot p && negb (closedRoot p) && strict p
   then [EvError (errorMessage (u "Unclosed root tag") p)] else [])
  ++ match state p with
     | Begin | BeginWhitespace | Text => []
     | _ => [EvError (errorMessage (u "Unexpected end") p)]
     end.

(** A chunk with a line feed, and the parser after it, with position
    tracking. *)
Definition trackedInput : jsstr := u "<a>" ++ [NL] ++ u "bc".

Definition trackedParser : Parser :=
  Eval vm_compute in
    parserOf (write specHost (Some trackedInput) (newParser specHost false trackingOptions)).

(** [s.startsWith(pat)] and [s.includes(pat)] *)
Fixpoint startsWith (pat s : jsstr) : bool :=
  match pat, s with
  | [], _ => true
  | a :: pat', b :: s' => N.eqb a b && startsWith pat' s'
  | _ :: _, [] => false
  end.

Fixpoint occursIn (pat s : jsstr) : bool :=
  startsWith pat s
  || match s with
     | [] => false
     | _ :: s' => occursIn pat s'
     end.

(** What a run of characters inside a construct leaves alone. *)
Definition keeps (p q : Parser) : Prop :=
  events q = events p /\ error q = error p /\ tags q = tags p
  /\ textNode (buffer q) = textNode (buffer p) /\ options q = options p
  /\ strict q = strict p /\ sawRoot q = sawRoot p /\ closedRoot q = closedRoot p.

(** The three states inside a CDATA section, with the brackets that the
    state has seen and not yet put into the buffer. *)
Definition inCData (st : State) : bool :=
  match st with CData | CDataEnding | CDataEnding2 => true | _ => false end.

Definition cdataPending (st : State) : jsstr :=
  match st with
  | CDataEnding => u "]"
  | CDataEnding2 => u "]]"
  | _ => []
  end.

(** The dash that [CommentEnding] has seen and not yet put into the buffer. *)
Definition commentPending (st : State) : jsstr :=
  match st with CommentEnding => u "-" | _ => [] end.

Definition inComment (st : State) : bool :=
  match st with Comment | CommentEnding => true | _ => false end.

(** The comment event for the buffered text [b]: none when the text is
    empty after [_textopts]; the text node is flushed before the event. *)
Definition commentEvents (b : jsstr) (p : Parser) : list Event :=
  if nonEmpty (textopts b p) then textEvent p ++ [EvComment (textopts b p)] else [].

(** A character of the target of a processing instruction, and a body
    that [ProcInstBody] takes from its first character on. *)
Definition piNameChar (c : jschar) : bool := negb (eqc c "?") && negb (isWhitespace c).

Definition piBody (body : jsstr) : bool :=
  forallb (fun c => negb (eqc c "?")) body
  && match body with
     | c :: _ => negb (isWhitespace c)
     | [] => true
     end.

Definition BOM : jschar := 65279%N.

(** An event that the parser can emit: not [ready], and with a payload
    that is not the empty string for text, comment, cdata and script. *)
Definition wellFormedEvent (e : Event) : bool :=
  match e with
  | EvReady => false
  | EvText s | EvComment s | EvCData s | EvScript s => nonEmpty s
  | _ => true
  end.

(** The log of [q] is the log of [p] followed by such events. *)
Definition grows (p q : Parser) : Prop :=
  exists evs, events q = events p ++ evs /\ forallb wellFormedEvent evs = true.

(** The names of the attribute events of a log, in order. *)
Definition attributeNames (evs : list Event) : list jsstr :=
  flat_map (fun e => match e with EvAttribute n _ => [n] | _ => [] end) evs.

Definition attrs (p : Parser) : list jsstr := attributeNames (events p).

Definition isAttribute (e : Event) : bool :=
  match e with EvAttribute _ _ => true | _ => false end.

(** The states between the name of an opening tag and its end, where the
    cases of [write] use the tag being built. *)
Definition tagState (st : State) : bool :=
  match st with
  | OpenTagSlash | Attrib | AttribName | AttribNameSawWhite | AttribValue
  | AttribValueQuoted | AttribValueClosed | AttribValueUnquoted
  | AttribValueEntityQ | AttribValueEntityU => true
  | _ => false
  end.

Definition isSome {A : Type} (o : option A) : bool :=
  match o with Some _ => true | None => false end.

(** The state is one that [write] has a case for, and in a state that
    uses the tag being built there is one. *)
Definition soundState (st : State) (t : option Tag) : bool :=
  match st with
  | CommentStarting => false
  | _ => negb (tagState st) || isSome t
  end.

Definition sound (p : Parser) : bool := soundState (state p) (tag p).

(** The states in which the end of an entity is read. *)
Definition entityState (st : State) : bool :=
  match st with
  | TextEntity | AttribValueEntityQ | AttribValueEntityU => true
  | _ => false
  end.

(** The exceptions that the loop of [write] lets through: the
    [RangeError] of [String.fromCodePoint] at the end of an entity, and
    the [TypeError] of the call of [hasOwnProperty] on the attributes of a
    tag that has an attribute of that name.  An [Error] of its own, thrown
    for a tag that is undefined or a state that is unknown, is not among
    them. *)
Definition explained (o : Outcome) : bool :=
  match o with
  | Ok _ => true
  | Throw (ExnError _) _ => false
  | Throw ExnRangeError q => entityState (state q)
  | Throw ExnTypeError q =>
      match tag q with
      | Some t => ownKey (u "hasOwnProperty") (tg_attributes t)
      | None => false
      end
  end.

(** The exceptions of [write]: the latched error, thrown with the parser
    as it is, or one that the loop lets through with no error latched. *)
Definition writeThrows (p : Parser) (o : Outcome) : Prop :=
  match o with
  | Ok _ => True
  | Throw (ExnError e) q => error p = Some e /\ q = p
  | Throw ExnRangeError q => error p = None /\ entityState (state q) = true
  | Throw ExnTypeError q =>
      error p = None
      /\ exists t, tag q = Some t
                   /\ ownKey (u "hasOwnProperty") (tg_attributes t) = true
  end.

(** Parsers in the middle of a document, in non-strict mode with the
    default options: inside a CDATA section, inside a comment, inside a
    processing instruction and after the root element. *)
Definition inCDataParser : Parser :=
  Eval vm_compute in
    parserOf (stepChars specHost (newParser specHost false defaultOptions)
                (u "<a><![CDATA[")).

Definition inCommentParser : Parser :=
  Eval vm_compute in
    parserOf (stepChars specHost (newParser specHost false defaultOptions)
                (u "<a>text<!--")).

Definition inProcInstParser : Parser :=
  Eval vm_compute in
    parserOf (stepChars specHost (newParser specHost false defaultOptions) (u "<?")).

Definition afterRootParser : Parser :=
  Eval vm_compute in
    parserOf (stepChars specHost (newParser specHost false defaultOptions)
                (u "<a></a>")).

(** A parser with namespaces on, inside an opening tag with two staged
    attributes. *)
Definition stagedInput : jsstr :=
  u "<a x=" ++ [QUOT] ++ u "1" ++ [QUOT] ++ u " y=" ++ [QUOT] ++ u "2" ++ [QUOT].

Definition stagedParser : Parser :=
  Eval vm_compute in
    parserOf (stepChars specHost (newParser specHost true xmlnsOptions) stagedInput).

(** A parser with the name of a numeric reference in the entity buffer. *)
Definition euroParser : Parser :=
  setb_entity (u "#8364") (newParser specHost false defaultOptions).

Definition errorFree (e : Event) : bool :=
  match e with EvError _ => false | _ => true end.

(** From a parser that is not strict, [q] is reached with no error
    reported: none emitted, none latched. *)
Definition lenient (p q : Parser) : Prop :=
  strict p = false ->
  strict q = false /\ error q = error p
  /\ exists evs, events q = events p ++ evs /\ forallb errorFree evs = true.

(** The tag of [p] as [_openTag(true)] pushes it, without namespaces. *)
Definition selfClosed (t : Tag) : Tag := tag_with_selfClosing true t.

(** No white space at the beginning. *)
Definition startsClean (s : jsstr) : bool :=
  match s with
  | [] => true
  | c :: _ => negb (isJsSpace c)
  end.

(** No white space at either end. *)
Definition trimmed (s : jsstr) : bool := startsClean s && startsClean (rev s).

(** Every white space character is a space and is followed by another
    character than white space, or by nothing. *)
Fixpoint singleSpaced (s : jsstr) : bool :=
  match s with
  | [] => true
  | c :: s' =>
      (if isJsSpace c then eqc c " " && startsClean s' else true) && singleSpaced s'
  end.

(** A name as the [CloseTag] state reads it: a first character that is no
    white space and starts a name, then name characters other than [>]. *)
Definition closingName (H : Host) (name : jsstr) : bool :=
  match name with
  | [] => false
  | c :: rest =>
      negb (isWhitespace c) && nameStart H c
      && forallb (fun x => negb (eqc x ">") && nameBody H x) rest
  end.

(** A character of a value quoted with [q]: not the quote and not the
    ampersand of an entity. *)
Definition valueChar (q c : jschar) : bool := negb (N.eqb c q) && negb (eqc c "&").

(** The parser inside a quoted attribute value: [p] with the value read so
    far, at another position. *)
Definition insideValue (q : jschar) (v : jsstr) (l k n : Z) (cc : jsstr) (p : Parser)
  : Parser :=
  set_column k
    (set_line l
       (set_position n
          (set_currentChar cc
             (set_state AttribValueQuoted
                (set_previousChar [q] (setb_attribValue v p)))))).

(** The tag [t] with one more attribute. *)
Definition withAttribute (name value : jsstr) (t : Tag) : Tag :=
  tag_with_attributes (assign name (APlain value) (tg_attributes t)) t.

(** The prefix [k] is bound to [v] in the namespace map [ns]. *)
Definition boundTo (ns : NsObj) (k v : jsstr) : bool :=
  match ns_get ns k with
  | Some x => eqs x v
  | None => false
  end.

(** The two reserved prefixes are bound to their namespaces. *)
Definition reservedBound (ns : NsObj) : bool :=
  boundTo ns (u "xml") XML_NAMESPACE && boundTo ns (u "xmlns") XMLNS_NAMESPACE.

(** With namespaces on ([w]), the tag has a map and the map binds the
    reserved prefixes. *)
Definition tagScoped (w : bool) (t : Tag) : bool :=
  if w
  then match tg_ns t with Some ns => reservedBound ns | None => false end
  else true.

Definition scoped (p : Parser) : bool :=
  forallb (tagScoped (xmlns (options p))) (tags p)
  && match tag p with
     | Some t => tagScoped (xmlns (options p)) t
     | None => true
     end.

(** [q] is in scope when [p] is. *)
Definition scopes (p q : Parser) : Prop := scoped p = true -> scoped q = true.

(** The stack of open elements that a listener keeps from the events
    alone: [opentag] pushes the tag, [closetag] pops the top, which must
    have the name of the event, and [end] empties the stack.  [None] when
    a [closetag] finds no tag of its name on top. *)
Fixpoint replay (evs : list Event) (stack : list Tag) : option (list Tag) :=
  match evs with
  | [] => Some stack
  | EvOpenTag t :: rest => replay rest (stack ++ [t])
  | EvCloseTag name :: rest =>
      match lastTag stack with
      | Some t =>
          if eqs (tg_name t) name then replay rest (removelast stack) else None
      | None => None
      end
  | EvEnd :: rest => replay rest []
  | _ :: rest => replay rest stack
  end.

(** An event that leaves the stack of the listener alone. *)
Definition neutral (e : Event) : bool :=
  match e with
  | EvOpenTag _ | EvCloseTag _ | EvEnd => false
  | _ => true
  end.

(** The events added from [p] to [q] take the stack of [p] to the stack
    of [q]. *)
Definition nested (p q : Parser) : Prop :=
  exists evs, events q = events p ++ evs /\ replay evs (tags p) = Some (tags q).

(** The states in which [_previousChar] holds the quote that opened a
    quoted string. *)
Definition inQuote (st : State) : bool :=
  match st with
  | DocTypeQuoted | DocTypeDTDQuoted | AttribValueQuoted | AttribValueEntityQ => true
  | _ => false
  end.

(** Outside these states [_previousChar] is the empty string. *)
Definition quoteKept (p : Parser) : bool :=
  inQuote (state p) || negb (nonEmpty (previousChar p)).

Definition keepsPrev (p q : Parser) : Prop := previousChar q = previousChar p.

(** A name that a start tag can have: its first character starts a name
    and is neither the exclamation mark nor white space, the others
    continue a name. *)
Definition elementName (H : Host) (name : jsstr) : bool :=
  match name with
  | [] => false
  | c :: rest =>
      negb (eqc c "!") && negb (isWhitespace c) && nameStart H c
      && forallb (nameBody H) rest
  end.

(** The name of the tag that [_newTag] makes from the name [name]. *)
Definition openedName (H : Host) (name : jsstr) (p : Parser) : jsstr :=
  if strict p then name else caseFold H name p.

(** The state after [_openTag] for a tag of the name [name]. *)
Definition stateAfterOpen (H : Host) (name : jsstr) (p : Parser) : State :=
  if negb (strict p || noscript (options p)) && eqs (toLowerCase H name) (u "script")
  then Script else Text.

(** A character of a doctype outside quotes and outside the internal
    subset: not the greater-than sign, not the opening bracket and not a
    quote. *)
Definition plainDoctypeChar (c : jschar) : bool :=
  negb (eqc c ">") && negb (eqc c "[") && negb (isQuote c).

(** The doctype buffer as a string. *)
Definition doctypeText (p : Parser) : jsstr := doctype_toString (doctype (buffer p)).

(** Parsers in the middle of a document, in non-strict mode with the
    default options: at the start of a comment, before the [>] of [<br/>],
    inside a script element and before the quote of an attribute value. *)
Definition commentStartParser : Parser :=
  Eval vm_compute in
    parserOf (stepChars specHost (newParser specHost false defaultOptions)
                (u "<a><!--")).

Definition selfClosingParser : Parser :=
  Eval vm_compute in
    parserOf (stepChars specHost (newParser specHost false defaultOptions)
                (u "<a><br/")).

Definition inScriptParser : Parser :=
  Eval vm_compute in
    parserOf (stepChars specHost (newParser specHost false defaultOptions)
                (u "<script>")).

Definition beforeValueParser : Parser :=
  Eval vm_compute in
    parserOf (stepChars specHost (newParser specHost false defaultOptions)
                (u "<a x=")).

(** One write that stops after the opening quote of [<!ENTITY e "v">]. *)
Definition sgmlQuoteCalls : list Call :=
  [CallWrite (Some (u "<!ENTITY e " ++ [QUOT]))].

(** A parser inside a doctype declaration. *)
Definition inDoctypeParser : Parser :=
  Eval vm_compute in
    parserOf (stepChars specHost (newParser specHost false defaultOptions)
                (u "<!DOCTYPE")).

(** * Properties *)

(** ** Strings *)

Lemma eqs_refl (a : jsstr) : eqs a a = true.
Proof.
  induction a as [|x a IH]; simpl; [reflexivity|].
  now rewrite N.eqb_refl, IH.
Qed.

Lemma eqs_eq (a b : jsstr) : eqs a b = true <-> a = b.
Proof.
  split.
  - revert b. induction a as [|x a IH]; intros [|y b]; simpl; try discriminate; auto.
    intros E. apply andb_true_iff in E. destruct E as [E1 E2].
    apply N.eqb_eq in E1. apply IH in E2. now subst.
  - intros ->. apply eqs_refl.
Qed.

Lemma eqs_neq (a b : jsstr) : eqs a b = false <-> a <> b.
Proof.
  split.
  - intros E F. apply eqs_eq in F. congruence.
  - intros F. destruct (eqs a b) eqn:E; [|reflexivity].
    apply eqs_eq in E. contradiction.
Qed.

(** ** What the output primitives leave alone *)

Section Frames.

Lemma onlyOutput_refl p : onlyOutput p p.
Proof. destruct p as [? ? ? ? ? ? ? ? ? ? ? ? ? ? ? ? ? ? [] ? ?]. reflexivity. Qed.

Lemma onlyOutput_trans p q r : onlyOutput p q -> onlyOutput q r -> onlyOutput p r.
Proof.
  unfold onlyOutput. intros E1 E2. rewrite E2, E1. reflexivity.
Qed.

Lemma onlyOutput_emit e p : onlyOutput p (emit e p).
Proof. destruct p as [? ? ? ? ? ? ? ? ? ? ? ? ? ? ? ? ? ? [] ? ?]. reflexivity. Qed.

Lemma onlyOutput_closeText p : onlyOutput p (closeText p).
Proof.
  destruct p as [? ? ? ? ? ? ? ? ? ? ? ? ? ? ? ? ? ? [] ? ?].
  unfold closeText. cbn.
  match goal with |- context [nonEmpty ?t] => destruct (nonEmpty t) end; reflexivity.
Qed.

Lemma onlyOutput_flushText p : onlyOutput p (flushText p).
Proof.
  unfold flushText. destruct (nonEmpty _).
  - apply onlyOutput_closeText.
  - apply onlyOutput_refl.
Qed.

Lemma onlyOutput_emitError m p : onlyOutput p (emitError m p).
Proof.
  unfold emitError.
  eapply onlyOutput_trans; [apply onlyOutput_closeText|].
  generalize (closeText p). intros q.
  destruct q as [? ? ? ? ? ? ? ? ? ? ? ? ? ? ? ? ? ? [] ? ?]. reflexivity.
Qed.

Lemma onlyOutput_strictFail m p : onlyOutput p (strictFail m p).
Proof.
  unfold strictFail. destruct (strict p).
  - apply onlyOutput_emitError.
  - apply onlyOutput_refl.
Qed.

Lemma onlyOutput_fixed p q : onlyOutput p q -> fixedPart q = fixedPart p.
Proof. intros E. rewrite E. reflexivity. Qed.

Lemma onlyOutput_tags p q : onlyOutput p q -> tags q = tags p.
Proof. intros E. rewrite E. reflexivity. Qed.

Lemma onlyOutput_tag p q : onlyOutput p q -> tag q = tag p.
Proof. intros E. rewrite E. reflexivity. Qed.

Lemma onlyOutput_attribList p q : onlyOutput p q -> attribList q = attribList p.
Proof. intros E. rewrite E. reflexivity. Qed.

Lemma onlyOutput_state p q : onlyOutput p q -> state q = state p.
Proof. intros E. rewrite E. reflexivity. Qed.

Lemma fixed_closeText p : fixedPart (closeText p) = fixedPart p.
Proof. apply onlyOutput_fixed, onlyOutput_closeText. Qed.

Lemma fixed_flushText p : fixedPart (flushText p) = fixedPart p.
Proof. apply onlyOutput_fixed, onlyOutput_flushText. Qed.

Lemma fixed_emitError m p : fixedPart (emitError m p) = fixedPart p.
Proof. apply onlyOutput_fixed, onlyOutput_emitError. Qed.

Lemma fixed_strictFail m p : fixedPart (strictFail m p) = fixedPart p.
Proof. apply onlyOutput_fixed, onlyOutput_strictFail. Qed.

End Frames.

Create HintDb frames.
#[export] Hint Resolve fixed_closeText fixed_flushText fixed_emitError
  fixed_strictFail : frames.

(** [fixedPart (f ... q) = fixedPart p] is reduced to the same goal for [q]
    when [f] is a field update or has a frame lemma; conditionals are split
    and a destructuring [let] is replaced by projections. *)
Ltac is_update f :=
  lazymatch f with
  | emit _ => idtac
  | set_startTagPosition _ => idtac | set_tag _ => idtac | set_error _ => idtac
  | set_state _ => idtac | set_attribList _ => idtac | set_tags _ => idtac
  | set_currentChar _ => idtac | set_previousChar _ => idtac
  | set_closedRoot _ => idtac | set_sawRoot _ => idtac | set_buffer _ => idtac
  | set_events _ => idtac | set_nextNsId _ => idtac
  | setb_comment _ => idtac | setb_sgmlDecl _ => idtac | setb_textNode _ => idtac
  | setb_tagName _ => idtac | setb_doctype _ => idtac | setb_procInstName _ => idtac
  | setb_procInstBody _ => idtac | setb_entity _ => idtac | setb_attribName _ => idtac
  | setb_attribValue _ => idtac | setb_cdata _ => idtac | setb_script _ => idtac
  | set_target _ _ => idtac | clearBuffers => idtac
  end.

Ltac peel :=
  lazymatch goal with
  | |- fixedPart ?a = fixedPart ?a => reflexivity
  | |- fixedPart (snd (?f ?q)) = _ =>
      transitivity (fixedPart q); [solve [auto with frames]|]
  | |- fixedPart (?f ?q) = _ =>
      transitivity (fixedPart q);
      [first [is_update f; destruct q as [? ? ? ? ? ? ? ? ? ? ? ? ? ? ? ? ? ? [] ? ?];
              try match goal with |- context [set_target ?b] => destruct b end;
              reflexivity
             | solve [auto with frames]]|]
  end.

Ltac unpair :=
  match goal with
  | |- context [match ?x with (_, _) => _ end] =>
      rewrite (surjective_pairing x); cbv iota
  end.

Ltac split_cases :=
  match goal with
  | |- context [if ?b then _ else _] => destruct b eqn:?
  | |- context [match ?x with Some _ => _ | None => _ end] => destruct x eqn:?
  end.

Ltac frame := repeat first [peel | unpair | split_cases].

Section Frames2.

Variable H : Host.

Lemma fixed_beginWhiteSpace c p : fixedPart (beginWhiteSpace c p) = fixedPart p.
Proof. unfold beginWhiteSpace. frame. Qed.

Lemma fixed_newTag p : fixedPart (newTag H p) = fixedPart p.
Proof. unfold newTag. frame. Qed.

Lemma fixed_parseEntity p : fixedPart (snd (parseEntity H p)) = fixedPart p.
Proof.
  unfold parseEntity.
  repeat first [split_cases | unpair | progress cbn [snd]]; auto with frames.
Qed.

Lemma fixed_attrib p : fixedPart (parserOf (attrib H p)) = fixedPart p.
Proof.
  unfold attrib, clearAttribBuffers.
  repeat first [peel | unpair | split_cases | progress cbn [parserOf]].
Qed.

Lemma fixed_emitOpenNamespaces ns keys p :
  fixedPart (emitOpenNamespaces ns keys p) = fixedPart p.
Proof.
  revert p. induction keys as [|k keys IH]; intros p; simpl; [reflexivity|].
  rewrite IH. frame.
Qed.

Lemma fixed_emitCloseNamespaces ns keys p :
  fixedPart (emitCloseNamespaces ns keys p) = fixedPart p.
Proof.
  revert p. induction keys as [|k keys IH]; intros p; simpl; [reflexivity|].
  rewrite IH. frame.
Qed.

Lemma fixed_emitStagedAttributes l t p :
  fixedPart (snd (emitStagedAttributes l t p)) = fixedPart p.
Proof.
  revert t p. induction l as [|[name value] l IH]; intros t p;
    cbn [emitStagedAttributes]; frame.
Qed.

Lemma fixed_findOpenTag t closeTo p :
  fixedPart (snd (findOpenTag t closeTo p)) = fixedPart p.
Proof.
  revert p. induction t as [|t IH]; intros p; cbn [findOpenTag]; frame.
Qed.

Lemma fixed_popTag p : fixedPart (popTag p) = fixedPart p.
Proof.
  unfold popTag. frame; rewrite fixed_emitCloseNamespaces; frame.
Qed.

Lemma fixed_popTags n p : fixedPart (popTags n p) = fixedPart p.
Proof.
  revert p. induction n as [|n IH]; intros p; simpl; [reflexivity|].
  rewrite IH. apply fixed_popTag.
Qed.

End Frames2.

#[export] Hint Resolve fixed_beginWhiteSpace fixed_newTag fixed_attrib
  fixed_emitOpenNamespaces fixed_emitCloseNamespaces fixed_popTag
  fixed_popTags fixed_parseEntity fixed_emitStagedAttributes
  fixed_findOpenTag : frames.

Section Frames3.

Variable H : Host.

Lemma fixed_openTag b p : fixedPart (openTag H b p) = fixedPart p.
Proof. unfold openTag, clearAttribBuffers. frame. Qed.

Lemma fixed_closeTag p : fixedPart (closeTag H p) = fixedPart p.
Proof. unfold closeTag. frame. Qed.

Lemma fixed_textAfterScan c p : fixedPart (textAfterScan c p) = fixedPart p.
Proof. unfold textAfterScan. frame. Qed.

Lemma fixed_textLastChar c p : fixedPart (textLastChar c p) = fixedPart p.
Proof. pose proof fixed_textAfterScan. unfold textLastChar. frame. Qed.

Lemma fixed_entityCase st b c p :
  fixedPart (parserOf (entityCase H st b c p)) = fixedPart p.
Proof.
  unfold entityCase.
  repeat first [peel | split_cases | progress cbn [parserOf]
               | match goal with
                 | |- context [parseEntity H ?q] =>
                     pose proof (fixed_parseEntity H q);
                     destruct (parseEntity H q) as [[v|] r]; cbn [snd] in *
                 end]; assumption.
Qed.

End Frames3.

#[export] Hint Resolve fixed_openTag fixed_closeTag fixed_textAfterScan
  fixed_textLastChar fixed_entityCase : frames.

Section Frames4.

Variable H : Host.

Lemma fixed_dispatch c p : fixedPart (parserOf (dispatch H c p)) = fixedPart p.
Proof.
  unfold dispatch. cbv zeta.
  destruct (state p);
    repeat first [peel | split_cases | progress cbn [parserOf]
                 | solve [auto with frames]
                 | match goal with
                   | |- context [andThen (attrib H ?q) _] =>
                       let E := fresh "E" in
                       unfold andThen; pose proof (fixed_attrib H q) as E;
                       destruct (attrib H q); cbn [parserOf] in E |- *
                   | E : fixedPart ?r = fixedPart _ |- fixedPart ?r = _ =>
                       rewrite E; clear E
                   end].
Qed.

Lemma static_updatePosition c p : staticPart (updatePosition c p) = staticPart p.
Proof. unfold updatePosition. repeat split_cases; reflexivity. Qed.

Lemma fixed_static p q : fixedPart q = fixedPart p -> staticPart q = staticPart p.
Proof. unfold fixedPart. congruence. Qed.

End Frames4.

(** ** The scan of the Text state against the character-wise reading *)

Section Chunking.

Variable H : Host.

Lemma setb_textNode_same p : setb_textNode (textNode (buffer p) ++ []) p = p.
Proof.
  destruct p as [? ? ? ? ? ? ? ? ? ? ? ? ? ? ? ? ? ? [] ? ?].
  unfold setb_textNode, set_buffer. cbn. now rewrite app_nil_r.
Qed.

Lemma firstn_snoc (start : jsstr) n c rest :
  skipn n start = c :: rest ->
  firstn (S n) start = firstn n start ++ [c] /\ skipn (S n) start = rest.
Proof.
  revert start. induction n as [|n IH]; intros [|x start] E; try discriminate.
  - cbn in E. injection E as -> ->. split; reflexivity.
  - cbn [skipn] in E. destruct (IH _ E) as [E1 E2]. split.
    + change (x :: firstn (S n) start = x :: (firstn n start ++ [c])).
      f_equal. exact E1.
    + exact E2.
Qed.

Lemma writeLoop_currentChar x p chunk :
  writeLoop H (set_currentChar x p) chunk = writeLoop H p chunk.
Proof. destruct chunk; reflexivity. Qed.

Lemma stepChars_currentChar x p chunk :
  stepChars H (set_currentChar x p) chunk = stepChars H p chunk.
Proof. destruct chunk; reflexivity. Qed.

Lemma inText_updatePosition c p : inText p -> inText (updatePosition c p).
Proof.
  unfold inText, updatePosition. intros I.
  repeat split_cases; exact I.
Qed.

Lemma textAfterScan_empty p :
  inText p -> textAfterScan [] p = p.
Proof.
  intros (E1 & E2 & E3). unfold textAfterScan.
  rewrite E2, E3. cbn. apply setb_textNode_same.
Qed.

Lemma dispatch_inText c p :
  inText p ->
  dispatch H c p =
    Ok (if negb (eqc c "<") && negb (eqc c "&")
        then setb_textNode (textNode (buffer p) ++ [c]) p
        else textAfterScan [c] p).
Proof.
  intros I. pose proof I as (E1 & E2 & E3).
  unfold dispatch. rewrite E1. cbv zeta. unfold textLastChar.
  rewrite E2, E3. cbn [andb negb].
  destruct (negb (eqc c "<") && negb (eqc c "&")).
  - rewrite textAfterScan_empty; [reflexivity|exact I].
  - now rewrite setb_textNode_same.
Qed.

Lemma textAfterScan_currentChar c x p :
  inText p ->
  textAfterScan [c] (set_currentChar x p) = set_currentChar x (textAfterScan [c] p).
Proof.
  intros (E1 & E2 & E3). unfold textAfterScan.
  change (sawRoot (set_currentChar x p)) with (sawRoot p).
  change (closedRoot (set_currentChar x p)) with (closedRoot p).
  rewrite E2, E3. cbn [negb andb orb].
  rewrite !andb_false_r.
  repeat split_cases; reflexivity.
Qed.

Lemma scanned_state c c' v w p :
  w = v ++ [c] ->
  updatePosition c' (set_currentChar [c']
      (setb_textNode (textNode (buffer (setb_textNode v p)) ++ [c]) (setb_textNode v p)))
  = set_currentChar [c']
      (setb_textNode w (updatePosition c' p)).
Proof.
  intros ->. unfold updatePosition. cbn. repeat split_cases; reflexivity.
Qed.

Lemma scan_and_loop rest :
  (forall p, writeLoop H p rest = stepChars H p rest) /\
  (forall start n c p,
      inText p -> skipn n start = c :: rest ->
      textScan (writeLoop H) start n c rest p =
        match dispatch H c (setb_textNode (textNode (buffer p) ++ firstn n start) p) with
        | Ok q => stepChars H q rest
        | Throw e q => Throw e q
        end).
Proof.
  induction rest as [|c' rest' [IHA IHB]].
  - split; [reflexivity|].
    intros start n c p I E.
    rewrite dispatch_inText by exact I.
    destruct (firstn_snoc _ _ _ _ E) as [F _].
    cbn [textScan].
    destruct (negb (eqc c "<") && negb (eqc c "&")).
    + rewrite F, textAfterScan_empty by exact I.
      cbn [writeLoop stepChars].
      change (textNode (buffer (setb_textNode ?v p))) with v.
      rewrite app_assoc. reflexivity.
    + reflexivity.
  - assert (A : forall p, writeLoop H p (c' :: rest') = stepChars H p (c' :: rest')).
    { intros p. cbn [writeLoop stepChars].
      set (p1 := updatePosition c' (set_currentChar [c'] p)).
      destruct (state p1) eqn:S;
        try (destruct (dispatch H c' p1); [apply IHA | reflexivity]).
      destruct (sawRoot p1 && negb (closedRoot p1)) eqn:R.
      - apply andb_true_iff in R. destruct R as [R1 R2].
        apply negb_true_iff in R2.
        rewrite IHB with (n := O); [|repeat split; assumption|reflexivity].
        cbn [firstn]. rewrite setb_textNode_same. reflexivity.
      - rewrite IHA. unfold dispatch. rewrite S. cbv zeta.
        unfold textLastChar. rewrite R. reflexivity. }
    split; [exact A|].
    intros start n c p I E.
    rewrite dispatch_inText by exact I.
    destruct (firstn_snoc _ _ _ _ E) as [F G].
    cbn [textScan].
    destruct (negb (eqc c "<") && negb (eqc c "&")).
    + rewrite IHB; [|apply inText_updatePosition; exact I|exact G].
      cbn [stepChars].
      rewrite (scanned_state c c' _
                 (textNode (buffer (updatePosition c' p)) ++ firstn (S n) start)).
      * set (X := setb_textNode _ (updatePosition c' p)).
        assert (IX : inText X) by (apply (inText_updatePosition c' p); exact I).
        assert (IY : inText (set_currentChar [c'] X)) by exact IX.
        rewrite !dispatch_inText by assumption.
        destruct (negb (eqc c' "<") && negb (eqc c' "&")).
        -- change (setb_textNode (textNode (buffer (set_currentChar [c'] X)) ++ [c'])
                     (set_currentChar [c'] X))
             with (set_currentChar [c'] (setb_textNode (textNode (buffer X) ++ [c']) X)).
           now rewrite stepChars_currentChar.
        -- rewrite textAfterScan_currentChar by exact IX.
           now rewrite stepChars_currentChar.
      * rewrite F, app_assoc. f_equal. f_equal.
        unfold updatePosition. repeat split_cases; reflexivity.
    + apply A.
Qed.

(** The loop of [write], with its scan over runs of text, does what the
    character-wise reading does. *)
Lemma writeLoop_stepChars p chunk : writeLoop H p chunk = stepChars H p chunk.
Proof. apply scan_and_loop. Qed.

Lemma stepChars_app p a b :
  stepChars H p (a ++ b) =
    match stepChars H p a with
    | Ok q => stepChars H q b
    | Throw e q => Throw e q
    end.
Proof.
  revert p. induction a as [|c a IH]; intros p.
  - cbn [app stepChars]. now rewrite stepChars_currentChar.
  - cbn [app stepChars].
    destruct (dispatch H c _); [apply IH | reflexivity].
Qed.

Lemma static_stepChars p chunk :
  staticPart (parserOf (stepChars H p chunk)) = staticPart p.
Proof.
  revert p. induction chunk as [|c chunk IH]; intros p; [reflexivity|].
  cbn [stepChars].
  pose proof (fixed_dispatch H c (updatePosition c (set_currentChar [c] p))) as F.
  apply fixed_static in F. rewrite static_updatePosition in F.
  destruct (dispatch H c _) as [q|e q]; cbn [parserOf] in *.
  - rewrite IH. exact F.
  - exact F.
Qed.

Lemma quietWrite_write chunk p q :
  quietWrite H chunk p = Some q -> write H (Some chunk) p = Ok q.
Proof.
  unfold quietWrite, write.
  destruct (error p); [discriminate|].
  destruct (closed p); [discriminate|].
  destruct (writeLoop H p chunk) as [r|]; [|discriminate].
  destruct (position r >=? bufferCheckPosition r); [discriminate|].
  destruct (error r); [discriminate|].
  now intros [= ->].
Qed.

Lemma write_split a b p q :
  quietWrite H a p = Some q ->
  write H (Some (a ++ b)) p = write H (Some b) q.
Proof.
  unfold quietWrite, write.
  destruct (error p); [discriminate|].
  destruct (closed p) eqn:C; [discriminate|].
  rewrite !writeLoop_stepChars, stepChars_app.
  pose proof (static_stepChars p a) as S.
  destruct (stepChars H p a) as [r|]; [|discriminate].
  destruct (position r >=? bufferCheckPosition r); [discriminate|].
  destruct (error r) eqn:E; [discriminate|].
  intros [= <-]. rewrite E.
  cbn [parserOf] in S. unfold staticPart in S.
  assert (C' : closed r = false) by congruence.
  rewrite C'. reflexivity.
Qed.

Lemma writeAll_app a b p : writeAll H (a ++ b) p = writeAll H b (writeAll H a p).
Proof.
  revert p. induction a as [|x a IH]; intros p; [reflexivity|].
  cbn [app writeAll]. apply IH.
Qed.

Lemma writes_join chunks last p q :
  quietWrites H chunks p = Some q ->
  write H (Some (concat chunks ++ last)) p = write H (Some last) q
  /\ writeAll H chunks p = q.
Proof.
  revert p. induction chunks as [|a chunks IH]; intros p.
  - cbn. intros [= ->]. split; reflexivity.
  - cbn [quietWrites concat writeAll].
    destruct (quietWrite H a p) as [r|] eqn:Q; [|discriminate].
    intros E. destruct (IH _ E) as [E1 E2].
    rewrite <- app_assoc, (write_split _ _ _ _ Q), E1.
    rewrite (quietWrite_write _ _ _ Q). cbn [parserOf]. split; [reflexivity|exact E2].
Qed.

End Chunking.

(** ** Chunked input *)

(** C1, as amended.  When every write but the last starts with no error
    latched on an open parser, returns, stays below the offset of the next
    buffer check and leaves no error latched, the parser after the chunked
    writes is the parser after one write of the whole input; so the events
    after the same [end()] are the same. *)
Theorem chunked_writes_agree (H : Host) (chunks : list jsstr) (last : jsstr) (p : Parser) :
  quietWrites H chunks p <> None ->
  writeAll H (chunks ++ [last]) p = writeAll H [concat chunks ++ last] p
  /\ events (end_ H (writeAll H (chunks ++ [last]) p))
     = events (end_ H (writeAll H [concat chunks ++ last] p)).
Proof.
  intros Q. destruct (quietWrites H chunks p) as [q|] eqn:E; [|contradiction].
  destruct (writes_join H chunks last p q E) as [E1 E2].
  assert (W : writeAll H (chunks ++ [last]) p = writeAll H [concat chunks ++ last] p).
  { rewrite writeAll_app, E2. cbn [writeAll]. symmetry. exact (f_equal parserOf E1). }
  split; [exact W | now rewrite W].
Qed.

Lemma chunked_writes_agree_witness :
  let p := newParser specHost false defaultOptions in
  writeAll specHost ([u "<a>he"; u "llo &a"; u "mp; you</"] ++ [u "a>"]) p
  = writeAll specHost [concat [u "<a>he"; u "llo &a"; u "mp; you</"] ++ u "a>"] p
  /\ events (end_ specHost
               (writeAll specHost ([u "<a>he"; u "llo &a"; u "mp; you</"] ++ [u "a>"]) p))
     = events (end_ specHost
                 (writeAll specHost
                    [concat [u "<a>he"; u "llo &a"; u "mp; you</"] ++ u "a>"] p)).
Proof.
  intros p.
  apply (chunked_writes_agree specHost [u "<a>he"; u "llo &a"; u "mp; you</"] (u "a>") p).
  vm_compute. discriminate.
Defined.

(** C1, as stated, fails in strict mode: an error emitted in one chunk is
    latched, the write of the next chunk throws it and the rest of the
    document is not parsed. *)
Lemma chunked_writes_counterexample :
  parseChunks specHost true defaultOptions [u "<a></b>"; u "</a>"]
  <> parse specHost true defaultOptions (concat [u "<a></b>"; u "</a>"]).
Proof. vm_compute. discriminate. Qed.

(** ** The events of the output primitives *)

Section Output.

Lemma closeText_events p : events (closeText p) = events p ++ textEvent p.
Proof.
  unfold closeText, textEvent. cbn.
  destruct (nonEmpty _); cbn; [reflexivity | now rewrite app_nil_r].
Qed.

Lemma closeText_textNode p : textNode (buffer (closeText p)) = [].
Proof. reflexivity. Qed.

Lemma emitError_events m p :
  events (emitError m p) = events p ++ textEvent p ++ [EvError (errorMessage m p)].
Proof.
  change (events (emitError m p))
    with (events (closeText p) ++ [EvError (errorMessage m (closeText p))]).
  assert (E : errorMessage m (closeText p) = errorMessage m p).
  { rewrite (onlyOutput_closeText p). reflexivity. }
  rewrite E, closeText_events, app_assoc. reflexivity.
Qed.

Lemma emitError_error m p : error (emitError m p) = Some (errorMessage m p).
Proof.
  change (error (emitError m p)) with (Some (errorMessage m (closeText p))).
  rewrite (onlyOutput_closeText p). reflexivity.
Qed.

Lemma emitError_textNode m p : textNode (buffer (emitError m p)) = [].
Proof. reflexivity. Qed.

End Output.

(** ** The end of a document *)

Section End.

Variable H : Host.

(** What [end()] emits: the text and errors of its completion sequence,
    then [end]. *)
Lemma end_events p :
  exists evs,
    events (end_ H p) = events p ++ evs ++ [EvEnd]
    /\ Forall (fun e => exists s, e = EvText s \/ e = EvError s) evs.
Proof.
  set (p1 := if sawRoot p && negb (closedRoot p)
             then strictFail (u "Unclosed root tag") p else p).
  set (p2 := match state p1 with
             | Begin | BeginWhitespace | Text => p1
             | _ => emitError (u "Unexpected end") p1
             end).
  change (events (end_ H p)) with (events (closeText p2) ++ [EvEnd]).
  assert (T : forall q, Forall (fun e => exists s, e = EvText s \/ e = EvError s)
                          (textEvent q)).
  { intros q. unfold textEvent. cbv zeta. destruct (nonEmpty _); repeat constructor.
    eexists. left. reflexivity. }
  assert (X : forall m q, exists evs, events (emitError m q) = events q ++ evs
            /\ Forall (fun e => exists s, e = EvText s \/ e = EvError s) evs).
  { intros m q. eexists. split; [apply emitError_events|].
    apply Forall_app. split; [apply T|]. repeat constructor. eexists. right. reflexivity. }
  assert (E1 : exists evs, events p1 = events p ++ evs
            /\ Forall (fun e => exists s, e = EvText s \/ e = EvError s) evs).
  { subst p1. unfold strictFail.
    destruct (sawRoot p && negb (closedRoot p)), (strict p);
      try apply X; exists []; rewrite app_nil_r; split; constructor. }
  assert (E2 : exists evs, events p2 = events p1 ++ evs
            /\ Forall (fun e => exists s, e = EvText s \/ e = EvError s) evs).
  { subst p2. destruct (state p1);
      try apply X; exists []; rewrite app_nil_r; split; constructor. }
  destruct E1 as (e1 & E1 & F1), E2 as (e2 & E2 & F2).
  exists (e1 ++ e2 ++ textEvent p2). split.
  - rewrite closeText_events, E2, E1, <- !app_assoc. reflexivity.
  - repeat (apply Forall_app; split); auto.
Qed.

(** After [end()] the parser is back in its initial state, whatever it
    was. *)
Lemma end_resets p :
  state (end_ H p) = Begin /\ sawRoot (end_ H p) = false
  /\ closedRoot (end_ H p) = false /\ buffer (end_ H p) = emptyBuffers
  /\ error (end_ H p) = None /\ closed (end_ H p) = false
  /\ tags (end_ H p) = [] /\ tag (end_ H p) = None.
Proof. repeat split. Qed.

Lemma end_fresh p :
  state p = Begin -> sawRoot p = false -> textNode (buffer p) = [] ->
  events (end_ H p) = events p ++ [EvEnd].
Proof.
  intros S R T.
  change (events (end_ H p))
    with (events (closeText
                    (let p1 := if sawRoot p && negb (closedRoot p)
                               then strictFail (u "Unclosed root tag") p else p in
                     match state p1 with
                     | Begin | BeginWhitespace | Text => p1
                     | _ => emitError (u "Unexpected end") p1
                     end)) ++ [EvEnd]).
  rewrite R. cbn [andb]. cbv zeta. rewrite S.
  rewrite closeText_events. unfold textEvent, textopts. rewrite T.
  destruct (trim (options p)), (normalize (options p)); cbn;
    now rewrite app_nil_r.
Qed.

End End.

(** C3, as amended.  [end()] on a parser on which [end()] has completed
    finds the parser reset and emits exactly one more [end] event, and
    nothing else. *)
Theorem end_after_end (H : Host) (p : Parser) :
  events (end_ H (end_ H p)) = events (end_ H p) ++ [EvEnd].
Proof. apply end_fresh; reflexivity. Qed.

(** C3, as stated, fails: there is no closed parser after [end()], which
    resets the [closed] flag, and a second [end()] emits a second [end]. *)
Lemma end_after_end_counterexample :
  let p := end_ specHost (newParser specHost false defaultOptions) in
  closed p = false /\ events p = [EvEnd] /\ events (end_ specHost p) = [EvEnd; EvEnd].
Proof. vm_compute. repeat split. Qed.

(** C9.  [end()] resets the parser and fires no [ready] event: it emits
    text and error events of its completion sequence and then [end]. *)
Theorem end_fires_no_ready (H : Host) (p : Parser) :
  exists evs, events (end_ H p) = events p ++ evs /\ ~ In EvReady evs
              /\ state (end_ H p) = Begin /\ buffer (end_ H p) = emptyBuffers.
Proof.
  destruct (end_events H p) as (evs & E & F).
  exists (evs ++ [EvEnd]). repeat split; [exact E|].
  intros I. apply in_app_or in I. destruct I as [I|[I|[]]]; [|discriminate].
  rewrite Forall_forall in F. destruct (F _ I) as (s & [D|D]); discriminate.
Qed.

(** ** Latched errors *)

(** C6.  With an error latched every [write] throws it and leaves the
    parser as it is (no character consumed, no event); this goes on for any
    number of writes.  [resume()] clears the latch and changes nothing else,
    and the next [write] on the open parser runs its loop over the chunk. *)
Theorem write_latched_until_resume (H : Host) (p : Parser) (e : jsstr) :
  error p = Some e ->
  (forall chunk, write H chunk p = Throw (ExnError e) p)
  /\ (forall chunks, writeAll H chunks p = p)
  /\ error (resume p) = None
  /\ onlyOutput p (resume p) /\ events (resume p) = events p
  /\ (closed p = false ->
      forall chunk,
        write H (Some chunk) (resume p) =
          match writeLoop H (resume p) chunk with
          | Ok q => Ok (if position q >=? bufferCheckPosition q
                        then checkBufferLength q else q)
          | Throw x q => Throw x q
          end).
Proof.
  intros E.
  assert (W : forall chunk, write H chunk p = Throw (ExnError e) p).
  { intros chunk. unfold write. now rewrite E. }
  repeat split.
  - exact W.
  - intros chunks. induction chunks as [|c chunks IH]; [reflexivity|].
    cbn [writeAll]. rewrite W. exact IH.
  - destruct p as [? ? ? ? ? ? ? ? ? ? ? ? ? ? ? ? ? ? [] ? ?]. reflexivity.
  - intros C chunk. unfold write.
    change (error (resume p)) with (@None jsstr).
    change (closed (resume p)) with (closed p). rewrite C.
    reflexivity.
Qed.

Lemma write_latched_until_resume_witness :
  let p := parserOf (write specHost (Some (u "<a></b>"))
                       (newParser specHost true defaultOptions)) in
  error p = Some (u "Unmatched closing tag: b")
  /\ write specHost (Some (u "</a>")) p = Throw (ExnError (u "Unmatched closing tag: b")) p
  /\ events (parserOf (write specHost (Some (u "</a>")) (resume p)))
     = events p ++ [EvText (u "</b>"); EvCloseTag (u "a")].
Proof.
  intros p.
  assert (E : error p = Some (u "Unmatched closing tag: b")) by (vm_compute; reflexivity).
  destruct (write_latched_until_resume specHost p _ E) as (W & _ & _ & _ & _ & R).
  split; [exact E|]. split; [apply W|].
  rewrite R; [|vm_compute; reflexivity].
  vm_compute. reflexivity.
Defined.

(** ** Dictionaries and namespace objects *)

Section Dictionaries.

Context {V : Type}.

Lemma lookup_replaceValue_same k (v : V) d :
  ownKey k d = true -> lookup k (replaceValue k v d) = Some v.
Proof.
  unfold ownKey. induction d as [|[k' v'] d IH]; cbn; [discriminate|].
  destruct (eqs k' k) eqn:E; cbn; rewrite E; [reflexivity|exact IH].
Qed.

Lemma lookup_replaceValue_other k k' (v : V) d :
  k' <> k -> lookup k' (replaceValue k v d) = lookup k' d.
Proof.
  intros N. induction d as [|[k0 v0] d IH]; cbn; [reflexivity|].
  destruct (eqs k0 k) eqn:E; cbn.
  - apply eqs_eq in E. subst k0.
    destruct (eqs k k') eqn:E'; [|reflexivity].
    apply eqs_eq in E'. congruence.
  - destruct (eqs k0 k'); [reflexivity|exact IH].
Qed.

Lemma lookup_insertIndex_same n k (v : V) d :
  ownKey k d = false -> lookup k (insertIndex n k v d) = Some v.
Proof.
  unfold ownKey. induction d as [|[k' v'] d IH]; cbn.
  - now rewrite eqs_refl.
  - destruct (eqs k' k) eqn:E; [discriminate|]. intros O.
    destruct (arrayIndex k') as [m|]; [destruct (m <? n)%N|]; cbn;
      rewrite ?eqs_refl, ?E; auto.
Qed.

Lemma lookup_insertIndex_other n k k' (v : V) d :
  k' <> k -> lookup k' (insertIndex n k v d) = lookup k' d.
Proof.
  intros N. assert (E : eqs k k' = false) by (apply eqs_neq; congruence).
  induction d as [|[k0 v0] d IH]; cbn.
  - now rewrite E.
  - destruct (arrayIndex k0) as [m|]; [destruct (m <? n)%N|]; cbn;
      rewrite ?E, ?IH; reflexivity.
Qed.

Lemma lookup_snoc_same k (v : V) d :
  ownKey k d = false -> lookup k (d ++ [(k, v)]) = Some v.
Proof.
  unfold ownKey. induction d as [|[k' v'] d IH]; cbn.
  - now rewrite eqs_refl.
  - destruct (eqs k' k); [discriminate|exact IH].
Qed.

Lemma lookup_snoc_other k k' (v : V) d :
  k' <> k -> lookup k' (d ++ [(k, v)]) = lookup k' d.
Proof.
  intros N. assert (E : eqs k k' = false) by (apply eqs_neq; congruence).
  induction d as [|[k0 v0] d IH]; cbn.
  - now rewrite E.
  - destruct (eqs k0 k'); [reflexivity|exact IH].
Qed.

(** A name other than [__proto__] reads back what was assigned to it. *)
Lemma lookup_assign_same k (v : V) d :
  k <> u "__proto__" -> lookup k (assign k v d) = Some v.
Proof.
  intros N. unfold assign.
  assert (E : eqs k (u "__proto__") = false) by (now apply eqs_neq).
  rewrite E. destruct (ownKey k d) eqn:O.
  - now apply lookup_replaceValue_same.
  - destruct (arrayIndex k).
    + now apply lookup_insertIndex_same.
    + now apply lookup_snoc_same.
Qed.

Lemma assign_proto (v : V) d : assign (u "__proto__") v d = d.
Proof. reflexivity. Qed.

(** What every name reads back after an assignment. *)
Lemma lookup_assign k (v : V) d :
  lookup k (assign k v d) = if eqs k (u "__proto__") then lookup k d else Some v.
Proof.
  destruct (eqs k (u "__proto__")) eqn:E.
  - apply eqs_eq in E. subst k. reflexivity.
  - apply lookup_assign_same. now apply eqs_neq.
Qed.

Lemma lookup_assign_other k k' (v : V) d :
  k' <> k -> lookup k' (assign k v d) = lookup k' d.
Proof.
  intros N. unfold assign.
  destruct (eqs k (u "__proto__")); [reflexivity|].
  destruct (ownKey k d).
  - now apply lookup_replaceValue_other.
  - destruct (arrayIndex k).
    + now apply lookup_insertIndex_other.
    + now apply lookup_snoc_other.
Qed.

End Dictionaries.

Lemma ns_get_set_same k v o :
  k <> u "__proto__" -> ns_get (ns_set k v o) k = Some v.
Proof. intros N. destruct o; cbn; now rewrite lookup_assign_same. Qed.

Lemma ns_set_proto v o : ns_set (u "__proto__") v o = o.
Proof. destruct o; reflexivity. Qed.

Lemma ns_get_set k v o :
  ns_get (ns_set k v o) k = if eqs k (u "__proto__") then ns_get o k else Some v.
Proof.
  destruct (eqs k (u "__proto__")) eqn:E.
  - apply eqs_eq in E. subst k. now rewrite ns_set_proto.
  - apply ns_get_set_same. now apply eqs_neq.
Qed.

Lemma ns_get_set_other k k' v o : k' <> k -> ns_get (ns_set k v o) k' = ns_get o k'.
Proof. intros N. destruct o; cbn; now rewrite lookup_assign_other. Qed.

Lemma ns_get_create i o k : ns_get (ns_create i o) k = ns_get o k.
Proof. reflexivity. Qed.

Lemma ns_id_set k v o : ns_id (ns_set k v o) = ns_id o.
Proof. destruct o; reflexivity. Qed.

(** ** Attributes *)

Lemma set_nextNsId_same p : set_nextNsId (nextNsId p) p = p.
Proof. destruct p as [? ? ? ? ? ? ? ? ? ? ? ? ? ? ? ? ? ? [] ? ?]. reflexivity. Qed.

Lemma setb_attribName_same p : setb_attribName (attribName (buffer p)) p = p.
Proof. destruct p as [? ? ? ? ? ? ? ? ? ? ? ? ? ? ? ? ? ? [] ? ?]. reflexivity. Qed.

(** C7.  An attribute whose name, folded as the parser folds it, is
    already in the staging list or an own key of the attributes of the
    current tag is dropped by [_attrib]: no event, no error, the tag and the
    staging list as they were, both buffers empty.  So in strict mode
    [<a foo="1" foo="2"/>] opens a tag whose only attribute is foo = "1".
    The test for the key is the call [tag.attributes.hasOwnProperty(name)],
    and the attributes hold the names of the document: once the tag has an
    attribute named [hasOwnProperty], the commit of a name that is not in
    the staging list, a second [hasOwnProperty] included, throws a
    [TypeError], which leaves [write]; nothing is discarded, and the write
    of [<a hasOwnProperty="1" hasOwnProperty="2"/>] is such a one. *)
Theorem attrib_duplicate_discarded (H : Host) (p : Parser) (t : Tag) :
  tag p = Some t ->
  let name := normalisedAttribName H p in
  (duplicateAttrib H p t = Some true ->
     exists q, attrib H p = Ok q
       /\ events q = events p
       /\ error q = error p
       /\ tag q = Some t
       /\ attribList q = attribList p
       /\ tags q = tags p
       /\ attribName (buffer q) = []
       /\ attribValue (buffer q) = [])
  /\ (containsAttrb name p = false ->
      ownKey (u "hasOwnProperty") (tg_attributes t) = true ->
      duplicateAttrib H p t = None
      /\ attrib H p = Throw ExnTypeError (setb_attribName name p))
  /\ parse specHost true defaultOptions duplicateAttribInput
     = [ EvOpenTagStart
           {| tg_name := u "a"; tg_attributes := []; tg_isSelfClosing := false;
              tg_ns := None; tg_prefix := None; tg_local := None; tg_uri := None |};
         EvAttribute (u "foo") (APlain (u "1"));
         EvOpenTag
           {| tg_name := u "a"; tg_attributes := [(u "foo", APlain (u "1"))];
              tg_isSelfClosing := true;
              tg_ns := None; tg_prefix := None; tg_local := None; tg_uri := None |};
         EvCloseTag (u "a");
         EvEnd ]
  /\ (exists q, write specHost (Some shadowedInput)
                  (newParser specHost true defaultOptions) = Throw ExnTypeError q
       /\ events q
          = [ EvOpenTagStart
                {| tg_name := u "a"; tg_attributes := []; tg_isSelfClosing := false;
                   tg_ns := None; tg_prefix := None; tg_local := None;
                   tg_uri := None |};
              EvAttribute (u "hasOwnProperty") (APlain (u "1")) ]
       /\ error q = None).
Proof.
  intros T name.
  assert (B : attrib H p =
              match duplicateAttrib H p t with
              | None => Throw ExnTypeError (setb_attribName name p)
              | Some true => Ok (clearAttribBuffers (setb_attribName name p))
              | Some false => attrib H p
              end).
  { unfold duplicateAttrib. subst name. unfold normalisedAttribName, attrib.
    destruct (strict p) eqn:S; cbn [negb].
    - rewrite T. cbv zeta. rewrite setb_attribName_same.
      destruct (containsAttrb _ p); [reflexivity|].
      destruct (hasOwnProperty _ _) as [[|]|]; reflexivity.
    - change (tag (setb_attribName ?v p)) with (tag p). rewrite T. cbv zeta.
      change (containsAttrb ?n (setb_attribName ?v p)) with (containsAttrb n p).
      change (attribName (buffer (setb_attribName ?v p))) with v.
      destruct (containsAttrb _ p); [reflexivity|].
      destruct (hasOwnProperty _ _) as [[|]|]; reflexivity. }
  split; [|split; [|split; [vm_compute; reflexivity|]]].
  - intros D. rewrite D in B. eexists. split; [exact B|].
    repeat split; assumption.
  - intros C O.
    assert (D : duplicateAttrib H p t = None).
    { unfold duplicateAttrib. fold name. rewrite C.
      unfold hasOwnProperty. now rewrite O. }
    split; [exact D|]. now rewrite D in B.
  - eexists. split; [vm_compute; reflexivity|]. split; reflexivity.
Qed.

Lemma attrib_duplicate_discarded_witness :
  let p := parserOf (write specHost
                       (Some (u "<a foo=" ++ [QUOT] ++ u "1" ++ [QUOT] ++ u " foo="
                                ++ [QUOT] ++ u "2"))
                       (newParser specHost true defaultOptions)) in
  attribName (buffer p) = u "foo" /\ attribValue (buffer p) = u "2"
  /\ exists q, attrib specHost p = Ok q
       /\ events q = events p
       /\ option_map tg_attributes (tag q) = Some [(u "foo", APlain (u "1"))].
Proof.
  intros p.
  assert (T : tag p = Some {| tg_name := u "a";
                              tg_attributes := [(u "foo", APlain (u "1"))];
                              tg_isSelfClosing := false; tg_ns := None;
                              tg_prefix := None; tg_local := None; tg_uri := None |})
    by (vm_compute; reflexivity).
  destruct (attrib_duplicate_discarded specHost p _ T) as (D & _).
  destruct D as (q & A & E & _ & G & _); [vm_compute; reflexivity|].
  split; [vm_compute; reflexivity|]. split; [vm_compute; reflexivity|].
  exists q. split; [exact A|]. split; [exact E|]. rewrite G. reflexivity.
Defined.

(** C10.  In the state AttribNameSawWhite a character that is neither [=]
    nor white space makes the parser assign [''] to the name in the
    attributes of the current tag and emit the attribute event at once,
    whatever the options: the staging list and the namespace map of the tag
    are not touched, and neither membership of the name in the staging list
    nor in the attributes is looked at.  The character is then handled from
    there.  The assignment [tag.attributes[name] = ''] stores the attribute
    under every name but [__proto__], for which it does nothing: the
    attributes are as before, while the event is emitted all the same.  So
    [<a __proto__ b>] gives an [opentag] whose attributes lack the name of
    the attribute event before it. *)
Theorem attribNameSawWhite_stores_directly (H : Host) (p : Parser) (t : Tag) (c : jschar) :
  state p = AttribNameSawWhite ->
  tag p = Some t ->
  eqc c "=" = false ->
  isWhitespace c = false ->
  let name := attribName (buffer p) in
  let q := storedWithoutValue t p in
  dispatch H c p =
    Ok (if eqc c ">" then openTag H false q
        else if nameStart H c then set_state AttribName (setb_attribName [c] q)
        else set_state Attrib (strictFail (u "Invalid attribute name") q))
  /\ events q
     = events (flushText (strictFail (u "Attribute without value") p))
         ++ [EvAttribute name (APlain [])]
  /\ (exists t', tag q = Some t'
                 /\ tg_attributes t' = assign name (APlain []) (tg_attributes t)
                 /\ lookup name (tg_attributes t')
                    = (if eqs name (u "__proto__") then lookup name (tg_attributes t)
                       else Some (APlain []))
                 /\ (forall k, k <> name ->
                               lookup k (tg_attributes t') = lookup k (tg_attributes t))
                 /\ tg_ns t' = tg_ns t)
  /\ attribList q = attribList p
  /\ nextNsId q = nextNsId p
  /\ parse specHost false defaultOptions protoAttribInput
     = [ EvOpenTagStart
           {| tg_name := u "A"; tg_attributes := []; tg_isSelfClosing := false;
              tg_ns := None; tg_prefix := None; tg_local := None; tg_uri := None |};
         EvAttribute (u "__proto__") (APlain []);
         EvAttribute (u "B") (APlain (u "b"));
         EvOpenTag
           {| tg_name := u "A"; tg_attributes := [(u "B", APlain (u "b"))];
              tg_isSelfClosing := false;
              tg_ns := None; tg_prefix := None; tg_local := None; tg_uri := None |};
         EvEnd ].
Proof.
  intros S T E W name q.
  pose proof (onlyOutput_strictFail (u "Attribute without value") p) as O.
  assert (T1 : tag (strictFail (u "Attribute without value") p) = Some t).
  { rewrite (onlyOutput_tag _ _ O). exact T. }
  assert (N1 : attribName (buffer (strictFail (u "Attribute without value") p)) = name).
  { rewrite O. reflexivity. }
  split.
  { unfold dispatch. rewrite S. cbv zeta. rewrite E, W, T1.
    destruct (eqc c ">"); [reflexivity|].
    destruct (nameStart H c); reflexivity. }
  subst q. unfold storedWithoutValue. cbv zeta.
  set (p1 := strictFail (u "Attribute without value") p) in *.
  set (p2 := setb_attribValue [] (set_tag _ p1)).
  pose proof (onlyOutput_flushText p2) as O2.
  split.
  { change (events (setb_attribName [] (emit ?e (flushText p2))))
      with (events (flushText p2) ++ [e]).
    f_equal.
    - unfold flushText. change (textNode (buffer p2)) with (textNode (buffer p1)).
      destruct (nonEmpty _); [rewrite !closeText_events|]; reflexivity.
    - rewrite O2. cbn. rewrite N1. reflexivity. }
  split.
  { eexists. split.
    - rewrite O2. cbn. reflexivity.
    - cbn. rewrite N1. split; [reflexivity|]. split; [apply lookup_assign|].
      split; [|reflexivity].
      intros k K. now apply lookup_assign_other. }
  split; [|split; [|vm_compute; reflexivity]].
  - rewrite O2. cbn. subst p1. rewrite O. reflexivity.
  - rewrite O2. cbn. subst p1. rewrite O. reflexivity.
Qed.

Lemma attribNameSawWhite_stores_directly_witness :
  let p := parserOf (write specHost (Some sawWhiteInput)
                       (newParser specHost true xmlnsOptions)) in
  state p = AttribNameSawWhite
  /\ attribList p = [(u "foo", u "1")]
  /\ exists q, dispatch specHost (ch "/") p = Ok q
       /\ option_map tg_attributes (tag q) = Some [(u "foo", APlain [])]
       /\ attribList q = [(u "foo", u "1")].
Proof.
  intros p.
  assert (S : state p = AttribNameSawWhite) by (vm_compute; reflexivity).
  assert (T : tag p = Some {| tg_name := u "a"; tg_attributes := [];
                              tg_isSelfClosing := false; tg_ns := Some rootNS;
                              tg_prefix := None; tg_local := None; tg_uri := None |})
    by (vm_compute; reflexivity).
  destruct (attribNameSawWhite_stores_directly specHost p _ (ch "/") S T)
    as (D & _); [vm_compute; reflexivity | vm_compute; reflexivity |].
  split; [exact S|]. split; [vm_compute; reflexivity|].
  eexists. split; [exact D|]. vm_compute. split; reflexivity.
Defined.

(** ** Namespace declarations *)

(** The body of [_attrib] for a namespace declaration. *)
Lemma attrib_binding_body (H : Host) (p : Parser) (t : Tag) :
  xmlns (options p) = true ->
  tag p = Some t ->
  duplicateAttrib H p t = Some false ->
  prefix (qname (normalisedAttribName H p) true) = u "xmlns" ->
  let name := normalisedAttribName H p in
  let value := attribValue (buffer p) in
  let l := local (qname name true) in
  let parent := getParentNamespace p in
  let base := if ns_same (the_ns t) parent
              then ns_create (nextNsId p) parent else the_ns t in
  attrib H p =
    Ok (clearAttribBuffers
      (set_attribList (attribList p ++ [(name, value)])
         (if eqs l (u "xml") && negb (eqs value XML_NAMESPACE)
          then strictFail (u "xml: prefix must be bound to " ++ XML_NAMESPACE ++ [NL]
                             ++ u "Actual: " ++ value)
                          (setb_attribName name p)
          else if eqs l (u "xmlns") && negb (eqs value XMLNS_NAMESPACE)
          then strictFail (u "xmlns: prefix must be bound to " ++ XMLNS_NAMESPACE ++ [NL]
                             ++ u "Actual: " ++ value)
                          (setb_attribName name p)
          else set_tag (Some (tag_with_ns (Some (ns_set l value base)) t))
                 (set_nextNsId (if ns_same (the_ns t) parent
                                then S (nextNsId p) else nextNsId p)
                    (setb_attribName name p))))).
Proof.
  intros X T D P name value l parent base.
  unfold duplicateAttrib in D. subst name. unfold normalisedAttribName in *.
  unfold attrib.
  destruct (strict p) eqn:S; cbn [negb].
  - rewrite T. cbv zeta. rewrite D, X, P. rewrite eqs_refl.
    subst l value parent base. f_equal.
    destruct (eqs _ (u "xml") && _) eqn:R1.
    + rewrite setb_attribName_same.
      now rewrite (onlyOutput_attribList _ _ (onlyOutput_strictFail _ p)).
    + destruct (eqs _ (u "xmlns") && _) eqn:R2.
      * rewrite setb_attribName_same.
        now rewrite (onlyOutput_attribList _ _ (onlyOutput_strictFail _ p)).
      * rewrite setb_attribName_same. destruct (ns_same _ _); [reflexivity|].
        rewrite set_nextNsId_same. reflexivity.
  - change (tag (setb_attribName ?v p)) with (tag p). rewrite T. cbv zeta.
    change (containsAttrb ?n (setb_attribName ?v p)) with (containsAttrb n p).
    change (attribName (buffer (setb_attribName ?v p))) with v.
    change (options (setb_attribName ?v p)) with (options p).
    rewrite D, X, P. rewrite eqs_refl.
    subst l value parent base. f_equal.
    change (attribValue (buffer (setb_attribName ?v p))) with (attribValue (buffer p)).
    destruct (eqs _ (u "xml") && _) eqn:R1;
      [now rewrite (onlyOutput_attribList _ _ (onlyOutput_strictFail _ _))|].
    destruct (eqs _ (u "xmlns") && _) eqn:R2;
      [now rewrite (onlyOutput_attribList _ _ (onlyOutput_strictFail _ _))|].
    change (getParentNamespace (setb_attribName ?v p)) with (getParentNamespace p).
    change (nextNsId (setb_attribName ?v p)) with (nextNsId p).
    destruct (ns_same _ _); reflexivity.
Qed.

(** C8.  With namespaces on, a committed attribute whose prefix is [xmlns]
    and that is not a duplicate is a namespace declaration.  Binding [xml]
    or [xmlns] to another URI than its own is a strict-fail and leaves the
    namespace map of the tag as it is.  Otherwise the map of the tag is
    first replaced, when it is still the very map of the parent, by a new
    object with the next free identity, no binding of its own and the map
    of the parent as prototype; then [ns[local] = value] is run on the map.
    That binds every local name but [__proto__], for which the assignment
    does nothing: after [<a xmlns:__proto__="u"] the map of the tag is the
    new object without any binding, and the prefix resolves as it did.  The
    other names resolve as before and the attribute is staged in both
    cases. *)
Theorem attrib_namespace_binding (H : Host) (p : Parser) (t : Tag) :
  xmlns (options p) = true ->
  tag p = Some t ->
  duplicateAttrib H p t = Some false ->
  prefix (qname (normalisedAttribName H p) true) = u "xmlns" ->
  let name := normalisedAttribName H p in
  let value := attribValue (buffer p) in
  let l := local (qname name true) in
  let parent := getParentNamespace p in
  let base := if ns_same (the_ns t) parent
              then ns_create (nextNsId p) parent else the_ns t in
  exists q, attrib H p = Ok q
  /\ (reservedBinding l value = true ->
        tag q = Some t
        /\ nextNsId q = nextNsId p
        /\ (if strict p
            then exists m, error q = Some m
                           /\ events q = events p ++ textEvent p ++ [EvError m]
            else events q = events p /\ error q = error p))
  /\ (reservedBinding l value = false ->
        tag q = Some (tag_with_ns (Some (ns_set l value base)) t)
        /\ ns_get (ns_set l value base) l
           = (if eqs l (u "__proto__") then ns_get base l else Some value)
        /\ (forall k, k <> l -> ns_get (ns_set l value base) k
                                = ns_get (if ns_same (the_ns t) parent
                                          then parent else the_ns t) k)
        /\ (if ns_same (the_ns t) parent
            then ns_set l value base = NsCreate (nextNsId p) (assign l value []) parent
                 /\ nextNsId q = S (nextNsId p)
                 /\ (ns_id parent <> nextNsId p ->
                     ns_same (ns_set l value base) parent = false)
            else ns_id (ns_set l value base) = ns_id (the_ns t)
                 /\ nextNsId q = nextNsId p)
        /\ events q = events p
        /\ error q = error p)
  /\ attribList q = attribList p ++ [(name, value)]
  /\ tags q = tags p
  /\ option_map (fun t' => (the_ns t', ns_get (the_ns t') (u "__proto__")))
       (tag (parserOf (write specHost (Some protoBindingInput)
                         (newParser specHost true xmlnsOptions))))
     = Some (NsCreate first_ns_id [] rootNS, None).
Proof.
  intros X T D P name value l parent base.
  pose proof (attrib_binding_body H p t X T D P) as B. cbv zeta in B.
  fold name value l parent base in B.
  eexists. split; [exact B|].
  unfold reservedBinding.
  set (m1 := u "xml: prefix must be bound to " ++ XML_NAMESPACE ++ [NL]
               ++ u "Actual: " ++ value) in *.
  set (m2 := u "xmlns: prefix must be bound to " ++ XMLNS_NAMESPACE ++ [NL]
               ++ u "Actual: " ++ value) in *.
  set (p0 := setb_attribName name p) in *.
  assert (F : forall m,
             tag (strictFail m p0) = Some t
             /\ tags (strictFail m p0) = tags p
             /\ nextNsId (strictFail m p0) = nextNsId p
             /\ (if strict p
                 then exists m', error (strictFail m p0) = Some m'
                      /\ events (strictFail m p0) = events p ++ textEvent p ++ [EvError m']
                 else events (strictFail m p0) = events p
                      /\ error (strictFail m p0) = error p)).
  { intros m. pose proof (onlyOutput_strictFail m p0) as O.
    rewrite (onlyOutput_tag _ _ O), (onlyOutput_tags _ _ O).
    split; [exact T|]. split; [reflexivity|].
    split; [rewrite O; reflexivity|].
    unfold strictFail. change (strict p0) with (strict p).
    destruct (strict p); [|split; reflexivity].
    eexists. split; [apply emitError_error|]. rewrite emitError_events. reflexivity. }
  assert (Last : option_map (fun t' => (the_ns t', ns_get (the_ns t') (u "__proto__")))
                   (tag (parserOf (write specHost (Some protoBindingInput)
                                     (newParser specHost true xmlnsOptions))))
                 = Some (NsCreate first_ns_id [] rootNS, None))
    by (vm_compute; reflexivity).
  destruct (eqs l (u "xml") && negb (eqs value XML_NAMESPACE)) eqn:R1;
    [|destruct (eqs l (u "xmlns") && negb (eqs value XMLNS_NAMESPACE)) eqn:R2];
    cbn [orb].
  - destruct (F m1) as (F1 & F2 & F3 & F4).
    split; [|split; [discriminate|split; [reflexivity|split; [exact F2|exact Last]]]].
    intros _. split; [exact F1|]. split; [exact F3|exact F4].
  - destruct (F m2) as (F1 & F2 & F3 & F4).
    split; [|split; [discriminate|split; [reflexivity|split; [exact F2|exact Last]]]].
    intros _. split; [exact F1|]. split; [exact F3|exact F4].
  - split; [discriminate|]. split; [|split; [reflexivity|split; [reflexivity|exact Last]]].
    intros _. split; [reflexivity|]. split; [apply ns_get_set|].
    split; [|split; [|split; reflexivity]].
    + intros k N. rewrite ns_get_set_other by exact N.
      subst base. destruct (ns_same _ _); reflexivity.
    + subst base. destruct (ns_same (the_ns t) parent) eqn:Same.
      * split; [reflexivity|]. split; [reflexivity|].
        intros Fresh. unfold ns_same. cbn.
        apply Nat.eqb_neq. congruence.
      * split; [apply ns_id_set|reflexivity].
Qed.

Lemma attrib_namespace_binding_witness :
  let p := parserOf (write specHost (Some bindingInput)
                       (newParser specHost true xmlnsOptions)) in
  attribName (buffer p) = u "xmlns:p" /\ attribValue (buffer p) = u "urn:x"
  /\ exists q, attrib specHost p = Ok q
       /\ option_map (fun t => (ns_get (the_ns t) (u "p"), ns_get (the_ns t) (u "xml"),
                                ns_same (the_ns t) rootNS))
            (tag q)
          = Some (Some (u "urn:x"), Some XML_NAMESPACE, false)
       /\ attribList q = [(u "xmlns:p", u "urn:x")].
Proof.
  intros p.
  assert (T : tag p = Some {| tg_name := u "root"; tg_attributes := [];
                              tg_isSelfClosing := false; tg_ns := Some rootNS;
                              tg_prefix := None; tg_local := None; tg_uri := None |})
    by (vm_compute; reflexivity).
  assert (X : xmlns (options p) = true) by (vm_compute; reflexivity).
  destruct (attrib_namespace_binding specHost p _ X T) as (q & A & _ & B & L & _);
    [vm_compute; reflexivity | vm_compute; reflexivity |].
  destruct B as (B1 & _); [vm_compute; reflexivity|].
  split; [vm_compute; reflexivity|]. split; [vm_compute; reflexivity|].
  exists q. split; [exact A|].
  split; [rewrite B1; vm_compute; reflexivity | rewrite L; vm_compute; reflexivity].
Defined.

(** ** Entities *)

Lemma fromCodePoint_codeUnits n :
  0 <= n <= 1114111 -> fromCodePoint (Finite n) = Some (codeUnits n).
Proof.
  intros [L U]. unfold fromCodePoint, codeUnits.
  destruct (n <? 0) eqn:A; [apply Z.ltb_lt in A; lia|].
  destruct (1114111 <? n) eqn:B; [apply Z.ltb_lt in B; lia|].
  cbn [orb]. destruct (n <? 65536) eqn:C; [reflexivity|].
  apply Z.ltb_ge in C. cbv zeta. f_equal. f_equal; [|f_equal].
  - rewrite Z2N.inj_add, Z2N.inj_div by (try apply Z.div_pos; lia). reflexivity.
  - rewrite Z2N.inj_add, Z2N.inj_mod by (try apply Z.mod_pos_bound; lia). reflexivity.
Qed.

(** ** Closing tags *)

Section CloseTag.

Variable H : Host.

Lemma onlyOutput_iter m n p : onlyOutput p (Nat.iter n (strictFail m) p).
Proof.
  induction n as [|n IH]; [apply onlyOutput_refl|].
  rewrite Nat.iter_succ.
  eapply onlyOutput_trans; [exact IH | apply onlyOutput_strictFail].
Qed.

Lemma iter_shift {A} (f : A -> A) n x : Nat.iter n f (f x) = f (Nat.iter n f x).
Proof. now rewrite <- Nat.iter_succ_r, Nat.iter_succ. Qed.

Lemma findOpenTag_match name below m above1 above2 p :
  tags p = below ++ m :: above1 ++ above2 ->
  eqs (tg_name m) name = true ->
  forallb (otherName name) above1 = true ->
  findOpenTag (length below + 1 + length above1) name p
  = (Some (length below), Nat.iter (length above1) (strictFail (u "Unexpected close tag")) p).
Proof.
  revert above2 p. induction above1 as [|a above1 IH] using rev_ind; intros above2 p T M A.
  - cbn [length]. change (Nat.iter 0 ?f p) with p.
    rewrite Nat.add_0_r, Nat.add_1_r. cbn [findOpenTag].
    rewrite T, nth_error_app2, Nat.sub_diag by lia. cbn [nth_error].
    now rewrite M.
  - rewrite forallb_app in A. apply andb_true_iff in A. destruct A as [A1 A2].
    cbn in A2. rewrite andb_true_r in A2. unfold otherName in A2.
    rewrite length_app. cbn [length].
    replace (length below + 1 + (length above1 + 1))%nat
      with (S (length below + 1 + length above1)) by lia.
    cbn [findOpenTag].
    assert (T' : tags p = (below ++ m :: above1) ++ a :: above2).
    { rewrite T, <- !app_assoc. reflexivity. }
    rewrite T', nth_error_app2 by (rewrite length_app; cbn; lia).
    replace (length below + 1 + length above1 - length (below ++ m :: above1))%nat
      with O by (rewrite length_app; cbn; lia).
    cbn [nth_error]. rewrite A2.
    rewrite (IH (a :: above2)); [| | exact M | exact A1].
    2:{ rewrite (onlyOutput_tags _ _ (onlyOutput_strictFail _ p)), T, <- !app_assoc.
        reflexivity. }
    f_equal. rewrite iter_shift.
    replace (length above1 + 1)%nat with (S (length above1)) by lia.
    reflexivity.
Qed.

Lemma findOpenTag_none name t p :
  (t <= length (tags p))%nat ->
  forallb (otherName name) (firstn t (tags p)) = true ->
  findOpenTag t name p
  = (None, Nat.iter t (strictFail (u "Unexpected close tag")) p).
Proof.
  revert p. induction t as [|t IH]; intros p L A; [reflexivity|].
  cbn [findOpenTag].
  destruct (nth_error (tags p) t) as [close|] eqn:N.
  - assert (F : firstn (S t) (tags p) = firstn t (tags p) ++ [close]).
    { clear - N. revert t N. induction (tags p) as [|x l IHl]; intros [|t] N;
        try discriminate; cbn in *.
      - now injection N as ->.
      - f_equal. now apply IHl. }
    rewrite F, forallb_app in A. apply andb_true_iff in A. destruct A as [A1 A2].
    cbn in A2. rewrite andb_true_r in A2. unfold otherName in A2. rewrite A2.
    rewrite IH.
    + now rewrite iter_shift.
    + rewrite (onlyOutput_tags _ _ (onlyOutput_strictFail _ p)). lia.
    + now rewrite (onlyOutput_tags _ _ (onlyOutput_strictFail _ p)).
  - apply nth_error_None in N. lia.
Qed.

Lemma flushText_events p :
  events (flushText p)
  = events p ++ (if nonEmpty (textNode (buffer p)) then textEvent p else []).
Proof.
  unfold flushText. destruct (nonEmpty _).
  - apply closeText_events.
  - now rewrite app_nil_r.
Qed.

Lemma flushText_empty p : textNode (buffer p) = [] -> flushText p = p.
Proof. intros T. unfold flushText. now rewrite T. Qed.

Lemma flushText_textNode p : textNode (buffer (flushText p)) = [].
Proof.
  unfold flushText. destruct (textNode (buffer p)) eqn:T; cbn [nonEmpty].
  - exact T.
  - reflexivity.
Qed.

Lemma set_events_same p : set_events (events p) p = p.
Proof. destruct p as [? ? ? ? ? ? ? ? ? ? ? ? ? ? ? ? ? ? [] ? ?]. reflexivity. Qed.

Lemma emitCloseNamespaces_empty ns keys p :
  textNode (buffer p) = [] ->
  emitCloseNamespaces ns keys p
  = set_events (events p ++ map (fun k => EvCloseNamespace k (ns_get_or_undefined ns k)) keys) p.
Proof.
  revert p. induction keys as [|k keys IH]; intros p T.
  - cbn. now rewrite app_nil_r, set_events_same.
  - cbn [emitCloseNamespaces map]. rewrite (flushText_empty p T).
    rewrite IH by exact T. unfold emit. cbn [events set_events].
    rewrite <- app_assoc. reflexivity.
Qed.

Lemma lastTag_snoc stack t : lastTag (stack ++ [t]) = Some t.
Proof. unfold lastTag. now rewrite rev_app_distr. Qed.

(** One pop, off a stack whose top is [t]. *)
Lemma popTag_top stack t p :
  tags p = stack ++ [t] ->
  let w := xmlns (options p) in
  let q := flushText (setb_tagName (tg_name t) (set_tag (Some t) (set_tags stack p))) in
  popTag p = set_events (events q ++ closeEvents w (parentNamespaceOf w stack) t) q.
Proof.
  intros T w q. unfold popTag. rewrite T, lastTag_snoc, removelast_last.
  fold q.
  pose proof (onlyOutput_flushText
                (setb_tagName (tg_name t) (set_tag (Some t) (set_tags stack p)))) as O.
  fold q in O.
  assert (N : tagName (buffer q) = tg_name t) by (rewrite O; reflexivity).
  assert (X : options q = options p) by (rewrite O; reflexivity).
  assert (G : tags q = stack) by (rewrite O; reflexivity).
  assert (Z : textNode (buffer q) = []) by apply flushText_textNode.
  rewrite N.
  change (options (emit ?e q)) with (options q).
  unfold isNamespacesSupported.
  change (options (emit ?e q)) with (options q).
  unfold getParentNamespace, isNamespacesSupported.
  change (tags (emit ?e q)) with (tags q).
  change (options (emit ?e q)) with (options q).
  rewrite X, G. fold w. fold (parentNamespaceOf w stack).
  unfold closeEvents.
  replace (w && w) with w by (destruct w; reflexivity).
  destruct (w && negb (ns_same (the_ns t) (parentNamespaceOf w stack))).
  - rewrite emitCloseNamespaces_empty by exact Z.
    unfold emit. cbn [events set_events]. rewrite <- app_assoc. reflexivity.
  - reflexivity.
Qed.

Lemma popTag_fields stack t p :
  tags p = stack ++ [t] ->
  tags (popTag p) = stack
  /\ events (popTag p)
     = events (flushText p)
         ++ closeEvents (xmlns (options p)) (parentNamespaceOf (xmlns (options p)) stack) t
  /\ textNode (buffer (popTag p)) = []
  /\ closedRoot (popTag p) = closedRoot p
  /\ options (popTag p) = options p
  /\ strict (popTag p) = strict p.
Proof.
  intros T. rewrite (popTag_top stack t p T). cbv zeta.
  set (p' := setb_tagName (tg_name t) (set_tag (Some t) (set_tags stack p))).
  pose proof (onlyOutput_flushText p') as O.
  repeat split; cbn [tags events set_events closedRoot options strict buffer];
    try (rewrite O; reflexivity).
  - f_equal. now rewrite !flushText_events.
  - apply flushText_textNode.
Qed.

(** The pops of [_closeTag], off a stack whose top part is [rev popped],
    once the text is flushed. *)
Lemma popTags_flushed popped below p :
  textNode (buffer p) = [] ->
  tags p = below ++ rev popped ->
  let r := popTags (length popped) p in
  tags r = below
  /\ events r = events p ++ popEvents (xmlns (options p)) below popped
  /\ closedRoot r = closedRoot p
  /\ options r = options p
  /\ strict r = strict p.
Proof.
  revert p. induction popped as [|t rest IH]; intros p Z T; cbv zeta.
  - cbn [length popTags popEvents]. cbn in T. rewrite app_nil_r in *.
    repeat split; assumption.
  - cbn [length popTags popEvents]. cbn [rev] in T. rewrite app_assoc in T.
    destruct (popTag_fields _ _ _ T) as (F1 & F2 & F3 & F4 & F5 & F6).
    destruct (IH (popTag p) F3 F1) as (G1 & G2 & G3 & G4 & G5).
    repeat split; try congruence.
    rewrite G2, F2, F5, (flushText_empty p Z), <- app_assoc. reflexivity.
Qed.

Lemma popTags_down t rest below p :
  tags p = below ++ rev (t :: rest) ->
  let r := popTags (length (t :: rest)) p in
  tags r = below
  /\ events r = events (flushText p) ++ popEvents (xmlns (options p)) below (t :: rest)
  /\ closedRoot r = closedRoot p
  /\ options r = options p
  /\ strict r = strict p.
Proof.
  intros T. cbv zeta. cbn [length popTags popEvents]. cbn [rev] in T.
  rewrite app_assoc in T.
  destruct (popTag_fields _ _ _ T) as (F1 & F2 & F3 & F4 & F5 & F6).
  destruct (popTags_flushed rest below (popTag p) F3 F1) as (G1 & G2 & G3 & G4 & G5).
  repeat split; try congruence.
  rewrite G2, F2, F5, <- app_assoc. reflexivity.
Qed.

Lemma popTags_nonempty popped below p :
  popped <> [] ->
  tags p = below ++ rev popped ->
  let r := popTags (length popped) p in
  tags r = below
  /\ events r = events (flushText p) ++ popEvents (xmlns (options p)) below popped
  /\ closedRoot r = closedRoot p
  /\ options r = options p
  /\ strict r = strict p.
Proof.
  destruct popped as [|t rest]; [contradiction|]. intros _. apply popTags_down.
Qed.

End CloseTag.

(** The walk of [_closeTag] for a closing tag with a name when no script
    is buffered: the search from the top of the stack down and the pops. *)
Lemma closeTag_walk (H : Host) (p : Parser) :
  nonEmpty (tagName (buffer p)) = true ->
  script (buffer p) = [] ->
  let name := closeTarget H p in
  let failed := fun n => Nat.iter n (strictFail (u "Unexpected close tag")) p in
  (forallb (otherName name) (tags p) = true ->
   let q := strictFail (u "Unmatched closing tag: " ++ tagName (buffer p))
              (failed (length (tags p))) in
   closeTag H p
   = set_state Text
       (setb_textNode (textNode (buffer q) ++ u "</" ++ tagName (buffer p) ++ u ">") q)
   /\ tags (closeTag H p) = tags p
   /\ closedRoot (closeTag H p) = closedRoot p)
  /\ (forall below m above,
        tags p = below ++ m :: above ->
        eqs (tg_name m) name = true ->
        forallb (otherName name) above = true ->
        let q := failed (length above) in
        tags (closeTag H p) = below
        /\ events (closeTag H p)
           = events (flushText q)
               ++ popEvents (xmlns (options p)) below (rev (m :: above))
        /\ closedRoot (closeTag H p)
           = match below with [] => true | _ :: _ => closedRoot p end
        /\ state (closeTag H p) = Text).
Proof.
  intros N S name failed.
  assert (C : (if negb (strict p) then caseFold H (tagName (buffer p)) p
               else tagName (buffer p)) = name).
  { unfold name, closeTarget. destruct (strict p); reflexivity. }
  split.
  - intros A q.
    assert (E : closeTag H p
                = set_state Text
                    (setb_textNode (textNode (buffer q) ++ u "</"
                                      ++ tagName (buffer p) ++ u ">") q)).
    { unfold closeTag. rewrite N, S. cbn [negb nonEmpty andb]. cbv zeta.
      rewrite C, findOpenTag_none; [| lia | now rewrite firstn_all].
      fold (failed (length (tags p))).
      pose proof (onlyOutput_iter (u "Unexpected close tag") (length (tags p)) p) as O.
      fold (failed (length (tags p))) in O.
      assert (T0 : tagName (buffer (failed (length (tags p)))) = tagName (buffer p))
        by (rewrite O; reflexivity).
      rewrite T0. fold q.
      assert (T1 : tagName (buffer q) = tagName (buffer p)).
      { unfold q. rewrite (onlyOutput_strictFail _ _). cbn. exact T0. }
      rewrite T1. reflexivity. }
    split; [exact E|].
    pose proof (onlyOutput_trans _ _ _
                  (onlyOutput_iter (u "Unexpected close tag") (length (tags p)) p)
                  (onlyOutput_strictFail
                     (u "Unmatched closing tag: " ++ tagName (buffer p)) _)) as O.
    fold (failed (length (tags p))) in O. fold q in O.
    rewrite E. cbn [tags closedRoot set_state setb_textNode set_buffer].
    rewrite O. split; reflexivity.
  - intros below m above T M A q.
    pose proof (onlyOutput_iter (u "Unexpected close tag") (length above) p) as O.
    fold (failed (length above)) in O. fold q in O.
    assert (F : findOpenTag (length (tags p)) name p = (Some (length below), q)).
    { replace (length (tags p)) with (length below + 1 + length above)%nat
        by (rewrite T, length_app; cbn [length]; lia).
      apply (findOpenTag_match name below m above [] p);
        [rewrite app_nil_r; exact T | exact M | exact A]. }
    set (p1 := setb_tagName name q).
    assert (T1 : tags p1 = below ++ rev (rev (m :: above))).
    { rewrite rev_involutive. unfold p1. cbn [tags setb_tagName set_buffer].
      rewrite (onlyOutput_tags _ _ O). exact T. }
    assert (L : (length (tags p1) - length below)%nat = length (rev (m :: above))).
    { rewrite T1, length_app, !length_rev. lia. }
    assert (NE : rev (m :: above) <> []).
    { intros R. apply (f_equal (@length Tag)) in R. rewrite length_rev in R. discriminate. }
    destruct (popTags_nonempty _ _ _ NE T1) as (G1 & G2 & G3 & G4 & G5).
    assert (E : closeTag H p
                = set_state Text
                    (set_attribList []
                       (setb_tagName [] (setb_attribValue [] (setb_attribName []
                          (if Nat.eqb (length below) 0
                           then set_closedRoot true (popTags (length (rev (m :: above))) p1)
                           else popTags (length (rev (m :: above))) p1)))))).
    { unfold closeTag. rewrite N, S. cbn [negb nonEmpty andb]. cbv zeta.
      rewrite C, F. fold p1. rewrite L. reflexivity. }
    rewrite E.
    assert (X : xmlns (options p1) = xmlns (options p)).
    { unfold p1. cbn [options setb_tagName set_buffer]. rewrite O. reflexivity. }
    assert (V : events (flushText p1) = events (flushText q)).
    { rewrite !flushText_events. reflexivity. }
    assert (K : closedRoot p1 = closedRoot p).
    { unfold p1. cbn [closedRoot setb_tagName set_buffer]. rewrite O. reflexivity. }
    rewrite X, V in G2.
    destruct below as [|b below]; cbn [length Nat.eqb];
      cbn [tags events closedRoot state set_state set_attribList setb_tagName
           setb_attribValue setb_attribName set_buffer set_closedRoot];
      repeat split; congruence.
Qed.

Lemma scriptEmitted_fields p :
  walkInput (scriptEmitted p) = walkInput p
  /\ script (buffer (scriptEmitted p)) = []
     \/ scriptEmitted p = p /\ nonEmpty (script (buffer p)) = false.
Proof.
  unfold scriptEmitted. destruct (nonEmpty (script (buffer p))) eqn:S.
  - left. pose proof (onlyOutput_flushText p) as O.
    unfold walkInput.
    cbn [tags tagName strict options closedRoot script buffer setb_script emit
         set_buffer set_events].
    rewrite O. split; reflexivity.
  - right. split; reflexivity.
Qed.

Lemma closeTag_scriptEmitted H p :
  nonEmpty (tagName (buffer p)) = true ->
  inScriptText p = false ->
  closeTag H p = closeTag H (scriptEmitted p).
Proof.
  intros N I. unfold inScriptText in I.
  destruct (scriptEmitted_fields p) as [[W S]|[E S]]; [|now rewrite E].
  assert (T : tagName (buffer (scriptEmitted p)) = tagName (buffer p))
    by (unfold walkInput in W; congruence).
  unfold closeTag at 2. rewrite T, N, S. cbn [negb nonEmpty andb]. cbv iota.
  unfold closeTag. rewrite N, I. cbn [negb]. cbv iota.
  unfold scriptEmitted. reflexivity.
Qed.

Lemma closeTarget_walkInput H p q :
  walkInput q = walkInput p -> closeTarget H q = closeTarget H p.
Proof.
  unfold walkInput, closeTarget, caseFold. intros W.
  injection W as W1 W2 W3 W4 W5. now rewrite W2, W3, W4.
Qed.

Lemma scriptEmitted_events p :
  events (scriptEmitted p)
  = if nonEmpty (script (buffer p))
    then events (flushText p) ++ [EvScript (script (buffer p))]
    else events p.
Proof.
  unfold scriptEmitted. destruct (nonEmpty (script (buffer p))); [|reflexivity].
  cbv zeta. cbn [events setb_script emit set_buffer set_events].
  assert (S : script (buffer (flushText p)) = script (buffer p)).
  { pose proof (onlyOutput_flushText p) as O. unfold onlyOutput in O.
    rewrite O. reflexivity. }
  now rewrite S.
Qed.

(** C5, as amended.  For a closing tag with a name, [_closeTag] first
    looks at the script buffer.  While script text is buffered and the
    name, as it was read, is not [script], the closing tag is text of the
    script: [</name>] is appended to the script buffer, the parser stays in
    Script, and the stack is neither walked nor popped.  Otherwise the
    script, if there is one, is emitted after the pending text and the
    buffer is emptied, and [_closeTag] looks for the name, folded as the
    parser folds it, from the top of the stack down, with a strict-fail
    [Unexpected close tag] for every tag passed.  When no tag has the name
    it strict-fails [Unmatched closing tag], appends [</name>] to the text
    and goes to Text with the stack as it was.  When a tag has it, that tag
    and those above it are popped from the top down: the text is flushed,
    then each pop emits [closetag] with the name of the tag and, with
    namespaces on and a map that is not that of its parent,
    [closenamespace] for each of its own bindings in the order of
    [Object.keys]; the root is closed when nothing is left below. *)
Theorem closeTag_walks_stack (H : Host) (p : Parser) :
  nonEmpty (tagName (buffer p)) = true ->
  let name := closeTarget H p in
  (inScriptText p = true ->
     closeTag H p
     = set_state Script
         (setb_tagName []
            (setb_script (script (buffer p) ++ u "</" ++ tagName (buffer p) ++ u ">") p))
     /\ tags (closeTag H p) = tags p
     /\ events (closeTag H p) = events p)
  /\ (inScriptText p = false ->
      let p0 := scriptEmitted p in
      let failed := fun n => Nat.iter n (strictFail (u "Unexpected close tag")) p0 in
      events p0 = (if nonEmpty (script (buffer p))
                   then events (flushText p) ++ [EvScript (script (buffer p))]
                   else events p)
      /\ (forallb (otherName name) (tags p) = true ->
          let q := strictFail (u "Unmatched closing tag: " ++ tagName (buffer p))
                     (failed (length (tags p))) in
          closeTag H p
          = set_state Text
              (setb_textNode (textNode (buffer q) ++ u "</" ++ tagName (buffer p) ++ u ">") q)
          /\ tags (closeTag H p) = tags p
          /\ closedRoot (closeTag H p) = closedRoot p)
      /\ (forall below m above,
            tags p = below ++ m :: above ->
            eqs (tg_name m) name = true ->
            forallb (otherName name) above = true ->
            let q := failed (length above) in
            tags (closeTag H p) = below
            /\ events (closeTag H p)
               = events (flushText q)
                   ++ popEvents (xmlns (options p)) below (rev (m :: above))
            /\ closedRoot (closeTag H p)
               = match below with [] => true | _ :: _ => closedRoot p end
            /\ state (closeTag H p) = Text)).
Proof.
  intros N name. split.
  - intros I. unfold closeTag. rewrite N. cbn [negb]. cbv iota.
    unfold inScriptText in I. rewrite I. cbv zeta. repeat split.
  - intros I p0 failed. split; [apply scriptEmitted_events|].
    rewrite (closeTag_scriptEmitted H p N I). fold p0.
    assert (W : walkInput p0 = walkInput p /\ script (buffer p0) = []).
    { destruct (scriptEmitted_fields p) as [[W S]|[E S]]; [now split|].
      fold p0 in E. rewrite E. split; [reflexivity|].
      destruct (script (buffer p)); [reflexivity|discriminate]. }
    destruct W as [W S].
    pose proof (closeTarget_walkInput H p p0 W) as C. fold name in C.
    unfold walkInput in W. injection W as W1 W2 W3 W4 W5.
    assert (N0 : nonEmpty (tagName (buffer p0)) = true) by (now rewrite W2).
    pose proof (closeTag_walk H p0 N0 S) as [A B].
    cbv zeta in A, B.
    rewrite ?C, ?W1, ?W2, ?W4, ?W5 in A. rewrite ?C, ?W1, ?W2, ?W4, ?W5 in B.
    split.
    + intros O. cbv zeta. apply A. exact O.
    + intros below m above T M F. cbv zeta. apply B; assumption.
Qed.

Lemma closeTag_walks_stack_witness :
  let p := parserOf (write specHost (Some (u "<a><script>x</script"))
                       (newParser specHost false defaultOptions)) in
  map tg_name (tags p) = [u "A"; u "SCRIPT"]
  /\ tagName (buffer p) = u "script"
  /\ script (buffer p) = u "x"
  /\ map tg_name (tags (closeTag specHost p)) = [u "A"]
  /\ events (closeTag specHost p)
     = events p ++ [EvScript (u "x"); EvCloseTag (u "SCRIPT")]
  /\ closedRoot (closeTag specHost p) = false
  /\ state (closeTag specHost p) = Text.
Proof.
  intros p.
  assert (N : nonEmpty (tagName (buffer p)) = true) by (vm_compute; reflexivity).
  destruct (closeTag_walks_stack specHost p N) as [_ B].
  destruct B as (_ & _ & B); [vm_compute; reflexivity|].
  assert (T : tags p = [nth 0 (tags p) (mkTag [])] ++ nth 1 (tags p) (mkTag []) :: [])
    by (vm_compute; reflexivity).
  destruct (B _ _ _ T) as (B1 & B2 & B3 & B4);
    [vm_compute; reflexivity | vm_compute; reflexivity |].
  split; [vm_compute; reflexivity|]. split; [vm_compute; reflexivity|].
  split; [vm_compute; reflexivity|].
  split; [rewrite B1; vm_compute; reflexivity|].
  split; [|split; [rewrite B3; vm_compute; reflexivity | exact B4]].
  rewrite B2. vm_compute. reflexivity.
Defined.

(** C5, as stated, fails while script text is buffered: after
    [<b><script>x] the closing tag [</b>] names the tag at the bottom of the
    stack, and [_closeTag] appends it to the script; no tag is popped and
    no event is emitted. *)
Lemma closeTag_walks_stack_counterexample :
  let p := parserOf (write specHost (Some (u "<b><script>x</b"))
                       (newParser specHost false defaultOptions)) in
  map tg_name (tags p) = [u "B"; u "SCRIPT"]
  /\ tagName (buffer p) = u "b"
  /\ closeTarget specHost p = u "B"
  /\ tags (closeTag specHost p) = tags p
  /\ events (closeTag specHost p) = events p
  /\ script (buffer (closeTag specHost p)) = u "x</b>"
  /\ state (closeTag specHost p) = Script.
Proof. vm_compute. repeat split. Qed.

(** ** The buffer check *)

Section Watchdog.

Lemma checkFrame_refl p : checkFrame p p.
Proof. destruct p as [? ? ? ? ? ? ? ? ? ? ? ? ? ? ? ? ? ? [] ? ?]. reflexivity. Qed.

Lemma checkFrame_trans p q r : checkFrame p q -> checkFrame q r -> checkFrame p r.
Proof. unfold checkFrame. intros E1 E2. rewrite E2, E1. reflexivity. Qed.

Lemma onlyOutput_checkFrame p q : onlyOutput p q -> checkFrame p q.
Proof.
  unfold onlyOutput, checkFrame. intros E. rewrite E.
  destruct p as [? ? ? ? ? ? ? ? ? ? ? ? ? ? ? ? ? ? [] ? ?]. reflexivity.
Qed.

Lemma checkFrame_textEvent p q :
  checkFrame p q -> textNode (buffer q) = textNode (buffer p) -> textEvent q = textEvent p.
Proof.
  intros F T. unfold textEvent, textopts. rewrite T.
  replace (options q) with (options p) by (rewrite F; reflexivity). reflexivity.
Qed.

Lemma checkFrame_errorMessage m p q : checkFrame p q -> errorMessage m q = errorMessage m p.
Proof. intros F. rewrite F. reflexivity. Qed.

Lemma textEvent_empty p : textNode (buffer p) = [] -> textEvent p = [].
Proof.
  intros T. unfold textEvent, textopts. rewrite T.
  destruct (trim _), (normalize _); reflexivity.
Qed.

Lemma closeText_error p : error (closeText p) = error p.
Proof. unfold closeText. cbn. destruct (nonEmpty _); reflexivity. Qed.

Lemma flushText_error p : error (flushText p) = error p.
Proof. unfold flushText. destruct (nonEmpty _); [apply closeText_error|reflexivity]. Qed.

Lemma checked_refl keys p : checked keys p p.
Proof.
  repeat split; auto using checkFrame_refl.
  exists []. now rewrite app_nil_r.
Qed.

Lemma flushedText_later keys p q r :
  flushedText p q -> checked keys q r -> flushedText p r.
Proof.
  intros [T I] (F & (evs & G) & _ & K & _). split.
  - destruct K as [K|[K _]]; congruence.
  - intros e Ie. rewrite G. apply in_or_app. left. now apply I.
Qed.

(** One check. *)
Lemma checkSingleBuffer_checked k b p :
  fst (checkSingleBuffer k b maxAllowedLength p) = Z.of_nat (length b)
  /\ checked [k] p (snd (checkSingleBuffer k b maxAllowedLength p))
  /\ (tooLong b ->
      match k with
      | KtextNode => True
      | Kcdata => b = cdata (buffer p)
      | Kscript => b = script (buffer p)
      | _ => True
      end ->
      triggered k b p (snd (checkSingleBuffer k b maxAllowedLength p))).
Proof.
  unfold checkSingleBuffer, tooLong. cbv zeta. cbn [fst snd].
  split; [reflexivity|].
  destruct (Z.of_nat (length b) >? maxAllowedLength) eqn:G.
  2:{ split; [apply checked_refl|]. intros L. rewrite Z.gtb_ltb in G.
      apply Z.ltb_ge in G. lia. }
  assert (OO : forall q, onlyOutput p q ->
             (exists evs, events q = events p ++ evs) ->
             (error p <> None -> error q <> None) ->
             flushedText p q -> checked [k] p q).
  { intros q O G1 G2 G3.
    split; [|split; [|split; [|split; [|split]]]].
    - now apply onlyOutput_checkFrame.
    - exact G1.
    - exact G2.
    - right. exact G3.
    - left. rewrite O. reflexivity.
    - left. rewrite O. reflexivity. }
  assert (CT : checked [k] p (closeText p) /\ flushedText p (closeText p)).
  { assert (FT : flushedText p (closeText p)).
    { split; [reflexivity|]. rewrite closeText_events. apply incl_appr, incl_refl. }
    split; [|exact FT].
    apply OO; [apply onlyOutput_closeText | eexists; apply closeText_events | | exact FT].
    now rewrite closeText_error. }
  assert (ER : forall m, checked [k] p (emitError m p)
                         /\ flushedText p (emitError m p)
                         /\ error (emitError m p) <> None
                         /\ In (EvError (errorMessage m p)) (events (emitError m p))).
  { intros m.
    assert (FT : flushedText p (emitError m p)).
    { split; [reflexivity|]. rewrite emitError_events.
      apply incl_appr, incl_appl, incl_refl. }
    assert (EN : error (emitError m p) <> None).
    { rewrite emitError_error. discriminate. }
    split; [|split; [exact FT|split; [exact EN|]]].
    - apply OO; [apply onlyOutput_emitError | eexists; apply emitError_events
                | intros _; exact EN | exact FT].
    - rewrite emitError_events. apply in_or_app. right. apply in_or_app. right.
      left. reflexivity. }
  assert (FL : forall (e : Event) (clear : Parser -> Parser),
             (forall q, checkFrame q (clear q)) ->
             (forall q, events (clear q) = events q) ->
             (forall q, error (clear q) = error q) ->
             (forall q, textNode (buffer (clear q)) = textNode (buffer q)) ->
             let r := clear (emit e (flushText p)) in
             checkFrame p r /\ (exists evs, events r = events p ++ evs)
             /\ (error p <> None -> error r <> None)
             /\ (textNode (buffer r) = textNode (buffer p) \/ flushedText p r)
             /\ In e (events r)).
  { intros e clear C1 C2 C3 C4 r. subst r.
    pose proof (onlyOutput_flushText p) as O.
    split; [|split; [|split; [|split]]].
    - eapply checkFrame_trans; [|apply C1].
      eapply checkFrame_trans; [apply onlyOutput_checkFrame, O|].
      apply onlyOutput_checkFrame, onlyOutput_emit.
    - eexists. rewrite C2. unfold emit. cbn [events set_events].
      rewrite flushText_events, <- app_assoc. reflexivity.
    - rewrite C3. unfold emit. cbn [error set_events]. now rewrite flushText_error.
    - right. split.
      + rewrite C4. apply flushText_textNode.
      + rewrite C2. unfold emit. cbn [events set_events].
        rewrite flushText_events. destruct (textNode (buffer p)) eqn:T.
        * rewrite (textEvent_empty p T). intros x [].
        * cbn [nonEmpty]. apply incl_appl, incl_appr, incl_refl.
    - rewrite C2. unfold emit. cbn [events set_events]. apply in_or_app. right.
      left. reflexivity. }
  destruct k; cbn [triggered];
    try (destruct (ER (u "Max buffer length exceeded: " ++ b)) as (E1 & E2 & E3 & E4);
         split; [exact E1 | intros _ _; split; assumption]).
  - destruct CT as [C1 C2]. split; [exact C1 | intros _ _; exact C2].
  - assert (CF : forall q, checkFrame q (setb_cdata [] q)).
    { intros q. destruct q as [? ? ? ? ? ? ? ? ? ? ? ? ? ? ? ? ? ? [] ? ?]. reflexivity. }
    destruct (FL (EvCData (cdata (buffer (flushText p)))) (setb_cdata []) CF
                (fun q => eq_refl) (fun q => eq_refl) (fun q => eq_refl))
      as (F1 & F2 & F3 & F4 & F5).
    assert (CD : cdata (buffer (flushText p)) = cdata (buffer p))
      by (rewrite (onlyOutput_flushText p); reflexivity).
    split.
    + split; [|split; [|split; [|split; [|split]]]]; auto.
      * right. left. reflexivity.
      * left. cbn. rewrite (onlyOutput_flushText p). reflexivity.
    + intros _ ->. split; [reflexivity|]. rewrite <- CD. exact F5.
  - assert (CF : forall q, checkFrame q (setb_script [] q)).
    { intros q. destruct q as [? ? ? ? ? ? ? ? ? ? ? ? ? ? ? ? ? ? [] ? ?]. reflexivity. }
    destruct (FL (EvScript (script (buffer (flushText p)))) (setb_script []) CF
                (fun q => eq_refl) (fun q => eq_refl) (fun q => eq_refl))
      as (F1 & F2 & F3 & F4 & F5).
    assert (CD : script (buffer (flushText p)) = script (buffer p))
      by (rewrite (onlyOutput_flushText p); reflexivity).
    split.
    + split; [|split; [|split; [|split; [|split]]]]; auto.
      * left. cbn. rewrite (onlyOutput_flushText p). reflexivity.
      * right. left. reflexivity.
    + intros _ ->. split; [reflexivity|]. rewrite <- CD. exact F5.
Qed.

Lemma checked_trans k keys p q r :
  checked [k] p q -> checked keys q r -> checked (k :: keys) p r.
Proof.
  intros (F1 & (e1 & G1) & E1 & T1 & C1 & S1) (F2 & (e2 & G2) & E2 & T2 & C2 & S2).
  split; [|split; [|split; [|split; [|split]]]].
  - eapply checkFrame_trans; eassumption.
  - exists (e1 ++ e2). rewrite G2, G1, app_assoc. reflexivity.
  - auto.
  - destruct T1 as [T1|T1].
    + destruct T2 as [T2|[T2 I2]].
      * left. congruence.
      * right. split; [exact T2|]. now rewrite <- (checkFrame_textEvent _ _ F1 T1).
    + right. eapply flushedText_later; [exact T1|].
      split; [exact F2|]. split; [eexists; exact G2|]. split; [exact E2|].
      split; [exact T2|]. split; [exact C2|exact S2].
  - destruct C1 as [C1|[C1|[]]].
    + destruct C2 as [C2|C2]; [left; congruence | right; right; exact C2].
    + right. left. exact C1.
  - destruct S1 as [S1|[S1|[]]].
    + destruct S2 as [S2|S2]; [left; congruence | right; right; exact S2].
    + right. left. exact S1.
Qed.

(** What a check has triggered stays triggered through the later checks of
    other buffers. *)
Lemma triggered_later k b keys p q r :
  triggered k b p q -> checked keys q r -> ~ In k keys -> triggered k b p r.
Proof.
  intros T C N. pose proof C as (F & (evs & G) & E & K & CD & SC).
  assert (I : forall e, In e (events q) -> In e (events r)).
  { intros e Ie. rewrite G. apply in_or_app. now left. }
  destruct k; cbn [triggered] in *;
    try (destruct T as [T1 T2]; split; [now apply E | now apply I]).
  - eapply flushedText_later; eassumption.
  - destruct T as [T1 T2]. split; [|now apply I].
    destruct CD as [CD|CD]; [congruence|contradiction].
  - destruct T as [T1 T2]. split; [|now apply I].
    destruct SC as [SC|SC]; [congruence|contradiction].
Qed.

(** A check that comes after the check of another buffer finds its own
    buffer as it was, or the text already flushed. *)
Lemma triggered_shift k0 k read keys p p1 r :
  checked [k0] p p1 -> k <> k0 -> readerOf k read ->
  (tooLong (read (buffer p1)) -> triggered k (read (buffer p1)) p1 r) ->
  checked keys p1 r ->
  tooLong (read (buffer p)) -> triggered k (read (buffer p)) p r.
Proof.
  intros C N R IH C' L. pose proof C as (F & _ & _ & K & CD & SC).
  assert (M : forall m, errorMessage m p1 = errorMessage m p)
    by (intros m; now apply checkFrame_errorMessage).
  destruct k; cbn [readerOf triggered] in *;
    try (rewrite (R p p1 F) in IH; rewrite M in IH; now apply IH).
  - subst read. destruct K as [K|K].
    + rewrite K in IH. destruct (IH L) as [T I]. split; [exact T|].
      now rewrite <- (checkFrame_textEvent _ _ F K).
    + eapply flushedText_later; eassumption.
  - subst read. destruct CD as [CD|[CD|[]]]; [|congruence].
    rewrite CD in IH. now apply IH.
  - subst read. destruct SC as [SC|[SC|[]]]; [|congruence].
    rewrite SC in IH. now apply IH.
Qed.

Lemma runChecks_cons k read rest a p :
  runChecks ((k, read) :: rest) (a, p)
  = runChecks rest
      (Z.max a (fst (checkSingleBuffer k (read (buffer p)) maxAllowedLength p)),
       snd (checkSingleBuffer k (read (buffer p)) maxAllowedLength p)).
Proof.
  unfold runChecks. cbn [fold_left fst snd]. unfold checkNext at 2.
  destruct (checkSingleBuffer _ _ _ _). reflexivity.
Qed.

Lemma runChecks_checked steps :
  NoDup (keysOf steps) ->
  (forall k read, In (k, read) steps -> readerOf k read) ->
  forall a p,
    checked (keysOf steps) p (snd (runChecks steps (a, p)))
    /\ forall k read, In (k, read) steps -> tooLong (read (buffer p)) ->
         triggered k (read (buffer p)) p (snd (runChecks steps (a, p))).
Proof.
  induction steps as [|[k0 read0] rest IH]; intros D R a p.
  - split; [apply checked_refl | intros k read []].
  - cbn [keysOf map fst] in D. apply NoDup_cons_iff in D. destruct D as [D1 D2].
    fold (keysOf rest) in D1, D2.
    rewrite runChecks_cons.
    destruct (checkSingleBuffer_checked k0 (read0 (buffer p)) p) as (L0 & C0 & T0).
    destruct (checkSingleBuffer k0 (read0 (buffer p)) maxAllowedLength p) as [len p1].
    cbn [fst snd] in *.
    destruct (IH D2 (fun k read I => R k read (or_intror I)) (Z.max a len) p1) as [C1 T1].
    split; [exact (checked_trans _ _ _ _ _ C0 C1)|].
    intros k read [I|I] L.
    + injection I as <- <-.
      apply (triggered_later k0 _ (keysOf rest) p p1); [|exact C1|exact D1].
      apply T0; [exact L|].
      pose proof (R k0 read0 (or_introl eq_refl)) as R0.
      destruct k0; cbn [readerOf] in R0; try exact Logic.I; now subst read0.
    + assert (N : k <> k0).
      { intros ->. apply D1. unfold keysOf.
        change k0 with (fst (k0, read)). now apply in_map. }
      apply (triggered_shift k0 k read (keysOf rest) p p1 _ C0 N);
        [apply R; now right | apply T1; exact I | exact C1 | exact L].
Qed.

Lemma checkSingleBuffer_quiet k b p :
  ~ tooLong b -> checkSingleBuffer k b maxAllowedLength p = (Z.of_nat (length b), p).
Proof.
  intros L. unfold checkSingleBuffer, tooLong in *. cbv zeta.
  destruct (Z.of_nat (length b) >? maxAllowedLength) eqn:G; [|reflexivity].
  rewrite Z.gtb_ltb in G. apply Z.ltb_lt in G. lia.
Qed.

Lemma runChecks_quiet steps a p :
  (forall k read, In (k, read) steps -> ~ tooLong (read (buffer p))) ->
  snd (runChecks steps (a, p)) = p.
Proof.
  revert a. induction steps as [|[k0 read0] rest IH]; intros a Q; [reflexivity|].
  rewrite runChecks_cons.
  rewrite checkSingleBuffer_quiet by (apply (Q k0); now left).
  cbn [fst snd]. apply IH. intros k read I. apply (Q k). now right.
Qed.

Lemma runChecks_nonneg steps a p : 0 <= a -> 0 <= fst (runChecks steps (a, p)).
Proof.
  revert a p. induction steps as [|[k0 read0] rest IH]; intros a p A; [exact A|].
  rewrite runChecks_cons.
  pose proof (proj1 (checkSingleBuffer_checked k0 (read0 (buffer p)) p)) as E.
  destruct (checkSingleBuffer _ _ _ _) as [len p1]. cbn [fst snd] in *.
  apply IH. lia.
Qed.

(** [_checkBufferLength] is the run of the twelve checks, then the new
    offset of the next check. *)
Lemma checkBufferLength_runChecks p :
  let st := runChecks bufferChecks (0, p) in
  checkBufferLength p
  = set_bufferCheckPosition (MAX_BUFFER_LENGTH - fst st + position (snd st)) (snd st).
Proof.
  cbv zeta. unfold checkBufferLength. cbv zeta.
  fold maxAllowedLength.
  set (st4 := checkNext KtagName tagName maxAllowedLength _).
  assert (E : match doctype (buffer (snd st4)) with
              | DocString d => checkNext Kdoctype (fun _ => d) maxAllowedLength st4
              | DocTrue => st4
              end = checkNext Kdoctype doctypeString maxAllowedLength st4).
  { assert (A : 0 <= fst st4).
    { apply (runChecks_nonneg
               [(Kcomment, comment); (KsgmlDecl, sgmlDecl); (KtextNode, textNode);
                (KtagName, tagName)] 0 p). lia. }
    destruct st4 as [a4 p4]. cbn [fst snd] in *.
    unfold checkNext, doctypeString.
    destruct (doctype (buffer p4)); [reflexivity|].
    rewrite checkSingleBuffer_quiet.
    - cbn [length]. f_equal. lia.
    - unfold tooLong, maxAllowedLength. cbn [length]. lia. }
  rewrite E.
  unfold runChecks, bufferChecks. cbn [fold_left fst snd].
  destruct (checkNext Kscript _ _ _) as [a r]. reflexivity.
Qed.

End Watchdog.

Lemma fixed_fields p q :
  fixedPart q = fixedPart p ->
  options q = options p /\ position q = position p
  /\ bufferCheckPosition q = bufferCheckPosition p /\ closed q = closed p.
Proof. unfold fixedPart, staticPart. intros F. injection F as -> _ -> _ -> _ _ ->. auto. Qed.

Section Untracked.

Variable H : Host.

Lemma fixed_stepChars p chunk :
  trackPosition (options p) = false ->
  fixedPart (parserOf (stepChars H p chunk)) = fixedPart p.
Proof.
  revert p. induction chunk as [|c chunk IH]; intros p T; [reflexivity|].
  cbn [stepChars].
  assert (U : updatePosition c (set_currentChar [c] p) = set_currentChar [c] p).
  { unfold updatePosition. cbn [options set_currentChar]. now rewrite T. }
  rewrite U.
  pose proof (fixed_dispatch H c (set_currentChar [c] p)) as F.
  destruct (dispatch H c _) as [q|e q]; cbn [parserOf] in *.
  - rewrite IH; [exact F|].
    destruct (fixed_fields _ _ F) as (X & _). cbn [options set_currentChar] in X. congruence.
  - exact F.
Qed.

(** A run of text inside the root element, without position tracking. *)
Lemma text_run p chunk :
  inText p -> trackPosition (options p) = false ->
  forallb ordinary chunk = true ->
  stepChars H p chunk
  = Ok (set_currentChar [] (setb_textNode (textNode (buffer p) ++ chunk) p)).
Proof.
  revert p. induction chunk as [|c chunk IH]; intros p I T O.
  - cbn [stepChars]. now rewrite setb_textNode_same.
  - cbn [forallb] in O. apply andb_true_iff in O. destruct O as [O1 O2].
    cbn [stepChars].
    assert (U : updatePosition c (set_currentChar [c] p) = set_currentChar [c] p).
    { unfold updatePosition. cbn [options set_currentChar]. now rewrite T. }
    rewrite U, dispatch_inText by exact I.
    unfold ordinary in O1. rewrite O1.
    rewrite IH; [| exact I | exact T | exact O2].
    cbn [textNode buffer setb_textNode set_buffer set_currentChar].
    rewrite <- app_assoc. reflexivity.
Qed.

End Untracked.

(** Without position tracking a write keeps the offset and the offset of
    the next check, and does not run the check. *)
Lemma untracked_write (H : Host) (p : Parser) (chunk : jsstr) :
  trackPosition (options p) = false ->
  closed p = false ->
  position p < bufferCheckPosition p ->
  fixedPart (parserOf (write H (Some chunk) p)) = fixedPart p
  /\ write H (Some chunk) p
     = match error p with
       | Some e => Throw (ExnError e) p
       | None => writeLoop H p chunk
       end.
Proof.
  intros T C L. unfold write. destruct (error p); [split; reflexivity|].
  rewrite C, writeLoop_stepChars.
  pose proof (fixed_stepChars H p chunk T) as F.
  destruct (stepChars H p chunk) as [q|e q]; cbn [parserOf] in *; [|now split].
  destruct (fixed_fields _ _ F) as (_ & F1 & F2 & _).
  rewrite F1, F2.
  destruct (position p >=? bufferCheckPosition p) eqn:G; [|now split].
  rewrite Z.geb_leb in G. apply Z.leb_le in G. lia.
Qed.

Lemma untracked_writeAll (H : Host) (chunks : list jsstr) (p : Parser) :
  trackPosition (options p) = false ->
  closed p = false ->
  position p < bufferCheckPosition p ->
  fixedPart (writeAll H chunks p) = fixedPart p.
Proof.
  revert p. induction chunks as [|chunk chunks IH]; intros p T C L; [reflexivity|].
  cbn [writeAll].
  destruct (untracked_write H p chunk T C L) as [F _].
  destruct (fixed_fields _ _ F) as (F0 & F1 & F2 & F3).
  rewrite IH; [exact F | congruence | congruence | lia].
Qed.

(** When the check runs, a buffer longer than the limit triggers: the text,
    cdata or script buffer is emitted as its event and emptied, any other
    buffer latches and emits [Max buffer length exceeded]; with no such
    buffer the check only sets the offset of the next check. *)
Lemma checkBufferLength_triggers (q : Parser) :
  (forall k read,
     In (k, read) bufferChecks -> tooLong (read (buffer q)) ->
     triggered k (read (buffer q)) q (checkBufferLength q))
  /\ ((forall k read, In (k, read) bufferChecks -> ~ tooLong (read (buffer q))) ->
      exists offset, checkBufferLength q = set_bufferCheckPosition offset q).
Proof.
  split.
  - intros k read I L.
    rewrite checkBufferLength_runChecks. cbv zeta.
    assert (D : NoDup (keysOf bufferChecks)).
    { unfold keysOf, bufferChecks. cbn [map fst].
      repeat (apply NoDup_cons; [cbn; intuition discriminate|]). apply NoDup_nil. }
    assert (R : forall k read, In (k, read) bufferChecks -> readerOf k read).
    { intros k' read' I'. unfold bufferChecks in I'. cbn [In] in I'.
      repeat (destruct I' as [I'|I']; [injection I' as <- <-; cbn [readerOf];
                                        try reflexivity;
                                        intros x y F; rewrite F; reflexivity|]).
      contradiction. }
    destruct (runChecks_checked bufferChecks D R 0 q) as [_ T].
    specialize (T k read I L). clear - T.
    destruct (runChecks bufferChecks (0, q)) as [a r]. cbn [fst snd] in *.
    destruct k; exact T.
  - intros Q. rewrite checkBufferLength_runChecks. cbv zeta.
    rewrite (runChecks_quiet bufferChecks 0 q Q). eexists. reflexivity.
Qed.

(** A CDATA section of 65537 characters, checked. *)
Lemma longCData_triggers :
  let q := set_currentChar [] longCData in
  tooLong (cdata (buffer q))
  /\ triggered Kcdata (cdata (buffer q)) q (checkBufferLength q).
Proof.
  intros q.
  assert (L : tooLong (cdata (buffer q))).
  { unfold tooLong, q, longCData.
    cbn [cdata buffer set_position setb_cdata set_buffer set_currentChar].
    rewrite repeat_length, N_nat_Z. reflexivity. }
  split; [exact L|].
  apply (proj1 (checkBufferLength_triggers q) Kcdata cdata); [|exact L].
  unfold bufferChecks. cbn [In]. do 10 right. left. reflexivity.
Qed.

Lemma afterOpenTag_reached :
  stepChars specHost (newParser specHost false defaultOptions) (u "<a>")
  = Ok afterOpenTag.
Proof. vm_compute. reflexivity. Qed.

(** Without position tracking a run of text of any length stays in the text
    buffer: no event, no error. *)
Lemma unchecked_text (n : nat) :
  write specHost (Some (u "<a>" ++ repeat (ch "x") n))
    (newParser specHost false defaultOptions)
  = Ok (set_currentChar [] (setb_textNode (repeat (ch "x") n) afterOpenTag)).
Proof.
  unfold write.
  change (error (newParser specHost false defaultOptions)) with (@None jsstr).
  change (closed (newParser specHost false defaultOptions)) with false.
  cbv iota.
  rewrite writeLoop_stepChars, stepChars_app, afterOpenTag_reached.
  rewrite text_run.
  - reflexivity.
  - repeat split.
  - reflexivity.
  - clear. induction n as [|n IH]; [reflexivity|]. cbn [repeat forallb]. now rewrite IH.
Qed.

(** C2.  The check of the buffers is run by [write] when the offset has
    reached the offset of the next check, and the offset is only moved by
    [_updatePosition] under the option [trackPosition], which is off by
    default.  Without it, whatever is written to a new parser, the offset
    stays at 0 and the offset of the next check at [MAX_BUFFER_LENGTH]: no
    write runs the check, and no buffer is ever flushed or reported for its
    length, while the comment of the constant has the checks run as often
    as necessary to ensure never crossing this bound.  So after [<a>] a run
    of text of any length stays in the text buffer, and with 65537
    characters the buffer is past the limit without a text event and
    without an error. *)
Theorem buffer_check_never_runs (H : Host) (strict0 : bool) (opts : IOptions)
        (chunks : list jsstr) (chunk : jsstr) :
  trackPosition opts = false ->
  let p := writeAll H chunks (newParser H strict0 opts) in
  position p = 0
  /\ bufferCheckPosition p = MAX_BUFFER_LENGTH
  /\ write H (Some chunk) p
     = match error p with
       | Some e => Throw (ExnError e) p
       | None => writeLoop H p chunk
       end
  /\ (forall n,
        write specHost (Some (u "<a>" ++ repeat (ch "x") n))
          (newParser specHost false defaultOptions)
        = Ok (set_currentChar [] (setb_textNode (repeat (ch "x") n) afterOpenTag)))
  /\ (exists q,
        write specHost (Some (u "<a>" ++ repeat (ch "x") (N.to_nat 65537)))
          (newParser specHost false defaultOptions) = Ok q
        /\ tooLong (textNode (buffer q))
        /\ events q = [EvOpenTagStart (mkTag (u "A")); EvOpenTag (mkTag (u "A"))]
        /\ error q = None).
Proof.
  intros T p.
  assert (F : fixedPart p = fixedPart (newParser H strict0 opts)).
  { apply untracked_writeAll; [exact T | reflexivity | reflexivity]. }
  destruct (fixed_fields _ _ F) as (F0 & F1 & F2 & F3).
  cbn [newParser position bufferCheckPosition options closed] in F0, F1, F2, F3.
  split; [exact F1|]. split; [exact F2|]. split.
  { apply untracked_write; [now rewrite F0 | exact F3 | rewrite F1, F2; reflexivity]. }
  split; [exact unchecked_text|].
  eexists. split; [apply unchecked_text|].
  cbn [textNode buffer events error set_currentChar setb_textNode set_buffer].
  split; [|split; reflexivity].
  unfold tooLong. rewrite repeat_length, N_nat_Z. reflexivity.
Qed.

Lemma buffer_check_never_runs_witness :
  let p := writeAll specHost [u "<a>"; u "xx"] (newParser specHost false defaultOptions) in
  textNode (buffer p) = u "xx"
  /\ position p = 0
  /\ bufferCheckPosition p = MAX_BUFFER_LENGTH
  /\ write specHost (Some (u "y")) p = writeLoop specHost p (u "y").
Proof.
  intros p.
  destruct (buffer_check_never_runs specHost false defaultOptions [u "<a>"; u "xx"] (u "y"))
    as (P & B & W & _); [reflexivity|].
  assert (E : error p = None) by (vm_compute; reflexivity).
  change (writeAll specHost [u "<a>"; u "xx"] (newParser specHost false defaultOptions))
    with p in W.
  rewrite E in W.
  split; [vm_compute; reflexivity|]. split; [exact P|]. split; [exact B|].
  exact W.
Defined.

(** ** Numeric character references *)

Section Numbers.

Variable radix : N.
Hypothesis radix_is : radix = 10%N \/ radix = 16%N.

Lemma digitValue_digitChar d :
  (d < radix)%N -> digitValue radix (digitChar d) = Some d.
Proof.
  intros L. unfold digitValue, digitChar.
  assert (d < 16)%N by (destruct radix_is; lia).
  destruct (d <? 10)%N eqn:A.
  - apply N.ltb_lt in A.
    replace ((48 <=? 48 + d) && (48 + d <=? 57))%N with true
      by (symmetry; apply andb_true_iff; split; apply N.leb_le; lia).
    replace (48 + d - 48)%N with d by lia.
    apply N.ltb_lt in L. now rewrite L.
  - apply N.ltb_ge in A.
    replace ((48 <=? 87 + d) && (87 + d <=? 57))%N with false
      by (symmetry; apply andb_false_iff; right; apply N.leb_gt; lia).
    replace ((97 <=? 87 + d) && (87 + d <=? 122))%N with true
      by (symmetry; apply andb_true_iff; split; apply N.leb_le; lia).
    replace (87 + d - 87)%N with d by lia.
    apply N.ltb_lt in L. now rewrite L.
Qed.

Lemma digitsOf_zero fuel acc : digitsOf fuel radix 0 acc = acc.
Proof. destruct fuel; reflexivity. Qed.

Lemma digitsOf_acc fuel n acc :
  digitsOf fuel radix n acc = digitsOf fuel radix n [] ++ acc.
Proof.
  revert n acc. induction fuel as [|fuel IH]; intros n acc; [reflexivity|].
  cbn [digitsOf]. destruct (N.eqb n 0); [reflexivity|].
  rewrite IH, (IH _ [_]), <- app_assoc. reflexivity.
Qed.

Lemma parseDigits_app a s t :
  Forall (fun c => digitValue radix c <> None) s ->
  parseDigits radix a (s ++ t) = parseDigits radix (parseDigits radix a s) t.
Proof.
  intros F. revert a. induction F as [|c s V F IH]; intros a; [reflexivity|].
  cbn [app parseDigits]. destruct (digitValue radix c); [apply IH|contradiction].
Qed.

(** The digits of a positive number: they parse back to it, and the first
    is not a zero. *)
Lemma digitsOf_parse fuel n :
  (0 < n)%N -> Z.of_N n < 2 ^ Z.of_nat fuel ->
  parseDigits radix None (digitsOf fuel radix n []) = Some n
  /\ Forall (fun c => digitValue radix c <> None) (digitsOf fuel radix n [])
  /\ exists c rest, digitsOf fuel radix n [] = c :: rest /\ c <> ch "0".
Proof.
  assert (R2 : (2 <= radix)%N) by (destruct radix_is; lia).
  assert (R16 : (radix <= 16)%N) by (destruct radix_is; lia).
  revert n. induction fuel as [|fuel IH]; intros n P B.
  - cbn in B. lia.
  - cbn [digitsOf]. destruct (N.eqb n 0) eqn:Z; [apply N.eqb_eq in Z; lia|].
    rewrite digitsOf_acc.
    assert (M : (n mod radix < radix)%N) by (apply N.mod_lt; lia).
    pose proof (digitValue_digitChar _ M) as V.
    destruct (N.eq_dec (n / radix) 0) as [Q|Q].
    + rewrite Q, digitsOf_zero. cbn [app parseDigits]. rewrite V.
      assert (S : (n mod radix = n)%N).
      { apply N.mod_small. apply N.div_small_iff; [|exact Q].
        destruct radix_is; subst; discriminate. }
      rewrite S. split; [reflexivity|]. split.
      * constructor; [|constructor]. rewrite <- S, V. discriminate.
      * eexists. eexists. split; [reflexivity|].
        unfold digitChar. change (ch "0") with 48%N. destruct (n <? 10)%N; lia.
    + assert (B' : Z.of_N (n / radix) < 2 ^ Z.of_nat fuel).
      { rewrite Nat2Z.inj_succ, Z.pow_succ_r in B by lia.
        rewrite N2Z.inj_div.
        apply Z.div_lt_upper_bound; [lia|].
        assert (2 * 2 ^ Z.of_nat fuel <= Z.of_N radix * 2 ^ Z.of_nat fuel).
        { apply Z.mul_le_mono_nonneg_r; [apply Z.pow_nonneg|]; lia. }
        lia. }
      assert (P' : (0 < n / radix)%N) by (apply N.neq_0_lt_0; exact Q).
      destruct (IH (n / radix)%N P' B') as (E & F & c & rest & H1 & H2).
      split; [|split].
      * rewrite parseDigits_app by exact F. rewrite E. cbn [parseDigits]. rewrite V.
        f_equal. rewrite (N.div_mod n radix) at 3 by lia. lia.
      * apply Forall_app. split; [exact F|]. constructor; [|constructor].
        rewrite V. discriminate.
      * exists c, (rest ++ [digitChar (n mod radix)]). rewrite H1. split; [reflexivity|exact H2].
Qed.

Lemma digit_not_sign c :
  digitValue radix c <> None ->
  isJsSpace c = false /\ eqc c "-" = false /\ eqc c "+" = false.
Proof.
  unfold digitValue, isJsSpace, eqc, ch. cbn [N_of_ascii].
  intros V.
  destruct ((48 <=? c) && (c <=? 57))%N eqn:A.
  - apply andb_true_iff in A. destruct A as [A1 A2].
    apply N.leb_le in A1, A2.
    repeat split; repeat (apply orb_false_iff; split);
      try (apply andb_false_iff);
      try (apply N.eqb_neq; cbn; lia);
      try (left; apply N.leb_gt; lia); try (right; apply N.leb_gt; lia).
  - destruct ((97 <=? c) && (c <=? 122))%N eqn:B.
    + apply andb_true_iff in B. destruct B as [B1 B2].
      apply N.leb_le in B1, B2.
      repeat split; repeat (apply orb_false_iff; split);
        try (apply andb_false_iff);
        try (apply N.eqb_neq; cbn; lia);
        try (left; apply N.leb_gt; lia); try (right; apply N.leb_gt; lia).
    + destruct ((65 <=? c) && (c <=? 90))%N eqn:C; [|contradiction].
      apply andb_true_iff in C. destruct C as [C1 C2].
      apply N.leb_le in C1, C2.
      repeat split; repeat (apply orb_false_iff; split);
        try (apply andb_false_iff);
        try (apply N.eqb_neq; cbn; lia);
        try (left; apply N.leb_gt; lia); try (right; apply N.leb_gt; lia).
Qed.

(** [parseInt(num.toString(radix), radix)] is [num], and the string has no
    leading zero, for a positive integer. *)
Lemma toStringRadix_parseInt (n : Z) :
  0 < n ->
  parseInt (toStringRadix radix n) radix = Some (numberOf n)
  /\ stripLeadingZeros (toStringRadix radix n) = toStringRadix radix n.
Proof.
  intros P. destruct n as [|p|p]; try lia.
  unfold toStringRadix.
  assert (B : Z.of_N (N.pos p) < 2 ^ Z.of_nat (S (N.size_nat (N.pos p)))).
  { cbn [N.size_nat Z.of_N].
    apply Z.lt_trans with (2 ^ Z.of_nat (Pos.size_nat p)).
    - apply Zpower2_Psize. lia.
    - apply Z.pow_lt_mono_r; lia. }
  destruct (digitsOf_parse (S (N.size_nat (N.pos p))) (N.pos p) ltac:(lia) B)
    as (E & F & c & rest & H1 & H2).
  rewrite H1 in *. inversion F as [|? ? V F']. subst.
  destruct (digit_not_sign c V) as (S1 & S2 & S3).
  assert (Z0 : eqc c "0" = false) by (apply N.eqb_neq; exact H2).
  split.
  - unfold parseInt. cbn [dropSpaces]. rewrite S1, S2, S3.
    assert (X : strip0x radix (c :: rest) = c :: rest).
    { unfold strip0x. destruct rest; [reflexivity|].
      rewrite Z0, andb_false_r. reflexivity. }
    rewrite X, E. reflexivity.
  - cbn [stripLeadingZeros]. now rewrite Z0.
Qed.

Lemma toStringRadix_first (n : Z) :
  0 < n ->
  exists c rest, toStringRadix radix n = c :: rest /\ digitValue radix c <> None.
Proof.
  intros P. destruct n as [|p|p]; try lia.
  unfold toStringRadix.
  assert (B : Z.of_N (N.pos p) < 2 ^ Z.of_nat (S (N.size_nat (N.pos p)))).
  { cbn [N.size_nat Z.of_N].
    apply Z.lt_trans with (2 ^ Z.of_nat (Pos.size_nat p)).
    - apply Zpower2_Psize. lia.
    - apply Z.pow_lt_mono_r; lia. }
  destruct (digitsOf_parse (S (N.size_nat (N.pos p))) (N.pos p) ltac:(lia) B)
    as (E & F & c & rest & H1 & H2).
  exists c, rest. split; [exact H1|].
  rewrite H1 in F. now inversion F.
Qed.

End Numbers.

Lemma decimal_digit_not_x c : digitValue 10 c <> None -> eqc c "x" = false.
Proof.
  unfold digitValue, eqc. change (ch "x") with 120%N. intros V.
  apply N.eqb_neq. intros ->. apply V. reflexivity.
Qed.

Lemma size_small (n : N) : (n < 2 ^ 53)%N -> (N.size n <= 53)%N.
Proof.
  intros L. pose proof (N.size_le n) as S.
  assert (B : (2 ^ N.size n < 2 ^ 54)%N).
  { change (2 ^ 54)%N with (2 * 2 ^ 53)%N. rewrite N.succ_double_spec in S. lia. }
  apply N.pow_lt_mono_r_iff in B; lia.
Qed.

(** An integer below 2^53 is a double. *)
Lemma numberOf_small (n : Z) : 0 <= n < 2 ^ 53 -> numberOf n = Finite n.
Proof.
  intros [L U]. destruct n as [|q|q]; [reflexivity| |lia].
  unfold numberOf, roundToDouble.
  assert (S : (N.size (N.pos q) <= 53)%N).
  { apply size_small. change (2 ^ 53)%N with (Z.to_N (2 ^ 53)). lia. }
  apply N.leb_le in S. rewrite S. reflexivity.
Qed.

(** Below 2^53 [num.toString(radix)] is the digits of the integer. *)
Lemma numberToStringRadix_small (H : Host) (radix : N) (n : Z) :
  0 < n < 2 ^ 53 -> numberToStringRadix H radix (Finite n) = toStringRadix radix n.
Proof.
  intros [L U]. destruct n as [|q|q]; try lia.
  unfold numberToStringRadix. cbn [Z.abs_N N.eqb app].
  assert (S : (N.size (N.pos q) <=? 53)%N = true).
  { apply N.leb_le, size_small. change (2 ^ 53)%N with (Z.to_N (2 ^ 53)). lia. }
  change (Z.abs_N (Z.pos q)) with (N.pos q).
  destruct (N.eqb radix 10) eqn:R.
  - apply N.eqb_eq in R. subst radix. unfold decimalString. now rewrite S.
  - now rewrite S.
Qed.

Lemma reference_not_inherited (s : jsstr) : inherited (u "#" ++ s) = false.
Proof. reflexivity. Qed.

(** A numeric character reference in canonical decimal or hexadecimal form
    to a positive number below 2^53 passes the round trip and reaches
    [String.fromCodePoint]. *)
Lemma numeric_reference_number (H : Host) (p : Parser) (n : Z) (hex : bool) :
  let radix := if hex then 16%N else 10%N in
  let digits := toStringRadix radix n in
  let name := u "#" ++ (if hex then u "x" else []) ++ digits in
  0 < n < 2 ^ 53 ->
  entity (buffer p) = name ->
  toLowerCase H name = name ->
  toLowerCase H digits = digits ->
  lookup name (entities p) = None ->
  parseEntity H p = (fromCodePoint (Finite n), p).
Proof.
  intros radix digits name R E L1 L2 M.
  assert (RI : radix = 10%N \/ radix = 16%N) by (destruct hex; auto).
  destruct (toStringRadix_parseInt radix RI n ltac:(lia)) as [P S].
  destruct (toStringRadix_first radix RI n ltac:(lia)) as (c & rest & D & V).
  rewrite numberOf_small in P by lia.
  pose proof (numberToStringRadix_small H radix n R) as T.
  unfold parseEntity. rewrite E, L1.
  assert (EL : entityLookup H name p = None).
  { unfold entityLookup. rewrite M. subst name. now rewrite reference_not_inherited. }
  rewrite EL. cbv zeta.
  subst name digits. destruct hex; subst radix.
  - change (is1 (charAt 0 (u "#" ++ u "x" ++ ?d)) "#") with true.
    change (is1 (charAt 1 (u "#" ++ u "x" ++ ?d)) "x") with true.
    cbv iota.
    change (skipn 2 (u "#" ++ u "x" ++ ?d)) with d.
    rewrite P. cbn [option_map]. rewrite T, L2, S, eqs_refl. reflexivity.
  - change (is1 (charAt 0 (u "#" ++ [] ++ ?d)) "#") with true.
    cbv iota.
    assert (X : is1 (charAt 1 (u "#" ++ [] ++ toStringRadix 10 n)) "x" = false).
    { rewrite D. unfold is1, charAt. cbn [u app map list_ascii_of_string nth_error eqs].
      fold (eqc c "x"). now rewrite (decimal_digit_not_x c V). }
    rewrite X.
    change (skipn 1 (u "#" ++ [] ++ ?d)) with d.
    rewrite P. cbn [option_map]. rewrite T, L2, S, eqs_refl. reflexivity.
Qed.

(** X14.  A numeric character reference to a code point other than 0,
    written in canonical decimal or hexadecimal form (as
    [Number.prototype.toString] writes it) and not a name of the entity
    table, resolves to that code point. *)
Lemma numeric_reference_resolves (H : Host) (p : Parser) (n : Z) (hex : bool) :
  let radix := if hex then 16%N else 10%N in
  let digits := toStringRadix radix n in
  let name := u "#" ++ (if hex then u "x" else []) ++ digits in
  1 <= n <= 1114111 ->
  entity (buffer p) = name ->
  toLowerCase H name = name ->
  toLowerCase H digits = digits ->
  lookup name (entities p) = None ->
  parseEntity H p = (Some (codeUnits n), p).
Proof.
  intros radix digits name R E L1 L2 M.
  rewrite <- fromCodePoint_codeUnits by lia.
  apply (numeric_reference_number H p n hex); try assumption. lia.
Qed.

(** A name that the table does not have and that every object inherits
    resolves to the text of what is inherited, without any failure. *)
Lemma parseEntity_inherited (H : Host) (p : Parser) :
  lookup (entity (buffer p)) (entities p) = None ->
  inherited (entity (buffer p)) = true ->
  parseEntity H p = (Some (inheritedText H (entity (buffer p))), p).
Proof.
  intros M I. unfold parseEntity, entityLookup. now rewrite M, I.
Qed.

(** C4.  The resolution of an entity name follows the order of the claim:
    the raw name, then the name in lower case, then a number after [#],
    with the round trip through [toString] as the test of its form.  Two
    steps are not as claimed.  A number in canonical form reaches
    [String.fromCodePoint] without a test that it is a code point: for a
    number past 0x10FFFF the call throws a [RangeError], which leaves
    [_parseEntity] and [write]; nothing is yielded and nothing is
    strict-failed.  So the write of [<a>&#x110000;</a>] throws after the
    events of the start tag.  And the table is read as
    [this._entities[name]] on an object: a name that the table does not
    have and that every object inherits, such as [constructor], counts as
    found, and the text of the inherited function is yielded in place of
    the strict-fail and [&name;]. *)
Theorem parseEntity_out_of_range (H : Host) (p : Parser) (n : Z) (hex : bool) :
  let radix := if hex then 16%N else 10%N in
  let digits := toStringRadix radix n in
  let name := u "#" ++ (if hex then u "x" else []) ++ digits in
  1114111 < n < 2 ^ 53 ->
  entity (buffer p) = name ->
  toLowerCase H name = name ->
  toLowerCase H digits = digits ->
  lookup name (entities p) = None ->
  parseEntity H p = (None, p)
  /\ (forall returnState toText,
        entityCase H returnState toText (ch ";") p = Throw ExnRangeError p)
  /\ (exists q, write specHost (Some rangeErrorInput)
                  (newParser specHost true defaultOptions) = Throw ExnRangeError q
       /\ events q = [ EvOpenTagStart (mkTag (u "a")); EvOpenTag (mkTag (u "a")) ]
       /\ error q = None
       /\ entity (buffer q) = u "#x110000")
  /\ (forall q, lookup (entity (buffer q)) (entities q) = None ->
                inherited (entity (buffer q)) = true ->
                parseEntity H q = (Some (inheritedText H (entity (buffer q))), q))
  /\ parse specHost true defaultOptions inheritedEntityInput
     = [ EvOpenTagStart (mkTag (u "a")); EvOpenTag (mkTag (u "a"));
         EvText (u "function Object() { [native code] }");
         EvCloseTag (u "a"); EvEnd ].
Proof.
  intros radix digits name R E L1 L2 M.
  assert (P : parseEntity H p = (None, p)).
  { rewrite (numeric_reference_number H p n hex) by (try assumption; lia).
    f_equal. unfold fromCodePoint.
    destruct (n <? 0) eqn:A; [reflexivity|].
    destruct (1114111 <? n) eqn:B; [reflexivity|].
    apply Z.ltb_ge in B. lia. }
  split; [exact P|]. split.
  { intros returnState toText. unfold entityCase.
    change (eqc (ch ";") ";") with true. cbv iota zeta. now rewrite P. }
  split.
  { eexists. split; [vm_compute; reflexivity|]. repeat split. }
  split; [|vm_compute; reflexivity].
  intros q. apply parseEntity_inherited.
Qed.

Lemma parseEntity_out_of_range_witness :
  let p := parserOf (write specHost (Some (u "<a>&#x110000"))
                       (newParser specHost true defaultOptions)) in
  state p = TextEntity
  /\ parseEntity specHost p = (None, p)
  /\ dispatch specHost (ch ";") p = Throw ExnRangeError p.
Proof.
  intros p.
  destruct (parseEntity_out_of_range specHost p 1114112 true) as (P & C & _);
    [lia | vm_compute; reflexivity | vm_compute; reflexivity
     | vm_compute; reflexivity | vm_compute; reflexivity |].
  split; [vm_compute; reflexivity|]. split; [exact P|].
  exact (C Text true).
Defined.

(** * Further properties *)

(** ** Qualified names and positions *)

Lemma split_colon_piece l : noColon l = true -> split_colon l = [l].
Proof.
  unfold noColon, indexOf_colon.
  induction l as [|c l IH]; cbn [existsb split_colon]; [reflexivity|].
  intros N. apply negb_true_iff, orb_false_iff in N. destruct N as [N1 N2].
  rewrite N1, IH; [reflexivity|]. now rewrite N2.
Qed.

Lemma split_colon_app p rest :
  noColon p = true -> split_colon (p ++ ch ":" :: rest) = p :: split_colon rest.
Proof.
  unfold noColon, indexOf_colon.
  induction p as [|c p IH]; cbn [existsb split_colon app].
  - intros _. reflexivity.
  - intros N. apply negb_true_iff, orb_false_iff in N. destruct N as [N1 N2].
    rewrite N1, IH; [reflexivity|]. now rewrite N2.
Qed.

Lemma indexOf_colon_app p rest : indexOf_colon (p ++ ch ":" :: rest) = true.
Proof.
  unfold indexOf_colon. rewrite existsb_app. cbn [existsb].
  replace (eqc (ch ":") ":") with true by reflexivity.
  now rewrite orb_true_r.
Qed.

Lemma not_xmlns_app p rest : eqs (p ++ ch ":" :: rest) (u "xmlns") = false.
Proof.
  apply eqs_neq. intros E.
  pose proof (indexOf_colon_app p rest) as I. rewrite E in I. discriminate.
Qed.

(** X1.  [qname] splits a name at its colons and keeps the first two
    pieces: a name without a colon has the empty prefix and itself as local
    name (as an attribute, the name [xmlns] has the prefix [xmlns] and an
    empty local name); [p:l] has prefix [p] and local name [l]; whatever
    follows a second colon is dropped. *)
Theorem qname_splits_at_colons (p l rest : jsstr) (attribute : bool) :
  noColon p = true -> noColon l = true ->
  qname l attribute
  = (if attribute && eqs l (u "xmlns")
     then {| prefix := u "xmlns"; local := [] |}
     else {| prefix := []; local := l |})
  /\ qname (p ++ ch ":" :: l) attribute = {| prefix := p; local := l |}
  /\ qname (p ++ ch ":" :: l ++ ch ":" :: rest) attribute = {| prefix := p; local := l |}.
Proof.
  intros P L. repeat split.
  - unfold qname. unfold noColon in L. apply negb_true_iff in L. now rewrite L.
  - unfold qname. rewrite indexOf_colon_app, not_xmlns_app, andb_false_r.
    rewrite split_colon_app by exact P. now rewrite split_colon_piece.
  - unfold qname. rewrite indexOf_colon_app, not_xmlns_app, andb_false_r.
    rewrite split_colon_app by exact P. now rewrite split_colon_app.
Qed.

Lemma qname_splits_at_colons_witness :
  qname (u "href") true = {| prefix := []; local := u "href" |}
  /\ qname (u "xlink:href") true = {| prefix := u "xlink"; local := u "href" |}
  /\ qname (u "xlink:href:x") true = {| prefix := u "xlink"; local := u "href" |}.
Proof.
  apply (qname_splits_at_colons (u "xlink") (u "href") (u "x") true); reflexivity.
Defined.


Lemma fixed_position p q :
  fixedPart q = fixedPart p ->
  options q = options p /\ line q = line p /\ column q = column p
  /\ position q = position p.
Proof.
  unfold fixedPart, staticPart. intros F. injection F as _ _ -> _ _ -> -> ->. auto.
Qed.

Lemma tracked_stepChars (H : Host) chunk : forall p q,
  stepChars H p chunk = Ok q ->
  options q = options p
  /\ if trackPosition (options p)
     then position q = position p + Z.of_nat (length chunk)
          /\ line q = line p + countNL chunk
          /\ column q = columnAfter (column p) chunk
     else position q = position p /\ line q = line p /\ column q = column p.
Proof.
  induction chunk as [|c chunk IH]; intros p q.
  - cbn [stepChars]. intros [= <-]. split; [reflexivity|].
    cbn [length countNL columnAfter Z.of_nat].
    destruct (trackPosition _); cbn; repeat split; lia.
  - cbn [stepChars].
    pose proof (fixed_dispatch H c (updatePosition c (set_currentChar [c] p))) as F.
    destruct (dispatch H c _) as [r|]; [|discriminate].
    cbn [parserOf] in F. apply fixed_position in F.
    destruct F as (F0 & F1 & F2 & F3).
    intros E. destruct (IH _ _ E) as (I0 & I).
    assert (O : options r = options p).
    { rewrite F0. unfold updatePosition. cbn [options set_currentChar].
      repeat split_cases; reflexivity. }
    split; [congruence|].
    rewrite O in I. clear IH E.
    unfold updatePosition in F1, F2, F3. cbn [options set_currentChar] in F1, F2, F3.
    cbn [length countNL columnAfter]. rewrite Nat2Z.inj_succ.
    destruct (trackPosition (options p)).
    + destruct I as (I1 & I2 & I3).
      destruct (N.eqb c NL); cbn in F1, F2, F3; rewrite I1, I2, I3, F1, F2, F3;
        repeat split; try lia; reflexivity.
    + destruct I as (I1 & I2 & I3). cbn in F1, F2, F3. repeat split; congruence.
Qed.

(** ** The public methods *)

Lemma runChecks_frame steps : forall a p, checkFrame p (snd (runChecks steps (a, p))).
Proof.
  induction steps as [|[k read] rest IH]; intros a p; [apply checkFrame_refl|].
  rewrite runChecks_cons.
  destruct (checkSingleBuffer_checked k (read (buffer p)) p) as (_ & (F & _) & _).
  eapply checkFrame_trans; [exact F | apply IH].
Qed.

Lemma checkBufferLength_fixed p :
  exists offset r, checkBufferLength p = set_bufferCheckPosition offset r
                   /\ checkFrame p r.
Proof.
  rewrite checkBufferLength_runChecks. cbv zeta.
  eexists. eexists. split; [reflexivity|]. apply runChecks_frame.
Qed.

Lemma checkBufferLength_fields p :
  let q := checkBufferLength p in
  options q = options p /\ line q = line p /\ column q = column p
  /\ position q = position p /\ closed q = closed p /\ strict q = strict p.
Proof.
  cbv zeta. destruct (checkBufferLength_fixed p) as (o & r & E & F).
  rewrite E. cbn [options line column position closed strict set_bufferCheckPosition].
  rewrite F. repeat split.
Qed.

Lemma emitError_fixed_fields m p :
  let q := emitError m p in
  options q = options p /\ line q = line p /\ column q = column p
  /\ position q = position p.
Proof. cbv zeta. apply fixed_position, fixed_emitError. Qed.

(** X2.  A [write] that returns has counted every character of the chunk
    when positions are tracked: the offset grows by the length of the
    chunk, the line by its line feeds, and the column is the number of
    characters after the last line feed (or has grown by the length when
    there is none).  Without tracking the three stay as they are. *)
Theorem write_tracks_position (H : Host) (p q : Parser) (chunk : jsstr) :
  write H (Some chunk) p = Ok q ->
  if trackPosition (options p)
  then position q = position p + Z.of_nat (length chunk)
       /\ line q = line p + countNL chunk
       /\ column q = columnAfter (column p) chunk
  else position q = position p /\ line q = line p /\ column q = column p.
Proof.
  unfold write. destruct (error p); [discriminate|].
  set (p1 := if closed p then emitError _ p else p).
  assert (P1 : options p1 = options p /\ line p1 = line p /\ column p1 = column p
               /\ position p1 = position p).
  { subst p1. destruct (closed p); [apply emitError_fixed_fields | repeat split]. }
  destruct P1 as (O1 & L1 & C1 & S1).
  rewrite writeLoop_stepChars.
  destruct (stepChars H p1 chunk) as [r|] eqn:E; [|discriminate].
  intros [= <-].
  destruct (tracked_stepChars H chunk p1 r E) as (O & T).
  rewrite O1, L1, C1, S1 in T.
  destruct (position r >=? bufferCheckPosition r); [|exact T].
  destruct (checkBufferLength_fields r) as (_ & L2 & C2 & S2 & _).
  rewrite L2, C2, S2. exact T.
Qed.

Lemma write_tracks_position_witness :
  position trackedParser = 0 + Z.of_nat (length trackedInput)
  /\ line trackedParser = 0 + countNL trackedInput
  /\ column trackedParser = columnAfter 0 trackedInput.
Proof.
  assert (E : write specHost (Some trackedInput) (newParser specHost false trackingOptions)
              = Ok trackedParser) by (vm_compute; reflexivity).
  exact (write_tracks_position specHost _ _ _ E).
Defined.


Lemma static_fields p q :
  staticPart q = staticPart p ->
  closed q = closed p /\ strict q = strict p /\ options q = options p.
Proof. unfold staticPart. intros F. injection F as -> -> -> _ _. auto. Qed.

Lemma flush_frame p : checkFrame p (flush p).
Proof.
  unfold flush. cbv zeta.
  assert (A : forall q, checkFrame q (flushText q))
    by (intros q; apply onlyOutput_checkFrame, onlyOutput_flushText).
  assert (B : forall e q, checkFrame q (emit e q))
    by (intros e q; apply onlyOutput_checkFrame, onlyOutput_emit).
  assert (C : forall v q, checkFrame q (setb_cdata v q))
    by (intros v q; destruct q as [? ? ? ? ? ? ? ? ? ? ? ? ? ? ? ? ? ? [] ? ?]; reflexivity).
  assert (D : forall v q, checkFrame q (setb_script v q))
    by (intros v q; destruct q as [? ? ? ? ? ? ? ? ? ? ? ? ? ? ? ? ? ? [] ? ?]; reflexivity).
  eapply checkFrame_trans; [apply onlyOutput_checkFrame, onlyOutput_closeText|].
  generalize (closeText p). intros q.
  eapply checkFrame_trans with
    (q := if nonEmpty (cdata (buffer q))
          then setb_cdata [] (emit (EvCData (cdata (buffer (flushText q)))) (flushText q))
          else q).
  - destruct (nonEmpty (cdata (buffer q))); [|apply checkFrame_refl].
    eapply checkFrame_trans; [apply A|].
    eapply checkFrame_trans; [apply B|]. apply C.
  - match goal with |- checkFrame ?x _ => generalize x end. intros r.
    destruct (nonEmpty (script (buffer r))); [|apply checkFrame_refl].
    eapply checkFrame_trans; [apply A|].
    eapply checkFrame_trans; [apply B|]. apply D.
Qed.

Lemma end_keeps (H : Host) p :
  strict (end_ H p) = strict p /\ options (end_ H p) = options p.
Proof.
  unfold end_. cbv zeta.
  cbn [strict options set_entities set_tag set_closed set_startTagPosition
       set_position set_column set_line set_tags set_attribList set_state
       set_error set_sawRoot set_closedRoot set_bufferCheckPosition
       set_previousChar set_currentChar clearBuffers set_buffer emit set_events].
  match goal with |- strict ?q = _ /\ _ => assert (F : fixedPart q = fixedPart p) end.
  { rewrite fixed_closeText.
    transitivity (fixedPart (if sawRoot p && negb (closedRoot p)
                             then strictFail (u "Unclosed root tag") p else p)).
    - destruct (state _); try reflexivity; apply fixed_emitError.
    - destruct (sawRoot p && negb (closedRoot p)); [apply fixed_strictFail|reflexivity]. }
  apply fixed_static, static_fields in F. destruct F as (_ & F1 & F2).
  split; assumption.
Qed.

Lemma call_keeps (H : Host) c p :
  closed p = false ->
  closed (call H c p) = false /\ strict (call H c p) = strict p
  /\ options (call H c p) = options p.
Proof.
  intros C.
  assert (W : forall chunk, closed (parserOf (write H chunk p)) = false
                            /\ strict (parserOf (write H chunk p)) = strict p
                            /\ options (parserOf (write H chunk p)) = options p).
  { intros chunk. unfold write. destruct (error p); [auto|].
    rewrite C. destruct chunk as [chunk|];
      [|destruct (end_keeps H p) as [E1 E2]; repeat split; assumption].
    rewrite writeLoop_stepChars.
    pose proof (static_stepChars H p chunk) as S. apply static_fields in S.
    destruct S as (S1 & S2 & S3).
    destruct (stepChars H p chunk) as [r|e r]; cbn [parserOf] in *.
    - destruct (position r >=? bufferCheckPosition r).
      + destruct (checkBufferLength_fields r) as (O & _ & _ & _ & K & T).
        rewrite O, K, T. repeat split; congruence.
      + repeat split; congruence.
    - repeat split; congruence. }
  destruct c; cbn [call].
  - apply W.
  - destruct (end_keeps H p) as [E1 E2]. repeat split; assumption.
  - repeat split; assumption.
  - apply W.
  - pose proof (flush_frame p) as F. rewrite F. repeat split; assumption.
Qed.

Lemma calls_keep (H : Host) (cs : list Call) : forall p,
  closed p = false ->
  closed (calls H cs p) = false
  /\ strict (calls H cs p) = strict p
  /\ options (calls H cs p) = options p.
Proof.
  unfold calls.
  induction cs as [|c cs IH]; intros p C; [repeat split; assumption|].
  cbn [fold_left]. destruct (call_keeps H c p C) as (K1 & K2 & K3).
  destruct (IH _ K1) as (I1 & I2 & I3). repeat split; congruence.
Qed.

(** X3.  Whatever methods are called on a new parser, in any order and
    with any arguments, the [closed] flag is false when a call has returned
    or thrown, and [strict] and the options are those given to the
    constructor. *)
Theorem closed_never_observed (H : Host) (strict0 : bool) (opts : IOptions)
        (cs : list Call) :
  let p := calls H cs (newParser H strict0 opts) in
  closed p = false /\ strict p = strict0 /\ options p = opts.
Proof.
  cbv zeta. apply (calls_keep H cs (newParser H strict0 opts)). reflexivity.
Qed.


Lemma bufferEvent_nil mk : bufferEvent mk [] = [].
Proof. reflexivity. Qed.

Lemma closeText_flushed p : textNode (buffer p) = [] -> closeText p = p.
Proof.
  intros T. unfold closeText, textopts. rewrite T.
  destruct p as [? ? ? ? ? ? ? ? ? ? ? ? ? ? ? ? ? ? [] ? ?]. cbn in *. subst.
  destruct (trim _), (normalize _); reflexivity.
Qed.

Lemma closeText_buffers p :
  cdata (buffer (closeText p)) = cdata (buffer p)
  /\ script (buffer (closeText p)) = script (buffer p).
Proof.
  unfold closeText. cbn. destruct (nonEmpty _); split; reflexivity.
Qed.

Lemma flush_events_exact (p : Parser) :
  events (flush p)
  = events p ++ textEvent p ++ bufferEvent EvCData (cdata (buffer p))
             ++ bufferEvent EvScript (script (buffer p))
  /\ textNode (buffer (flush p)) = [] /\ cdata (buffer (flush p)) = []
  /\ script (buffer (flush p)) = []
  /\ flush (flush p) = flush p.
Proof.
  assert (G : forall q, textNode (buffer q) = [] ->
     events (flush q) = events q ++ bufferEvent EvCData (cdata (buffer q))
                                 ++ bufferEvent EvScript (script (buffer q))
     /\ textNode (buffer (flush q)) = [] /\ cdata (buffer (flush q)) = []
     /\ script (buffer (flush q)) = []
     /\ (cdata (buffer q) = [] -> script (buffer q) = [] -> flush q = q)).
  { intros q T. unfold flush. rewrite (closeText_flushed q T). cbv zeta.
    rewrite (flushText_empty q T).
    destruct q as [? ? ? ? ? ? ? ? ? ? ? ? ? ? ? ? ? ?
                   [? ? ? ? ? ? ? ? ? ? cd sc] ? ?]. cbn in T. subst.
    unfold bufferEvent.
    destruct cd, sc; cbn; rewrite ?app_nil_r, <- ?app_assoc;
      repeat split; intros; discriminate. }
  assert (E : flush p = flush (closeText p)).
  { unfold flush at 2. rewrite (closeText_flushed (closeText p)); reflexivity. }
  destruct (G (closeText p) eq_refl) as (G1 & G2 & G3 & G4 & _).
  rewrite E.
  repeat split; try assumption.
  - destruct (closeText_buffers p) as [B1 B2].
    rewrite G1, closeText_events, B1, B2, <- app_assoc. reflexivity.
  - destruct (G (flush (closeText p)) G2) as (_ & _ & _ & _ & I).
    apply I; assumption.
Qed.


Lemma end_events_exact (H : Host) (p : Parser) :
  events (end_ H p) = events p ++ textEvent p ++ endErrors p ++ [EvEnd].
Proof.
  set (p1 := if sawRoot p && negb (closedRoot p)
             then strictFail (u "Unclosed root tag") p else p).
  set (p2 := match state p1 with
             | Begin | BeginWhitespace | Text => p1
             | _ => emitError (u "Unexpected end") p1
             end).
  change (events (end_ H p)) with (events (closeText p2) ++ [EvEnd]).
  rewrite closeText_events.
  set (e1 := if sawRoot p && negb (closedRoot p) && strict p
             then [EvError (errorMessage (u "Unclosed root tag") p)] else []).
  assert (O1 : onlyOutput p p1).
  { subst p1. destruct (sawRoot p && negb (closedRoot p));
      [apply onlyOutput_strictFail | apply onlyOutput_refl]. }
  assert (E1 : events p1 ++ textEvent p1 = events p ++ textEvent p ++ e1).
  { subst p1 e1. unfold strictFail.
    destruct (sawRoot p && negb (closedRoot p)), (strict p); cbn [andb];
      rewrite ?app_nil_r; try reflexivity.
    rewrite emitError_events, (textEvent_empty (emitError _ p) eq_refl), app_nil_r.
    reflexivity. }
  assert (M : forall m, errorMessage m p1 = errorMessage m p).
  { intros m. rewrite O1. reflexivity. }
  assert (S1 : state p1 = state p) by (apply onlyOutput_state; exact O1).
  unfold endErrors. fold e1. rewrite <- S1.
  subst p2. destruct (state p1);
    try (rewrite app_nil_r, <- !app_assoc, app_assoc, E1, <- !app_assoc; reflexivity);
    rewrite emitError_events, (textEvent_empty (emitError _ p1) eq_refl), app_nil_r, M;
    rewrite app_assoc, E1, <- !app_assoc; reflexivity.
Qed.

(** X5.  [end()] emits the pending text first, then the error
    [Unclosed root tag] (in strict mode, when a root was opened and not
    closed), then the error [Unexpected end] (in any mode, when the state
    is not [Begin], [BeginWhitespace] or [Text]), then [end]; it emits no
    [closetag] for the tags that are still open. *)
Theorem end_event_order (H : Host) (p : Parser) :
  events (end_ H p) = events p ++ textEvent p ++ endErrors p ++ [EvEnd]
  /\ tags (end_ H p) = [].
Proof. split; [apply end_events_exact | reflexivity]. Qed.

(** X4.  [flush()] emits the text node (after [_textopts], when it is not
    empty), then the cdata buffer and then the script buffer when they are
    not empty, leaves the three buffers empty, and a second [flush()] does
    nothing. *)
Theorem flush_empties_buffers (p : Parser) :
  events (flush p)
  = events p ++ textEvent p ++ bufferEvent EvCData (cdata (buffer p))
             ++ bufferEvent EvScript (script (buffer p))
  /\ textNode (buffer (flush p)) = [] /\ cdata (buffer (flush p)) = []
  /\ script (buffer (flush p)) = []
  /\ flush (flush p) = flush p.
Proof. apply flush_events_exact. Qed.

(** ** CDATA sections *)

Lemma keeps_refl p : keeps p p.
Proof. repeat split. Qed.

Lemma keeps_trans p q r : keeps p q -> keeps q r -> keeps p r.
Proof.
  unfold keeps. intros (A1 & A2 & A3 & A4 & A5 & A6 & A7 & A8)
                       (B1 & B2 & B3 & B4 & B5 & B6 & B7 & B8).
  repeat split; congruence.
Qed.

Lemma prestep c p :
  exists l k n,
    updatePosition c (set_currentChar [c] p)
    = set_column k (set_line l (set_position n (set_currentChar [c] p))).
Proof.
  unfold updatePosition. cbn [options set_currentChar].
  destruct (trackPosition (options p)); [destruct (N.eqb c NL)|].
  - exists (line p + 1), 0, (position p + 1).
    destruct p as [? ? ? ? ? ? ? ? ? ? ? ? ? ? ? ? ? ? [] ? ?]. reflexivity.
  - exists (line p), (column p + 1), (position p + 1).
    destruct p as [? ? ? ? ? ? ? ? ? ? ? ? ? ? ? ? ? ? [] ? ?]. reflexivity.
  - exists (line p), (column p), (position p).
    destruct p as [? ? ? ? ? ? ? ? ? ? ? ? ? ? ? ? ? ? [] ? ?]. reflexivity.
Qed.

Lemma flushText_appends p : events (flushText p) = events p ++ textEvent p.
Proof.
  rewrite flushText_events. destruct (textNode (buffer p)) eqn:T; cbn [nonEmpty].
  - now rewrite (textEvent_empty p T).
  - reflexivity.
Qed.

Lemma occursIn_suffix pat a b : occursIn pat (a ++ b) = false -> occursIn pat b = false.
Proof.
  induction a as [|x a IH]; [auto|].
  cbn [app occursIn]. intros E. apply orb_false_iff in E. apply IH, E.
Qed.

Lemma occursIn_head pat s : occursIn pat s = false -> startsWith pat s = false.
Proof. destruct s; cbn [occursIn]; intros E; apply orb_false_iff in E; apply E. Qed.

Ltac pfields :=
  cbn [state buffer events error tags options strict sawRoot closedRoot
       comment sgmlDecl textNode tagName doctype procInstName procInstBody
       entity attribName attribValue cdata script previousChar
       set_column set_line set_position set_currentChar set_state set_buffer
       set_previousChar set_events set_error set_tag set_tags set_attribList
       set_sawRoot set_closedRoot set_startTagPosition
       setb_comment setb_sgmlDecl setb_textNode setb_tagName setb_doctype
       setb_procInstName setb_procInstBody setb_entity setb_attribName
       setb_attribValue setb_cdata setb_script] in *.

Lemma onlyOutput_cdata p q : onlyOutput p q -> cdata (buffer q) = cdata (buffer p).
Proof. intros E. rewrite E. reflexivity. Qed.

(** One character inside a CDATA section that does not end it. *)
Lemma cdata_step (H : Host) c p :
  inCData (state p) = true ->
  (state p = CDataEnding2 -> eqc c ">" = false) ->
  exists q pre,
    dispatch H c (updatePosition c (set_currentChar [c] p)) = Ok q
    /\ inCData (state q) = true
    /\ cdataPending (state p) ++ [c] = pre ++ cdataPending (state q)
    /\ cdata (buffer q) = cdata (buffer p) ++ pre
    /\ (eqc c "]" = true ->
        state q = match state p with CData => CDataEnding | _ => CDataEnding2 end)
    /\ keeps p q.
Proof.
  intros I N. destruct (prestep c p) as (l & k & n & ->).
  unfold dispatch. pfields.
  destruct (state p) eqn:S; try discriminate; cbv zeta; pfields.
  - destruct (eqc c "]") eqn:B.
    + eexists. exists []. pfields.
      apply N.eqb_eq in B. subst c.
      repeat split; pfields; rewrite ?S, ?app_nil_r; reflexivity.
    + eexists. exists [c]. pfields.
      repeat split; pfields; rewrite ?S, ?app_nil_r; try reflexivity; intros X; congruence.
  - destruct (eqc c "]") eqn:B.
    + eexists. exists []. pfields.
      apply N.eqb_eq in B. subst c.
      repeat split; pfields; rewrite ?S, ?app_nil_r; reflexivity.
    + eexists. exists (u "]" ++ [c]). pfields.
      repeat split; pfields; rewrite ?S, ?app_nil_r; try reflexivity; intros X; congruence.
  - rewrite (N eq_refl).
    destruct (eqc c "]") eqn:B.
    + eexists. exists (u "]"). pfields.
      apply N.eqb_eq in B. subst c.
      repeat split; pfields; rewrite ?S, ?app_nil_r; reflexivity.
    + eexists. exists (u "]]" ++ [c]). pfields.
      repeat split; pfields; rewrite ?S, ?app_nil_r; try reflexivity; intros X; congruence.
Qed.

Lemma cdata_steps (H : Host) s : forall p,
  inCData (state p) = true ->
  occursIn (u "]]>") (cdataPending (state p) ++ s) = false ->
  exists q,
    stepChars H p s = Ok q
    /\ inCData (state q) = true
    /\ cdata (buffer q) ++ cdataPending (state q)
       = cdata (buffer p) ++ cdataPending (state p) ++ s
    /\ keeps p q.
Proof.
  induction s as [|c s IH]; intros p I O.
  - exists (set_currentChar [] p). cbn [stepChars]. pfields.
    rewrite app_nil_r. repeat split. exact I.
  - assert (N : state p = CDataEnding2 -> eqc c ">" = false).
    { intros S. rewrite S in O. apply occursIn_head in O.
      destruct (eqc c ">") eqn:X; [|reflexivity].
      apply N.eqb_eq in X. subst c. discriminate O. }
    destruct (cdata_step H c p I N) as (q & pre & D & I' & P & C & _ & K).
    cbn [stepChars]. rewrite D.
    assert (O' : occursIn (u "]]>") (cdataPending (state q) ++ s) = false).
    { apply (occursIn_suffix _ pre).
      rewrite app_assoc, <- P, <- app_assoc. exact O. }
    destruct (IH q I' O') as (r & E & I'' & C' & K').
    exists r. split; [exact E|]. split; [exact I''|]. split.
    + rewrite C', C, <- !app_assoc. f_equal.
      rewrite app_assoc, <- P, <- app_assoc. reflexivity.
    + eapply keeps_trans; eassumption.
Qed.

(** The end of a CDATA section. *)
Lemma cdata_close (H : Host) p :
  state p = CDataEnding2 ->
  exists q,
    dispatch H (ch ">") (updatePosition (ch ">") (set_currentChar [ch ">"] p)) = Ok q
    /\ events q = events p ++ textEvent p
                    ++ bufferEvent EvCData (cdata (buffer p)) ++ [EvCloseCData]
    /\ state q = Text /\ cdata (buffer q) = [] /\ textNode (buffer q) = []
    /\ error q = error p /\ tags q = tags p.
Proof.
  intros S. destruct (prestep (ch ">") p) as (l & k & n & ->).
  unfold dispatch. pfields. rewrite S. cbv zeta.
  change (eqc (ch ">") ">") with true. cbv iota.
  set (p' := set_column k _).
  assert (T : textEvent p' = textEvent p) by reflexivity.
  assert (E : events p' = events p) by reflexivity.
  assert (C : cdata (buffer p') = cdata (buffer p)) by reflexivity.
  assert (R : error p' = error p) by reflexivity.
  assert (G : tags p' = tags p) by reflexivity.
  clearbody p'. rewrite <- T, <- E, <- C, <- R, <- G. clear.
  eexists. split; [reflexivity|].
  unfold bufferEvent.
  destruct (nonEmpty (cdata (buffer p'))) eqn:B.
  - set (p1 := emit _ (flushText p')).
    assert (T1 : textNode (buffer p1) = []) by apply flushText_textNode.
    rewrite (flushText_empty p1 T1).
    pfields. unfold p1, emit. pfields.
    rewrite flushText_appends, flushText_textNode, flushText_error.
    rewrite (onlyOutput_tags _ _ (onlyOutput_flushText p')).
    replace (cdata (buffer (flushText p'))) with (cdata (buffer p')).
    + rewrite <- !app_assoc. repeat split.
    + symmetry. apply onlyOutput_cdata, onlyOutput_flushText.
  - pfields. unfold emit. pfields.
    rewrite flushText_appends, flushText_textNode, flushText_error.
    rewrite (onlyOutput_tags _ _ (onlyOutput_flushText p')).
    rewrite <- !app_assoc. repeat split.
Qed.

(** X6.  Inside a CDATA section every character up to the first terminator
    (two closing brackets and a greater-than sign) is content, single and
    double brackets included: when the rest of the section does not contain
    the terminator, the loop of [write] over it and the terminator returns,
    emits the pending text, one [cdata] event with the whole content (none
    when it is empty) and [closecdata], and is back in the [Text] state
    with empty buffers. *)
Theorem cdata_section_verbatim (H : Host) (p : Parser) (s : jsstr) :
  state p = CData ->
  occursIn (u "]]>") s = false ->
  exists q,
    writeLoop H p (s ++ u "]]>") = Ok q
    /\ events q = events p ++ textEvent p
                    ++ bufferEvent EvCData (cdata (buffer p) ++ s) ++ [EvCloseCData]
    /\ state q = Text /\ cdata (buffer q) = [] /\ textNode (buffer q) = []
    /\ error q = error p /\ tags q = tags p.
Proof.
  intros S O. rewrite writeLoop_stepChars, stepChars_app.
  assert (I : inCData (state p) = true) by now rewrite S.
  assert (O0 : occursIn (u "]]>") (cdataPending (state p) ++ s) = false)
    by now rewrite S.
  destruct (cdata_steps H s p I O0) as (q & E & Iq & C & K).
  rewrite E, S in *. cbn [cdataPending app] in C.
  assert (B : forall r, inCData (state r) = true -> eqc (ch "]") ">" = false)
    by reflexivity.
  destruct (cdata_step H (ch "]") q Iq (fun _ => eq_refl))
    as (q1 & pre1 & D1 & I1 & P1 & C1 & S1 & K1).
  destruct (cdata_step H (ch "]") q1 I1 (fun _ => eq_refl))
    as (q2 & pre2 & D2 & I2 & P2 & C2 & S2 & K2).
  specialize (S1 eq_refl). specialize (S2 eq_refl).
  assert (S2' : state q2 = CDataEnding2).
  { rewrite S2, S1. destruct (state q); reflexivity. }
  assert (C2' : cdata (buffer q2) = cdata (buffer p) ++ s).
  { apply (app_inv_tail (u "]]")).
    rewrite C2, C1, <- C, <- !app_assoc. f_equal.
    rewrite S2' in P2. cbn [cdataPending] in P2.
    rewrite <- P2, app_assoc, <- P1, <- app_assoc. reflexivity. }
  destruct (cdata_close H q2 S2') as (r & D3 & Ev & St & Cd & Tx & Er & Tg).
  change (u "]]>") with [ch "]"; ch "]"; ch ">"].
  cbn [stepChars]. rewrite D1, D2, D3.
  exists (set_currentChar [] r). split; [reflexivity|]. pfields.
  pose proof (keeps_trans _ _ _ K (keeps_trans _ _ _ K1 K2)) as KK.
  destruct KK as (K'1 & K'2 & K'3 & K'4 & K'5 & _).
  assert (TE : textEvent q2 = textEvent p).
  { unfold textEvent, textopts. now rewrite K'4, K'5. }
  rewrite Ev, St, Cd, Tx, Er, Tg, C2', TE, K'1, K'2, K'3. repeat split.
Qed.

(** ** Comments *)

Lemma comment_step (H : Host) c p :
  inComment (state p) = true ->
  (state p = CommentEnding -> eqc c "-" = false) ->
  exists q pre,
    dispatch H c (updatePosition c (set_currentChar [c] p)) = Ok q
    /\ inComment (state q) = true
    /\ commentPending (state p) ++ [c] = pre ++ commentPending (state q)
    /\ comment (buffer q) = comment (buffer p) ++ pre
    /\ (eqc c "-" = true -> state q = CommentEnding)
    /\ keeps p q.
Proof.
  intros I N. destruct (prestep c p) as (l & k & n & ->).
  unfold dispatch. pfields.
  destruct (state p) eqn:S; try discriminate; cbv zeta; pfields.
  - destruct (eqc c "-") eqn:B.
    + eexists. exists []. apply N.eqb_eq in B. subst c.
      repeat split; pfields; rewrite ?S, ?app_nil_r; reflexivity.
    + eexists. exists [c].
      repeat split; pfields; rewrite ?S, ?app_nil_r; try reflexivity;
        intros X; congruence.
  - rewrite (N eq_refl).
    eexists. exists (u "-" ++ [c]).
    repeat split; pfields; rewrite ?S, ?app_nil_r; try reflexivity.
    intros X. discriminate X.
Qed.

Lemma comment_steps (H : Host) s : forall p,
  inComment (state p) = true ->
  occursIn (u "--") (commentPending (state p) ++ s ++ u "-") = false ->
  exists q,
    stepChars H p s = Ok q
    /\ state q = Comment
    /\ comment (buffer q) = comment (buffer p) ++ commentPending (state p) ++ s
    /\ keeps p q.
Proof.
  induction s as [|c s IH]; intros p I O.
  - exists (set_currentChar [] p). cbn [stepChars]. pfields.
    destruct (state p); try discriminate.
    cbn [commentPending]. rewrite !app_nil_r. repeat split.
  - assert (N : state p = CommentEnding -> eqc c "-" = false).
    { intros S. rewrite S in O. apply occursIn_head in O.
      destruct (eqc c "-") eqn:X; [|reflexivity].
      apply N.eqb_eq in X. subst c. discriminate O. }
    destruct (comment_step H c p I N) as (q & pre & D & I' & P & C & _ & K).
    cbn [stepChars]. rewrite D.
    assert (O' : occursIn (u "--") (commentPending (state q) ++ s ++ u "-") = false).
    { apply (occursIn_suffix _ pre).
      rewrite app_assoc, <- P, <- app_assoc. exact O. }
    destruct (IH q I' O') as (r & E & I'' & C' & K').
    exists r. split; [exact E|]. split; [exact I''|]. split.
    + rewrite C', C, <- !app_assoc. f_equal.
      rewrite app_assoc, <- P, <- app_assoc. reflexivity.
    + eapply keeps_trans; eassumption.
Qed.

Lemma onlyOutput_comment p q : onlyOutput p q -> comment (buffer q) = comment (buffer p).
Proof. intros E. rewrite E. reflexivity. Qed.

Lemma onlyOutput_options p q : onlyOutput p q -> options q = options p.
Proof. intros E. rewrite E. reflexivity. Qed.

Lemma onlyOutput_strict p q : onlyOutput p q -> strict q = strict p.
Proof. intros E. rewrite E. reflexivity. Qed.

(** The second dash: the comment is emitted. *)
Lemma comment_close (H : Host) p :
  state p = CommentEnding ->
  exists q,
    dispatch H (ch "-") (updatePosition (ch "-") (set_currentChar [ch "-"] p)) = Ok q
    /\ events q = events p ++ commentEvents (comment (buffer p)) p
    /\ state q = CommentEnded /\ comment (buffer q) = []
    /\ textNode (buffer q)
       = (if nonEmpty (textopts (comment (buffer p)) p) then [] else textNode (buffer p))
    /\ error q = error p /\ tags q = tags p
    /\ options q = options p /\ strict q = strict p.
Proof.
  intros S. destruct (prestep (ch "-") p) as (l & k & n & ->).
  unfold dispatch. pfields. rewrite S. cbv zeta.
  change (eqc (ch "-") "-") with true. cbv iota.
  unfold commentEvents.
  change (textopts (comment (buffer p)) p)
    with (textopts (comment (buffer p))
            (set_state CommentEnded
               (set_column k (set_line l (set_position n (set_currentChar [ch "-"] p)))))).
  change (textEvent p)
    with (textEvent (set_state CommentEnded
               (set_column k (set_line l (set_position n (set_currentChar [ch "-"] p)))))).
  set (p' := set_state CommentEnded _).
  assert (E : events p' = events p) by reflexivity.
  assert (C : comment (buffer p') = comment (buffer p)) by reflexivity.
  assert (R : error p' = error p) by reflexivity.
  assert (G : tags p' = tags p) by reflexivity.
  assert (T : textNode (buffer p') = textNode (buffer p)) by reflexivity.
  assert (S' : state p' = CommentEnded) by reflexivity.
  assert (O : options p' = options p) by reflexivity.
  assert (X : strict p' = strict p) by reflexivity.
  clearbody p'. rewrite <- E, <- C, <- R, <- G, <- T, <- O, <- X. clear - S'.
  eexists. split; [reflexivity|].
  set (v := textopts (comment (buffer p')) p').
  pfields.
  destruct (nonEmpty v) eqn:B.
  - unfold emit. pfields.
    rewrite flushText_appends, flushText_textNode, flushText_error.
    rewrite (onlyOutput_tags _ _ (onlyOutput_flushText _)).
    rewrite (onlyOutput_state _ _ (onlyOutput_flushText _)).
    rewrite (onlyOutput_options _ _ (onlyOutput_flushText _)).
    rewrite (onlyOutput_strict _ _ (onlyOutput_flushText _)).
    pfields. repeat split; try exact S'.
    rewrite <- app_assoc. reflexivity.
  - pfields. rewrite app_nil_r. repeat split; exact S'.
Qed.

Lemma comment_run (H : Host) (p : Parser) (s : jsstr) :
  state p = Comment ->
  occursIn (u "--") (s ++ u "-") = false ->
  exists q,
    stepChars H p (s ++ u "-->") = Ok q
    /\ events q = events p ++ commentEvents (comment (buffer p) ++ s) p
    /\ state q = Text /\ comment (buffer q) = []
    /\ error q = error p /\ tags q = tags p.
Proof.
  intros S O. rewrite stepChars_app.
  assert (I : inComment (state p) = true) by now rewrite S.
  assert (O0 : occursIn (u "--") (commentPending (state p) ++ s ++ u "-") = false)
    by now rewrite S.
  destruct (comment_steps H s p I O0) as (q & E & Sq & C & K).
  rewrite E, S in *. cbn [commentPending app] in C.
  assert (Iq : inComment (state q) = true) by now rewrite Sq.
  destruct (comment_step H (ch "-") q Iq) as (q1 & pre1 & D1 & I1 & P1 & C1 & S1 & K1).
  { rewrite Sq. discriminate. }
  specialize (S1 eq_refl).
  rewrite Sq, S1 in P1. cbn [commentPending app] in P1.
  assert (pre1 = []) by (destruct pre1 as [|x [|y z]]; [reflexivity|discriminate..]).
  subst pre1. rewrite app_nil_r in C1.
  destruct (comment_close H q1 S1) as (q2 & D2 & Ev & St & Cm & Tx & Er & Tg & _).
  change (u "-->") with [ch "-"; ch "-"; ch ">"].
  cbn [stepChars]. rewrite D1, D2.
  destruct (prestep (ch ">") q2) as (l & k & n & ->).
  unfold dispatch. pfields. rewrite St. cbv zeta.
  change (eqc (ch ">") ">") with true. cbn [negb].
  eexists. split; [reflexivity|]. pfields.
  pose proof (keeps_trans _ _ _ K K1) as (K'1 & K'2 & K'3 & K'4 & K'5 & _).
  assert (CE : commentEvents (comment (buffer q1)) q1
               = commentEvents (comment (buffer p) ++ s) p).
  { unfold commentEvents, textEvent, textopts. now rewrite K'4, K'5, C1, C. }
  rewrite Ev, Cm, Er, Tg, CE, K'1, K'2, K'3. repeat split.
Qed.

(** X7.  A comment whose text contains no double dash and does not end
    with a dash is delivered whole: the loop of [write] over the text and
    the closing [-->] returns and emits, when the text is not empty after
    [_textopts], the pending text node and one [comment] event; single
    dashes are part of the text. *)
Theorem comment_delivered (H : Host) (p : Parser) (s : jsstr) :
  state p = Comment ->
  occursIn (u "--") (s ++ u "-") = false ->
  exists q,
    writeLoop H p (s ++ u "-->") = Ok q
    /\ events q = events p ++ commentEvents (comment (buffer p) ++ s) p
    /\ state q = Text /\ comment (buffer q) = []
    /\ error q = error p /\ tags q = tags p.
Proof. intros S O. rewrite writeLoop_stepChars. now apply comment_run. Qed.

(** A character other than [>] after a double dash: the comment goes on,
    with the two dashes and the character as its text. *)
Lemma comment_malformed (H : Host) c p :
  state p = CommentEnded -> strict p = false -> eqc c ">" = false ->
  exists q,
    dispatch H c (updatePosition c (set_currentChar [c] p)) = Ok q
    /\ state q = Comment
    /\ comment (buffer q) = comment (buffer p) ++ u "--" ++ [c]
    /\ keeps p q.
Proof.
  intros S X N. destruct (prestep c p) as (l & k & n & ->).
  unfold dispatch. pfields. rewrite S. cbv zeta. rewrite N. cbn [negb].
  unfold strictFail.
  change (strict (set_column k (set_line l (set_position n (set_currentChar [c] p)))))
    with (strict p).
  rewrite X. eexists. split; [reflexivity|]. pfields. repeat split; assumption.
Qed.

Lemma commentEvents_plain b p :
  textNode (buffer p) = [] ->
  commentEvents b p = bufferEvent EvComment (textopts b p).
Proof.
  intros T. unfold commentEvents, bufferEvent. now rewrite (textEvent_empty p T).
Qed.

(** X16.  A double dash inside a comment cuts it in two when the parser is
    not strict.  With no text pending, for a comment [s1--c s2] where [s1]
    and [s2] contain no double dash and do not end with a dash and [c] is
    not the greater-than sign: the text before the double dash is emitted
    as one [comment] event at the double dash, and the double dash, [c]
    and [s2] as a second one at the closing [-->] (each only when it is
    not empty after [_textopts]). *)
Theorem double_dash_splits_comment (H : Host) (p : Parser) (s1 s2 : jsstr) (c : jschar) :
  state p = Comment -> strict p = false -> textNode (buffer p) = [] ->
  occursIn (u "--") (s1 ++ u "-") = false ->
  eqc c ">" = false ->
  occursIn (u "--") (s2 ++ u "-") = false ->
  exists q,
    writeLoop H p (s1 ++ u "--" ++ [c] ++ s2 ++ u "-->") = Ok q
    /\ events q = events p
                    ++ bufferEvent EvComment (textopts (comment (buffer p) ++ s1) p)
                    ++ bufferEvent EvComment (textopts (u "--" ++ [c] ++ s2) p)
    /\ state q = Text /\ error q = error p.
Proof.
  intros S X T O1 N O2. rewrite writeLoop_stepChars, stepChars_app.
  assert (I : inComment (state p) = true) by now rewrite S.
  assert (O0 : occursIn (u "--") (commentPending (state p) ++ s1 ++ u "-") = false)
    by now rewrite S.
  destruct (comment_steps H s1 p I O0) as (q & E & Sq & C & K).
  rewrite E, S in *. cbn [commentPending app] in C.
  assert (Iq : inComment (state q) = true) by now rewrite Sq.
  destruct (comment_step H (ch "-") q Iq) as (q1 & pre1 & D1 & I1 & P1 & C1 & S1 & K1).
  { rewrite Sq. discriminate. }
  specialize (S1 eq_refl).
  rewrite Sq, S1 in P1. cbn [commentPending app] in P1.
  assert (pre1 = []) by (destruct pre1 as [|x [|y z]]; [reflexivity|discriminate..]).
  subst pre1. rewrite app_nil_r in C1.
  destruct (comment_close H q1 S1) as (q2 & D2 & Ev & St & Cm & Tx & Er & Tg & Op & Sr).
  pose proof (keeps_trans _ _ _ K K1) as (K1' & K2' & K3' & K4' & K5' & K6' & _).
  assert (X2 : strict q2 = false) by congruence.
  destruct (comment_malformed H c q2 St X2 N) as (q3 & D3 & S3 & C3 & K3).
  destruct (comment_run H q3 s2 S3 O2) as (r & E4 & Ev4 & St4 & Cm4 & Er4 & Tg4).
  change (u "--" ++ [c] ++ s2 ++ u "-->")
    with (ch "-" :: ch "-" :: c :: (s2 ++ u "-->")).
  cbn [stepChars]. rewrite D1, D2, D3.
  exists r. split; [exact E4|].
  assert (T1 : textNode (buffer q1) = []) by congruence.
  assert (T2 : textNode (buffer q2) = []).
  { rewrite Tx, T1. now destruct (nonEmpty _). }
  destruct K3 as (K31 & K32 & K33 & K34 & K35 & _).
  assert (T3 : textNode (buffer q3) = []) by congruence.
  rewrite Ev4, St4, Er4, K31, K32, Ev, Er, K1', K2'.
  rewrite (commentEvents_plain _ q1 T1), (commentEvents_plain _ q3 T3).
  rewrite C3, Cm, C1, C. cbn [app].
  unfold textopts. rewrite K5', K35, Op, K5', <- app_assoc.
  repeat split.
Qed.

(** ** Processing instructions and text outside the root *)

Lemma pi_name (H : Host) s : forall p,
  state p = ProcInst -> forallb piNameChar s = true ->
  exists q,
    stepChars H p s = Ok q /\ state q = ProcInst
    /\ procInstName (buffer q) = procInstName (buffer p) ++ s
    /\ procInstBody (buffer q) = procInstBody (buffer p)
    /\ keeps p q.
Proof.
  induction s as [|c s IH]; intros p S F.
  - exists (set_currentChar [] p). cbn [stepChars]. pfields.
    rewrite app_nil_r. repeat split. exact S.
  - cbn [forallb] in F. apply andb_true_iff in F. destruct F as [F1 F2].
    unfold piNameChar in F1. apply andb_true_iff in F1. destruct F1 as [A B].
    apply negb_true_iff in A, B.
    cbn [stepChars]. destruct (prestep c p) as (l & k & n & ->).
    unfold dispatch. pfields. rewrite S. cbv zeta. rewrite A, B.
    set (q := setb_procInstName _ _).
    destruct (IH q S F2) as (r & E & Sr & N & Bd & K).
    exists r. split; [exact E|]. split; [exact Sr|].
    subst q. pfields. rewrite N, Bd, <- app_assoc. repeat split; apply K.
Qed.

Lemma pi_gap (H : Host) s : forall p,
  state p = ProcInstBody -> procInstBody (buffer p) = [] ->
  forallb isWhitespace s = true ->
  exists q,
    stepChars H p s = Ok q /\ state q = ProcInstBody
    /\ procInstName (buffer q) = procInstName (buffer p)
    /\ procInstBody (buffer q) = []
    /\ keeps p q.
Proof.
  induction s as [|c s IH]; intros p S B F.
  - exists (set_currentChar [] p). cbn [stepChars]. pfields. repeat split; assumption.
  - cbn [forallb] in F. apply andb_true_iff in F. destruct F as [F1 F2].
    cbn [stepChars]. destruct (prestep c p) as (l & k & n & ->).
    unfold dispatch. pfields. rewrite S. cbv zeta. rewrite B, F1. cbn [nonEmpty negb andb].
    set (q := set_column _ _).
    destruct (IH q S B F2) as (r & E & Sr & N & Bd & K).
    exists r. split; [exact E|]. split; [exact Sr|].
    subst q. pfields. rewrite N, Bd. repeat split; apply K.
Qed.

Lemma pi_body (H : Host) s : forall p,
  state p = ProcInstBody ->
  forallb (fun c => negb (eqc c "?")) s = true ->
  (procInstBody (buffer p) = [] ->
   match s with c :: _ => negb (isWhitespace c) | [] => true end = true) ->
  exists q,
    stepChars H p s = Ok q /\ state q = ProcInstBody
    /\ procInstName (buffer q) = procInstName (buffer p)
    /\ procInstBody (buffer q) = procInstBody (buffer p) ++ s
    /\ keeps p q.
Proof.
  induction s as [|c s IH]; intros p S F W.
  - exists (set_currentChar [] p). cbn [stepChars]. pfields.
    rewrite app_nil_r. repeat split; assumption.
  - cbn [forallb] in F. apply andb_true_iff in F. destruct F as [F1 F2].
    apply negb_true_iff in F1.
    cbn [stepChars]. destruct (prestep c p) as (l & k & n & ->).
    unfold dispatch. pfields. rewrite S. cbv zeta. rewrite F1.
    assert (X : negb (nonEmpty (procInstBody (buffer p))) && isWhitespace c = false).
    { destruct (procInstBody (buffer p)); [|reflexivity].
      specialize (W eq_refl). apply negb_true_iff in W. now rewrite W. }
    rewrite X.
    set (q := setb_procInstBody _ _).
    destruct (IH q S F2) as (r & E & Sr & N & Bd & K).
    { subst q. pfields. intros Y. apply app_eq_nil in Y. destruct Y; discriminate. }
    exists r. split; [exact E|]. split; [exact Sr|].
    subst q. pfields. rewrite N, Bd, <- app_assoc. repeat split; apply K.
Qed.

Lemma onlyOutput_procInst p q :
  onlyOutput p q ->
  procInstName (buffer q) = procInstName (buffer p)
  /\ procInstBody (buffer q) = procInstBody (buffer p).
Proof. intros E. rewrite E. split; reflexivity. Qed.

(** [?>] in [ProcInst] or [ProcInstBody]. *)
Lemma pi_close (H : Host) p :
  state p = ProcInst \/ state p = ProcInstBody ->
  exists q,
    stepChars H p (u "?>") = Ok q
    /\ events q = events p ++ textEvent p
                    ++ [EvProcessingInstruction (procInstName (buffer p))
                                                (procInstBody (buffer p))]
    /\ state q = Text /\ procInstName (buffer q) = [] /\ procInstBody (buffer q) = []
    /\ textNode (buffer q) = [] /\ error q = error p /\ tags q = tags p.
Proof.
  intros S. change (u "?>") with [ch "?"; ch ">"]. cbn [stepChars].
  destruct (prestep (ch "?") p) as (l & k & n & ->).
  assert (D : dispatch H (ch "?")
                (set_column k (set_line l (set_position n (set_currentChar [ch "?"] p))))
              = Ok (set_state ProcInstEnding
                      (set_column k (set_line l (set_position n
                                       (set_currentChar [ch "?"] p)))))).
  { unfold dispatch. pfields.
    destruct S as [S|S]; rewrite S; cbv zeta; pfields.
    - reflexivity.
    - change (eqc (ch "?") "?") with true.
      change (isWhitespace (ch "?")) with false. rewrite andb_false_r. reflexivity. }
  rewrite D. clear D.
  set (p1 := set_state ProcInstEnding _).
  destruct (prestep (ch ">") p1) as (l' & k' & n' & ->).
  unfold dispatch. pfields. cbv zeta.
  change (eqc (ch ">") ">") with true. cbv iota.
  eexists. split; [reflexivity|].
  unfold emit. pfields.
  rewrite flushText_appends, flushText_textNode, flushText_error.
  rewrite (onlyOutput_tags _ _ (onlyOutput_flushText _)).
  match goal with |- context [procInstName (buffer (flushText ?x))] =>
    destruct (onlyOutput_procInst _ _ (onlyOutput_flushText x)) as [-> ->]
  end.
  subst p1. pfields. rewrite <- app_assoc. repeat split.
Qed.

Lemma pi_enter_body (H : Host) c p :
  state p = ProcInst -> isWhitespace c = true ->
  exists q,
    dispatch H c (updatePosition c (set_currentChar [c] p)) = Ok q
    /\ state q = ProcInstBody
    /\ procInstName (buffer q) = procInstName (buffer p)
    /\ procInstBody (buffer q) = procInstBody (buffer p)
    /\ keeps p q.
Proof.
  intros S W. destruct (prestep c p) as (l & k & n & ->).
  unfold dispatch. pfields. rewrite S. cbv zeta. rewrite W.
  assert (Q : eqc c "?" = false).
  { destruct (eqc c "?") eqn:X; [|reflexivity].
    apply N.eqb_eq in X. subst c. discriminate W. }
  rewrite Q. eexists. split; [reflexivity|]. pfields. repeat split.
Qed.

Lemma keeps_textEvent p q : keeps p q -> textEvent q = textEvent p.
Proof.
  intros (_ & _ & _ & T & O & _). unfold textEvent, textopts. now rewrite T, O.
Qed.

(** X8.  A processing instruction [<?name gap body?>], with a name
    without question mark and white space, a gap of white space and a body
    without question mark that starts with another character than white
    space: the loop of [write] returns and emits the pending text and one
    [processinginstruction] event with that name and that body, the gap
    dropped. *)
Theorem processing_instruction_delivered (H : Host) (p : Parser)
        (name gap body : jsstr) :
  state p = ProcInst ->
  procInstBody (buffer p) = [] ->
  forallb piNameChar name = true ->
  forallb isWhitespace gap = true ->
  piBody body = true ->
  (gap = [] -> body = []) ->
  exists q,
    writeLoop H p (name ++ gap ++ body ++ u "?>") = Ok q
    /\ events q = events p ++ textEvent p
                    ++ [EvProcessingInstruction (procInstName (buffer p) ++ name) body]
    /\ state q = Text /\ procInstName (buffer q) = [] /\ procInstBody (buffer q) = []
    /\ error q = error p /\ tags q = tags p.
Proof.
  intros S B N G Bd E. rewrite writeLoop_stepChars, stepChars_app.
  destruct (pi_name H name p S N) as (q1 & E1 & S1 & N1 & B1 & K1).
  rewrite E1. rewrite B in B1.
  destruct gap as [|g gap].
  - rewrite (E eq_refl). cbn [app].
    destruct (pi_close H q1 (or_introl S1)) as (q & E2 & Ev & St & Nm & Bo & Tx & Er & Tg).
    exists q. split; [exact E2|].
    rewrite Ev, (keeps_textEvent p q1 K1), N1, B1, Er, Tg.
    destruct K1 as (K11 & K12 & K13 & _).
    rewrite K11, K12, K13. repeat split; assumption.
  - cbn [forallb] in G. apply andb_true_iff in G. destruct G as [G1 G2].
    cbn [app stepChars].
    destruct (pi_enter_body H g q1 S1 G1) as (q2 & D2 & S2 & N2 & B2 & K2).
    rewrite D2, stepChars_app.
    destruct (pi_gap H gap q2 S2 ltac:(congruence) G2) as (q3 & E3 & S3 & N3 & B3 & K3).
    rewrite E3, stepChars_app.
    unfold piBody in Bd. apply andb_true_iff in Bd. destruct Bd as [Bd1 Bd2].
    destruct (pi_body H body q3 S3 Bd1 (fun _ => Bd2)) as (q4 & E4 & S4 & N4 & B4 & K4).
    rewrite E4.
    destruct (pi_close H q4 (or_intror S4)) as (q & E5 & Ev & St & Nm & Bo & Tx & Er & Tg).
    exists q. split; [exact E5|].
    pose proof (keeps_trans _ _ _ K1 (keeps_trans _ _ _ K2 (keeps_trans _ _ _ K3 K4))) as K.
    rewrite Ev, (keeps_textEvent p q4 K), N4, N3, N2, N1, B4, B3, Er, Tg.
    destruct K as (K11 & K12 & K13 & _).
    rewrite K11, K12, K13. repeat split; assumption.
Qed.


(** X9.  After the root element is closed a parser that is not strict
    opens no second element: every character other than an ampersand, the
    less-than sign included, goes to the text node, with no event and no
    error. *)
Theorem markup_after_root_is_text (H : Host) (p : Parser) (s : jsstr) :
  state p = Text -> sawRoot p = true -> closedRoot p = true -> strict p = false ->
  forallb (fun c => negb (eqc c "&")) s = true ->
  exists q,
    writeLoop H p s = Ok q
    /\ state q = Text
    /\ textNode (buffer q) = textNode (buffer p) ++ s
    /\ events q = events p /\ error q = error p /\ tags q = tags p
    /\ sawRoot q = true /\ closedRoot q = true.
Proof.
  rewrite writeLoop_stepChars. revert p.
  induction s as [|c s IH]; intros p S R C T F.
  - exists (set_currentChar [] p). cbn [stepChars]. pfields.
    rewrite app_nil_r. repeat split; assumption.
  - cbn [forallb] in F. apply andb_true_iff in F. destruct F as [F1 F2].
    apply negb_true_iff in F1.
    cbn [stepChars]. destruct (prestep c p) as (l & k & n & ->).
    unfold dispatch. pfields. rewrite S. cbv zeta.
    unfold textLastChar. pfields. rewrite R, C. cbn [negb andb].
    unfold textAfterScan. pfields. rewrite R, C. cbn [negb andb orb].
    change (strict (set_column k (set_line l (set_position n (set_currentChar [c] p)))))
      with (strict p).
    rewrite T. cbn [negb andb]. rewrite andb_false_r.
    unfold strictFail.
    change (strict (set_column k (set_line l (set_position n (set_currentChar [c] p)))))
      with (strict p).
    rewrite T.
    assert (A : is1 [c] "&" = false).
    { unfold is1. cbn [eqs]. fold (eqc c "&"). now rewrite F1. }
    rewrite A.
    match goal with |- context [if ?b then ?x else ?x] =>
      replace (if b then x else x) with x by (destruct b; reflexivity) end.
    set (q := setb_textNode _ _).
    destruct (IH q S R C T F2) as (r & E & Sr & Tx & Ev & Er & Tg & R' & C').
    exists r. split; [exact E|]. split; [exact Sr|].
    subst q. pfields. rewrite Tx, <- app_assoc. repeat split; assumption.
Qed.


(** X10.  Before the first tag a byte order mark at the very beginning and
    any white space are skipped: no event, no error, no buffer changed, and
    the less-than sign that follows starts a tag. *)
Theorem leading_whitespace_skipped (H : Host) (p : Parser) (bom : bool) (ws : jsstr) :
  state p = Begin ->
  forallb isWhitespace ws = true ->
  exists q,
    writeLoop H p ((if bom then [BOM] else []) ++ ws ++ u "<") = Ok q
    /\ state q = OpenWaka
    /\ buffer q = buffer p /\ events q = events p /\ error q = error p.
Proof.
  intros S F. rewrite writeLoop_stepChars.
  assert (W : forall s p0,
             state p0 = BeginWhitespace -> forallb isWhitespace s = true ->
             exists q, stepChars H p0 (s ++ u "<") = Ok q
                       /\ state q = OpenWaka
                       /\ buffer q = buffer p0 /\ events q = events p0
                       /\ error q = error p0).
  { clear. induction s as [|c s IH]; intros p S F.
    - cbn [app]. change (u "<") with [ch "<"]. cbn [stepChars].
      destruct (prestep (ch "<") p) as (l & k & n & ->).
      unfold dispatch. pfields. rewrite S. unfold beginWhiteSpace.
      change (eqc (ch "<") "<") with true. cbv iota.
      eexists. split; [reflexivity|]. pfields. repeat split.
    - cbn [forallb] in F. apply andb_true_iff in F. destruct F as [F1 F2].
      cbn [app stepChars]. destruct (prestep c p) as (l & k & n & ->).
      unfold dispatch. pfields. rewrite S. unfold beginWhiteSpace. rewrite F1.
      assert (Q : eqc c "<" = false).
      { destruct (eqc c "<") eqn:X; [|reflexivity].
        apply N.eqb_eq in X. subst c. discriminate F1. }
      rewrite Q. cbn [negb].
      set (q := set_column _ _).
      destruct (IH q S F2) as (r & E & Sr & Bu & Ev & Er).
      exists r. split; [exact E|]. repeat split; assumption. }
  assert (B : forall c s, (c = BOM \/ isWhitespace c = true) ->
             forallb isWhitespace s = true ->
             exists q, stepChars H p (c :: s ++ u "<") = Ok q
                       /\ state q = OpenWaka
                       /\ buffer q = buffer p /\ events q = events p
                       /\ error q = error p).
  { intros c s Cc Fs. cbn [stepChars].
    destruct (prestep c p) as (l & k & n & ->).
    unfold dispatch. pfields. rewrite S. cbv zeta.
    assert (X : exists q0, (if N.eqb c 65279
                 then Ok (set_state BeginWhitespace
                            (set_column k (set_line l (set_position n
                               (set_currentChar [c] p)))))
                 else Ok (beginWhiteSpace c
                            (set_state BeginWhitespace
                               (set_column k (set_line l (set_position n
                                  (set_currentChar [c] p)))))))
              = Ok q0 /\ state q0 = BeginWhitespace /\ buffer q0 = buffer p
                /\ events q0 = events p /\ error q0 = error p).
    { destruct (N.eqb c 65279) eqn:Y.
      - eexists. split; [reflexivity|]. repeat split.
      - destruct Cc as [->|Cc]; [discriminate Y|].
        unfold beginWhiteSpace. rewrite Cc.
        assert (Q : eqc c "<" = false).
        { destruct (eqc c "<") eqn:X; [|reflexivity].
          apply N.eqb_eq in X. subst c. discriminate Cc. }
        rewrite Q. cbn [negb]. eexists. split; [reflexivity|]. repeat split. }
    destruct X as (q0 & -> & S0 & B0 & E0 & R0).
    destruct (W s q0 S0 Fs) as (r & E & Sr & Bu & Ev & Er).
    exists r. split; [exact E|]. repeat split; congruence. }
  destruct bom.
  - apply B; [now left | exact F].
  - cbn [app]. destruct ws as [|c ws].
    + cbn [app]. change (u "<") with [ch "<"]. cbn [stepChars].
      destruct (prestep (ch "<") p) as (l & k & n & ->).
      unfold dispatch. pfields. rewrite S. cbv zeta.
      change (N.eqb (ch "<") 65279) with false. cbv iota.
      unfold beginWhiteSpace.
      change (eqc (ch "<") "<") with true. cbv iota.
      eexists. split; [reflexivity|]. pfields. repeat split.
    + cbn [forallb] in F. apply andb_true_iff in F. destruct F as [F1 F2].
      apply B; [now right | exact F2].
Qed.

(** ** The events that are emitted *)

Lemma grows_refl p : grows p p.
Proof. exists []. now rewrite app_nil_r. Qed.

Lemma grows_trans p q r : grows p q -> grows q r -> grows p r.
Proof.
  intros (a & A1 & A2) (b & B1 & B2). exists (a ++ b). split.
  - now rewrite B1, A1, app_assoc.
  - now rewrite forallb_app, A2, B2.
Qed.

Lemma grows_same p q : events q = events p -> grows p q.
Proof. intros E. exists []. now rewrite app_nil_r. Qed.

Lemma grows_update (f : Parser -> Parser) p :
  (forall x, events (f x) = events x) -> grows p (f p).
Proof. intros E. apply grows_same, E. Qed.

Lemma grows_emit e p : wellFormedEvent e = true -> grows p (emit e p).
Proof. intros W. exists [e]. split; [reflexivity|]. cbn. now rewrite W. Qed.

Lemma grows_closeText p : grows p (closeText p).
Proof.
  exists (textEvent p). split; [apply closeText_events|].
  unfold textEvent. cbv zeta. destruct (nonEmpty _) eqn:N; cbn; [now rewrite N|reflexivity].
Qed.

Lemma grows_flushText p : grows p (flushText p).
Proof. unfold flushText. destruct (nonEmpty _); [apply grows_closeText|apply grows_refl]. Qed.

Lemma grows_emitError m p : grows p (emitError m p).
Proof.
  exists (textEvent p ++ [EvError (errorMessage m p)]). split; [apply emitError_events|].
  rewrite forallb_app. cbn. rewrite andb_true_r.
  unfold textEvent. cbv zeta. destruct (nonEmpty _) eqn:N; cbn; [now rewrite N|reflexivity].
Qed.

Lemma grows_strictFail m p : grows p (strictFail m p).
Proof. unfold strictFail. destruct (strict p); [apply grows_emitError|apply grows_refl]. Qed.

Lemma onlyOutput_script p q : onlyOutput p q -> script (buffer q) = script (buffer p).
Proof. intros E. rewrite E. reflexivity. Qed.

Lemma flushText_script p : script (buffer (flushText p)) = script (buffer p).
Proof. apply onlyOutput_script, onlyOutput_flushText. Qed.

Lemma flushText_cdata p : cdata (buffer (flushText p)) = cdata (buffer p).
Proof. apply onlyOutput_cdata, onlyOutput_flushText. Qed.

Create HintDb grows.
#[export] Hint Resolve grows_closeText grows_flushText grows_emitError
  grows_strictFail : grows.

Ltac is_quiet f :=
  lazymatch f with
  | set_line _ => idtac | set_column _ => idtac | set_position _ => idtac
  | set_closed _ => idtac | set_entities _ => idtac
  | set_bufferCheckPosition _ => idtac
  | set_startTagPosition _ => idtac | set_tag _ => idtac | set_error _ => idtac
  | set_state _ => idtac | set_attribList _ => idtac | set_tags _ => idtac
  | set_currentChar _ => idtac | set_previousChar _ => idtac
  | set_closedRoot _ => idtac | set_sawRoot _ => idtac | set_buffer _ => idtac
  | set_nextNsId _ => idtac
  | setb_comment _ => idtac | setb_sgmlDecl _ => idtac | setb_textNode _ => idtac
  | setb_tagName _ => idtac | setb_doctype _ => idtac | setb_procInstName _ => idtac
  | setb_procInstBody _ => idtac | setb_entity _ => idtac | setb_attribName _ => idtac
  | setb_attribValue _ => idtac | setb_cdata _ => idtac | setb_script _ => idtac
  | set_target _ _ => idtac | clearBuffers => idtac | clearAttribBuffers => idtac
  end.

Ltac grow_peel :=
  lazymatch goal with
  | |- grows ?a ?a => apply grows_refl
  | |- grows _ (snd (_, ?q)) => change (snd (_, q)) with q
  | |- grows _ (parserOf (Ok ?q)) => change (parserOf (Ok q)) with q
  | |- grows _ (parserOf (Throw _ ?q)) => change (parserOf (Throw _ q)) with q
  | |- grows _ (snd (?f ?q)) =>
      apply grows_trans with q; [|solve [auto with grows]]
  | |- grows _ (emit ?e ?q) =>
      apply grows_trans with q;
      [|apply grows_emit;
        first [reflexivity | assumption
              | cbn [wellFormedEvent]; rewrite ?flushText_script, ?flushText_cdata;
                assumption]]
  | |- grows _ (?f ?q) =>
      apply grows_trans with q;
      [|first [is_quiet f; apply (grows_update f q); intros ?;
               try match goal with |- context [set_target ?b] => destruct b end;
               reflexivity
              | solve [auto with grows]]]
  end.

Ltac grow := repeat first [grow_peel | unpair | split_cases].

Section Grows.

Variable H : Host.

Lemma grows_beginWhiteSpace c p : grows p (beginWhiteSpace c p).
Proof. unfold beginWhiteSpace. grow. Qed.

Lemma grows_newTag p : grows p (newTag H p).
Proof. unfold newTag. grow. Qed.

Lemma grows_parseEntity p : grows p (snd (parseEntity H p)).
Proof.
  unfold parseEntity.
  repeat first [split_cases | unpair | progress cbn [snd]]; auto with grows;
    apply grows_refl.
Qed.

Lemma grows_attrib p : grows p (parserOf (attrib H p)).
Proof. unfold attrib. grow. Qed.

Lemma grows_emitOpenNamespaces ns keys p : grows p (emitOpenNamespaces ns keys p).
Proof.
  revert p. induction keys as [|k keys IH]; intros p; simpl; [apply grows_refl|].
  eapply grows_trans; [|apply IH]. grow.
Qed.

Lemma grows_emitCloseNamespaces ns keys p : grows p (emitCloseNamespaces ns keys p).
Proof.
  revert p. induction keys as [|k keys IH]; intros p; simpl; [apply grows_refl|].
  eapply grows_trans; [|apply IH]. grow.
Qed.

Lemma grows_emitStagedAttributes l t p : grows p (snd (emitStagedAttributes l t p)).
Proof.
  revert t p. induction l as [|[name value] l IH]; intros t p;
    cbn [emitStagedAttributes]; grow.
Qed.

Lemma grows_findOpenTag t closeTo p : grows p (snd (findOpenTag t closeTo p)).
Proof.
  revert p. induction t as [|t IH]; intros p; cbn [findOpenTag]; [apply grows_refl|].
  repeat split_cases; cbn [snd]; try apply grows_refl.
  eapply grows_trans; [|apply IH]. apply grows_strictFail.
Qed.

Lemma grows_popTag p : grows p (popTag p).
Proof.
  unfold popTag. destruct (lastTag (tags p)); [|apply grows_refl].
  split_cases.
  - eapply grows_trans; [|apply grows_emitCloseNamespaces]. grow.
  - grow.
Qed.

Lemma grows_popTags n p : grows p (popTags n p).
Proof.
  revert p. induction n as [|n IH]; intros p; simpl; [apply grows_refl|].
  eapply grows_trans; [apply grows_popTag | apply IH].
Qed.

End Grows.

#[export] Hint Resolve grows_beginWhiteSpace grows_newTag grows_attrib
  grows_emitOpenNamespaces grows_emitCloseNamespaces grows_popTag
  grows_popTags grows_parseEntity grows_emitStagedAttributes
  grows_findOpenTag : grows.

Section Grows2.

Variable H : Host.

Lemma grows_openTag b p : grows p (openTag H b p).
Proof. unfold openTag. grow. Qed.

End Grows2.

#[export] Hint Resolve grows_openTag : grows.

Section Grows3.

Variable H : Host.

Lemma grows_closeTag p : grows p (closeTag H p).
Proof. unfold closeTag. grow. Qed.

Lemma grows_textAfterScan c p : grows p (textAfterScan c p).
Proof. unfold textAfterScan. grow. Qed.

Lemma grows_textLastChar c p : grows p (textLastChar c p).
Proof. pose proof grows_textAfterScan. unfold textLastChar. grow. Qed.

Lemma grows_entityCase st b c p : grows p (parserOf (entityCase H st b c p)).
Proof.
  unfold entityCase.
  repeat first [grow_peel | split_cases
               | match goal with
                 | |- context [parseEntity H ?q] =>
                     pose proof (grows_parseEntity H q);
                     destruct (parseEntity H q) as [[v|] r]; cbn [snd] in *
                 end]; assumption.
Qed.

End Grows3.

#[export] Hint Resolve grows_closeTag grows_textAfterScan grows_textLastChar
  grows_entityCase : grows.

Section Grows4.

Variable H : Host.

Lemma grows_dispatch c p : grows p (parserOf (dispatch H c p)).
Proof.
  unfold dispatch. cbv zeta.
  destruct (state p);
    repeat first [grow_peel | split_cases | solve [auto with grows]
                 | match goal with
                   | |- context [andThen (attrib H ?q) _] =>
                       let G := fresh "G" in
                       unfold andThen; pose proof (grows_attrib H q) as G;
                       destruct (attrib H q); cbn [parserOf] in G |- *
                   | G : grows ?q ?r |- grows _ ?r =>
                       apply grows_trans with q; [|exact G]; clear G
                   end].
Qed.

End Grows4.

#[export] Hint Resolve grows_dispatch : grows.

Section Grows5.

Variable H : Host.

Lemma grows_stepChars chunk : forall p, grows p (parserOf (stepChars H p chunk)).
Proof.
  induction chunk as [|c chunk IH]; intros p; [apply grows_same; reflexivity|].
  cbn [stepChars].
  pose proof (grows_dispatch H c (updatePosition c (set_currentChar [c] p))) as G.
  assert (E : grows p (updatePosition c (set_currentChar [c] p))).
  { destruct (prestep c p) as (l & k & n & ->). apply grows_same. reflexivity. }
  destruct (dispatch H c _) as [q|e q]; cbn [parserOf] in *.
  - eapply grows_trans; [|apply IH]. eapply grows_trans; eassumption.
  - eapply grows_trans; eassumption.
Qed.

Lemma grows_checkSingleBuffer k b p :
  match k with
  | Kcdata => b = cdata (buffer p)
  | Kscript => b = script (buffer p)
  | _ => True
  end ->
  grows p (snd (checkSingleBuffer k b maxAllowedLength p)).
Proof.
  intros R. unfold checkSingleBuffer. cbv zeta. cbn [snd].
  destruct (Z.of_nat (length b) >? maxAllowedLength) eqn:G; [|apply grows_refl].
  assert (N : nonEmpty b = true).
  { destruct b; [discriminate G | reflexivity]. }
  destruct k; try apply grows_emitError.
  - apply grows_closeText.
  - subst b. grow.
  - subst b. grow.
Qed.

Lemma grows_runChecks steps : forall a p,
  (forall k read, In (k, read) steps -> readerOf k read) ->
  NoDup (keysOf steps) ->
  grows p (snd (runChecks steps (a, p))).
Proof.
  induction steps as [|[k read] rest IH]; intros a p R D; [apply grows_refl|].
  rewrite runChecks_cons.
  cbn [keysOf map fst] in D. apply NoDup_cons_iff in D. destruct D as [D1 D2].
  eapply grows_trans; [|apply IH; [intros k' r' I; apply R; now right | exact D2]].
  apply grows_checkSingleBuffer.
  pose proof (R k read (or_introl eq_refl)) as Rk.
  destruct k; cbn [readerOf] in Rk; try exact I; now rewrite Rk.
Qed.

Lemma grows_checkBufferLength p : grows p (checkBufferLength p).
Proof.
  rewrite checkBufferLength_runChecks. cbv zeta.
  match goal with
  | |- grows p (set_bufferCheckPosition ?o ?r) =>
      apply grows_trans with r;
      [|apply (grows_update (set_bufferCheckPosition o) r); intros x; reflexivity]
  end.
  apply grows_runChecks.
  - intros k' read' I'. unfold bufferChecks in I'. cbn [In] in I'.
    repeat (destruct I' as [I'|I']; [injection I' as <- <-; cbn [readerOf];
                                      try reflexivity;
                                      intros x y F; rewrite F; reflexivity|]).
    contradiction.
  - unfold keysOf, bufferChecks. cbn [map fst].
    repeat (apply NoDup_cons; [cbn; intuition discriminate|]). apply NoDup_nil.
Qed.

Lemma grows_end p : grows p (end_ H p).
Proof.
  exists (textEvent p ++ endErrors p ++ [EvEnd]). split; [apply end_events_exact|].
  rewrite !forallb_app. 
  assert (T : forallb wellFormedEvent (textEvent p) = true).
  { unfold textEvent. cbv zeta. destruct (nonEmpty _) eqn:N; cbn; [now rewrite N|reflexivity]. }
  rewrite T. unfold endErrors.
  destruct (sawRoot p && negb (closedRoot p) && strict p), (state p); reflexivity.
Qed.

Lemma grows_write chunk p : grows p (parserOf (write H chunk p)).
Proof.
  unfold write. destruct (error p); [apply grows_refl|].
  set (p1 := if closed p then emitError _ p else p).
  assert (G1 : grows p p1).
  { subst p1. destruct (closed p); [apply grows_emitError|apply grows_refl]. }
  clearbody p1.
  destruct chunk as [chunk|]; cbn [parserOf].
  - rewrite writeLoop_stepChars.
    pose proof (grows_stepChars chunk p1) as G2.
    destruct (stepChars H p1 chunk) as [r|e r]; cbn [parserOf] in *.
    + destruct (position r >=? bufferCheckPosition r).
      * eapply grows_trans; [|apply grows_checkBufferLength].
        eapply grows_trans; eassumption.
      * eapply grows_trans; eassumption.
    + eapply grows_trans; eassumption.
  - eapply grows_trans; [exact G1|apply grows_end].
Qed.

Lemma grows_flush p : grows p (flush p).
Proof.
  destruct (flush_events_exact p) as (E & _).
  eexists. split; [exact E|].
  rewrite !forallb_app.
  assert (T : forallb wellFormedEvent (textEvent p) = true).
  { unfold textEvent. cbv zeta. destruct (nonEmpty _) eqn:N; cbn; [now rewrite N|reflexivity]. }
  rewrite T. unfold bufferEvent.
  destruct (nonEmpty (cdata (buffer p))) eqn:A, (nonEmpty (script (buffer p))) eqn:B;
    cbn; rewrite ?A, ?B; reflexivity.
Qed.

Lemma grows_call c p : grows p (call H c p).
Proof.
  destruct c; cbn [call].
  - apply grows_write.
  - apply grows_end.
  - apply grows_same. reflexivity.
  - apply grows_write.
  - apply grows_flush.
Qed.

End Grows5.

(** X11.  Whatever methods are called on a new parser, no [ready] event is
    ever emitted, and no [text], [comment], [cdata] or [script] event
    carries the empty string. *)
Theorem only_well_formed_events (H : Host) (strict0 : bool) (opts : IOptions)
        (cs : list Call) :
  forallb wellFormedEvent (events (calls H cs (newParser H strict0 opts))) = true.
Proof.
  assert (G : forall p, grows p (calls H cs p)).
  { unfold calls. induction cs as [|c cs IH]; intros p; [apply grows_refl|].
    cbn [fold_left]. eapply grows_trans; [apply grows_call | apply IH]. }
  destruct (G (newParser H strict0 opts)) as (evs & E & F).
  rewrite E. exact F.
Qed.

(** ** Attribute events with namespaces *)

Lemma attributeNames_app a b :
  attributeNames (a ++ b) = attributeNames a ++ attributeNames b.
Proof. unfold attributeNames. apply flat_map_app. Qed.

Lemma attrs_update (f : Parser -> Parser) p :
  (forall x, events (f x) = events x) -> attrs (f p) = attrs p.
Proof. intros E. unfold attrs. now rewrite E. Qed.

Lemma attrs_emit e p : isAttribute e = false -> attrs (emit e p) = attrs p.
Proof.
  intros N. unfold attrs, emit. cbn [events set_events].
  rewrite attributeNames_app. destruct e; try discriminate; cbn; now rewrite app_nil_r.
Qed.

Lemma attrs_emit_attribute n a p : attrs (emit (EvAttribute n a) p) = attrs p ++ [n].
Proof.
  unfold attrs, emit. cbn [events set_events]. now rewrite attributeNames_app.
Qed.

Lemma attrs_textEvent p : attributeNames (textEvent p) = [].
Proof. unfold textEvent. cbv zeta. destruct (nonEmpty _); reflexivity. Qed.

Lemma attrs_closeText p : attrs (closeText p) = attrs p.
Proof.
  unfold attrs. rewrite closeText_events, attributeNames_app, attrs_textEvent.
  apply app_nil_r.
Qed.

Lemma attrs_flushText p : attrs (flushText p) = attrs p.
Proof. unfold flushText. destruct (nonEmpty _); [apply attrs_closeText|reflexivity]. Qed.

Lemma attrs_emitError m p : attrs (emitError m p) = attrs p.
Proof.
  unfold attrs. rewrite emitError_events, !attributeNames_app, attrs_textEvent.
  cbn. now rewrite app_nil_r.
Qed.

Lemma attrs_strictFail m p : attrs (strictFail m p) = attrs p.
Proof. unfold strictFail. destruct (strict p); [apply attrs_emitError|reflexivity]. Qed.

Lemma attrs_emitOpenNamespaces ns keys : forall p,
  attrs (emitOpenNamespaces ns keys p) = attrs p.
Proof.
  induction keys as [|k keys IH]; intros p; cbn [emitOpenNamespaces]; [reflexivity|].
  rewrite IH, attrs_emit by reflexivity. apply attrs_flushText.
Qed.

Lemma attribList_emitOpenNamespaces ns keys : forall p,
  attribList (emitOpenNamespaces ns keys p) = attribList p.
Proof.
  induction keys as [|k keys IH]; intros p; cbn [emitOpenNamespaces]; [reflexivity|].
  rewrite IH. unfold emit. cbn [attribList set_events].
  apply onlyOutput_attribList, onlyOutput_flushText.
Qed.

Lemma attrs_emitStagedAttributes l : forall t p,
  attrs (snd (emitStagedAttributes l t p)) = attrs p ++ map fst l.
Proof.
  induction l as [|[name value] l IH]; intros t p; cbn [emitStagedAttributes].
  - cbn. now rewrite app_nil_r.
  - unpair. rewrite IH. cbn [map fst].
    rewrite attrs_emit_attribute, attrs_flushText.
    destruct (_ && _); cbn [snd]; rewrite ?attrs_strictFail, <- app_assoc; reflexivity.
Qed.

(** In namespace mode [_attrib] stages the attribute and emits no
    attribute event. *)
Lemma attrs_attrib (H : Host) p :
  xmlns (options p) = true -> attrs (parserOf (attrib H p)) = attrs p.
Proof.
  intros X. unfold attrib.
  set (p1 := if negb (strict p) then _ else p).
  assert (X1 : xmlns (options p1) = true).
  { subst p1. destruct (negb (strict p)); exact X. }
  assert (A1 : attrs p1 = attrs p).
  { subst p1. destruct (negb (strict p)); reflexivity. }
  rewrite <- A1. clearbody p1. clear X A1 p.
  destruct (tag p1) as [t|]; [|apply attrs_emitError].
  destruct (if containsAttrb _ p1 then _ else _) as [[|]|]; cbn [parserOf];
    [reflexivity| |reflexivity].
  rewrite X1. unfold clearAttribBuffers.
  repeat match goal with
         | |- attrs ?a = attrs ?a => reflexivity
         | |- attrs (strictFail ?m ?q) = _ => rewrite (attrs_strictFail m q)
         | |- attrs (?f ?q) = _ =>
             rewrite (attrs_update f q) by (intros x; reflexivity)
         | |- context [match ?x with (_, _) => _ end] =>
             rewrite (surjective_pairing x); cbv iota
         | |- context [if ?b then _ else _] => destruct b
         | |- attrs (let _ := _ in _) = _ => cbv zeta
         | |- attrs (snd (_, ?q)) = _ => change (snd (_, q)) with q
         end.
Qed.

Ltac attrs_step :=
  match goal with
  | |- attrs ?a = attrs ?a => reflexivity
  | |- context [attrs (strictFail ?m ?q)] => rewrite (attrs_strictFail m q)
  | |- context [attrs (flushText ?q)] => rewrite (attrs_flushText q)
  | |- context [attrs (emitOpenNamespaces ?n ?k ?q)] =>
      rewrite (attrs_emitOpenNamespaces n k q)
  | |- context [attrs (snd (emitStagedAttributes ?l ?t ?q))] =>
      rewrite (attrs_emitStagedAttributes l t q)
  | |- context [attrs (emit ?e ?q)] => rewrite (attrs_emit e q) by reflexivity
  | |- context [attrs (snd (?a, ?q))] => change (snd (a, q)) with q
  | |- context [attrs (?f ?q)] =>
      is_quiet f; rewrite (attrs_update f q) by (intros x; reflexivity)
  | |- context [attrs (if ?b then _ else _)] => destruct b
  | |- context [attrs (match ?x with (_, _) => _ end)] =>
      rewrite (surjective_pairing x); cbv iota
  | |- context [attrs (match ?x with Some _ => _ | None => _ end)] => destruct x
  | |- context [match ?x with (_, _) => _ end] =>
      rewrite (surjective_pairing x); cbv iota
  end.

Lemma attrs_openTag (H : Host) b p t :
  xmlns (options p) = true -> tag p = Some t ->
  attrs (openTag H b p) = attrs p ++ map fst (attribList p).
Proof.
  intros X T. unfold openTag. rewrite T.
  replace (xmlns (options p) && isNamespacesSupported p) with true
    by (unfold isNamespacesSupported; now rewrite X).
  cbv zeta. unfold clearAttribBuffers.
  repeat attrs_step.
  all: rewrite ?attribList_emitOpenNamespaces;
    destruct (_ && _); cbn [snd];
    rewrite ?attrs_strictFail,
            ?(onlyOutput_attribList _ _ (onlyOutput_strictFail _ _));
    reflexivity.
Qed.

(** ** The tag being built *)

Lemma state_closeText p : state (closeText p) = state p.
Proof. apply onlyOutput_state, onlyOutput_closeText. Qed.
Lemma state_flushText p : state (flushText p) = state p.
Proof. apply onlyOutput_state, onlyOutput_flushText. Qed.
Lemma state_emitError m p : state (emitError m p) = state p.
Proof. apply onlyOutput_state, onlyOutput_emitError. Qed.
Lemma state_strictFail m p : state (strictFail m p) = state p.
Proof. apply onlyOutput_state, onlyOutput_strictFail. Qed.
Lemma tag_closeText p : tag (closeText p) = tag p.
Proof. apply onlyOutput_tag, onlyOutput_closeText. Qed.
Lemma tag_flushText p : tag (flushText p) = tag p.
Proof. apply onlyOutput_tag, onlyOutput_flushText. Qed.
Lemma tag_emitError m p : tag (emitError m p) = tag p.
Proof. apply onlyOutput_tag, onlyOutput_emitError. Qed.
Lemma tag_strictFail m p : tag (strictFail m p) = tag p.
Proof. apply onlyOutput_tag, onlyOutput_strictFail. Qed.

Ltac stfields :=
  cbn [state tag emit set_events
       set_column set_line set_position set_currentChar set_state set_buffer
       set_previousChar set_error set_tag set_tags set_attribList
       set_sawRoot set_closedRoot set_startTagPosition set_nextNsId
       setb_comment setb_sgmlDecl setb_textNode setb_tagName setb_doctype
       setb_procInstName setb_procInstBody setb_entity setb_attribName
       setb_attribValue setb_cdata setb_script clearAttribBuffers];
  rewrite ?state_flushText, ?state_strictFail, ?state_emitError, ?state_closeText,
          ?tag_flushText, ?tag_strictFail, ?tag_emitError, ?tag_closeText.

Ltac stsimpl := repeat (progress stfields).

Section Sound.

Variable H : Host.

Lemma state_newTag p : state (newTag H p) = state p.
Proof. unfold newTag. cbv zeta. stsimpl. destruct (negb (strict p)); reflexivity. Qed.

Lemma tag_newTag p : isSome (tag (newTag H p)) = true.
Proof. unfold newTag. cbv zeta. stsimpl. reflexivity. Qed.

Lemma state_attrib p : state (parserOf (attrib H p)) = state p.
Proof.
  unfold attrib. cbv zeta.
  set (p1 := if negb (strict p) then _ else p).
  assert (S1 : state p1 = state p) by (subst p1; destruct (negb (strict p)); reflexivity).
  rewrite <- S1. clearbody p1.
  destruct (tag p1); [|apply state_emitError].
  repeat first [progress stsimpl | split_cases | unpair | progress cbn [parserOf]];
    reflexivity.
Qed.

Lemma tag_attrib p : isSome (tag (parserOf (attrib H p))) = isSome (tag p).
Proof.
  unfold attrib. cbv zeta.
  set (p1 := if negb (strict p) then _ else p).
  assert (S1 : tag p1 = tag p) by (subst p1; destruct (negb (strict p)); reflexivity).
  rewrite <- S1. clearbody p1.
  destruct (tag p1) eqn:T; [|cbn [parserOf]; now rewrite tag_emitError, T].
  repeat first [progress stsimpl | split_cases | unpair | progress cbn [parserOf]];
    try reflexivity; now rewrite T.
Qed.

(** [_attrib] throws nothing but the [TypeError] of [hasOwnProperty]. *)
Lemma explained_attrib p : explained (attrib H p) = true.
Proof.
  unfold attrib. cbv zeta.
  set (p1 := if negb (strict p) then _ else p). clearbody p1.
  destruct (tag p1) as [t|] eqn:T; [|reflexivity].
  destruct (containsAttrb _ p1); [reflexivity|].
  unfold hasOwnProperty.
  destruct (ownKey (u "hasOwnProperty") (tg_attributes t)) eqn:O.
  - cbn [explained]. now rewrite T.
  - match goal with |- context [if ?b then _ else _] => destruct b end; reflexivity.
Qed.

Lemma sound_openTag p : isSome (tag p) = true -> sound (openTag H false p) = true.
Proof.
  unfold openTag, sound. destruct (tag p); [|discriminate]. intros _. cbv zeta.
  cbn [negb]. repeat first [progress stsimpl | unpair].
  match goal with
  | |- soundState (state (if ?c then _ else _)) _ = true => destruct c
  end; reflexivity.
Qed.

Lemma sound_closeTag p : sound (closeTag H p) = true.
Proof.
  unfold closeTag, sound. cbv zeta.
  repeat first [progress stsimpl | split_cases | unpair]; reflexivity.
Qed.

End Sound.

Section Sound2.

Variable H : Host.

Lemma onlyOutput_parseEntity p : onlyOutput p (snd (parseEntity H p)).
Proof.
  unfold parseEntity.
  repeat first [split_cases | unpair | progress cbn [snd]];
    first [apply onlyOutput_refl | apply onlyOutput_strictFail].
Qed.

Lemma sound_set_target b v p : sound (set_target b v p) = sound p.
Proof. destruct b; reflexivity. Qed.

Lemma sound_entityCase rs b c p :
  soundState rs (tag p) = true -> sound p = true ->
  entityState (state p) = true ->
  sound (parserOf (entityCase H rs b c p)) = true
  /\ explained (entityCase H rs b c p) = true.
Proof.
  intros R S E. unfold entityCase.
  destruct (eqc c ";").
  - pose proof (onlyOutput_parseEntity p) as O.
    destruct (parseEntity H p) as [[v|] q]; cbn [snd] in O; cbn [parserOf explained].
    + split; [|reflexivity]. unfold sound. stsimpl.
      replace (tag (set_target b (target b p ++ v) q)) with (tag p); [exact R|].
      destruct b; cbn; symmetry; apply onlyOutput_tag, O.
    + split; [|now rewrite (onlyOutput_state _ _ O)]. unfold sound.
      now rewrite (onlyOutput_tag _ _ O), (onlyOutput_state _ _ O).
  - destruct ((if nonEmpty (entity (buffer p)) then entityBody H else entityStart H) c);
      cbn [parserOf explained]; (split; [|reflexivity]).
    + exact S.
    + unfold sound. stsimpl.
      match goal with
      | |- soundState rs (tag (set_target ?b ?v ?q)) = true =>
          replace (tag (set_target b v q)) with (tag p); [exact R|]
      end.
      destruct b; cbn; now rewrite tag_strictFail.
Qed.

Lemma sound_beginWhiteSpace c p :
  sound p = true -> sound (beginWhiteSpace c p) = true.
Proof.
  intros S. unfold beginWhiteSpace.
  repeat split_cases; try exact S; unfold sound; stsimpl; reflexivity.
Qed.

Lemma sound_textAfterScan c p :
  sound p = true -> sound (textAfterScan c p) = true.
Proof.
  intros S. unfold textAfterScan. cbv zeta. unfold sound in *.
  repeat split_cases; stsimpl; try reflexivity; exact S.
Qed.

Lemma sound_textLastChar c p :
  sound p = true -> sound (textLastChar c p) = true.
Proof.
  intros S. unfold textLastChar.
  repeat split_cases; apply sound_textAfterScan; exact S.
Qed.

Ltac sound_goal S Tg :=
  lazymatch goal with
  | |- sound (openTag H false _) = true =>
      apply sound_openTag; stsimpl;
      rewrite ?tag_attrib, ?tag_newTag; stsimpl;
      first [reflexivity | exact Tg]
  | |- sound (closeTag H _) = true => apply sound_closeTag
  | |- sound (beginWhiteSpace _ _) = true =>
      apply sound_beginWhiteSpace; unfold sound; stsimpl; rewrite ?S; reflexivity
  | |- sound (textLastChar _ _) = true =>
      apply sound_textLastChar; unfold sound; stsimpl; rewrite ?S; reflexivity
  | |- _ =>
      unfold sound; stsimpl;
      rewrite ?state_attrib, ?state_newTag; stsimpl;
      rewrite ?S; cbn [soundState tagState negb orb];
      rewrite ?tag_attrib, ?tag_newTag; stsimpl;
      try match goal with T : tag _ = Some _ |- _ => rewrite T end;
      first [reflexivity | exact Tg]
  end.

(** What follows [_attrib] in a case of [write]. *)
Lemma sound_afterAttrib (f : Parser -> Parser) p :
  isSome (tag p) = true ->
  tagState (state p) = true ->
  (forall r, isSome (tag r) = true -> state r = state p -> sound (f r) = true) ->
  sound (parserOf (andThen (attrib H p) (fun r => Ok (f r)))) = true
  /\ explained (andThen (attrib H p) (fun r => Ok (f r))) = true.
Proof.
  intros T S F.
  pose proof (state_attrib H p) as A1. pose proof (tag_attrib H p) as A2.
  pose proof (explained_attrib H p) as A3. rewrite T in A2.
  unfold andThen. destruct (attrib H p) as [r|e r]; cbn [parserOf] in *.
  - split; [|reflexivity]. apply F; assumption.
  - split; [|exact A3]. unfold sound. rewrite A1.
    destruct (tag r); [|discriminate A2].
    destruct (state p); try discriminate S; reflexivity.
Qed.

Lemma sound_dispatch c p :
  sound p = true ->
  sound (parserOf (dispatch H c p)) = true /\ explained (dispatch H c p) = true.
Proof.
  intros Sd. unfold sound in Sd. unfold dispatch. cbv zeta.
  destruct (state p) eqn:S; cbn [soundState tagState negb orb] in Sd;
    try discriminate Sd;
    try (apply sound_entityCase; [|unfold sound; rewrite S|rewrite S];
         solve [reflexivity | exact Sd]);
    rewrite ?tag_strictFail;
    repeat match goal with
           | |- context [match tag p with Some _ => _ | None => _ end] =>
               destruct (tag p) eqn:?; [|discriminate Sd]
           | |- context [if ?b then _ else _] => destruct b eqn:?
           end;
    try (apply sound_afterAttrib;
         [stsimpl; first [reflexivity | exact Sd]
         |stsimpl; rewrite S; reflexivity
         |intros r Tr Sr;
          first [apply sound_openTag; exact Tr
                | unfold sound; stsimpl; rewrite ?Sr; stsimpl; rewrite ?S;
                  cbn [soundState tagState negb orb]; exact Tr]]);
    cbn [parserOf explained]; (split; [|reflexivity]);
    sound_goal S Sd.
Qed.

End Sound2.

Section Sound3.

Variable H : Host.

Lemma checkFrame_sound p q : checkFrame p q -> sound q = sound p.
Proof. intros F. rewrite F. reflexivity. Qed.

Lemma sound_stepChars chunk : forall p,
  sound p = true ->
  sound (parserOf (stepChars H p chunk)) = true
  /\ explained (stepChars H p chunk) = true.
Proof.
  induction chunk as [|c chunk IH]; intros p S.
  - cbn [stepChars parserOf explained]. split; [exact S|reflexivity].
  - cbn [stepChars].
    assert (S' : sound (updatePosition c (set_currentChar [c] p)) = true).
    { destruct (prestep c p) as (l & k & n & ->). exact S. }
    destruct (sound_dispatch H c _ S') as [D1 D2].
    destruct (dispatch H c _) as [q|e q]; cbn [parserOf] in D1.
    + apply IH, D1.
    + cbn [parserOf]. split; [exact D1 | exact D2].
Qed.

Lemma sound_end p : sound (end_ H p) = true.
Proof. reflexivity. Qed.

Lemma sound_write chunk p :
  sound p = true ->
  sound (parserOf (write H chunk p)) = true
  /\ writeThrows p (write H chunk p).
Proof.
  intros S. unfold write. destruct (error p) as [e|] eqn:E.
  { split; [exact S|]. cbn [writeThrows]. now rewrite E. }
  set (p1 := if closed p then emitError _ p else p).
  assert (S1 : sound p1 = true).
  { subst p1. destruct (closed p); [|exact S].
    unfold sound. now rewrite state_emitError, tag_emitError. }
  clearbody p1.
  destruct chunk as [chunk|]; [|split; [apply sound_end | exact I]].
  rewrite writeLoop_stepChars.
  destruct (sound_stepChars chunk p1 S1) as [A B].
  destruct (stepChars H p1 chunk) as [r|x r]; cbn [parserOf] in *.
  - split; [|exact I].
    destruct (position r >=? bufferCheckPosition r); [|exact A].
    destruct (checkBufferLength_fixed r) as (o & r' & -> & F).
    change (sound (set_bufferCheckPosition o r')) with (sound r').
    now rewrite (checkFrame_sound _ _ F).
  - split; [exact A|]. cbn [writeThrows].
    destruct x; cbn [explained] in B; [discriminate B | now split |].
    split; [exact E|]. destruct (tag r) as [t|]; [|discriminate B].
    exists t. now split.
Qed.

Lemma sound_call c p : sound p = true -> sound (call H c p) = true.
Proof.
  intros S. destruct c; cbn [call].
  - apply sound_write, S.
  - apply sound_end.
  - exact S.
  - apply sound_write, S.
  - now rewrite (checkFrame_sound _ _ (flush_frame p)).
Qed.

Lemma sound_calls cs : forall p, sound p = true -> sound (calls H cs p) = true.
Proof.
  unfold calls. induction cs as [|c cs IH]; intros p S; [exact S|].
  cbn [fold_left]. apply IH, sound_call, S.
Qed.

End Sound3.


(** ** Attributes, and the properties at concrete inputs *)

(** X12.  With the [xmlns] option [_attrib] emits no attribute event,
    whether it returns or throws, and [_openTag] emits one attribute event
    for each staged attribute, in the order in which they were staged. *)
Theorem attributes_deferred_in_order (H : Host) (p : Parser) (selfClosing : bool) :
  xmlns (options p) = true ->
  isSome (tag p) = true ->
  attributeNames (events (parserOf (attrib H p))) = attributeNames (events p)
  /\ attributeNames (events (openTag H selfClosing p))
     = attributeNames (events p) ++ map fst (attribList p).
Proof.
  intros X T. split.
  - apply attrs_attrib, X.
  - destruct (tag p) as [t|] eqn:E; [|discriminate T].
    apply (attrs_openTag H selfClosing p t X E).
Qed.

Lemma attributes_deferred_in_order_witness :
  attributeNames (events (parserOf (attrib specHost stagedParser)))
  = attributeNames (events stagedParser)
  /\ attributeNames (events (openTag specHost false stagedParser))
     = attributeNames (events stagedParser) ++ map fst (attribList stagedParser).
Proof.
  apply (attributes_deferred_in_order specHost stagedParser false); reflexivity.
Defined.

Lemma cdata_section_verbatim_witness :
  exists q,
    writeLoop specHost inCDataParser (u "x]]y]" ++ u "]]>") = Ok q
    /\ events q = events inCDataParser ++ textEvent inCDataParser
                    ++ bufferEvent EvCData (cdata (buffer inCDataParser) ++ u "x]]y]")
                    ++ [EvCloseCData]
    /\ state q = Text /\ cdata (buffer q) = [] /\ textNode (buffer q) = []
    /\ error q = error inCDataParser /\ tags q = tags inCDataParser.
Proof.
  apply (cdata_section_verbatim specHost inCDataParser (u "x]]y]")); reflexivity.
Defined.

Lemma comment_delivered_witness :
  exists q,
    writeLoop specHost inCommentParser (u " a-b " ++ u "-->") = Ok q
    /\ events q = events inCommentParser
                    ++ commentEvents (comment (buffer inCommentParser) ++ u " a-b ")
                         inCommentParser
    /\ state q = Text /\ comment (buffer q) = []
    /\ error q = error inCommentParser /\ tags q = tags inCommentParser.
Proof.
  apply (comment_delivered specHost inCommentParser (u " a-b ")); reflexivity.
Defined.

Lemma processing_instruction_delivered_witness :
  exists q,
    writeLoop specHost inProcInstParser
      (u "xml" ++ u "  " ++ u "version=1 x" ++ u "?>") = Ok q
    /\ events q = events inProcInstParser ++ textEvent inProcInstParser
                    ++ [EvProcessingInstruction
                          (procInstName (buffer inProcInstParser) ++ u "xml")
                          (u "version=1 x")]
    /\ state q = Text /\ procInstName (buffer q) = [] /\ procInstBody (buffer q) = []
    /\ error q = error inProcInstParser /\ tags q = tags inProcInstParser.
Proof.
  apply (processing_instruction_delivered specHost inProcInstParser
           (u "xml") (u "  ") (u "version=1 x")); try reflexivity.
  discriminate.
Defined.

Lemma markup_after_root_is_text_witness :
  exists q,
    writeLoop specHost afterRootParser (u "<b>x</b>") = Ok q
    /\ state q = Text
    /\ textNode (buffer q) = textNode (buffer afterRootParser) ++ u "<b>x</b>"
    /\ events q = events afterRootParser /\ error q = error afterRootParser
    /\ tags q = tags afterRootParser
    /\ sawRoot q = true /\ closedRoot q = true.
Proof.
  apply (markup_after_root_is_text specHost afterRootParser (u "<b>x</b>"));
    reflexivity.
Defined.

Lemma leading_whitespace_skipped_witness :
  let p := newParser specHost true defaultOptions in
  exists q,
    writeLoop specHost p ((if true then [BOM] else []) ++ [NL; ch " "] ++ u "<") = Ok q
    /\ state q = OpenWaka
    /\ buffer q = buffer p /\ events q = events p /\ error q = error p.
Proof.
  intros p.
  apply (leading_whitespace_skipped specHost p true [NL; ch " "]); reflexivity.
Defined.

Lemma numeric_reference_resolves_witness :
  parseEntity specHost euroParser = (Some (codeUnits 8364), euroParser).
Proof.
  apply (numeric_reference_resolves specHost euroParser 8364 false);
    try reflexivity. lia.
Defined.

(** ** Parsers that are not strict *)

Lemma lenient_refl p : lenient p p.
Proof. intros S. repeat split; [exact S|]. exists []. now rewrite app_nil_r. Qed.

Lemma lenient_trans p q r : lenient p q -> lenient q r -> lenient p r.
Proof.
  intros A B S. destruct (A S) as (A1 & A2 & a & A3 & A4).
  destruct (B A1) as (B1 & B2 & b & B3 & B4).
  repeat split; [exact B1 | congruence |].
  exists (a ++ b). split.
  - now rewrite B3, A3, app_assoc.
  - now rewrite forallb_app, A4, B4.
Qed.

Lemma lenient_update (f : Parser -> Parser) p :
  (forall x, events (f x) = events x /\ strict (f x) = strict x /\ error (f x) = error x) ->
  lenient p (f p).
Proof.
  intros E S. destruct (E p) as (E1 & E2 & E3).
  repeat split; [congruence | exact E3 |]. exists []. now rewrite app_nil_r.
Qed.

Lemma lenient_emit e p : errorFree e = true -> lenient p (emit e p).
Proof.
  intros W S. repeat split; [exact S|]. exists [e]. split; [reflexivity|].
  cbn. now rewrite W.
Qed.

Lemma lenient_closeText p : lenient p (closeText p).
Proof.
  intros S. split; [|split].
  - rewrite <- S. pose proof (fixed_closeText p) as F.
    apply fixed_static, static_fields in F. apply F.
  - apply closeText_error.
  - exists (textEvent p). split; [apply closeText_events|].
    unfold textEvent. cbv zeta. destruct (nonEmpty _); reflexivity.
Qed.

Lemma lenient_flushText p : lenient p (flushText p).
Proof.
  unfold flushText. destruct (nonEmpty _); [apply lenient_closeText|apply lenient_refl].
Qed.

Lemma lenient_strictFail m p : lenient p (strictFail m p).
Proof.
  intros S. unfold strictFail. rewrite S. now apply lenient_refl.
Qed.

Create HintDb lenient.
#[export] Hint Resolve lenient_closeText lenient_flushText lenient_strictFail : lenient.

(** The tag that a case needs is there. *)
Ltac has_tag :=
  stsimpl; rewrite ?tag_attrib, ?tag_newTag; stsimpl;
  try match goal with T : tag _ = Some _ |- _ => rewrite T end;
  first [reflexivity | assumption].

Ltac lenient_peel :=
  lazymatch goal with
  | |- lenient ?a ?a => apply lenient_refl
  | |- lenient _ (snd (_, ?q)) => change (snd (_, q)) with q
  | |- lenient _ (parserOf (Ok ?q)) => change (parserOf (Ok q)) with q
  | |- lenient _ (parserOf (Throw _ ?q)) => change (parserOf (Throw _ q)) with q
  | |- lenient _ (snd (?f ?q)) =>
      apply lenient_trans with q; [|solve [auto with lenient]]
  | |- lenient _ (emit ?e ?q) =>
      apply lenient_trans with q; [|apply lenient_emit; reflexivity]
  | |- lenient _ (?f ?q) =>
      apply lenient_trans with q;
      [|first [is_quiet f; apply (lenient_update f q); intros ?;
               try match goal with |- context [set_target ?b] => destruct b end;
               repeat split
              | solve [auto with lenient]]]
  end.

Ltac lenient_all := repeat first [lenient_peel | unpair | split_cases].

Section Lenient.

Variable H : Host.

Lemma lenient_beginWhiteSpace c p : lenient p (beginWhiteSpace c p).
Proof. unfold beginWhiteSpace. lenient_all. Qed.

Lemma lenient_newTag p : lenient p (newTag H p).
Proof. unfold newTag. lenient_all. Qed.

Lemma lenient_parseEntity p : lenient p (snd (parseEntity H p)).
Proof.
  unfold parseEntity.
  repeat first [split_cases | unpair | progress cbn [snd]]; auto with lenient;
    apply lenient_refl.
Qed.

Lemma lenient_emitOpenNamespaces ns keys p : lenient p (emitOpenNamespaces ns keys p).
Proof.
  revert p. induction keys as [|k keys IH]; intros p; simpl; [apply lenient_refl|].
  eapply lenient_trans; [|apply IH]. lenient_all.
Qed.

Lemma lenient_emitCloseNamespaces ns keys p : lenient p (emitCloseNamespaces ns keys p).
Proof.
  revert p. induction keys as [|k keys IH]; intros p; simpl; [apply lenient_refl|].
  eapply lenient_trans; [|apply IH]. lenient_all.
Qed.

Lemma lenient_emitStagedAttributes l t p : lenient p (snd (emitStagedAttributes l t p)).
Proof.
  revert t p. induction l as [|[name value] l IH]; intros t p;
    cbn [emitStagedAttributes]; lenient_all.
Qed.

Lemma lenient_findOpenTag t closeTo p : lenient p (snd (findOpenTag t closeTo p)).
Proof.
  revert p. induction t as [|t IH]; intros p; cbn [findOpenTag]; [apply lenient_refl|].
  repeat split_cases; cbn [snd]; try apply lenient_refl.
  eapply lenient_trans; [|apply IH]. apply lenient_strictFail.
Qed.

Lemma lenient_popTag p : lenient p (popTag p).
Proof.
  unfold popTag. destruct (lastTag (tags p)); [|apply lenient_refl].
  split_cases.
  - eapply lenient_trans; [|apply lenient_emitCloseNamespaces]. lenient_all.
  - lenient_all.
Qed.

Lemma lenient_popTags n p : lenient p (popTags n p).
Proof.
  revert p. induction n as [|n IH]; intros p; simpl; [apply lenient_refl|].
  eapply lenient_trans; [apply lenient_popTag | apply IH].
Qed.

End Lenient.

#[export] Hint Resolve lenient_beginWhiteSpace lenient_newTag
  lenient_emitOpenNamespaces lenient_emitCloseNamespaces lenient_popTag
  lenient_popTags lenient_parseEntity lenient_emitStagedAttributes
  lenient_findOpenTag : lenient.

Section Lenient2.

Variable H : Host.

Lemma lenient_attrib p : isSome (tag p) = true -> lenient p (parserOf (attrib H p)).
Proof.
  intros T. unfold attrib.
  set (p1 := if negb (strict p) then _ else p).
  assert (L1 : lenient p p1).
  { subst p1. lenient_all. }
  assert (T1 : isSome (tag p1) = true).
  { subst p1. destruct (negb (strict p)); exact T. }
  apply lenient_trans with p1; [exact L1|]. clearbody p1. clear L1 T p.
  destruct (tag p1); [|discriminate T1].
  unfold clearAttribBuffers. lenient_all.
Qed.

Lemma lenient_openTag b p : isSome (tag p) = true -> lenient p (openTag H b p).
Proof.
  intros T. unfold openTag. destruct (tag p); [|discriminate T].
  unfold clearAttribBuffers. lenient_all.
Qed.

Lemma lenient_closeTag p : lenient p (closeTag H p).
Proof. unfold closeTag. lenient_all. Qed.

Lemma lenient_textAfterScan c p : lenient p (textAfterScan c p).
Proof. unfold textAfterScan. lenient_all. Qed.

Lemma lenient_textLastChar c p : lenient p (textLastChar c p).
Proof. pose proof lenient_textAfterScan. unfold textLastChar. lenient_all. Qed.

Lemma lenient_entityCase st b c p : lenient p (parserOf (entityCase H st b c p)).
Proof.
  unfold entityCase.
  repeat first [lenient_peel | split_cases
               | match goal with
                 | |- context [parseEntity H ?q] =>
                     pose proof (lenient_parseEntity H q);
                     destruct (parseEntity H q) as [[v|] r]; cbn [snd] in *
                 end]; assumption.
Qed.

End Lenient2.

#[export] Hint Resolve lenient_closeTag lenient_textAfterScan lenient_textLastChar
  lenient_entityCase : lenient.

Section Lenient3.

Variable H : Host.

Ltac lenient_tagged :=
  lazymatch goal with
  | |- context [andThen (attrib H ?q) _] =>
      let G := fresh "G" in
      let T := fresh "T" in
      unfold andThen;
      assert (G : lenient q (parserOf (attrib H q))) by (apply lenient_attrib; has_tag);
      assert (T : isSome (tag (parserOf (attrib H q))) = true)
        by (rewrite tag_attrib; has_tag);
      destruct (attrib H q); cbn [parserOf] in G, T |- *
  | G : lenient ?q ?r |- lenient _ ?r =>
      apply lenient_trans with q; [|exact G]; clear G
  | |- lenient _ (openTag H ?b ?q) =>
      apply lenient_trans with q; [|apply lenient_openTag; has_tag]
  end.

Lemma lenient_dispatch c p :
  sound p = true -> lenient p (parserOf (dispatch H c p)).
Proof.
  intros Sd. unfold sound in Sd. unfold dispatch. cbv zeta.
  destruct (state p) eqn:S; cbn [soundState tagState negb orb] in Sd;
    try discriminate Sd;
    repeat first [lenient_tagged | lenient_peel | split_cases
                 | solve [auto with lenient]].
Qed.

Lemma lenient_stepChars chunk : forall p,
  sound p = true -> lenient p (parserOf (stepChars H p chunk)).
Proof.
  induction chunk as [|c chunk IH]; intros p Sd.
  - cbn [stepChars parserOf]. apply (lenient_update (set_currentChar []) p).
    intros x. repeat split.
  - cbn [stepChars].
    assert (S' : sound (updatePosition c (set_currentChar [c] p)) = true).
    { destruct (prestep c p) as (l & k & n & ->). exact Sd. }
    assert (L' : lenient p (updatePosition c (set_currentChar [c] p))).
    { destruct (prestep c p) as (l & k & n & ->).
      intros X. repeat split; [exact X|]. exists []. now rewrite app_nil_r. }
    pose proof (lenient_dispatch c _ S') as L.
    destruct (sound_dispatch H c _ S') as [D1 _].
    destruct (dispatch H c _) as [q|e q]; cbn [parserOf] in *.
    + eapply lenient_trans; [|apply IH, D1]. eapply lenient_trans; eassumption.
    + eapply lenient_trans; eassumption.
Qed.

End Lenient3.

(** X15.  A parser that is not strict reports nothing from the loop of
    [write]: whatever was called on the new parser before, the loop over
    any chunk, whether it returns or throws, adds no [error] event and
    leaves the latched error as it was. *)
Theorem lenient_write_reports_nothing (H : Host) (opts : IOptions) (cs : list Call)
        (chunk : jsstr) :
  let p := calls H cs (newParser H false opts) in
  let q := parserOf (writeLoop H p chunk) in
  error q = error p
  /\ exists evs, events q = events p ++ evs /\ forallb errorFree evs = true.
Proof.
  cbv zeta. rewrite writeLoop_stepChars.
  set (p := calls H cs (newParser H false opts)).
  assert (Sd : sound p = true) by (apply sound_calls; reflexivity).
  assert (St : strict p = false)
    by (apply (calls_keep H cs (newParser H false opts)); reflexivity).
  apply (lenient_stepChars H chunk p Sd St).
Qed.

(** ** Self-closing tags *)

Lemma openTag_plain (H : Host) b p t :
  tag p = Some t -> xmlns (options p) = false -> b = true ->
  openTag H b p
  = set_attribList []
      (clearAttribBuffers
         (emit (EvOpenTag (tag_with_selfClosing true t))
            (flushText
               (set_tags (tags p ++ [tag_with_selfClosing true t])
                  (set_sawRoot true
                     (set_tag (Some (tag_with_selfClosing true t)) p)))))).
Proof.
  intros T X ->. unfold openTag. rewrite T, X. reflexivity.
Qed.

(** X17.  The end of a self-closing tag, without the [xmlns] option, for
    a tag being built whose name is the one in the tag name buffer (case
    folded when the parser is not strict) and an empty script buffer:
    [_openTag(true)] followed by [_closeTag()] emits the pending text,
    [opentag] with the tag marked self-closing and [closetag] with its
    name, leaves the stack as it was and the state [Text], and closes the
    root when the stack was empty. *)
Theorem self_closing_tag_opens_and_closes (H : Host) (p : Parser) (t : Tag) :
  tag p = Some t ->
  xmlns (options p) = false ->
  nonEmpty (tagName (buffer p)) = true ->
  script (buffer p) = [] ->
  tg_name t = closeTarget H p ->
  let q := closeTag H (openTag H true p) in
  events q = events p ++ textEvent p
               ++ [EvOpenTag (selfClosed t); EvCloseTag (tg_name t)]
  /\ tags q = tags p
  /\ state q = Text
  /\ sawRoot q = true
  /\ closedRoot q = match tags p with [] => true | _ :: _ => closedRoot p end
  /\ error q = error p.
Proof.
  intros T X N S M. cbv zeta.
  rewrite (openTag_plain H true p t T X eq_refl).
  set (t' := tag_with_selfClosing true t).
  set (p0 := set_tags (tags p ++ [t']) (set_sawRoot true (set_tag (Some t') p))).
  pose proof (onlyOutput_flushText p0) as O.
  set (p1 := set_attribList [] (clearAttribBuffers (emit (EvOpenTag t') (flushText p0)))).
  assert (F : tags p1 = tags p ++ [t']) by (unfold p1; stsimpl; rewrite O; reflexivity).
  assert (B1 : tagName (buffer p1) = tagName (buffer p)).
  { unfold p1, clearAttribBuffers, emit. pfields. rewrite O. reflexivity. }
  assert (B2 : script (buffer p1) = []).
  { unfold p1, clearAttribBuffers, emit. pfields. rewrite flushText_script. exact S. }
  assert (B3 : strict p1 = strict p) by (unfold p1; rewrite O; reflexivity).
  assert (B4 : options p1 = options p) by (unfold p1; rewrite O; reflexivity).
  assert (B5 : events p1 = events p ++ textEvent p ++ [EvOpenTag t']).
  { unfold p1, clearAttribBuffers, emit. pfields.
    rewrite flushText_appends, <- app_assoc. reflexivity. }
  assert (B6 : textNode (buffer p1) = []).
  { unfold p1, clearAttribBuffers, emit. pfields. apply flushText_textNode. }
  assert (B7 : closedRoot p1 = closedRoot p) by (unfold p1; rewrite O; reflexivity).
  assert (B8 : sawRoot p1 = true) by (unfold p1; rewrite O; reflexivity).
  assert (B9 : error p1 = error p).
  { unfold p1, clearAttribBuffers, emit. pfields. now rewrite flushText_error. }
  assert (CT : closeTarget H p1 = closeTarget H p).
  { unfold closeTarget, caseFold. now rewrite B1, B3, B4. }
  clearbody p1. clear O p0.
  unfold closeTag. cbv zeta. rewrite B1, N, B2. cbn [negb nonEmpty andb].
  rewrite !B1.
  assert (C : (if negb (strict p1) then caseFold H (tagName (buffer p)) p1
               else tagName (buffer p)) = tg_name t).
  { rewrite M, <- CT. unfold closeTarget. rewrite B1. destruct (strict p1); reflexivity. }
  rewrite C, F, length_app. cbn [length].
  rewrite Nat.add_1_r. cbn [findOpenTag].
  rewrite F, nth_error_app2, Nat.sub_diag by lia. cbn [nth_error].
  change (tg_name t') with (tg_name t). rewrite eqs_refl. cbn [negb].
  change (tags (setb_tagName (tg_name t) p1)) with (tags p1).
  rewrite F, length_app. cbn [length].
  replace (length (tags p) + 1 - length (tags p))%nat with 1%nat by lia.
  cbn [popTags].
  assert (F' : tags (setb_tagName (tg_name t) p1) = tags p ++ [t']) by exact F.
  destruct (popTag_fields (tags p) t' _ F') as (G1 & G2 & G3 & G4 & G5 & G6).
  set (r := popTag (setb_tagName (tg_name t) p1)) in *.
  assert (G7 : sawRoot r = true /\ error r = error p1).
  { unfold r. rewrite (popTag_top (tags p) t' _ F'). cbv zeta. pfields.
    set (z := setb_tagName _ (set_tag _ _)).
    rewrite (onlyOutput_flushText z). split; [exact B8|].
    pfields. now rewrite flushText_error. }
  destruct G7 as [G7 G8].
  clearbody r.
  assert (E : events r = events p ++ textEvent p ++ [EvOpenTag t'; EvCloseTag (tg_name t)]).
  { rewrite G2. change (options (setb_tagName (tg_name t) p1)) with (options p1).
    rewrite B4, X. unfold closeEvents. cbn [andb].
    rewrite flushText_empty by exact B6.
    change (events (setb_tagName (tg_name t) p1)) with (events p1).
    rewrite B5, <- !app_assoc. reflexivity. }
  destruct (tags p) eqn:TP; cbn [length Nat.eqb]; pfields;
    rewrite ?E, ?G1, ?G7, ?G8, ?B9;
    change (closedRoot (setb_tagName (tg_name t) p1)) with (closedRoot p1) in G4;
    rewrite ?G4, ?B7; repeat split.
Qed.

(** ** The options of the text *)

Lemma dropSpaces_clean s : startsClean (dropSpaces s) = true.
Proof.
  induction s as [|c s IH]; [reflexivity|]. cbn [dropSpaces].
  destruct (isJsSpace c) eqn:E; [exact IH|]. cbn. now rewrite E.
Qed.

Lemma dropSpaces_suffix s : exists pre, s = pre ++ dropSpaces s.
Proof.
  induction s as [|c s [pre IH]]; [now exists []|]. cbn [dropSpaces].
  destruct (isJsSpace c).
  - exists (c :: pre). cbn. now f_equal.
  - now exists [].
Qed.

Lemma startsClean_rev_suffix pre s :
  s <> [] -> startsClean (rev (pre ++ s)) = startsClean (rev s).
Proof.
  intros N. rewrite rev_app_distr.
  destruct (rev s) as [|z r] eqn:E.
  - apply (f_equal (@rev _)) in E. rewrite rev_involutive in E. now subst.
  - reflexivity.
Qed.

Lemma js_trim_trimmed s : trimmed (js_trim s) = true.
Proof.
  unfold js_trim, trimmed. rewrite rev_involutive, dropSpaces_clean, andb_true_r.
  destruct (dropSpaces_suffix (rev (dropSpaces s))) as [pre E].
  destruct (dropSpaces (rev (dropSpaces s))) as [|z r] eqn:D; [reflexivity|].
  rewrite <- (startsClean_rev_suffix pre (z :: r)) by discriminate.
  rewrite <- E, rev_involutive. apply dropSpaces_clean.
Qed.

Lemma collapse_snoc s : forall b z,
  isJsSpace z = false -> collapse b (s ++ [z]) = collapse b s ++ [z].
Proof.
  induction s as [|c s IH]; intros b z Z.
  - cbn. now rewrite Z.
  - cbn [app collapse]. destruct (isJsSpace c).
    + destruct b; now rewrite IH.
    + now rewrite IH.
Qed.

Lemma collapse_trimmed s : trimmed s = true -> trimmed (collapse false s) = true.
Proof.
  unfold trimmed. intros T. apply andb_true_iff in T. destruct T as [T1 T2].
  destruct s as [|c s]; [reflexivity|].
  cbn in T1. apply negb_true_iff in T1.
  apply andb_true_iff. split.
  - cbn [collapse]. rewrite T1. cbn. now rewrite T1.
  - destruct (rev (c :: s)) as [|z r] eqn:E.
    + apply (f_equal (@rev _)) in E. rewrite rev_involutive in E. discriminate.
    + apply (f_equal (@rev _)) in E. rewrite rev_involutive in E. cbn [rev] in E.
      cbn in T2. apply negb_true_iff in T2.
      rewrite E, collapse_snoc, rev_app_distr by exact T2. cbn. now rewrite T2.
Qed.

Lemma collapse_singleSpaced s : forall b,
  singleSpaced (collapse b s) = true
  /\ (b = true -> startsClean (collapse b s) = true).
Proof.
  induction s as [|c s IH]; intros b; [split; reflexivity|].
  cbn [collapse]. destruct (isJsSpace c) eqn:E.
  - destruct b.
    + apply IH.
    + split; [|discriminate]. cbn [singleSpaced].
      change (isJsSpace (ch " ")) with true. change (eqc (ch " ") " ") with true.
      destruct (IH true) as [I1 I2]. now rewrite I1, I2.
  - split.
    + cbn [singleSpaced]. rewrite E. apply IH.
    + intros _. cbn. now rewrite E.
Qed.

(** X18.  [_textopts]: with the [trim] option the result has no white
    space at either end, with [normalize] every white space character of
    the result is a single space between two other characters or at an
    end, and with neither option the text is returned as it is. *)
Theorem textopts_trims_and_normalizes (text : jsstr) (p : Parser) :
  implb (trim (options p)) (trimmed (textopts text p)) = true
  /\ implb (normalize (options p)) (singleSpaced (textopts text p)) = true
  /\ implb (negb (trim (options p) || normalize (options p)))
           (eqs (textopts text p) text) = true.
Proof.
  unfold textopts.
  destruct (trim (options p)), (normalize (options p)); cbn [implb orb negb];
    repeat split;
    first [ apply collapse_trimmed, js_trim_trimmed
          | apply collapse_singleSpaced
          | apply js_trim_trimmed
          | apply eqs_refl ].
Qed.

(** ** Script elements *)

Lemma script_text (H : Host) s : forall p,
  state p = Script -> forallb (fun c => negb (eqc c "<")) s = true ->
  exists q,
    stepChars H p s = Ok q /\ state q = Script
    /\ script (buffer q) = script (buffer p) ++ s
    /\ tagName (buffer q) = tagName (buffer p)
    /\ keeps p q.
Proof.
  induction s as [|c s IH]; intros p S F.
  - exists (set_currentChar [] p). cbn [stepChars]. pfields.
    rewrite app_nil_r. repeat split. exact S.
  - cbn [forallb] in F. apply andb_true_iff in F. destruct F as [F1 F2].
    apply negb_true_iff in F1.
    cbn [stepChars]. destruct (prestep c p) as (l & k & n & ->).
    unfold dispatch. pfields. rewrite S. cbv zeta. rewrite F1.
    set (q := setb_script _ _).
    destruct (IH q S F2) as (r & E & Sr & Sc & Tn & K).
    exists r. split; [exact E|]. split; [exact Sr|].
    subst q. pfields. rewrite Sc, Tn, <- app_assoc. repeat split; apply K.
Qed.

Lemma closing_name_rest (H : Host) s : forall p,
  state p = CloseTag -> nonEmpty (tagName (buffer p)) = true ->
  forallb (fun x => negb (eqc x ">") && nameBody H x) s = true ->
  exists q,
    stepChars H p s = Ok q /\ state q = CloseTag
    /\ tagName (buffer q) = tagName (buffer p) ++ s
    /\ script (buffer q) = script (buffer p)
    /\ keeps p q.
Proof.
  induction s as [|c s IH]; intros p S N F.
  - exists (set_currentChar [] p). cbn [stepChars]. pfields.
    rewrite app_nil_r. repeat split. exact S.
  - cbn [forallb] in F. apply andb_true_iff in F. destruct F as [F1 F2].
    apply andb_true_iff in F1. destruct F1 as [A B]. apply negb_true_iff in A.
    cbn [stepChars]. destruct (prestep c p) as (l & k & n & ->).
    unfold dispatch. pfields. rewrite S. cbv zeta. rewrite N, A, B. cbn [negb].
    set (q := setb_tagName _ _).
    destruct (IH q S) as (r & E & Sr & Tn & Sc & K); [|exact F2|].
    { subst q. pfields. now destruct (tagName (buffer p)). }
    exists r. split; [exact E|]. split; [exact Sr|].
    subst q. pfields. rewrite Sc, Tn, <- app_assoc. repeat split; apply K.
Qed.

Lemma script_other_close (H : Host) (p : Parser) (name : jsstr) :
  state p = Script ->
  nonEmpty (script (buffer p)) = true ->
  tagName (buffer p) = [] ->
  closingName H name = true ->
  eqs name (u "script") = false ->
  exists q,
    stepChars H p (u "</" ++ name ++ u ">") = Ok q
    /\ state q = Script
    /\ script (buffer q) = script (buffer p) ++ u "</" ++ name ++ u ">"
    /\ tagName (buffer q) = []
    /\ events q = events p /\ error q = error p /\ tags q = tags p.
Proof.
  intros S N T C X.
  destruct name as [|c rest]; [discriminate C|].
  cbn [closingName] in C. apply andb_true_iff in C. destruct C as [C C3].
  apply andb_true_iff in C. destruct C as [C1 C2]. apply negb_true_iff in C1.
  change (u "</" ++ (c :: rest) ++ u ">")
    with (ch "<" :: ch "/" :: c :: (rest ++ [ch ">"])).
  cbn [stepChars].
  (* [<] *)
  destruct (prestep (ch "<") p) as (l & k & n & ->).
  unfold dispatch at 1. pfields. rewrite S. cbv zeta.
  change (eqc (ch "<") "<") with true. cbv iota.
  (* [/] *)
  match goal with |- context [updatePosition (ch "/") (set_currentChar _ ?x)] =>
    destruct (prestep (ch "/") x) as (l1 & k1 & n1 & ->) end.
  unfold dispatch at 1. pfields. cbv zeta.
  change (eqc (ch "/") "/") with true. cbv iota.
  (* the first character of the name *)
  match goal with |- context [updatePosition c (set_currentChar _ ?x)] =>
    destruct (prestep c x) as (l2 & k2 & n2 & ->) end.
  unfold dispatch at 1. pfields. rewrite T. cbv zeta. cbn [nonEmpty negb].
  rewrite C1, C2. cbn [negb].
  match goal with |- context [stepChars H ?x (rest ++ _)] => set (p3 := x) end.
  assert (S3 : state p3 = CloseTag) by reflexivity.
  assert (T3 : tagName (buffer p3) = [c]) by reflexivity.
  assert (Sc3 : script (buffer p3) = script (buffer p)) by reflexivity.
  assert (K3 : keeps p p3) by (repeat split).
  clearbody p3.
  (* the rest of the name *)
  rewrite stepChars_app.
  destruct (closing_name_rest H rest p3 S3 ltac:(now rewrite T3) C3)
    as (p4 & E4 & S4 & T4 & Sc4 & K4).
  rewrite E4. cbn [stepChars].
  (* [>] *)
  destruct (prestep (ch ">") p4) as (l4 & k4 & n4 & ->).
  unfold dispatch. pfields. rewrite S4, T4, T3. cbv zeta.
  cbn [app nonEmpty negb].
  change (eqc (ch ">") ">") with true. cbv iota.
  unfold closeTag. pfields. rewrite T4, T3, Sc4, Sc3. cbn [app nonEmpty negb].
  rewrite N, X. cbn [negb andb]. cbv zeta.
  eexists. split; [reflexivity|]. pfields.
  destruct (keeps_trans _ _ _ K3 K4) as (K1 & K2 & K5 & _).
  rewrite ?Sc4, ?Sc3, ?T4, ?T3, ?K1, ?K2, ?K5. repeat split.
Qed.

(** X19.  Inside a script element, once the script buffer is not empty, a
    closing tag whose name is not exactly [script] in lower case is script
    text: the loop of [write] over text without a less-than sign and such
    a closing tag emits nothing, stays in the [Script] state and appends
    all of it to the script buffer. *)
Theorem script_keeps_other_closing_tags (H : Host) (p : Parser) (s name : jsstr) :
  state p = Script ->
  tagName (buffer p) = [] ->
  forallb (fun c => negb (eqc c "<")) s = true ->
  nonEmpty (script (buffer p) ++ s) = true ->
  closingName H name = true ->
  eqs name (u "script") = false ->
  exists q,
    writeLoop H p (s ++ u "</" ++ name ++ u ">") = Ok q
    /\ state q = Script
    /\ script (buffer q) = script (buffer p) ++ s ++ u "</" ++ name ++ u ">"
    /\ tagName (buffer q) = []
    /\ events q = events p /\ error q = error p /\ tags q = tags p.
Proof.
  intros S T F N C X. rewrite writeLoop_stepChars, stepChars_app.
  destruct (script_text H s p S F) as (p1 & E1 & S1 & Sc1 & T1 & K1).
  rewrite E1.
  destruct (script_other_close H p1 name S1) as (q & E & Sq & Sc & Tn & Ev & Er & Tg);
    try assumption.
  - now rewrite Sc1.
  - congruence.
  - exists q. split; [exact E|].
    destruct K1 as (K11 & K12 & K13 & _).
    rewrite Sc, Sc1, Ev, Er, Tg, K11, K12, K13, <- !app_assoc. repeat split; assumption.
Qed.

(** ** Quoted attribute values *)

Lemma value_chars (H : Host) q s : forall v l k n cc p,
  forallb (valueChar q) s = true ->
  exists l' k' n' cc',
    stepChars H (insideValue q v l k n cc p) s
    = Ok (set_currentChar [] (insideValue q (v ++ s) l' k' n' cc' p)).
Proof.
  induction s as [|c s IH]; intros v l k n cc p F.
  - exists l, k, n, cc. cbn [stepChars]. now rewrite app_nil_r.
  - cbn [forallb] in F. apply andb_true_iff in F. destruct F as [F1 F2].
    unfold valueChar in F1. apply andb_true_iff in F1. destruct F1 as [A B].
    apply negb_true_iff in A, B.
    cbn [stepChars].
    destruct (prestep c (insideValue q v l k n cc p)) as (l1 & k1 & n1 & ->).
    unfold dispatch. unfold insideValue at 1. pfields. cbv zeta.
    unfold insideValue at 1. pfields.
    cbn [eqs]. rewrite A. cbn [andb negb]. rewrite B.
    destruct (IH (v ++ [c]) l1 k1 n1 [c] p F2) as (l' & k' & n' & cc' & E).
    exists l', k', n', cc'. rewrite <- app_assoc in E. cbn [app] in E.
    rewrite <- E. reflexivity.
Qed.

(** [_attrib] without namespaces, for a name that the tag does not have
    yet. *)
Lemma attrib_plain (H : Host) p t :
  tag p = Some t -> xmlns (options p) = false -> duplicateAttrib H p t = Some false ->
  let name := normalisedAttribName H p in
  let value := attribValue (buffer p) in
  exists r, attrib H p = Ok r
  /\ events r = events p ++ textEvent p ++ [EvAttribute name (APlain value)]
  /\ tag r = Some (withAttribute name value t)
  /\ attribName (buffer r) = [] /\ attribValue (buffer r) = []
  /\ state r = state p /\ error r = error p.
Proof.
  intros T X D. cbv zeta. unfold attrib.
  unfold duplicateAttrib, normalisedAttribName in *.
  set (p1 := if negb (strict p) then setb_attribName (caseFold H (attribName (buffer p)) p) p
             else p).
  assert (N1 : attribName (buffer p1)
               = (if strict p then attribName (buffer p)
                  else caseFold H (attribName (buffer p)) p)).
  { subst p1. destruct (strict p); reflexivity. }
  assert (T1 : tag p1 = Some t) by (subst p1; destruct (negb (strict p)); exact T).
  assert (X1 : xmlns (options p1) = false) by (subst p1; destruct (negb (strict p)); exact X).
  assert (L1 : attribList p1 = attribList p) by (subst p1; destruct (negb (strict p)); reflexivity).
  assert (V1 : attribValue (buffer p1) = attribValue (buffer p))
    by (subst p1; destruct (negb (strict p)); reflexivity).
  assert (E1 : events p1 = events p) by (subst p1; destruct (negb (strict p)); reflexivity).
  assert (TE : textEvent p1 = textEvent p) by (subst p1; destruct (negb (strict p)); reflexivity).
  assert (S1 : state p1 = state p) by (subst p1; destruct (negb (strict p)); reflexivity).
  assert (R1 : error p1 = error p) by (subst p1; destruct (negb (strict p)); reflexivity).
  rewrite <- N1 in *. rewrite <- E1, <- TE, <- V1, <- S1, <- R1.
  assert (D1 : (if containsAttrb (attribName (buffer p1)) p1 then Some true
                else hasOwnProperty (attribName (buffer p1)) (tg_attributes t))
               = Some false).
  { unfold containsAttrb in *. now rewrite L1. }
  clearbody p1. clear - T1 X1 D1.
  rewrite T1. cbv zeta. rewrite D1, X1. eexists. split; [reflexivity|].
  unfold clearAttribBuffers, emit, withAttribute. pfields.
  stsimpl. rewrite flushText_appends, flushText_error.
  pfields. rewrite <- app_assoc. repeat split.
Qed.

(** A name that is no duplicate is no key of the attributes. *)
Lemma duplicateAttrib_lookup (H : Host) p t :
  duplicateAttrib H p t = Some false ->
  lookup (normalisedAttribName H p) (tg_attributes t) = None.
Proof.
  unfold duplicateAttrib, hasOwnProperty, ownKey.
  destruct (containsAttrb _ p); [discriminate|].
  destruct (lookup (u "hasOwnProperty") _); [discriminate|].
  destruct (lookup _ _); [discriminate|reflexivity].
Qed.

(** X20.  A quoted attribute value without an ampersand, without the
    [xmlns] option, when the test of [_attrib] for a duplicate returns
    false (the name is not staged, the tag has no attribute of the name
    [hasOwnProperty], with which the test throws, and none of this name):
    every character up to the closing quote is the value, white space and
    markup characters included; [attributes[name] = value] is run on the
    tag, which stores the attribute under every name but [__proto__], and
    one [attribute] event is emitted, after the pending text. *)
Theorem quoted_value_read_verbatim (H : Host) (p : Parser) (t : Tag)
        (q : jschar) (value : jsstr) :
  state p = AttribValue ->
  tag p = Some t ->
  xmlns (options p) = false ->
  duplicateAttrib H p t = Some false ->
  isQuote q = true ->
  forallb (valueChar q) value = true ->
  let name := normalisedAttribName H p in
  let v := attribValue (buffer p) ++ value in
  exists r,
    writeLoop H p (q :: value ++ [q]) = Ok r
    /\ events r = events p ++ textEvent p ++ [EvAttribute name (APlain v)]
    /\ tag r = Some (withAttribute name v t)
    /\ lookup name (tg_attributes (withAttribute name v t))
       = (if eqs name (u "__proto__") then None else Some (APlain v))
    /\ state r = AttribValueClosed
    /\ attribName (buffer r) = [] /\ attribValue (buffer r) = []
    /\ error r = error p.
Proof.
  intros S T X D Q F. cbv zeta. rewrite writeLoop_stepChars.
  assert (W : isWhitespace q = false).
  { unfold isQuote, isWhitespace, eqc, QUOT in *.
    apply orb_true_iff in Q. destruct Q as [Q|Q]; apply N.eqb_eq in Q; subst q; reflexivity. }
  assert (K : lookup (normalisedAttribName H p)
                (tg_attributes (withAttribute (normalisedAttribName H p)
                                  (attribValue (buffer p) ++ value) t))
              = (if eqs (normalisedAttribName H p) (u "__proto__") then None
                 else Some (APlain (attribValue (buffer p) ++ value)))).
  { unfold withAttribute. cbn [tg_attributes tag_with_attributes].
    rewrite lookup_assign, (duplicateAttrib_lookup H p t D). reflexivity. }
  cbn [stepChars].
  destruct (prestep q p) as (l & k & n & ->).
  unfold dispatch at 1. pfields. rewrite S. cbv zeta. rewrite W, Q.
  match goal with |- context [stepChars H ?x _] =>
    replace x with (insideValue q (attribValue (buffer p)) l k n [q] p)
      by (unfold insideValue, setb_attribValue;
          destruct p as [? ? ? ? ? ? ? ? ? ? ? ? ? ? ? ? ? ? [] ? ?]; reflexivity)
  end.
  rewrite stepChars_app.
  destruct (value_chars H q value (attribValue (buffer p)) l k n [q] p F)
    as (l1 & k1 & n1 & cc1 & ->).
  cbn [stepChars].
  match goal with |- context [updatePosition q (set_currentChar [q] ?x)] =>
    destruct (prestep q x) as (l2 & k2 & n2 & ->) end.
  unfold dispatch. unfold insideValue at 1. pfields. cbv zeta.
  unfold insideValue at 1. pfields. rewrite eqs_refl. cbn [negb].
  match goal with |- context [attrib H ?x] => set (p2 := x) end.
  destruct (attrib_plain H p2 t) as (r & A0 & A1 & A2 & A3 & A4 & A5 & A6).
  { unfold p2, insideValue. stsimpl. exact T. }
  { unfold p2, insideValue. exact X. }
  { unfold p2, insideValue. exact D. }
  rewrite A0. cbn [andThen].
  eexists. split; [reflexivity|]. pfields. stsimpl.
  rewrite A1, A2, A3, A4, A6. repeat split. exact K.
Qed.

(** ** The reserved prefixes *)

Lemma boundTo_set l v ns k w :
  boundTo ns k w = true ->
  (eqs l k && negb (eqs v w)) = false ->
  boundTo (ns_set l v ns) k w = true.
Proof.
  intros B R. unfold boundTo in *.
  destruct (eqs l k) eqn:E.
  - apply eqs_eq in E. subst l. rewrite ns_get_set.
    destruct (eqs k (u "__proto__")); [exact B|].
    cbn [andb] in R. now apply negb_false_iff in R.
  - apply eqs_neq in E. rewrite ns_get_set_other by congruence. exact B.
Qed.

Lemma reservedBound_set l v ns :
  reservedBound ns = true -> reservedBinding l v = false ->
  reservedBound (ns_set l v ns) = true.
Proof.
  unfold reservedBound, reservedBinding. intros B R.
  apply andb_true_iff in B. destruct B as [B1 B2].
  apply orb_false_iff in R. destruct R as [R1 R2].
  apply andb_true_iff. split; apply boundTo_set; assumption.
Qed.

Lemma lastTag_In l t : lastTag l = Some t -> In t l.
Proof.
  unfold lastTag. destruct (rev l) as [|x r] eqn:E; [discriminate|].
  intros [= ->]. apply in_rev. rewrite E. now left.
Qed.

Lemma scoped_parent p :
  scoped p = true -> xmlns (options p) = true ->
  reservedBound (getParentNamespace p) = true.
Proof.
  unfold scoped, getParentNamespace, isNamespacesSupported. intros S X.
  rewrite X in *. apply andb_true_iff in S. destruct S as [S _].
  destruct (lastTag (tags p)) as [t|] eqn:L; [|reflexivity].
  apply lastTag_In in L. rewrite forallb_forall in S. specialize (S t L).
  unfold tagScoped in S. unfold the_ns. destruct (tg_ns t); [exact S|discriminate].
Qed.

Lemma scoped_same p q :
  options q = options p -> tags q = tags p -> tag q = tag p -> scoped q = scoped p.
Proof. unfold scoped. now intros -> -> ->. Qed.

Lemma onlyOutput_scoped p q : onlyOutput p q -> scoped q = scoped p.
Proof. intros E. rewrite E. reflexivity. Qed.

Lemma scoped_update (f : Parser -> Parser) p :
  (forall x, options (f x) = options x /\ tags (f x) = tags x /\ tag (f x) = tag x) ->
  scoped (f p) = scoped p.
Proof. intros E. destruct (E p) as (A & B & C). now apply scoped_same. Qed.

Lemma scoped_flushText p : scoped (flushText p) = scoped p.
Proof. apply onlyOutput_scoped, onlyOutput_flushText. Qed.

Lemma scoped_strictFail m p : scoped (strictFail m p) = scoped p.
Proof. apply onlyOutput_scoped, onlyOutput_strictFail. Qed.

Lemma scoped_emitError m p : scoped (emitError m p) = scoped p.
Proof. apply onlyOutput_scoped, onlyOutput_emitError. Qed.

Lemma scoped_closeText p : scoped (closeText p) = scoped p.
Proof. apply onlyOutput_scoped, onlyOutput_closeText. Qed.

Lemma scoped_emit e p : scoped (emit e p) = scoped p.
Proof. reflexivity. Qed.

(** [scoped (f q)] is reduced to [scoped q] when [f] leaves the options,
    the stack and the tag alone. *)
Ltac scope_step :=
  match goal with
  | |- context [scoped (flushText ?q)] => rewrite (scoped_flushText q)
  | |- context [scoped (strictFail ?m ?q)] => rewrite (scoped_strictFail m q)
  | |- context [scoped (emitError ?m ?q)] => rewrite (scoped_emitError m q)
  | |- context [scoped (closeText ?q)] => rewrite (scoped_closeText q)
  | |- context [scoped (emit ?e ?q)] => change (scoped (emit e q)) with (scoped q)
  | |- context [scoped (snd (?a, ?q))] => change (snd (a, q)) with q
  | |- context [scoped (parserOf (Ok ?q))] => change (parserOf (Ok q)) with q
  | |- context [scoped (parserOf (Throw ?e ?q))] => change (parserOf (Throw e q)) with q
  | |- context [scoped (?f ?q)] =>
      lazymatch f with
      | set_tag _ => fail
      | set_tags _ => fail
      | _ => is_quiet f
      end;
      rewrite (scoped_update f q)
        by (intros x; try match goal with |- context [set_target ?b] => destruct b end;
            repeat split)
  | |- context [scoped (if ?b then _ else _)] => destruct b eqn:?
  | |- context [scoped (match ?x with (_, _) => _ end)] =>
      rewrite (surjective_pairing x); cbv iota
  end.

Section Scoped.

Variable H : Host.

Lemma onlyOutput_emitOpenNamespaces ns keys : forall p,
  onlyOutput p (emitOpenNamespaces ns keys p).
Proof.
  induction keys as [|k keys IH]; intros p; cbn [emitOpenNamespaces];
    [apply onlyOutput_refl|].
  eapply onlyOutput_trans; [|apply IH].
  eapply onlyOutput_trans; [apply onlyOutput_flushText | apply onlyOutput_emit].
Qed.

Lemma onlyOutput_emitCloseNamespaces ns keys : forall p,
  onlyOutput p (emitCloseNamespaces ns keys p).
Proof.
  induction keys as [|k keys IH]; intros p; cbn [emitCloseNamespaces];
    [apply onlyOutput_refl|].
  eapply onlyOutput_trans; [|apply IH].
  eapply onlyOutput_trans; [apply onlyOutput_flushText | apply onlyOutput_emit].
Qed.

Lemma staged_keeps_scope l : forall t p,
  tg_ns (fst (emitStagedAttributes l t p)) = tg_ns t
  /\ onlyOutput p (snd (emitStagedAttributes l t p)).
Proof.
  induction l as [|[name value] l IH]; intros t p; cbn [emitStagedAttributes].
  - split; [reflexivity | apply onlyOutput_refl].
  - unpair.
    match goal with |- context [emitStagedAttributes l ?t' ?p'] =>
      destruct (IH t' p') as [I1 I2] end.
    split; [rewrite I1; reflexivity|].
    eapply onlyOutput_trans; [|exact I2].
    eapply onlyOutput_trans; [|apply onlyOutput_emit].
    eapply onlyOutput_trans; [|apply onlyOutput_flushText].
    destruct (_ && _); cbn [snd]; [apply onlyOutput_strictFail|apply onlyOutput_refl].
Qed.

Lemma scoped_newTag p : scoped p = true -> scoped (newTag H p) = true.
Proof.
  intros S. unfold newTag. cbv zeta. repeat scope_step.
  set (p1 := if negb (strict p) then _ else p).
  assert (S1 : scoped p1 = true) by (subst p1; destruct (negb (strict p)); exact S).
  clearbody p1. clear S p.
  unfold scoped. cbn [options tags tag set_tag set_attribList].
  pose proof (scoped_parent p1 S1) as B.
  unfold scoped in S1. apply andb_true_iff in S1. destruct S1 as [S1 _].
  rewrite S1. cbn [andb]. unfold tagScoped, isNamespacesSupported. cbn [tg_ns].
  destruct (xmlns (options p1)); [now apply B|reflexivity].
Qed.

Lemma scoped_with_attributes a t p :
  tag p = Some t -> scoped p = true ->
  scoped (set_tag (Some (tag_with_attributes a t)) p) = true.
Proof.
  unfold scoped. intros T S. rewrite T in S. exact S.
Qed.

Lemma scoped_attrib p : scoped p = true -> scoped (parserOf (attrib H p)) = true.
Proof.
  intros S. unfold attrib.
  set (p1 := if negb (strict p) then _ else p).
  assert (S1 : scoped p1 = true) by (subst p1; destruct (negb (strict p)); exact S).
  clearbody p1. clear S p.
  destruct (tag p1) as [t|] eqn:T; [|cbn [parserOf]; now rewrite scoped_emitError].
  destruct (if containsAttrb _ p1 then _ else _) as [[|]|]; cbn [parserOf];
    [exact S1| |exact S1].
  unfold clearAttribBuffers.
  destruct (xmlns (options p1)) eqn:X.
  - repeat scope_step; try exact S1.
    pose proof (scoped_parent p1 S1 X) as B.
    assert (B' : reservedBound (the_ns t) = true).
    { unfold scoped in S1. rewrite T, X in S1. apply andb_true_iff in S1.
      destruct S1 as [_ S2]. unfold tagScoped in S2. unfold the_ns.
      destruct (tg_ns t); [exact S2|discriminate]. }
    assert (R : reservedBinding (local (qname (attribName (buffer p1)) true))
                  (attribValue (buffer p1)) = false).
    { unfold reservedBinding.
      repeat match goal with E : _ && _ = false |- _ => rewrite E; clear E end.
      reflexivity. }
    unfold scoped in S1. rewrite T, X in S1. apply andb_true_iff in S1.
    destruct S1 as [S1 _].
    destruct (ns_same _ _); cbn [fst snd]; unfold scoped;
      cbn [options tags tag set_tag set_nextNsId]; rewrite X, S1; cbn [andb];
      unfold tagScoped; cbn [tg_ns tag_with_ns]; apply reservedBound_set;
      try assumption.
  - repeat scope_step. apply scoped_with_attributes; assumption.
Qed.


Lemma scopes_refl p : scopes p p.
Proof. intros S; exact S. Qed.

Lemma scopes_trans p q r : scopes p q -> scopes q r -> scopes p r.
Proof. unfold scopes; auto. Qed.

Lemma scopes_update (f : Parser -> Parser) p :
  (forall x, options (f x) = options x /\ tags (f x) = tags x /\ tag (f x) = tag x) ->
  scopes p (f p).
Proof. intros E S. now rewrite scoped_update. Qed.

Lemma scopes_onlyOutput p q : onlyOutput p q -> scopes p q.
Proof. intros O S. now rewrite (onlyOutput_scoped _ _ O). Qed.

Lemma scopes_flushText p : scopes p (flushText p).
Proof. apply scopes_onlyOutput, onlyOutput_flushText. Qed.

Lemma scopes_closeText p : scopes p (closeText p).
Proof. apply scopes_onlyOutput, onlyOutput_closeText. Qed.

Lemma scopes_strictFail m p : scopes p (strictFail m p).
Proof. apply scopes_onlyOutput, onlyOutput_strictFail. Qed.

Lemma scopes_emitError m p : scopes p (emitError m p).
Proof. apply scopes_onlyOutput, onlyOutput_emitError. Qed.

Lemma scopes_emit e p : scopes p (emit e p).
Proof. intros S; exact S. Qed.

Lemma scopes_newTag p : scopes p (newTag H p).
Proof. exact (scoped_newTag p). Qed.

Lemma scopes_attrib p : scopes p (parserOf (attrib H p)).
Proof. exact (scoped_attrib p). Qed.

Lemma scopes_with_attributes a t p :
  tag p = Some t -> scopes p (set_tag (Some (tag_with_attributes a t)) p).
Proof. intros T S. now apply scoped_with_attributes. Qed.

Lemma scopes_no_tag p : scopes p (set_tag None p).
Proof.
  unfold scopes, scoped. cbn [options tags tag set_tag]. intros S.
  apply andb_true_iff in S. destruct S as [S _]. now rewrite S.
Qed.

Lemma scopes_emitOpenNamespaces ns keys p : scopes p (emitOpenNamespaces ns keys p).
Proof. apply scopes_onlyOutput, onlyOutput_emitOpenNamespaces. Qed.

Lemma scopes_emitCloseNamespaces ns keys p : scopes p (emitCloseNamespaces ns keys p).
Proof. apply scopes_onlyOutput, onlyOutput_emitCloseNamespaces. Qed.

End Scoped.

Create HintDb scopes.

#[export] Hint Resolve scopes_refl scopes_flushText scopes_closeText scopes_strictFail
  scopes_emitError scopes_emit scopes_newTag scopes_attrib scopes_no_tag
  scopes_emitOpenNamespaces scopes_emitCloseNamespaces : scopes.

Ltac scope_peel :=
  lazymatch goal with
  | |- scopes ?a ?a => apply scopes_refl
  | |- scopes _ (snd (_, ?q)) => change (snd (_, q)) with q
  | |- scopes _ (parserOf (Ok ?q)) => change (parserOf (Ok q)) with q
  | |- scopes _ (parserOf (Throw _ ?q)) => change (parserOf (Throw _ q)) with q
  | |- scopes _ (set_tag (Some (tag_with_attributes ?a ?t)) ?q) =>
      apply scopes_trans with q; [|apply scopes_with_attributes; assumption]
  | |- scopes _ (set_tag None ?q) =>
      apply scopes_trans with q; [|apply scopes_no_tag]
  | |- scopes _ (snd (?f ?q)) =>
      apply scopes_trans with q; [|solve [auto with scopes]]
  | |- scopes _ (?f ?q) =>
      apply scopes_trans with q;
      [|first [lazymatch f with set_tag _ => fail | set_tags _ => fail | _ => idtac end;
               is_quiet f; apply (scopes_update f q); intros ?;
               try match goal with |- context [set_target ?b] => destruct b end;
               repeat split
              | solve [auto with scopes]]]
  end.

Ltac scope_all := repeat first [scope_peel | unpair | split_cases].

Section Scoped2.

Variable H : Host.

Lemma scopes_beginWhiteSpace c p : scopes p (beginWhiteSpace c p).
Proof. unfold beginWhiteSpace. scope_all. Qed.

Lemma scopes_parseEntity p : scopes p (snd (parseEntity H p)).
Proof. apply scopes_onlyOutput, onlyOutput_parseEntity. Qed.

Lemma scopes_findOpenTag t closeTo : forall p, scopes p (snd (findOpenTag t closeTo p)).
Proof.
  induction t as [|t IH]; intros p; cbn [findOpenTag]; [apply scopes_refl|].
  destruct (nth_error (tags p) t); [|apply scopes_refl].
  destruct (negb _); [|apply scopes_refl].
  eapply scopes_trans; [apply scopes_strictFail | apply IH].
Qed.

Lemma forallb_removelast (A : Type) (f : A -> bool) (l : list A) :
  forallb f l = true -> forallb f (removelast l) = true.
Proof.
  induction l as [|x l IH]; [trivial|]. cbn [forallb]. intros E.
  apply andb_true_iff in E. destruct E as [E1 E2].
  destruct l as [|y l]; [reflexivity|].
  change (removelast (x :: y :: l)) with (x :: removelast (y :: l)).
  cbn [forallb]. rewrite E1. exact (IH E2).
Qed.

Lemma scopes_popTag p : scopes p (popTag p).
Proof.
  unfold popTag. destruct (lastTag (tags p)) as [t|] eqn:L; [|apply scopes_refl].
  apply scopes_trans
    with (set_tag (Some t) (set_tags (removelast (tags p)) p)).
  - unfold scopes, scoped. cbn [options tags tag set_tag set_tags]. intros S.
    apply andb_true_iff in S. destruct S as [S _].
    rewrite (forallb_removelast _ _ _ S). cbn [andb].
    rewrite forallb_forall in S. apply S, lastTag_In, L.
  - cbv zeta. generalize (set_tag (Some t) (set_tags (removelast (tags p)) p)).
    intros q. scope_all.
Qed.

Lemma scopes_popTags n : forall p, scopes p (popTags n p).
Proof.
  induction n as [|n IH]; intros p; cbn [popTags]; [apply scopes_refl|].
  eapply scopes_trans; [apply scopes_popTag | apply IH].
Qed.

Lemma scopes_openTag b p : scopes p (openTag H b p).
Proof.
  unfold openTag. destruct (tag p) as [t|] eqn:T; [|apply scopes_emitError].
  set (r := if xmlns (options p) && isNamespacesSupported p then _ else (t, p)).
  assert (R : tg_ns (fst r) = tg_ns t
              /\ options (snd r) = options p /\ tags (snd r) = tags p).
  { subst r. destruct (_ && _); [|repeat split].
    repeat unpair. cbn [fst snd].
    match goal with |- context [emitStagedAttributes ?l ?t' ?p'] =>
      destruct (staged_keeps_scope l t' p') as [I1 I2];
      assert (O : onlyOutput p p') end.
    { destruct (_ && _); cbn [fst snd tg_ns tag_with_qname].
      - destruct (tg_ns t); [destruct (negb _)|];
          [eapply onlyOutput_trans; [apply onlyOutput_strictFail
                                    |apply onlyOutput_emitOpenNamespaces]
          |apply onlyOutput_strictFail..].
      - destruct (tg_ns t); [destruct (negb _)|];
          [apply onlyOutput_emitOpenNamespaces|apply onlyOutput_refl..]. }
    split.
    - rewrite I1. destruct (_ && _); reflexivity.
    - pose proof (onlyOutput_trans _ _ _ O I2) as O2.
      cbn [options tags set_attribList]. split; rewrite O2; reflexivity. }
  rewrite (surjective_pairing r). cbv iota zeta.
  destruct R as (R1 & X & G). set (t' := fst r) in *. set (p' := snd r) in *.
  clearbody t' p'. clear r.
  intros S.
  assert (S2 : scoped (set_tags (tags p' ++ [tag_with_selfClosing b t'])
                         (set_tag (Some (tag_with_selfClosing b t')) p')) = true).
  { unfold scoped in *. cbn [options tags tag set_tag set_tags].
    rewrite X, G, T in *. apply andb_true_iff in S. destruct S as [S1 S2].
    assert (Q : tagScoped (xmlns (options p)) (tag_with_selfClosing b t') = true).
    { unfold tagScoped in *. cbn [tg_ns tag_with_selfClosing]. rewrite R1. exact S2. }
    rewrite forallb_app, S1, Q. cbn [forallb]. rewrite Q. reflexivity. }
  revert S2.
  change (scopes (set_tags (tags p' ++ [tag_with_selfClosing b t'])
                    (set_tag (Some (tag_with_selfClosing b t')) p'))
            (set_attribList []
               (clearAttribBuffers
                  (let p0 := emit (EvOpenTag (tag_with_selfClosing b t'))
                               (flushText
                                  (set_tags (tags (set_sawRoot true (set_tag (Some (tag_with_selfClosing b t')) p')) ++ [tag_with_selfClosing b t'])
                                     (set_sawRoot true (set_tag (Some (tag_with_selfClosing b t')) p')))) in
                   if negb b
                   then setb_tagName []
                          (set_tag None
                             (if negb (strict p0 || noscript (options p0))
                                 && eqs (toLowerCase H (tagName (buffer p0))) (u "script")
                              then set_state Script p0 else set_state Text p0))
                   else p0)))).
  cbv zeta.
  change (set_tags (tags (set_sawRoot true (set_tag (Some (tag_with_selfClosing b t')) p')) ++ [tag_with_selfClosing b t'])
            (set_sawRoot true (set_tag (Some (tag_with_selfClosing b t')) p')))
    with (set_sawRoot true (set_tags (tags p' ++ [tag_with_selfClosing b t'])
                    (set_tag (Some (tag_with_selfClosing b t')) p'))).
  generalize (set_tags (tags p' ++ [tag_with_selfClosing b t'])
                    (set_tag (Some (tag_with_selfClosing b t')) p')).
  intros q. scope_all.
Qed.

Lemma scopes_closeTag p : scopes p (closeTag H p).
Proof.
  unfold closeTag. cbv zeta.
  destruct (negb (nonEmpty (tagName (buffer p)))); [scope_all|].
  destruct (_ && _); [scope_all|].
  set (p1 := if nonEmpty (script (buffer p)) then _ else p).
  assert (S1 : scopes p p1) by (subst p1; scope_all).
  apply scopes_trans with p1; [exact S1|]. clearbody p1. clear S1.
  set (cl := if negb (strict p1) then _ else _). clearbody cl.
  pose proof (scopes_findOpenTag (length (tags p1)) cl p1) as F.
  destruct (findOpenTag (length (tags p1)) cl p1) as [[n|] p2]; cbn [snd] in F;
    (apply scopes_trans with p2; [exact F|]).
  - pose proof (scopes_popTags (length (tags (setb_tagName cl p2)) - n)
                  (setb_tagName cl p2)) as Q.
    set (p3 := popTags _ _) in *. clearbody p3.
    apply scopes_trans with (setb_tagName cl p2); [scope_all|].
    apply scopes_trans with p3; [exact Q|]. scope_all.
  - scope_all.
Qed.

Lemma scopes_textAfterScan c p : scopes p (textAfterScan c p).
Proof. unfold textAfterScan. scope_all. Qed.

Lemma scopes_textLastChar c p : scopes p (textLastChar c p).
Proof. pose proof scopes_textAfterScan. unfold textLastChar. scope_all. Qed.

Lemma scopes_entityCase st b c p : scopes p (parserOf (entityCase H st b c p)).
Proof.
  unfold entityCase. cbv zeta.
  destruct (eqc c ";").
  - rewrite (surjective_pairing (parseEntity H p)). cbv iota.
    pose proof (scopes_parseEntity p) as Q.
    set (q := snd (parseEntity H p)) in *. clearbody q.
    apply scopes_trans with q; [exact Q|]. scope_all.
  - scope_all.
Qed.

End Scoped2.

#[export] Hint Resolve scopes_beginWhiteSpace scopes_openTag scopes_closeTag
  scopes_textAfterScan scopes_textLastChar scopes_popTags : scopes.

Section Scoped3.

Variable H : Host.

Lemma scopes_dispatch c p : scopes p (parserOf (dispatch H c p)).
Proof.
  unfold dispatch. cbv zeta.
  destruct (state p);
    try (apply scopes_entityCase);
    repeat first [scope_peel | unpair | split_cases
                 | match goal with
                   | |- context [andThen (attrib H ?q) _] =>
                       let G := fresh "G" in
                       unfold andThen; pose proof (scopes_attrib H q) as G;
                       destruct (attrib H q); cbn [parserOf] in G |- *
                   | G : scopes ?q ?r |- scopes _ ?r =>
                       apply scopes_trans with q; [|exact G]; clear G
                   end].
Qed.

Lemma scopes_stepChars chunk : forall p, scopes p (parserOf (stepChars H p chunk)).
Proof.
  induction chunk as [|c chunk IH]; intros p; cbn [stepChars parserOf];
    [intros S; exact S|].
  assert (S' : scopes p (updatePosition c (set_currentChar [c] p))).
  { destruct (prestep c p) as (l & k & n & ->). intros S; exact S. }
  pose proof (scopes_dispatch c (updatePosition c (set_currentChar [c] p))) as D.
  destruct (dispatch H c _) as [q|e q]; cbn [parserOf] in D.
  - eapply scopes_trans; [exact S'|]. eapply scopes_trans; [exact D | apply IH].
  - cbn [parserOf]. eapply scopes_trans; [exact S' | exact D].
Qed.

Lemma checkFrame_scoped p q : checkFrame p q -> scoped q = scoped p.
Proof. intros F. rewrite F. reflexivity. Qed.

Lemma scoped_end p : scoped (end_ H p) = true.
Proof.
  unfold scoped.
  change (tags (end_ H p)) with (@nil Tag).
  change (tag (end_ H p)) with (@None Tag).
  reflexivity.
Qed.

Lemma scopes_write chunk p : scopes p (parserOf (write H chunk p)).
Proof.
  unfold write. destruct (error p) as [e|]; [apply scopes_refl|].
  set (p1 := if closed p then emitError _ p else p).
  assert (S1 : scopes p p1) by (subst p1; destruct (closed p); auto with scopes).
  apply scopes_trans with p1; [exact S1|]. clearbody p1. clear S1.
  destruct chunk as [chunk|]; [|intros _; apply scoped_end].
  rewrite writeLoop_stepChars.
  pose proof (scopes_stepChars chunk p1) as A.
  destruct (stepChars H p1 chunk) as [r|x r]; cbn [parserOf] in *; [|exact A].
  destruct (position r >=? bufferCheckPosition r); [|exact A].
  destruct (checkBufferLength_fixed r) as (o & r' & -> & F).
  intros S. change (scoped (set_bufferCheckPosition o r')) with (scoped r').
  rewrite (checkFrame_scoped _ _ F). apply A, S.
Qed.

Lemma scopes_call c p : scopes p (call H c p).
Proof.
  destruct c; cbn [call].
  - apply scopes_write.
  - intros _. apply scoped_end.
  - intros S; exact S.
  - apply scopes_write.
  - intros S. now rewrite (checkFrame_scoped _ _ (flush_frame p)).
Qed.

Lemma scoped_calls cs : forall p, scoped p = true -> scoped (calls H cs p) = true.
Proof.
  unfold calls. induction cs as [|c cs IH]; intros p S; [exact S|].
  cbn [fold_left]. apply IH, scopes_call, S.
Qed.

End Scoped3.

(** X21.  With the [xmlns] option, whatever methods are called on a new
    parser and whatever the document declares, every tag on the stack and
    the tag being built have a namespace map in which the prefix [xml] is
    bound to the XML namespace and the prefix [xmlns] to the XMLNS
    namespace. *)
Theorem reserved_prefixes_stay_bound (H : Host) (strict0 : bool) (opts : IOptions)
        (cs : list Call) :
  let p := calls H cs (newParser H strict0 opts) in
  scoped p = true.
Proof.
  cbv zeta. apply scoped_calls. unfold scoped.
  cbn. reflexivity.
Qed.

(** ** The nesting of the tag events *)

Lemma replay_app a : forall b st,
  replay (a ++ b) st
  = match replay a st with Some st' => replay b st' | None => None end.
Proof.
  induction a as [|e a IH]; intros b st; [reflexivity|].
  destruct e; cbn [app replay]; try apply IH.
  destruct (lastTag st) as [t|]; [|reflexivity].
  destruct (eqs (tg_name t) name); [apply IH|reflexivity].
Qed.

Lemma replay_neutral evs st : forallb neutral evs = true -> replay evs st = Some st.
Proof.
  induction evs as [|e evs IH]; [reflexivity|]. cbn [forallb]. intros N.
  apply andb_true_iff in N. destruct N as [N1 N2].
  destruct e; try discriminate N1; cbn [replay]; apply IH, N2.
Qed.

Lemma neutral_textEvent p : forallb neutral (textEvent p) = true.
Proof. unfold textEvent. cbv zeta. destruct (nonEmpty _); reflexivity. Qed.

Lemma nested_refl p : nested p p.
Proof. exists []. now rewrite app_nil_r. Qed.

Lemma nested_trans p q r : nested p q -> nested q r -> nested p r.
Proof.
  intros (a & A1 & A2) (b & B1 & B2). exists (a ++ b). split.
  - now rewrite B1, A1, app_assoc.
  - now rewrite replay_app, A2.
Qed.

Lemma nested_quiet p q evs :
  events q = events p ++ evs -> forallb neutral evs = true -> tags q = tags p ->
  nested p q.
Proof.
  intros E N T. exists evs. split; [exact E|]. rewrite T. now apply replay_neutral.
Qed.

Lemma nested_update (f : Parser -> Parser) p :
  (forall x, events (f x) = events x /\ tags (f x) = tags x) -> nested p (f p).
Proof.
  intros E. destruct (E p) as [A B].
  apply nested_quiet with []; [now rewrite app_nil_r | reflexivity | exact B].
Qed.

Lemma nested_emit e p : neutral e = true -> nested p (emit e p).
Proof.
  intros N. apply nested_quiet with [e]; [reflexivity | cbn; now rewrite N | reflexivity].
Qed.

Lemma nested_closeText p : nested p (closeText p).
Proof.
  apply nested_quiet with (textEvent p);
    [apply closeText_events | apply neutral_textEvent
    | apply onlyOutput_tags, onlyOutput_closeText].
Qed.

Lemma nested_flushText p : nested p (flushText p).
Proof.
  apply nested_quiet with (textEvent p);
    [apply flushText_appends | apply neutral_textEvent
    | apply onlyOutput_tags, onlyOutput_flushText].
Qed.

Lemma nested_emitError m p : nested p (emitError m p).
Proof.
  apply nested_quiet with (textEvent p ++ [EvError (errorMessage m p)]);
    [apply emitError_events
    | rewrite forallb_app, neutral_textEvent; reflexivity
    | apply onlyOutput_tags, onlyOutput_emitError].
Qed.

Lemma nested_strictFail m p : nested p (strictFail m p).
Proof. unfold strictFail. destruct (strict p); [apply nested_emitError|apply nested_refl]. Qed.

(** The push of [_openTag]: the tag goes on the stack, the text is
    flushed and [opentag] is emitted. *)
Lemma nested_push t p :
  nested p (emit (EvOpenTag t) (flushText (set_tags (tags p ++ [t]) p))).
Proof.
  exists (textEvent p ++ [EvOpenTag t]). split.
  - cbn [events emit set_events]. rewrite flushText_appends, <- app_assoc. reflexivity.
  - rewrite replay_app, (replay_neutral _ _ (neutral_textEvent p)).
    cbn [replay tags emit set_events].
    now rewrite (onlyOutput_tags _ _ (onlyOutput_flushText _)).
Qed.

Lemma lastTag_split (l : list Tag) t : lastTag l = Some t -> l = removelast l ++ [t].
Proof.
  unfold lastTag. intros E.
  destruct (rev l) as [|x r] eqn:R; [discriminate|]. injection E as ->.
  assert (L : l = rev r ++ [t]) by (rewrite <- (rev_involutive l), R; reflexivity).
  rewrite L at 1. now rewrite L, removelast_last.
Qed.

Create HintDb nested.

#[export] Hint Resolve nested_refl nested_flushText nested_closeText nested_strictFail
  nested_emitError : nested.

Ltac nest_peel :=
  lazymatch goal with
  | |- nested ?a ?a => apply nested_refl
  | |- nested _ (snd (_, ?q)) => change (snd (_, q)) with q
  | |- nested _ (parserOf (Ok ?q)) => change (parserOf (Ok q)) with q
  | |- nested _ (parserOf (Throw _ ?q)) => change (parserOf (Throw _ q)) with q
  | |- nested _ (emit (EvOpenTag ?t) (flushText (set_tags (tags ?q ++ [?t]) ?q))) =>
      apply nested_trans with q; [|apply nested_push]
  | |- nested _ (snd (?f ?q)) =>
      apply nested_trans with q; [|solve [auto with nested]]
  | |- nested _ (emit ?e ?q) =>
      apply nested_trans with q; [|apply nested_emit; reflexivity]
  | |- nested _ (?f ?q) =>
      apply nested_trans with q;
      [|first [lazymatch f with set_tags _ => fail | _ => idtac end;
               is_quiet f; apply (nested_update f q); intros ?;
               try match goal with |- context [set_target ?b] => destruct b end;
               split; reflexivity
              | solve [auto with nested]]]
  end.

Ltac nest_all := repeat first [nest_peel | unpair | split_cases].

Section Nested.

Variable H : Host.

Lemma nested_beginWhiteSpace c p : nested p (beginWhiteSpace c p).
Proof. unfold beginWhiteSpace. nest_all. Qed.

Lemma nested_newTag p : nested p (newTag H p).
Proof. unfold newTag. nest_all. Qed.

Lemma nested_parseEntity p : nested p (snd (parseEntity H p)).
Proof.
  unfold parseEntity.
  repeat first [split_cases | unpair | progress cbn [snd]]; auto with nested;
    apply nested_refl.
Qed.

Lemma nested_attrib p : nested p (parserOf (attrib H p)).
Proof. unfold attrib. nest_all. Qed.

Lemma nested_emitOpenNamespaces ns keys p : nested p (emitOpenNamespaces ns keys p).
Proof.
  revert p. induction keys as [|k keys IH]; intros p; simpl; [apply nested_refl|].
  eapply nested_trans; [|apply IH]. nest_all.
Qed.

Lemma nested_emitCloseNamespaces ns keys p : nested p (emitCloseNamespaces ns keys p).
Proof.
  revert p. induction keys as [|k keys IH]; intros p; simpl; [apply nested_refl|].
  eapply nested_trans; [|apply IH]. nest_all.
Qed.

Lemma nested_emitStagedAttributes l t p : nested p (snd (emitStagedAttributes l t p)).
Proof.
  revert t p. induction l as [|[name value] l IH]; intros t p;
    cbn [emitStagedAttributes]; nest_all.
Qed.

Lemma nested_findOpenTag t closeTo p : nested p (snd (findOpenTag t closeTo p)).
Proof.
  revert p. induction t as [|t IH]; intros p; cbn [findOpenTag]; [apply nested_refl|].
  repeat split_cases; cbn [snd]; try apply nested_refl.
  eapply nested_trans; [|apply IH]. apply nested_strictFail.
Qed.

(** One pop of [_closeTag]: [closetag] carries the name of the tag that
    leaves the stack. *)
Lemma nested_popTag p : nested p (popTag p).
Proof.
  destruct (lastTag (tags p)) as [t|] eqn:L;
    [|unfold popTag; rewrite L; apply nested_refl].
  pose proof (lastTag_split _ _ L) as T.
  rewrite (popTag_top (removelast (tags p)) t p T). cbv zeta.
  set (q := flushText _).
  assert (E : events q = events p ++ textEvent p).
  { subst q. rewrite flushText_appends. reflexivity. }
  exists (textEvent p ++ closeEvents (xmlns (options p))
                           (parentNamespaceOf (xmlns (options p)) (removelast (tags p))) t).
  split.
  - cbn [events set_events]. rewrite E, <- app_assoc. reflexivity.
  - rewrite replay_app, (replay_neutral _ _ (neutral_textEvent p)).
    unfold closeEvents. cbn [replay]. rewrite L, eqs_refl.
    cbn [tags set_events]. subst q.
    rewrite (onlyOutput_tags _ _ (onlyOutput_flushText _)). cbn [tags set_tags setb_tagName set_tag].
    apply replay_neutral.
    destruct (_ && _); [|reflexivity].
    induction (map fst (ns_own (the_ns t))) as [|k ks IH]; [reflexivity|exact IH].
Qed.

Lemma nested_popTags n p : nested p (popTags n p).
Proof.
  revert p. induction n as [|n IH]; intros p; simpl; [apply nested_refl|].
  eapply nested_trans; [apply nested_popTag | apply IH].
Qed.

End Nested.

#[export] Hint Resolve nested_beginWhiteSpace nested_newTag nested_attrib
  nested_emitOpenNamespaces nested_emitCloseNamespaces nested_popTag
  nested_popTags nested_parseEntity nested_emitStagedAttributes
  nested_findOpenTag : nested.

Section Nested2.

Variable H : Host.

Lemma nested_openTag b p : nested p (openTag H b p).
Proof. unfold openTag. nest_all. Qed.

End Nested2.

#[export] Hint Resolve nested_openTag : nested.

Section Nested3.

Variable H : Host.

Lemma nested_closeTag p : nested p (closeTag H p).
Proof. unfold closeTag. nest_all. Qed.

Lemma nested_textAfterScan c p : nested p (textAfterScan c p).
Proof. unfold textAfterScan. nest_all. Qed.

Lemma nested_textLastChar c p : nested p (textLastChar c p).
Proof. pose proof nested_textAfterScan. unfold textLastChar. nest_all. Qed.

Lemma nested_entityCase st b c p : nested p (parserOf (entityCase H st b c p)).
Proof.
  unfold entityCase.
  repeat first [nest_peel | split_cases
               | match goal with
                 | |- context [parseEntity H ?q] =>
                     pose proof (nested_parseEntity H q);
                     destruct (parseEntity H q) as [[v|] r]; cbn [snd] in *
                 end]; assumption.
Qed.

End Nested3.

#[export] Hint Resolve nested_closeTag nested_textAfterScan nested_textLastChar
  nested_entityCase : nested.

Section Nested4.

Variable H : Host.

Lemma nested_dispatch c p : nested p (parserOf (dispatch H c p)).
Proof.
  unfold dispatch. cbv zeta.
  destruct (state p);
    repeat first [nest_peel | split_cases | solve [auto with nested]
                 | match goal with
                   | |- context [andThen (attrib H ?q) _] =>
                       let G := fresh "G" in
                       unfold andThen; pose proof (nested_attrib H q) as G;
                       destruct (attrib H q); cbn [parserOf] in G |- *
                   | G : nested ?q ?r |- nested _ ?r =>
                       apply nested_trans with q; [|exact G]; clear G
                   end].
Qed.

Lemma nested_stepChars chunk : forall p, nested p (parserOf (stepChars H p chunk)).
Proof.
  induction chunk as [|c chunk IH]; intros p.
  - apply nested_quiet with []; [now rewrite app_nil_r | reflexivity | reflexivity].
  - cbn [stepChars].
    pose proof (nested_dispatch c (updatePosition c (set_currentChar [c] p))) as G.
    assert (E : nested p (updatePosition c (set_currentChar [c] p))).
    { destruct (prestep c p) as (l & k & n & ->).
      apply nested_quiet with []; [now rewrite app_nil_r | reflexivity | reflexivity]. }
    destruct (dispatch H c _) as [q|e q]; cbn [parserOf] in *.
    + eapply nested_trans; [|apply IH]. eapply nested_trans; eassumption.
    + eapply nested_trans; eassumption.
Qed.

Lemma nested_checkSingleBuffer k b p :
  nested p (snd (checkSingleBuffer k b maxAllowedLength p)).
Proof.
  unfold checkSingleBuffer. cbv zeta. cbn [snd].
  destruct (Z.of_nat (length b) >? maxAllowedLength); [|apply nested_refl].
  destruct k; try apply nested_emitError; nest_all.
Qed.

Lemma nested_runChecks steps : forall a p, nested p (snd (runChecks steps (a, p))).
Proof.
  induction steps as [|[k read] rest IH]; intros a p; [apply nested_refl|].
  rewrite runChecks_cons.
  eapply nested_trans; [|apply IH]. apply nested_checkSingleBuffer.
Qed.

Lemma nested_checkBufferLength p : nested p (checkBufferLength p).
Proof.
  rewrite checkBufferLength_runChecks. cbv zeta.
  match goal with
  | |- nested p (set_bufferCheckPosition ?o ?r) =>
      apply nested_trans with r;
      [|apply (nested_update (set_bufferCheckPosition o) r); intros x; split; reflexivity]
  end.
  apply nested_runChecks.
Qed.

Lemma nested_end p : nested p (end_ H p).
Proof.
  exists (textEvent p ++ endErrors p ++ [EvEnd]). split; [apply end_events_exact|].
  assert (N : forallb neutral (endErrors p) = true).
  { unfold endErrors.
    destruct (sawRoot p && negb (closedRoot p) && strict p), (state p); reflexivity. }
  rewrite replay_app, (replay_neutral _ _ (neutral_textEvent p)).
  rewrite replay_app, (replay_neutral _ _ N). reflexivity.
Qed.

Lemma nested_write chunk p : nested p (parserOf (write H chunk p)).
Proof.
  unfold write. destruct (error p); [apply nested_refl|].
  set (p1 := if closed p then emitError _ p else p).
  assert (G1 : nested p p1).
  { subst p1. destruct (closed p); [apply nested_emitError|apply nested_refl]. }
  clearbody p1.
  destruct chunk as [chunk|]; cbn [parserOf].
  - rewrite writeLoop_stepChars.
    pose proof (nested_stepChars chunk p1) as G2.
    destruct (stepChars H p1 chunk) as [r|e r]; cbn [parserOf] in *.
    + destruct (position r >=? bufferCheckPosition r).
      * eapply nested_trans; [|apply nested_checkBufferLength].
        eapply nested_trans; eassumption.
      * eapply nested_trans; eassumption.
    + eapply nested_trans; eassumption.
  - eapply nested_trans; [exact G1|apply nested_end].
Qed.

Lemma nested_flush p : nested p (flush p).
Proof.
  destruct (flush_events_exact p) as (E & _).
  eapply nested_quiet; [exact E| |].
  - rewrite !forallb_app, neutral_textEvent. unfold bufferEvent.
    destruct (nonEmpty (cdata (buffer p))), (nonEmpty (script (buffer p))); reflexivity.
  - pose proof (flush_frame p) as F. rewrite F. reflexivity.
Qed.

Lemma nested_call c p : nested p (call H c p).
Proof.
  destruct c; cbn [call].
  - apply nested_write.
  - apply nested_end.
  - apply nested_quiet with []; [now rewrite app_nil_r | reflexivity | reflexivity].
  - apply nested_write.
  - apply nested_flush.
Qed.

Lemma nested_calls cs : forall p, nested p (calls H cs p).
Proof.
  unfold calls. induction cs as [|c cs IH]; intros p; [apply nested_refl|].
  cbn [fold_left]. eapply nested_trans; [apply nested_call | apply IH].
Qed.

End Nested4.

(** X22.  The [opentag] and [closetag] events are properly nested and
    mirror the stack: a listener that pushes at every [opentag], pops at
    every [closetag] and empties its stack at [end] always finds, at a
    [closetag], a tag of the name of the event on top, and holds after any
    sequence of calls exactly the stack of the parser. *)
Theorem tag_events_are_nested (H : Host) (strict0 : bool) (opts : IOptions)
        (cs : list Call) :
  let p := calls H cs (newParser H strict0 opts) in
  replay (events p) [] = Some (tags p).
Proof.
  cbv zeta. destruct (nested_calls H cs (newParser H strict0 opts)) as (evs & E & R).
  rewrite E. exact R.
Qed.

(** ** Quoted strings *)

Lemma keepsPrev_refl p : keepsPrev p p.
Proof. reflexivity. Qed.

Lemma keepsPrev_trans p q r : keepsPrev p q -> keepsPrev q r -> keepsPrev p r.
Proof. unfold keepsPrev. congruence. Qed.

Lemma keepsPrev_update (f : Parser -> Parser) p :
  (forall x, previousChar (f x) = previousChar x) -> keepsPrev p (f p).
Proof. intros E. apply E. Qed.

Lemma keepsPrev_onlyOutput p q : onlyOutput p q -> keepsPrev p q.
Proof. intros O. unfold keepsPrev. rewrite O. reflexivity. Qed.

Lemma keepsPrev_flushText p : keepsPrev p (flushText p).
Proof. apply keepsPrev_onlyOutput, onlyOutput_flushText. Qed.

Lemma keepsPrev_closeText p : keepsPrev p (closeText p).
Proof. apply keepsPrev_onlyOutput, onlyOutput_closeText. Qed.

Lemma keepsPrev_strictFail m p : keepsPrev p (strictFail m p).
Proof. apply keepsPrev_onlyOutput, onlyOutput_strictFail. Qed.

Lemma keepsPrev_emitError m p : keepsPrev p (emitError m p).
Proof. apply keepsPrev_onlyOutput, onlyOutput_emitError. Qed.

Lemma keepsPrev_emit e p : keepsPrev p (emit e p).
Proof. reflexivity. Qed.

Create HintDb prev.

#[export] Hint Resolve keepsPrev_refl keepsPrev_flushText keepsPrev_closeText
  keepsPrev_strictFail keepsPrev_emitError keepsPrev_emit : prev.

Ltac prev_peel :=
  lazymatch goal with
  | |- keepsPrev ?a ?a => apply keepsPrev_refl
  | |- keepsPrev _ (snd (_, ?q)) => change (snd (_, q)) with q
  | |- keepsPrev _ (parserOf (Ok ?q)) => change (parserOf (Ok q)) with q
  | |- keepsPrev _ (parserOf (Throw _ ?q)) => change (parserOf (Throw _ q)) with q
  | |- keepsPrev _ (snd (?f ?q)) =>
      apply keepsPrev_trans with q; [|solve [auto with prev]]
  | |- keepsPrev _ (?f ?q) =>
      apply keepsPrev_trans with q;
      [|first [lazymatch f with set_previousChar _ => fail | _ => idtac end;
               is_quiet f; apply (keepsPrev_update f q); intros ?;
               try match goal with |- context [set_target ?b] => destruct b end;
               reflexivity
              | solve [auto with prev]]]
  end.

Ltac prev_all := repeat first [prev_peel | unpair | split_cases].

Section Prev.

Variable H : Host.

Lemma keepsPrev_beginWhiteSpace c p : keepsPrev p (beginWhiteSpace c p).
Proof. unfold beginWhiteSpace. prev_all. Qed.

Lemma keepsPrev_newTag p : keepsPrev p (newTag H p).
Proof. unfold newTag. prev_all. Qed.

Lemma keepsPrev_parseEntity p : keepsPrev p (snd (parseEntity H p)).
Proof. apply keepsPrev_onlyOutput, onlyOutput_parseEntity. Qed.

Lemma keepsPrev_attrib p : keepsPrev p (parserOf (attrib H p)).
Proof. unfold attrib. prev_all. Qed.

Lemma keepsPrev_emitOpenNamespaces ns keys p : keepsPrev p (emitOpenNamespaces ns keys p).
Proof.
  revert p. induction keys as [|k keys IH]; intros p; simpl; [apply keepsPrev_refl|].
  eapply keepsPrev_trans; [|apply IH]. prev_all.
Qed.

Lemma keepsPrev_emitCloseNamespaces ns keys p : keepsPrev p (emitCloseNamespaces ns keys p).
Proof.
  revert p. induction keys as [|k keys IH]; intros p; simpl; [apply keepsPrev_refl|].
  eapply keepsPrev_trans; [|apply IH]. prev_all.
Qed.

Lemma keepsPrev_emitStagedAttributes l t p : keepsPrev p (snd (emitStagedAttributes l t p)).
Proof.
  revert t p. induction l as [|[name value] l IH]; intros t p;
    cbn [emitStagedAttributes]; prev_all.
Qed.

Lemma keepsPrev_findOpenTag t closeTo p : keepsPrev p (snd (findOpenTag t closeTo p)).
Proof.
  revert p. induction t as [|t IH]; intros p; cbn [findOpenTag]; [apply keepsPrev_refl|].
  repeat split_cases; cbn [snd]; try apply keepsPrev_refl.
  eapply keepsPrev_trans; [|apply IH]. apply keepsPrev_strictFail.
Qed.

Lemma keepsPrev_popTag p : keepsPrev p (popTag p).
Proof.
  unfold popTag. destruct (lastTag (tags p)); [|apply keepsPrev_refl].
  split_cases.
  - eapply keepsPrev_trans; [|apply keepsPrev_emitCloseNamespaces]. prev_all.
  - prev_all.
Qed.

Lemma keepsPrev_popTags n p : keepsPrev p (popTags n p).
Proof.
  revert p. induction n as [|n IH]; intros p; simpl; [apply keepsPrev_refl|].
  eapply keepsPrev_trans; [apply keepsPrev_popTag | apply IH].
Qed.

End Prev.

#[export] Hint Resolve keepsPrev_beginWhiteSpace keepsPrev_newTag keepsPrev_attrib
  keepsPrev_emitOpenNamespaces keepsPrev_emitCloseNamespaces keepsPrev_popTag
  keepsPrev_popTags keepsPrev_parseEntity keepsPrev_emitStagedAttributes
  keepsPrev_findOpenTag : prev.

Section Prev2.

Variable H : Host.

Lemma keepsPrev_openTag b p : keepsPrev p (openTag H b p).
Proof. unfold openTag. prev_all. Qed.

End Prev2.

#[export] Hint Resolve keepsPrev_openTag : prev.

Section Prev3.

Variable H : Host.

Lemma keepsPrev_closeTag p : keepsPrev p (closeTag H p).
Proof. unfold closeTag. prev_all. Qed.

Lemma keepsPrev_textAfterScan c p : keepsPrev p (textAfterScan c p).
Proof. unfold textAfterScan. prev_all. Qed.

Lemma keepsPrev_textLastChar c p : keepsPrev p (textLastChar c p).
Proof. pose proof keepsPrev_textAfterScan. unfold textLastChar. prev_all. Qed.

Lemma keepsPrev_entityCase st b c p : keepsPrev p (parserOf (entityCase H st b c p)).
Proof.
  unfold entityCase.
  repeat first [prev_peel | split_cases
               | match goal with
                 | |- context [parseEntity H ?q] =>
                     pose proof (keepsPrev_parseEntity H q);
                     destruct (parseEntity H q) as [[v|] r]; cbn [snd] in *
                 end]; assumption.
Qed.

Lemma quoteKept_entityCase st b c p :
  inQuote st = true -> inQuote (state p) = true ->
  quoteKept (parserOf (entityCase H st b c p)) = true.
Proof.
  intros Q1 Q2. unfold entityCase, quoteKept. cbv zeta.
  destruct (eqc c ";").
  - pose proof (onlyOutput_state _ _ (onlyOutput_parseEntity H p)) as E.
    destruct (parseEntity H p) as [[v|] r]; cbn [snd] in E; cbn [parserOf].
    + destruct b; cbn [state set_state set_target setb_entity setb_textNode
                       setb_attribValue set_buffer]; now rewrite Q1.
    + now rewrite E, Q2.
  - destruct ((if nonEmpty (entity (buffer p)) then entityBody H else entityStart H) c);
      cbn [parserOf].
    + cbn [state setb_entity set_buffer]. now rewrite Q2.
    + destruct b; cbn [state set_state set_target setb_entity setb_textNode
                       setb_attribValue set_buffer]; now rewrite Q1.
Qed.

End Prev3.

#[export] Hint Resolve keepsPrev_closeTag keepsPrev_textAfterScan keepsPrev_textLastChar
  keepsPrev_entityCase : prev.

Section Prev4.

Variable H : Host.

Lemma kept_by_frame p q :
  negb (nonEmpty (previousChar p)) = true -> keepsPrev p q -> quoteKept q = true.
Proof. unfold quoteKept, keepsPrev. intros E ->. rewrite E. apply orb_true_r. Qed.

Lemma kept_by_state q : inQuote (state q) = true -> quoteKept q = true.
Proof. unfold quoteKept. now intros ->. Qed.

Lemma kept_by_empty q : previousChar q = [] -> quoteKept q = true.
Proof. unfold quoteKept. intros ->. apply orb_true_r. Qed.

Lemma quoteKept_dispatch c p :
  quoteKept p = true -> quoteKept (parserOf (dispatch H c p)) = true.
Proof.
  intros K. unfold quoteKept in K. unfold dispatch. cbv zeta.
  destruct (state p) eqn:S; cbn [inQuote orb] in K;
    try (apply quoteKept_entityCase; [reflexivity | now rewrite S]);
    try (apply (kept_by_frame p); [exact K | apply keepsPrev_entityCase]);
    repeat split_cases;
    try match goal with
        | |- context [andThen (attrib H ?q) _] =>
            unfold andThen;
            pose proof (keepsPrev_attrib H q) as Ga;
            pose proof (state_attrib H q) as Ea;
            destruct (attrib H q); cbn [parserOf] in Ga, Ea
        end;
    cbn [parserOf];
    first [ apply kept_by_state; stsimpl; rewrite ?Ea; stsimpl; rewrite ?S; reflexivity
          | apply kept_by_empty; reflexivity
          | apply (kept_by_frame p);
            [exact K
            |repeat first [prev_peel | unpair | split_cases
                          | match goal with
                            | G : keepsPrev ?q ?r |- keepsPrev _ ?r =>
                                apply keepsPrev_trans with q; [|exact G]; clear G
                            end]] ].
Qed.

Lemma quoteKept_stepChars chunk : forall p,
  quoteKept p = true -> quoteKept (parserOf (stepChars H p chunk)) = true.
Proof.
  induction chunk as [|c chunk IH]; intros p K; cbn [stepChars]; [exact K|].
  assert (K' : quoteKept (updatePosition c (set_currentChar [c] p)) = true).
  { destruct (prestep c p) as (l & k & n & ->). exact K. }
  pose proof (quoteKept_dispatch c _ K') as D.
  destruct (dispatch H c _) as [q|e q]; cbn [parserOf] in *; [apply IH, D | exact D].
Qed.

Lemma checkFrame_quoteKept p q : checkFrame p q -> quoteKept q = quoteKept p.
Proof. intros F. rewrite F. reflexivity. Qed.

Lemma quoteKept_end p : quoteKept (end_ H p) = true.
Proof. apply kept_by_empty. reflexivity. Qed.

Lemma quoteKept_write chunk p :
  quoteKept p = true -> quoteKept (parserOf (write H chunk p)) = true.
Proof.
  intros K. unfold write. destruct (error p); [exact K|].
  set (p1 := if closed p then emitError _ p else p).
  assert (K1 : quoteKept p1 = true).
  { subst p1. destruct (closed p); [|exact K].
    unfold quoteKept. rewrite state_emitError, (keepsPrev_emitError _ p). exact K. }
  clearbody p1.
  destruct chunk as [chunk|]; [|apply quoteKept_end].
  rewrite writeLoop_stepChars.
  pose proof (quoteKept_stepChars chunk p1 K1) as A.
  destruct (stepChars H p1 chunk) as [r|x r]; cbn [parserOf] in *; [|exact A].
  destruct (position r >=? bufferCheckPosition r); [|exact A].
  destruct (checkBufferLength_fixed r) as (o & r' & -> & F).
  change (quoteKept (set_bufferCheckPosition o r')) with (quoteKept r').
  now rewrite (checkFrame_quoteKept _ _ F).
Qed.

Lemma quoteKept_call c p : quoteKept p = true -> quoteKept (call H c p) = true.
Proof.
  intros K. destruct c; cbn [call].
  - apply quoteKept_write, K.
  - apply quoteKept_end.
  - exact K.
  - apply quoteKept_write, K.
  - now rewrite (checkFrame_quoteKept _ _ (flush_frame p)).
Qed.

Lemma quoteKept_calls cs : forall p, quoteKept p = true -> quoteKept (calls H cs p) = true.
Proof.
  unfold calls. induction cs as [|c cs IH]; intros p K; [exact K|].
  cbn [fold_left]. apply IH, quoteKept_call, K.
Qed.

(** The characters read in [SgmlDeclQuoted] while [_previousChar] is
    empty. *)
Lemma sgml_quoted_run s : forall p,
  state p = SgmlDeclQuoted -> previousChar p = [] ->
  exists q,
    stepChars H p s = Ok q /\ state q = SgmlDeclQuoted
    /\ sgmlDecl (buffer q) = sgmlDecl (buffer p) ++ s
    /\ keeps p q.
Proof.
  induction s as [|c s IH]; intros p S E.
  - exists (set_currentChar [] p). cbn [stepChars]. pfields.
    rewrite app_nil_r. repeat split. exact S.
  - cbn [stepChars]. destruct (prestep c p) as (l & k & n & ->).
    unfold dispatch. pfields. rewrite S. cbv zeta. pfields. rewrite E.
    change (eqs [c] []) with false. cbv iota.
    set (q := setb_sgmlDecl _ _).
    destruct (IH q S E) as (r & R & Sr & Sg & K).
    exists r. split; [exact R|]. split; [exact Sr|].
    subst q. pfields. rewrite Sg, <- app_assoc. repeat split; apply K.
Qed.

End Prev4.

(** X23.  A quote inside an SGML declaration is never closed: the state
    [SgmlDeclQuoted] compares each character with [_previousChar], which
    is the empty string whenever that state is reached, so every further
    character of the chunk, quotes and greater-than signs included, is
    appended to the declaration, with no event and no change of state. *)
Theorem quote_in_sgml_declaration_never_closes (H : Host) (strict0 : bool)
        (opts : IOptions) (cs : list Call) (s : jsstr) :
  let p := calls H cs (newParser H strict0 opts) in
  state p = SgmlDeclQuoted ->
  exists q,
    writeLoop H p s = Ok q
    /\ state q = SgmlDeclQuoted
    /\ sgmlDecl (buffer q) = sgmlDecl (buffer p) ++ s
    /\ events q = events p /\ error q = error p /\ tags q = tags p.
Proof.
  cbv zeta. intros S. rewrite writeLoop_stepChars.
  set (p := calls H cs (newParser H strict0 opts)) in *.
  assert (K : quoteKept p = true) by (apply quoteKept_calls; reflexivity).
  unfold quoteKept in K. rewrite S in K. cbn [inQuote orb] in K.
  assert (E : previousChar p = []) by (destruct (previousChar p); [reflexivity|discriminate K]).
  destruct (sgml_quoted_run H s p S E) as (q & R & Sq & Sg & K').
  exists q. repeat split; try assumption; apply K'.
Qed.

(** ** Elements *)

(** [_newTag] and [_openTag] without namespaces and without attributes. *)
Lemma open_plain (H : Host) p :
  xmlns (options p) = false ->
  let name := openedName H (tagName (buffer p)) p in
  let t := mkTag name in
  let r := openTag H false (newTag H p) in
  events r = events p ++ textEvent p ++ [EvOpenTagStart t; EvOpenTag t]
  /\ tags r = tags p ++ [t]
  /\ state r = stateAfterOpen H name p
  /\ sawRoot r = true /\ textNode (buffer r) = [] /\ error r = error p
  /\ options r = options p /\ strict r = strict p
  /\ closedRoot r = closedRoot p /\ script (buffer r) = script (buffer p).
Proof.
  intros X. cbv zeta. unfold newTag. cbv zeta.
  set (p1 := if negb (strict p)
             then setb_tagName (caseFold H (tagName (buffer p)) p) p else p).
  assert (N1 : tagName (buffer p1) = openedName H (tagName (buffer p)) p).
  { subst p1. unfold openedName. destruct (strict p); reflexivity. }
  assert (X1 : xmlns (options p1) = false) by (subst p1; destruct (negb (strict p)); exact X).
  assert (O1 : options p1 = options p) by (subst p1; destruct (negb (strict p)); reflexivity).
  assert (S1 : strict p1 = strict p) by (subst p1; destruct (negb (strict p)); reflexivity).
  assert (E1 : events p1 = events p) by (subst p1; destruct (negb (strict p)); reflexivity).
  assert (G1 : tags p1 = tags p) by (subst p1; destruct (negb (strict p)); reflexivity).
  assert (TE : textEvent p1 = textEvent p) by (subst p1; destruct (negb (strict p)); reflexivity).
  assert (R1 : error p1 = error p) by (subst p1; destruct (negb (strict p)); reflexivity).
  assert (C1 : closedRoot p1 = closedRoot p)
    by (subst p1; destruct (negb (strict p)); reflexivity).
  assert (Sc1 : script (buffer p1) = script (buffer p))
    by (subst p1; destruct (negb (strict p)); reflexivity).
  unfold stateAfterOpen.
  rewrite <- N1, <- E1, <- G1, <- TE, <- R1, <- O1, <- S1, <- C1, <- Sc1.
  clearbody p1. clear - X1.
  unfold isNamespacesSupported. rewrite X1.
  fold (mkTag (tagName (buffer p1))).
  set (t := mkTag (tagName (buffer p1))).
  set (p2 := emit (EvOpenTagStart t) (flushText (set_attribList [] (set_tag (Some t) p1)))).
  assert (T2 : tag p2 = Some t) by (subst p2; stsimpl; reflexivity).
  assert (X2 : xmlns (options p2) = false).
  { subst p2. cbn [options emit set_events].
    rewrite (onlyOutput_options _ _ (onlyOutput_flushText _)). exact X1. }
  assert (F2 : events p2 = events p1 ++ textEvent p1 ++ [EvOpenTagStart t]
               /\ textNode (buffer p2) = [] /\ tags p2 = tags p1
               /\ strict p2 = strict p1 /\ options p2 = options p1
               /\ tagName (buffer p2) = tagName (buffer p1) /\ error p2 = error p1
               /\ closedRoot p2 = closedRoot p1
               /\ script (buffer p2) = script (buffer p1)).
  { subst p2. pose proof (onlyOutput_flushText (set_attribList [] (set_tag (Some t) p1))) as O.
    cbn [events textNode buffer tags strict options tagName error closedRoot script
         emit set_events].
    rewrite flushText_appends, flushText_textNode, flushText_error, flushText_script,
      <- app_assoc.
    repeat split; rewrite O; reflexivity. }
  destruct F2 as (E2 & N2 & G2 & S2 & O2 & Tn2 & R2 & C2 & Sc2).
  clearbody p2.
  unfold openTag. rewrite T2. unfold isNamespacesSupported. rewrite X2.
  cbn [andb negb]. cbv iota zeta.
  change (tag_with_selfClosing false t) with t.
  rewrite (flushText_empty (set_tags _ _)) by exact N2.
  cbn [strict options buffer tagName emit set_events set_tags set_sawRoot set_tag].
  rewrite S2, O2, Tn2.
  destruct (negb (strict p1 || noscript (options p1))
            && eqs (toLowerCase H (tagName (buffer p1))) (u "script"));
    unfold clearAttribBuffers;
    cbn [events tags state sawRoot textNode buffer error options strict closedRoot
         script emit set_events set_tags
         set_sawRoot set_tag set_state set_attribList set_buffer setb_tagName
         setb_attribName setb_attribValue];
    rewrite E2, N2, G2, R2, O2, S2, C2, Sc2, <- !app_assoc; repeat split.
Qed.

(** The characters of a tag name after the first. *)
Lemma name_chars (H : Host) s : forall p,
  state p = OpenTag -> forallb (nameBody H) s = true ->
  exists q,
    stepChars H p s = Ok q /\ state q = OpenTag
    /\ tagName (buffer q) = tagName (buffer p) ++ s
    /\ script (buffer q) = script (buffer p)
    /\ keeps p q.
Proof.
  induction s as [|c s IH]; intros p S F.
  - exists (set_currentChar [] p). cbn [stepChars]. pfields.
    rewrite app_nil_r. repeat split. exact S.
  - cbn [forallb] in F. apply andb_true_iff in F. destruct F as [F1 F2].
    cbn [stepChars]. destruct (prestep c p) as (l & k & n & ->).
    unfold dispatch. pfields. rewrite S. cbv zeta. rewrite F1.
    set (q := setb_tagName _ _).
    destruct (IH q S F2) as (r & E & Sr & Tn & Sc & K).
    exists r. split; [exact E|]. split; [exact Sr|].
    subst q. pfields. rewrite Tn, Sc, <- app_assoc. repeat split; apply K.
Qed.

(** The less-than sign in the [Text] state, where it starts markup. *)
Lemma text_opens_waka (H : Host) p :
  state p = Text ->
  sawRoot p && closedRoot p && negb (strict p) = false ->
  exists q,
    dispatch H (ch "<") (updatePosition (ch "<") (set_currentChar [ch "<"] p)) = Ok q
    /\ state q = OpenWaka
    /\ tagName (buffer q) = tagName (buffer p)
    /\ script (buffer q) = script (buffer p)
    /\ keeps p q.
Proof.
  intros S R.
  destruct (prestep (ch "<") p) as (l & k & n & ->).
  unfold dispatch. pfields. rewrite S. unfold textLastChar. pfields.
  change (eqc (ch "<") "<") with true. cbn [negb andb].
  assert (T1 : forall x, sawRoot x = sawRoot p -> closedRoot x = closedRoot p ->
                 strict x = strict p ->
                 textAfterScan [ch "<"] x
                 = set_startTagPosition (position x) (set_state OpenWaka x)).
  { intros x A1 A2 A3. unfold textAfterScan.
    change (is1 [ch "<"] "<") with true. rewrite A1, A2, A3, R. reflexivity. }
  match goal with
  | |- context [if ?b then textAfterScan _ (setb_textNode ?v ?x) else _] =>
      replace (setb_textNode v x) with x
        by (rewrite app_nil_r;
            destruct p as [? ? ? ? ? ? ? ? ? ? ? ? ? ? ? ? ? ? [] ? ?]; reflexivity);
      replace (if b then textAfterScan [ch "<"] x else textAfterScan [ch "<"] x)
        with (textAfterScan [ch "<"] x) by (destruct b; reflexivity);
      rewrite (T1 x) by reflexivity
  end.
  eexists. split; [reflexivity|]. pfields. repeat split.
Qed.

(** A start tag without attributes, read by the loop of [write]. *)
Lemma start_tag_run (H : Host) (p : Parser) (name : jsstr) :
  state p = Text ->
  sawRoot p && closedRoot p && negb (strict p) = false ->
  xmlns (options p) = false ->
  elementName H name = true ->
  nameBody H (ch ">") = false ->
  let t := mkTag (openedName H name p) in
  exists q,
    stepChars H p (u "<" ++ name ++ u ">") = Ok q
    /\ events q = events p ++ textEvent p ++ [EvOpenTagStart t; EvOpenTag t]
    /\ tags q = tags p ++ [t]
    /\ state q = stateAfterOpen H (openedName H name p) p
    /\ sawRoot q = true /\ textNode (buffer q) = [] /\ error q = error p
    /\ options q = options p /\ strict q = strict p
    /\ closedRoot q = closedRoot p /\ script (buffer q) = script (buffer p).
Proof.
  intros S R X N B. cbv zeta.
  destruct name as [|c rest]; [discriminate N|].
  cbn [elementName] in N.
  apply andb_true_iff in N. destruct N as [N N4].
  apply andb_true_iff in N. destruct N as [N N3].
  apply andb_true_iff in N. destruct N as [N1 N2].
  apply negb_true_iff in N1, N2.
  change (u "<" ++ (c :: rest) ++ u ">") with (ch "<" :: c :: rest ++ [ch ">"]).
  cbn [stepChars].
  destruct (text_opens_waka H p S R) as (p1 & -> & S1 & _ & Sc1 & K1).
  destruct (prestep c p1) as (l1 & k1 & n1 & ->).
  unfold dispatch at 1. pfields. rewrite S1. cbv zeta. rewrite N1, N2, N3.
  match goal with |- context [stepChars H ?x (rest ++ _)] => set (p2 := x) end.
  assert (F2 : state p2 = OpenTag /\ tagName (buffer p2) = [c]
               /\ script (buffer p2) = script (buffer p) /\ keeps p p2).
  { subst p2. pfields. repeat split; try apply K1. exact Sc1. }
  destruct F2 as (S2 & Tn2 & Sc2 & K2). clearbody p2. clear K1 Sc1 S1 p1.
  rewrite stepChars_app.
  destruct (name_chars H rest p2 S2 N4) as (p3 & -> & S3 & Tn3 & Sc3 & K3).
  rewrite Tn2 in Tn3. cbn [app] in Tn3. rewrite Sc2 in Sc3.
  pose proof (keeps_trans _ _ _ K2 K3) as K. clear K2 K3 S2 Tn2 Sc2 p2.
  cbn [stepChars].
  destruct (prestep (ch ">") p3) as (l3 & k3 & n3 & ->).
  unfold dispatch. pfields. rewrite S3. cbv zeta. rewrite B.
  change (eqc (ch ">") ">") with true. cbv iota.
  match goal with |- context [newTag H ?x] => set (p4 := x) end.
  assert (F4 : tagName (buffer p4) = c :: rest
               /\ script (buffer p4) = script (buffer p) /\ keeps p p4).
  { subst p4. pfields. split; [exact Tn3 |split; [exact Sc3 | exact K]]. }
  destruct F4 as (Tn4 & Sc4 & K4). clearbody p4.
  destruct K4 as (K1 & K2 & K3 & K5 & K6 & K7 & K8 & K9).
  assert (X4 : xmlns (options p4) = false) by now rewrite K6.
  destruct (open_plain H p4 X4) as (A1 & A2 & A3 & A4 & A5 & A6 & A7 & A8 & A9 & A10).
  assert (Op : openedName H (tagName (buffer p4)) p4 = openedName H (c :: rest) p).
  { unfold openedName, caseFold. now rewrite Tn4, K6, K7. }
  assert (Te : textEvent p4 = textEvent p).
  { unfold textEvent, textopts. now rewrite K5, K6. }
  rewrite Op in *.
  eexists. split; [reflexivity|].
  cbn [events tags state sawRoot textNode buffer error options strict closedRoot script
       set_currentChar].
  rewrite A1, A2, A3, A4, A5, A6, A7, A8, A9, A10, K1, K2, K3, Te, K6, K7, K9, Sc4.
  unfold stateAfterOpen. rewrite K6, K7. repeat split.
Qed.

(** X24.  A start tag without attributes, without the [xmlns] option: in
    the [Text] state (and not after the root of a parser that is not
    strict) the loop of [write] over [<name>] returns and emits the
    pending text, [opentagstart] and [opentag] with a tag of that name,
    folded to upper or lower case unless the parser is strict, with no
    attributes; the tag is pushed on the stack, the root is seen, and the
    state is [Text], or [Script] for a script element. *)
Theorem start_tag_opens_element (H : Host) (p : Parser) (name : jsstr) :
  state p = Text ->
  sawRoot p && closedRoot p && negb (strict p) = false ->
  xmlns (options p) = false ->
  elementName H name = true ->
  nameBody H (ch ">") = false ->
  let t := mkTag (openedName H name p) in
  exists q,
    writeLoop H p (u "<" ++ name ++ u ">") = Ok q
    /\ events q = events p ++ textEvent p ++ [EvOpenTagStart t; EvOpenTag t]
    /\ tags q = tags p ++ [t]
    /\ state q = stateAfterOpen H (openedName H name p) p
    /\ sawRoot q = true /\ textNode (buffer q) = [] /\ error q = error p.
Proof.
  intros S R X N B. cbv zeta. rewrite writeLoop_stepChars.
  destruct (start_tag_run H p name S R X N B)
    as (q & E & A1 & A2 & A3 & A4 & A5 & A6 & _).
  exists q. repeat split; assumption.
Qed.

(** [_closeTag] for the name of the tag on top of the stack, without
    namespaces and outside a script. *)
Lemma closeTag_top (H : Host) p below t :
  tags p = below ++ [t] ->
  xmlns (options p) = false ->
  nonEmpty (tagName (buffer p)) = true ->
  script (buffer p) = [] ->
  tg_name t = closeTarget H p ->
  let q := closeTag H p in
  events q = events p ++ textEvent p ++ [EvCloseTag (tg_name t)]
  /\ tags q = below
  /\ state q = Text
  /\ closedRoot q = match below with [] => true | _ :: _ => closedRoot p end
  /\ error q = error p /\ sawRoot q = sawRoot p /\ textNode (buffer q) = []
  /\ options q = options p /\ strict q = strict p
  /\ script (buffer q) = [].
Proof.
  intros F X N S M. cbv zeta. unfold closeTag. cbv zeta.
  rewrite N, S. cbn [negb nonEmpty andb].
  assert (C : (if negb (strict p) then caseFold H (tagName (buffer p)) p
               else tagName (buffer p)) = tg_name t).
  { rewrite M. unfold closeTarget. destruct (strict p); reflexivity. }
  rewrite C, F, length_app. cbn [length].
  rewrite Nat.add_1_r. cbn [findOpenTag].
  rewrite F, nth_error_app2, Nat.sub_diag by lia. cbn [nth_error].
  rewrite eqs_refl. cbn [negb].
  change (tags (setb_tagName (tg_name t) p)) with (tags p).
  rewrite F, length_app. cbn [length].
  replace (length below + 1 - length below)%nat with 1%nat by lia.
  cbn [popTags].
  assert (F' : tags (setb_tagName (tg_name t) p) = below ++ [t]) by exact F.
  destruct (popTag_fields below t _ F') as (G1 & G2 & G3 & G4 & G5 & G6).
  set (r := popTag (setb_tagName (tg_name t) p)) in *.
  assert (G7 : sawRoot r = sawRoot p /\ error r = error p /\ script (buffer r) = []).
  { unfold r. rewrite (popTag_top below t _ F'). cbv zeta. pfields.
    set (z := setb_tagName _ (set_tag _ _)).
    rewrite flushText_error, flushText_script.
    rewrite (onlyOutput_flushText z). repeat split. exact S. }
  destruct G7 as (G7 & G8 & G9).
  clearbody r.
  assert (E : events r = events p ++ textEvent p ++ [EvCloseTag (tg_name t)]).
  { rewrite G2. change (options (setb_tagName (tg_name t) p)) with (options p).
    rewrite X. unfold closeEvents. cbn [andb].
    rewrite flushText_appends. rewrite <- app_assoc. reflexivity. }
  change (closedRoot (setb_tagName (tg_name t) p)) with (closedRoot p) in G4.
  change (options (setb_tagName (tg_name t) p)) with (options p) in G5.
  change (strict (setb_tagName (tg_name t) p)) with (strict p) in G6.
  destruct below; cbn [length Nat.eqb]; pfields;
    rewrite ?E, ?G1, ?G3, ?G4, ?G5, ?G6, ?G7, ?G8, ?G9; repeat split.
Qed.

(** An end tag for the element on top of the stack, read by the loop of
    [write]. *)
Lemma end_tag_run (H : Host) (p : Parser) (below : list Tag) (t : Tag) (name : jsstr) :
  state p = Text ->
  sawRoot p && closedRoot p && negb (strict p) = false ->
  tags p = below ++ [t] ->
  xmlns (options p) = false ->
  script (buffer p) = [] ->
  closingName H name = true ->
  nameStart H (ch "/") = false ->
  tg_name t = openedName H name p ->
  exists q,
    stepChars H p (u "</" ++ name ++ u ">") = Ok q
    /\ events q = events p ++ textEvent p ++ [EvCloseTag (tg_name t)]
    /\ tags q = below
    /\ state q = Text
    /\ closedRoot q = match below with [] => true | _ :: _ => closedRoot p end
    /\ error q = error p /\ sawRoot q = sawRoot p /\ textNode (buffer q) = []
    /\ options q = options p /\ strict q = strict p /\ script (buffer q) = [].
Proof.
  intros S R F X Sc N B M.
  destruct name as [|c rest]; [discriminate N|].
  cbn [closingName] in N.
  apply andb_true_iff in N. destruct N as [N N3].
  apply andb_true_iff in N. destruct N as [N1 N2].
  apply negb_true_iff in N1.
  change (u "</" ++ (c :: rest) ++ u ">") with (ch "<" :: ch "/" :: c :: rest ++ [ch ">"]).
  cbn [stepChars].
  destruct (text_opens_waka H p S R) as (p1 & -> & S1 & _ & Sc1 & K1).
  destruct (prestep (ch "/") p1) as (l1 & k1 & n1 & ->).
  unfold dispatch at 1. pfields. rewrite S1. cbv zeta.
  change (eqc (ch "/") "!") with false. change (isWhitespace (ch "/")) with false.
  rewrite B. change (eqc (ch "/") "/") with true. cbv iota.
  match goal with |- context [updatePosition c (set_currentChar _ ?x)] =>
    destruct (prestep c x) as (l2 & k2 & n2 & ->) end.
  unfold dispatch at 1. pfields. cbv zeta. cbn [nonEmpty negb].
  rewrite N1, N2. cbn [negb].
  match goal with |- context [stepChars H ?x (rest ++ _)] => set (p2 := x) end.
  assert (F2 : state p2 = CloseTag /\ tagName (buffer p2) = [c]
               /\ script (buffer p2) = script (buffer p) /\ keeps p p2).
  { subst p2. pfields. repeat split; try apply K1. exact Sc1. }
  destruct F2 as (S2 & Tn2 & Sc2 & K2). clearbody p2. clear K1 Sc1 S1 p1.
  rewrite stepChars_app.
  destruct (closing_name_rest H rest p2 S2) as (p3 & -> & S3 & Tn3 & Sc3 & K3);
    [now rewrite Tn2 | exact N3 |].
  rewrite Tn2 in Tn3. cbn [app] in Tn3. rewrite Sc2 in Sc3.
  pose proof (keeps_trans _ _ _ K2 K3) as K. clear K2 K3 S2 Tn2 Sc2 p2.
  cbn [stepChars].
  destruct (prestep (ch ">") p3) as (l3 & k3 & n3 & ->).
  unfold dispatch. pfields. rewrite S3. cbv zeta. rewrite Tn3. cbn [nonEmpty negb].
  change (eqc (ch ">") ">") with true. cbv iota.
  match goal with |- context [closeTag H ?x] => set (p4 := x) end.
  assert (F4 : tagName (buffer p4) = c :: rest
               /\ script (buffer p4) = script (buffer p) /\ keeps p p4).
  { subst p4. pfields. split; [exact Tn3 |split; [exact Sc3 | exact K]]. }
  destruct F4 as (Tn4 & Sc4 & K4). clearbody p4.
  destruct K4 as (K1 & K2 & K3 & K5 & K6 & K7 & K8 & K9).
  assert (Te : textEvent p4 = textEvent p).
  { unfold textEvent, textopts. now rewrite K5, K6. }
  destruct (closeTag_top H p4 below t) as (A1 & A2 & A3 & A4 & A5 & A6 & A7 & A8 & A9 & A10).
  { now rewrite K3. }
  { now rewrite K6. }
  { now rewrite Tn4. }
  { now rewrite Sc4. }
  { rewrite M. unfold closeTarget, openedName, caseFold. now rewrite Tn4, K6, K7. }
  eexists. split; [reflexivity|].
  cbn [events tags state sawRoot textNode buffer error options strict closedRoot script
       set_currentChar].
  rewrite A1, A2, A3, A4, A5, A6, A7, A8, A9, A10, K1, K2, Te, K6, K7, K8, K9.
  repeat split.
Qed.

(** Text inside the root element, read by the loop of [write]. *)
Lemma text_chars (H : Host) s : forall p,
  inText p -> forallb ordinary s = true ->
  exists q,
    stepChars H p s = Ok q /\ state q = Text
    /\ textNode (buffer q) = textNode (buffer p) ++ s
    /\ script (buffer q) = script (buffer p)
    /\ events q = events p /\ error q = error p /\ tags q = tags p
    /\ options q = options p /\ strict q = strict p
    /\ sawRoot q = sawRoot p /\ closedRoot q = closedRoot p.
Proof.
  induction s as [|c s IH]; intros p I F.
  - exists (set_currentChar [] p). cbn [stepChars]. pfields.
    rewrite app_nil_r. repeat split. apply I.
  - cbn [forallb] in F. apply andb_true_iff in F. destruct F as [F1 F2].
    cbn [stepChars]. destruct (prestep c p) as (l & k & n & ->).
    rewrite dispatch_inText by exact I.
    unfold ordinary in F1. rewrite F1.
    set (q := setb_textNode _ _).
    destruct (IH q) as (r & E & Sr & Tn & Sc & A1 & A2 & A3 & A4 & A5 & A6 & A7);
      [exact I | exact F2 |].
    exists r. split; [exact E|]. split; [exact Sr|].
    subst q. pfields. rewrite Tn, Sc, A1, A2, A3, A4, A5, A6, A7, <- app_assoc.
    repeat split.
Qed.

(** X25.  An end tag for the element on top of the stack, without the
    [xmlns] option and with an empty script buffer: in the [Text] state
    the loop of [write] over [</name>] returns and emits the pending text
    and one [closetag] with the name of the tag, pops the tag, stays in
    [Text] and closes the root when the stack is empty. *)
Theorem end_tag_closes_element (H : Host) (p : Parser) (below : list Tag) (t : Tag)
        (name : jsstr) :
  state p = Text ->
  sawRoot p && closedRoot p && negb (strict p) = false ->
  tags p = below ++ [t] ->
  xmlns (options p) = false ->
  script (buffer p) = [] ->
  closingName H name = true ->
  nameStart H (ch "/") = false ->
  tg_name t = openedName H name p ->
  exists q,
    writeLoop H p (u "</" ++ name ++ u ">") = Ok q
    /\ events q = events p ++ textEvent p ++ [EvCloseTag (tg_name t)]
    /\ tags q = below
    /\ state q = Text
    /\ closedRoot q = match below with [] => true | _ :: _ => closedRoot p end
    /\ error q = error p /\ textNode (buffer q) = [].
Proof.
  intros S R F X Sc N B M. rewrite writeLoop_stepChars.
  destruct (end_tag_run H p below t name S R F X Sc N B M)
    as (q & E & A1 & A2 & A3 & A4 & A5 & _ & A7 & _).
  exists q. repeat split; assumption.
Qed.

(** X26.  An element with text content, [<name>text</name>], without the
    [xmlns] option, for a name that is not that of a script element and
    text without less-than sign and ampersand: the loop of [write]
    returns and emits the pending text, [opentagstart], [opentag], one
    [text] event with the text after [_textopts] (none when it is empty)
    and [closetag] with the same name; the stack is as before, and the
    root is closed exactly when the stack is empty. *)
Theorem element_with_text (H : Host) (p : Parser) (name text : jsstr) :
  state p = Text ->
  closedRoot p = false ->
  xmlns (options p) = false ->
  script (buffer p) = [] ->
  elementName H name = true ->
  nameBody H (ch ">") = false ->
  nameStart H (ch "/") = false ->
  stateAfterOpen H (openedName H name p) p = Text ->
  forallb ordinary text = true ->
  let t := mkTag (openedName H name p) in
  exists q,
    writeLoop H p (u "<" ++ name ++ u ">" ++ text ++ u "</" ++ name ++ u ">") = Ok q
    /\ events q = events p ++ textEvent p
                    ++ [EvOpenTagStart t; EvOpenTag t]
                    ++ bufferEvent EvText (textopts text p)
                    ++ [EvCloseTag (openedName H name p)]
    /\ tags q = tags p
    /\ state q = Text
    /\ closedRoot q = match tags p with [] => true | _ :: _ => false end
    /\ sawRoot q = true /\ error q = error p /\ textNode (buffer q) = [].
Proof.
  intros S C X Sc N B B' A T. cbv zeta. rewrite writeLoop_stepChars.
  assert (R : sawRoot p && closedRoot p && negb (strict p) = false).
  { rewrite C. now rewrite andb_false_r. }
  replace (u "<" ++ name ++ u ">" ++ text ++ u "</" ++ name ++ u ">")
    with ((u "<" ++ name ++ u ">") ++ text ++ (u "</" ++ name ++ u ">"))
    by (rewrite <- !app_assoc; reflexivity).
  rewrite stepChars_app.
  destruct (start_tag_run H p name S R X N B)
    as (p1 & -> & E1 & G1 & S1 & W1 & T1 & R1 & O1 & St1 & C1 & Sc1).
  rewrite A in S1. rewrite C in C1.
  rewrite stepChars_app.
  destruct (text_chars H text p1) as (p2 & -> & S2 & T2 & Sc2 & E2 & R2 & G2 & O2 & St2 & W2 & C2);
    [repeat split; assumption | exact T |].
  rewrite T1 in T2. cbn [app] in T2.
  assert (CN : closingName H name = true).
  { destruct name as [|c rest]; [discriminate N|]. cbn [elementName closingName] in *.
    apply andb_true_iff in N. destruct N as [N N4].
    apply andb_true_iff in N. destruct N as [N N3].
    apply andb_true_iff in N. destruct N as [N1 N2].
    rewrite N2, N3. cbn [andb].
    apply forallb_forall. intros x I. rewrite forallb_forall in N4.
    specialize (N4 x I). rewrite N4, andb_true_r.
    destruct (eqc x ">") eqn:Q; [|reflexivity].
    unfold eqc in Q. apply N.eqb_eq in Q. subst x. congruence. }
  destruct (end_tag_run H p2 (tags p) (mkTag (openedName H name p)) name)
    as (q & -> & A1 & A2 & A3 & A4 & A5 & A6 & A7 & _).
  { exact S2. }
  { rewrite C2, C1. now rewrite andb_false_r. }
  { now rewrite G2, G1. }
  { now rewrite O2, O1. }
  { now rewrite Sc2, Sc1. }
  { exact CN. }
  { exact B'. }
  { unfold openedName, caseFold. cbn [tg_name mkTag]. now rewrite O2, O1, St2, St1. }
  exists q. split; [reflexivity|].
  assert (Te : textEvent p2 = bufferEvent EvText (textopts text p)).
  { unfold textEvent, bufferEvent, textopts. cbv zeta. now rewrite T2, O2, O1. }
  rewrite A1, A2, A3, A4, A5, A6, A7, E2, E1, Te, R2, R1, W2, W1, C2, C1.
  cbn [tg_name mkTag]. rewrite <- !app_assoc. cbn [app].
  repeat split.
Qed.

(** ** Doctype declarations *)

Lemma doctype_plain (H : Host) s : forall p,
  state p = DocType -> forallb plainDoctypeChar s = true ->
  exists q,
    stepChars H p s = Ok q /\ state q = DocType
    /\ doctypeText q = doctypeText p ++ s
    /\ keeps p q.
Proof.
  unfold doctypeText.
  induction s as [|c s IH]; intros p S F.
  - exists (set_currentChar [] p). cbn [stepChars]. pfields.
    rewrite app_nil_r. repeat split. exact S.
  - cbn [forallb] in F. apply andb_true_iff in F. destruct F as [F1 F2].
    unfold plainDoctypeChar in F1.
    apply andb_true_iff in F1. destruct F1 as [F1 C].
    apply andb_true_iff in F1. destruct F1 as [A B].
    apply negb_true_iff in A, B, C.
    cbn [stepChars]. destruct (prestep c p) as (l & k & n & ->).
    unfold dispatch. pfields. rewrite S. cbv zeta. rewrite A, B, C.
    set (q := setb_doctype _ _).
    destruct (IH q S F2) as (r & E & Sr & Tn & K).
    exists r. split; [exact E|]. split; [exact Sr|].
    subst q. pfields. rewrite Tn. cbn [doctype_toString doctype_append].
    rewrite <- app_assoc. repeat split; apply K.
Qed.

Lemma doctype_quoted (H : Host) q0 s : forall p,
  state p = DocTypeQuoted -> previousChar p = [q0] ->
  forallb (fun c => negb (N.eqb c q0)) s = true ->
  exists r,
    stepChars H p s = Ok r /\ state r = DocTypeQuoted /\ previousChar r = [q0]
    /\ doctypeText r = doctypeText p ++ s
    /\ keeps p r.
Proof.
  unfold doctypeText.
  induction s as [|c s IH]; intros p S P F.
  - exists (set_currentChar [] p). cbn [stepChars]. pfields.
    rewrite app_nil_r. repeat split; assumption.
  - cbn [forallb] in F. apply andb_true_iff in F. destruct F as [A F2].
    apply negb_true_iff in A.
    cbn [stepChars]. destruct (prestep c p) as (l & k & n & ->).
    unfold dispatch. pfields. rewrite S. cbv zeta. pfields. rewrite P.
    cbn [eqs]. rewrite A. cbn [andb].
    set (q := setb_doctype _ _).
    destruct (IH q S P F2) as (r & E & Sr & Pr & Tn & K).
    exists r. split; [exact E|]. split; [exact Sr|]. split; [exact Pr|].
    subst q. pfields. rewrite Tn. cbn [doctype_toString doctype_append].
    rewrite <- app_assoc. repeat split; apply K.
Qed.

(** X27.  Inside a doctype a quoted string protects its content: for a
    body [s1 q s2 q s3] where [q] is a quote, [s2] does not contain [q],
    and [s1] and [s3] contain no greater-than sign, no opening bracket
    and no quote, the loop of [write] over the body and [>] returns and
    emits the pending text and one [doctype] event with the whole body,
    a greater-than sign inside the quotes included; the buffer is then
    the value [true]. *)
Theorem doctype_quote_protects (H : Host) (p : Parser) (s1 s2 s3 : jsstr) (q : jschar) :
  state p = DocType ->
  forallb plainDoctypeChar s1 = true ->
  isQuote q = true ->
  forallb (fun c => negb (N.eqb c q)) s2 = true ->
  forallb plainDoctypeChar s3 = true ->
  let body := s1 ++ [q] ++ s2 ++ [q] ++ s3 in
  exists r,
    writeLoop H p (body ++ u ">") = Ok r
    /\ events r = events p ++ textEvent p ++ [EvDoctype (doctypeText p ++ body)]
    /\ state r = Text
    /\ doctype (buffer r) = DocTrue
    /\ error r = error p /\ tags r = tags p.
Proof.
  intros S F1 Q F2 F3. cbv zeta. rewrite writeLoop_stepChars.
  assert (W : eqc q ">" = false /\ eqc q "[" = false).
  { unfold isQuote, eqc, QUOT in *.
    apply orb_true_iff in Q. destruct Q as [Q|Q]; apply N.eqb_eq in Q; subst q;
      split; reflexivity. }
  destruct W as [W1 W2].
  change (u ">") with [ch ">"].
  rewrite <- !app_assoc. rewrite stepChars_app.
  destruct (doctype_plain H s1 p S F1) as (p1 & -> & S1 & D1 & K1).
  cbn [app stepChars].
  destruct (prestep q p1) as (l1 & k1 & n1 & ->).
  unfold dispatch at 1. pfields. rewrite S1. cbv zeta. rewrite W1, W2, Q.
  match goal with |- context [stepChars H ?x (s2 ++ _)] => set (p2 := x) end.
  assert (G2 : state p2 = DocTypeQuoted /\ previousChar p2 = [q]
               /\ doctypeText p2 = doctypeText p ++ s1 ++ [q] /\ keeps p p2).
  { subst p2. unfold doctypeText in *. pfields. cbn [doctype_toString doctype_append].
    rewrite D1, <- app_assoc. repeat split; apply K1. }
  destruct G2 as (S2 & P2 & D2 & K2). clearbody p2. clear K1 D1 S1 p1.
  rewrite stepChars_app.
  destruct (doctype_quoted H q s2 p2 S2 P2 F2) as (p3 & -> & S3 & P3 & D3 & K3).
  rewrite D2 in D3. pose proof (keeps_trans _ _ _ K2 K3) as K.
  clear K2 K3 D2 S2 P2 p2.
  cbn [app stepChars].
  destruct (prestep q p3) as (l3 & k3 & n3 & ->).
  unfold dispatch at 1. pfields. rewrite S3. cbv zeta. pfields. rewrite P3, eqs_refl.
  match goal with |- context [stepChars H ?x (s3 ++ _)] => set (p4 := x) end.
  assert (G4 : state p4 = DocType
               /\ doctypeText p4 = doctypeText p ++ s1 ++ [q] ++ s2 ++ [q] /\ keeps p p4).
  { subst p4. unfold doctypeText in *. pfields. cbn [doctype_toString doctype_append].
    rewrite D3, <- !app_assoc. repeat split; apply K. }
  destruct G4 as (S4 & D4 & K4). clearbody p4. clear K D3 S3 P3 p3.
  rewrite stepChars_app.
  destruct (doctype_plain H s3 p4 S4 F3) as (p5 & -> & S5 & D5 & K5).
  rewrite D4 in D5. pose proof (keeps_trans _ _ _ K4 K5) as K.
  clear K4 K5 D4 S4 p4.
  cbn [stepChars].
  destruct (prestep (ch ">") p5) as (l5 & k5 & n5 & ->).
  unfold dispatch. pfields. rewrite S5. cbv zeta.
  change (eqc (ch ">") ">") with true. cbv iota.
  eexists. split; [reflexivity|].
  destruct K as (K1 & K2 & K3 & K5 & K6 & K7 & K8 & K9).
  unfold doctypeText in D5.
  cbn [events state doctype buffer error tags emit set_events set_currentChar
       setb_doctype set_buffer].
  rewrite flushText_appends, flushText_error.
  rewrite (onlyOutput_tags _ _ (onlyOutput_flushText _)).
  match goal with |- context [doctype (buffer (flushText ?x))] =>
    assert (D : doctype (buffer (flushText x)) = doctype (buffer x))
      by (rewrite (onlyOutput_flushText x); reflexivity);
    rewrite D; clear D;
    assert (Te : textEvent x = textEvent p)
      by (unfold textEvent, textopts; pfields; now rewrite K5, K6)
  end.
  rewrite Te, state_flushText. pfields. rewrite D5, K1, K2, K3, <- !app_assoc.
  repeat split.
Qed.

(** ** Further properties at concrete inputs *)

Lemma double_dash_splits_comment_witness :
  exists q,
    writeLoop specHost commentStartParser
      (u " blah " ++ u "--" ++ [32%N] ++ u "bloo " ++ u "-->") = Ok q
    /\ events q = events commentStartParser
                    ++ bufferEvent EvComment
                         (textopts (comment (buffer commentStartParser) ++ u " blah ")
                            commentStartParser)
                    ++ bufferEvent EvComment
                         (textopts (u "--" ++ [32%N] ++ u "bloo ") commentStartParser)
    /\ state q = Text /\ error q = error commentStartParser.
Proof.
  apply (double_dash_splits_comment specHost commentStartParser
           (u " blah ") (u "bloo ") 32%N); reflexivity.
Defined.

Lemma self_closing_tag_opens_and_closes_witness :
  let q := closeTag specHost (openTag specHost true selfClosingParser) in
  events q = events selfClosingParser ++ textEvent selfClosingParser
               ++ [EvOpenTag (selfClosed (mkTag (u "BR"))); EvCloseTag (u "BR")]
  /\ tags q = tags selfClosingParser
  /\ state q = Text
  /\ sawRoot q = true
  /\ closedRoot q = match tags selfClosingParser with
                    | [] => true
                    | _ :: _ => closedRoot selfClosingParser
                    end
  /\ error q = error selfClosingParser.
Proof.
  apply (self_closing_tag_opens_and_closes specHost selfClosingParser (mkTag (u "BR")));
    reflexivity.
Defined.

Lemma script_keeps_other_closing_tags_witness :
  exists q,
    writeLoop specHost inScriptParser (u "if (a" ++ u "</" ++ u "b" ++ u ">") = Ok q
    /\ state q = Script
    /\ script (buffer q)
       = script (buffer inScriptParser) ++ u "if (a" ++ u "</" ++ u "b" ++ u ">"
    /\ tagName (buffer q) = []
    /\ events q = events inScriptParser /\ error q = error inScriptParser
    /\ tags q = tags inScriptParser.
Proof.
  apply (script_keeps_other_closing_tags specHost inScriptParser (u "if (a") (u "b"));
    reflexivity.
Defined.

Lemma quoted_value_read_verbatim_witness :
  exists r,
    writeLoop specHost beforeValueParser (QUOT :: u "1 < 2" ++ [QUOT]) = Ok r
    /\ events r = events beforeValueParser ++ textEvent beforeValueParser
                    ++ [EvAttribute (normalisedAttribName specHost beforeValueParser)
                          (APlain (attribValue (buffer beforeValueParser) ++ u "1 < 2"))]
    /\ tag r = Some (withAttribute (normalisedAttribName specHost beforeValueParser)
                       (attribValue (buffer beforeValueParser) ++ u "1 < 2")
                       (mkTag (u "A")))
    /\ lookup (normalisedAttribName specHost beforeValueParser)
         (tg_attributes
            (withAttribute (normalisedAttribName specHost beforeValueParser)
               (attribValue (buffer beforeValueParser) ++ u "1 < 2")
               (mkTag (u "A"))))
       = Some (APlain (attribValue (buffer beforeValueParser) ++ u "1 < 2"))
    /\ state r = AttribValueClosed
    /\ attribName (buffer r) = [] /\ attribValue (buffer r) = []
    /\ error r = error beforeValueParser.
Proof.
  apply (quoted_value_read_verbatim specHost beforeValueParser (mkTag (u "A"))
           QUOT (u "1 < 2")); reflexivity.
Defined.

Lemma quote_in_sgml_declaration_never_closes_witness :
  let p := calls specHost sgmlQuoteCalls (newParser specHost false defaultOptions) in
  exists q,
    writeLoop specHost p (u "v" ++ [QUOT] ++ u "><r/>") = Ok q
    /\ state q = SgmlDeclQuoted
    /\ sgmlDecl (buffer q) = sgmlDecl (buffer p) ++ u "v" ++ [QUOT] ++ u "><r/>"
    /\ events q = events p /\ error q = error p /\ tags q = tags p.
Proof.
  apply (quote_in_sgml_declaration_never_closes specHost false defaultOptions
           sgmlQuoteCalls (u "v" ++ [QUOT] ++ u "><r/>")).
  vm_compute. reflexivity.
Defined.

Lemma start_tag_opens_element_witness :
  let t := mkTag (openedName specHost (u "item") afterOpenTag) in
  exists q,
    writeLoop specHost afterOpenTag (u "<" ++ u "item" ++ u ">") = Ok q
    /\ events q = events afterOpenTag ++ textEvent afterOpenTag
                    ++ [EvOpenTagStart t; EvOpenTag t]
    /\ tags q = tags afterOpenTag ++ [t]
    /\ state q = stateAfterOpen specHost (openedName specHost (u "item") afterOpenTag)
                    afterOpenTag
    /\ sawRoot q = true /\ textNode (buffer q) = [] /\ error q = error afterOpenTag.
Proof.
  apply (start_tag_opens_element specHost afterOpenTag (u "item")); reflexivity.
Defined.

Lemma end_tag_closes_element_witness :
  exists q,
    writeLoop specHost afterOpenTag (u "</" ++ u "a" ++ u ">") = Ok q
    /\ events q = events afterOpenTag ++ textEvent afterOpenTag
                    ++ [EvCloseTag (tg_name (mkTag (u "A")))]
    /\ tags q = []
    /\ state q = Text
    /\ closedRoot q = true
    /\ error q = error afterOpenTag /\ textNode (buffer q) = [].
Proof.
  apply (end_tag_closes_element specHost afterOpenTag [] (mkTag (u "A")) (u "a"));
    reflexivity.
Defined.

Lemma element_with_text_witness :
  let t := mkTag (openedName specHost (u "b") afterOpenTag) in
  exists q,
    writeLoop specHost afterOpenTag
      (u "<" ++ u "b" ++ u ">" ++ u "x > y" ++ u "</" ++ u "b" ++ u ">") = Ok q
    /\ events q = events afterOpenTag ++ textEvent afterOpenTag
                    ++ [EvOpenTagStart t; EvOpenTag t]
                    ++ bufferEvent EvText (textopts (u "x > y") afterOpenTag)
                    ++ [EvCloseTag (openedName specHost (u "b") afterOpenTag)]
    /\ tags q = tags afterOpenTag
    /\ state q = Text
    /\ closedRoot q = match tags afterOpenTag with [] => true | _ :: _ => false end
    /\ sawRoot q = true /\ error q = error afterOpenTag /\ textNode (buffer q) = [].
Proof.
  apply (element_with_text specHost afterOpenTag (u "b") (u "x > y")); reflexivity.
Defined.

Lemma doctype_quote_protects_witness :
  let body := u " a " ++ [QUOT] ++ u "x>y" ++ [QUOT] ++ [] in
  exists r,
    writeLoop specHost inDoctypeParser (body ++ u ">") = Ok r
    /\ events r = events inDoctypeParser ++ textEvent inDoctypeParser
                    ++ [EvDoctype (doctypeText inDoctypeParser ++ body)]
    /\ state r = Text
    /\ doctype (buffer r) = DocTrue
    /\ error r = error inDoctypeParser /\ tags r = tags inDoctypeParser.
Proof.
  apply (doctype_quote_protects specHost inDoctypeParser (u " a ") (u "x>y") [] QUOT);
    reflexivity.
Defined.
